(** * gtrace writer: a shallow embedding of the trace-companion generator

    The generator receives a [Package] model (traces, hooks, curried
    functions) and emits Go source text through a buffered writer.  The
    embedding follows the Go source function by function: the [Writer]
    struct is a record, every method is an action of a state-and-panic
    monad over that record, and the identifiers keep their Go names. *)

From Stdlib Require Import String Ascii List NArith Arith Lia Bool.
From Stdlib Require Import Sorting.Sorted Sorting.Permutation.
From stdpp Require Import base option list strings pretty gmap.

Import ListNotations.
Local Open Scope string_scope.
Local Open Scope list_scope.
Local Open Scope nat_scope.

(** ** Host-language tables *)

(** The 25 reserved words of Go ([go/token.IsKeyword]). *)
Definition keywords : list string :=
  [ "break"; "case"; "chan"; "const"; "continue"; "default"; "defer";
    "else"; "fallthrough"; "for"; "func"; "go"; "goto"; "if"; "import";
    "interface"; "map"; "package"; "range"; "return"; "select"; "struct";
    "switch"; "type"; "var" ].

Definition token_IsKeyword (v : string) : bool := bool_decide (v ∈ keywords).

(** The names bound in [go/types.Universe]: predeclared types, constants,
    [nil] and the builtin functions. *)
Definition Universe : list string :=
  [ "bool"; "byte"; "complex64"; "complex128"; "error"; "float32";
    "float64"; "int"; "int8"; "int16"; "int32"; "int64"; "rune"; "string";
    "uint"; "uint8"; "uint16"; "uint32"; "uint64"; "uintptr"; "any";
    "comparable"; "true"; "false"; "iota"; "nil"; "append"; "cap"; "clear";
    "close"; "complex"; "copy"; "delete"; "imag"; "len"; "make"; "max";
    "min"; "new"; "panic"; "print"; "println"; "real"; "recover" ].

(** [types.Universe.Lookup(name) != nil] *)
Definition isPredeclared (name : string) : bool := bool_decide (name ∈ Universe).

(** [strconv.Itoa] on the non-negative counters the generator passes. *)
Definition strconv_Itoa (i : nat) : string := pretty i.

(** ** UTF-8, as [unicode/utf8] decodes and encodes it *)

Definition rune := N.
Definition RuneError : rune := 65533%N.

Definition byteval (a : ascii) : N := N_of_ascii a.
Definition bytechr (n : N) : ascii := ascii_of_N n.

Definition between (lo hi b : N) : bool := ((lo <=? b) && (b <=? hi))%N.

(** [utf8.DecodeRuneInString]: the first rune and its width; [(RuneError, 0)]
    on the empty string and [(RuneError, 1)] on an invalid encoding. *)
Definition utf8_DecodeRuneInString (s : string) : rune * nat :=
  match s with
  | EmptyString => (RuneError, 0)
  | String a0 r0 =>
    let b0 := byteval a0 in
    if (b0 <? 128)%N then (b0, 1)
    else if (b0 <? 194)%N then (RuneError, 1)
    else if (b0 <? 224)%N then
      match r0 with
      | String a1 _ =>
        let b1 := byteval a1 in
        if between 128 191 b1
        then (((b0 - 192) * 64 + (b1 - 128))%N, 2)
        else (RuneError, 1)
      | _ => (RuneError, 1)
      end
    else if (b0 <? 240)%N then
      match r0 with
      | String a1 (String a2 _) =>
        let b1 := byteval a1 in
        let b2 := byteval a2 in
        let lo := if (b0 =? 224)%N then 160%N else 128%N in
        let hi := if (b0 =? 237)%N then 159%N else 191%N in
        if between lo hi b1 && between 128 191 b2
        then (((b0 - 224) * 4096 + (b1 - 128) * 64 + (b2 - 128))%N, 3)
        else (RuneError, 1)
      | _ => (RuneError, 1)
      end
    else if (b0 <? 245)%N then
      match r0 with
      | String a1 (String a2 (String a3 _)) =>
        let b1 := byteval a1 in
        let b2 := byteval a2 in
        let b3 := byteval a3 in
        let lo := if (b0 =? 240)%N then 144%N else 128%N in
        let hi := if (b0 =? 244)%N then 143%N else 191%N in
        if between lo hi b1 && between 128 191 b2 && between 128 191 b3
        then (((b0 - 240) * 262144 + (b1 - 128) * 4096
               + (b2 - 128) * 64 + (b3 - 128))%N, 4)
        else (RuneError, 1)
      | _ => (RuneError, 1)
      end
    else (RuneError, 1)
  end.

(** The conversion [string(r)] of a rune: its UTF-8 encoding, with
    surrogates and out-of-range values replaced by U+FFFD. *)
Definition string_of_rune (r : rune) : string :=
  let one (n : N) := String (bytechr n) EmptyString in
  let fffd := String (bytechr 239) (String (bytechr 191) (String (bytechr 189) EmptyString)) in
  if (r <? 128)%N then one r
  else if (r <? 2048)%N then
    String (bytechr (192 + r / 64)%N) (one (128 + r mod 64)%N)
  else if between 55296 57343 r then fffd
  else if (r <? 65536)%N then
    String (bytechr (224 + r / 4096)%N)
      (String (bytechr (128 + (r / 64) mod 64)%N) (one (128 + r mod 64)%N))
  else if (r <? 1114112)%N then
    String (bytechr (240 + r / 262144)%N)
      (String (bytechr (128 + (r / 4096) mod 64)%N)
        (String (bytechr (128 + (r / 64) mod 64)%N) (one (128 + r mod 64)%N)))
  else fffd.

(** [s[n:]] *)
Fixpoint string_drop (n : nat) (s : string) : string :=
  match n, s with
  | O, _ => s
  | S n', String _ r => string_drop n' r
  | S _, EmptyString => EmptyString
  end.

(** [s[:n]] *)
Fixpoint string_take (n : nat) (s : string) : string :=
  match n, s with
  | O, _ => EmptyString
  | S n', String a r => String a (string_take n' r)
  | S _, EmptyString => EmptyString
  end.

(** The runes a [range] loop over [s] visits: an invalid byte is visited
    as [RuneError] of width 1. *)
Fixpoint runes_fuel (fuel : nat) (s : string) : list rune :=
  match fuel with
  | O => []
  | S fuel' =>
    match s with
    | EmptyString => []
    | _ =>
      let '(r, size) := utf8_DecodeRuneInString s in
      r :: runes_fuel fuel' (string_drop size s)
    end
  end.

Definition runes (s : string) : list rune := runes_fuel (String.length s) s.

(** ** What the generator takes from outside this file

    The Unicode tables of package [unicode], the file name that
    [runtime.Caller] reports for the generator's own source, and two
    helpers of the repository declared next to the model types
    ([rsplit], and the marker method [isFuncResult] of [*Func]), and the
    directory listing of the toolchain's source root. *)
Class Host := {
  unicode_IsLetter : rune -> bool;
  unicode_IsNumber : rune -> bool;
  unicode_IsDigit : rune -> bool;
  unicode_IsUpper : rune -> bool;
  unicode_ToUpper : rune -> rune;
  unicode_ToLower : rune -> rune;
  caller_file : string;
  rsplit : string -> ascii -> string * string;
  Func_isFuncResult : bool;
  (* [os.ReadDir(filepath.Join(goroot, "src"))]: the entries (name, is a
     directory) of the library source root, [None] when it cannot be read *)
  ReadDir_src : string -> option (list (string * bool))
}.

(** ** The slice of [go/types] the generator inspects *)

Record types_Package := {
  Path : string;
  PkgName : string;
  ScopeNames : list string  (* the names [Scope().Lookup] finds *)
}.

(** [Named] carries its object's package (nil for universe types such as
    [error]), its name and its underlying type; a struct lists its fields
    (name and type) in declaration order; [Opaque] stands for every other
    type and carries its printed form. *)
#[warnings="-register-all"] Inductive types_Type :=
| Basic (name : string)
| Pointer (elem : types_Type)
| Named (obj_pkg : option types_Package) (obj_name : string) (underlying : types_Type)
| Struct (fields : list (string * types_Type))
| Opaque (str : string).

(** [types.TypeString(t, qf)]; [qf = None] is the nil qualifier, which
    prints the full package path. *)
Fixpoint types_TypeString (qf : option (types_Package -> string)) (t : types_Type) : string :=
  match t with
  | Basic name => name
  | Pointer elem => "*" +:+ types_TypeString qf elem
  | Named None name _ => name
  | Named (Some p) name _ =>
    let q := match qf with Some f => f p | None => Path p end in
    if String.eqb q EmptyString then name else q +:+ "." +:+ name
  | Struct fields =>
    "struct{" +:+
    (fix go (fs : list (string * types_Type)) : string :=
       match fs with
       | [] => EmptyString
       | (n, ty) :: rest =>
         n +:+ " " +:+ types_TypeString qf ty +:+
         match rest with [] => EmptyString | _ => "; " +:+ go rest end
       end) fields +:+ "}"
  | Opaque str => str
  end.

(** ** The model handed to the generator *)

Record Param := { Name : string; Type_ : types_Type }.

Inductive Func :=
| mkFunc (Params : list Param) (Result : list FuncResult)
with FuncResult :=
| ResFunc (f : Func)
| ResTrace (t : Trace)
with Trace :=
| mkTrace (TName : string) (Nested : bool) (Hooks : list Hook)
with Hook :=
| mkHook (HName : string) (HFunc : Func).

Definition Params (fn : Func) : list Param := let 'mkFunc ps _ := fn in ps.
Definition Result (fn : Func) : list FuncResult := let 'mkFunc _ rs := fn in rs.
Definition TName (t : Trace) : string := let 'mkTrace n _ _ := t in n.
Definition Nested (t : Trace) : bool := let 'mkTrace _ b _ := t in b.
Definition Hooks (t : Trace) : list Hook := let 'mkTrace _ _ hs := t in hs.
Definition HName (h : Hook) : string := let 'mkHook n _ := h in n.
Definition HFunc (h : Hook) : Func := let 'mkHook _ f := h in f.

(** Modelled from the spec: [Func.HasResult], declared with the model
    types; the result slot holds 0 or 1 result. *)
Definition HasResult (fn : Func) : bool :=
  match Result fn with [] => false | _ => true end.

Record Package := {
  Package_ : types_Package;
  BuildConstraints : list string;
  Traces : list Trace
}.

(** ** The writer and its monad *)

Record decl := { where_ : string }.

(** [scope.vars]; the nil map and the empty map read alike. *)
Record scope := { vars : gmap string decl }.

Record build_Context := { GOROOT : string }.

(** An [error] value, by its message. *)
Definition error := string.

(** [Output] holds the bytes the [io.Writer] has received so far; [bw] the
    bytes held back by the [bufio.Writer] and [bw_err] the error it keeps
    once a write to [Output] has failed; [scopes] is the [container/list]
    of scopes with its back at the head.  Before [init] runs, [bw],
    [bw_err] and [scopes] stand for nil pointers that nothing reads. *)
Record Writer := {
  Output : string;
  Context : build_Context;
  once : bool;
  bw : string;
  bw_err : option error;
  atEOL : bool;
  depth : nat;
  scopes : list scope;
  pkg : types_Package;
  std : option (gmap string bool)
}.

Definition set_Output (x : string) (w : Writer) : Writer :=
  Build_Writer x (Context w) (once w) (bw w) (bw_err w) (atEOL w) (depth w) (scopes w) (pkg w) (std w).
Definition set_once (x : bool) (w : Writer) : Writer :=
  Build_Writer (Output w) (Context w) x (bw w) (bw_err w) (atEOL w) (depth w) (scopes w) (pkg w) (std w).
Definition set_bw (x : string) (w : Writer) : Writer :=
  Build_Writer (Output w) (Context w) (once w) x (bw_err w) (atEOL w) (depth w) (scopes w) (pkg w) (std w).
Definition set_bw_err (x : option error) (w : Writer) : Writer :=
  Build_Writer (Output w) (Context w) (once w) (bw w) x (atEOL w) (depth w) (scopes w) (pkg w) (std w).
Definition set_atEOL (x : bool) (w : Writer) : Writer :=
  Build_Writer (Output w) (Context w) (once w) (bw w) (bw_err w) x (depth w) (scopes w) (pkg w) (std w).
Definition set_depth (x : nat) (w : Writer) : Writer :=
  Build_Writer (Output w) (Context w) (once w) (bw w) (bw_err w) (atEOL w) x (scopes w) (pkg w) (std w).
Definition set_scopes (x : list scope) (w : Writer) : Writer :=
  Build_Writer (Output w) (Context w) (once w) (bw w) (bw_err w) (atEOL w) (depth w) x (pkg w) (std w).
Definition set_pkg (x : types_Package) (w : Writer) : Writer :=
  Build_Writer (Output w) (Context w) (once w) (bw w) (bw_err w) (atEOL w) (depth w) (scopes w) x (std w).
Definition set_std (x : option (gmap string bool)) (w : Writer) : Writer :=
  Build_Writer (Output w) (Context w) (once w) (bw w) (bw_err w) (atEOL w) (depth w) (scopes w) (pkg w) x.

(** What a [panic] carries. *)
Inductive panic_value :=
| CantDeclare (name where' : string)  (* gtrace: can't declare identifier: %q: already defined at %q *)
| CantCapture (v : string)            (* can't capture variable %q *)
| CantListGOROOT                      (* can't list GOROOT's src: %v *)
| InvalidString                       (* invalid string *)
| RuntimeError (what : string).       (* nil dereference, index out of range *)

(** A call returns, panics, or (the search loop of [declare] only) has not
    returned within the steps granted to it. *)
Inductive res (A : Type) :=
| Ok (a : A)
| Panic (p : panic_value)
| Spin.
Arguments Ok {A} a.
Arguments Panic {A} p.
Arguments Spin {A}.

Definition M (A : Type) : Type := Writer -> res A * Writer.

Definition ret {A} (a : A) : M A := fun w => (Ok a, w).

Definition bind {A B} (m : M A) (k : A -> M B) : M B :=
  fun w =>
    match m w with
    | (Ok a, w') => k a w'
    | (Panic p, w') => (Panic p, w')
    | (Spin, w') => (Spin, w')
    end.

Definition panic {A} (p : panic_value) : M A := fun w => (Panic p, w).
Definition get : M Writer := fun w => (Ok w, w).
Definition modify (f : Writer -> Writer) : M unit := fun w => (Ok tt, f w).
Definition lift {A} (r : res A) : M A := fun w => (r, w).

Declare Scope gen_scope.
Delimit Scope gen_scope with gen.
Notation "x <- c1 ;; c2" := (bind c1 (fun x => c2))
  (at level 100, c1 at next level, right associativity) : gen_scope.
Notation "c1 ;; c2" := (bind c1 (fun _ => c2))
  (at level 100, right associativity) : gen_scope.
Local Open Scope gen_scope.

Section Loops.

Context {A B : Type}.

(** [for _, x := range l { f(x) }] *)
Fixpoint forM_ (f : A -> M unit) (l : list A) : M unit :=
  match l with
  | [] => ret tt
  | x :: l' => f x ;; forM_ f l'
  end.

(** [for i, x := range l { f(i, x) }], counting from [i]. *)
Fixpoint forMi_ (f : nat -> A -> M unit) (i : nat) (l : list A) : M unit :=
  match l with
  | [] => ret tt
  | x :: l' => f i x ;; forMi_ f (S i) l'
  end.

(** A [range] loop that appends one value per element to a slice. *)
Fixpoint mapMi (f : nat -> A -> M B) (i : nat) (l : list A) : M (list B) :=
  match l with
  | [] => ret []
  | x :: l' => y <- f i x ;; ys <- mapMi f (S i) l' ;; ret (y :: ys)
  end.

End Loops.

(** ** [bufio.Writer] over [Output]

    [Output] is an [io.Writer].  What the buffered writer asks of it is
    gathered in [Sink]: whether it also implements [io.StringWriter], and
    how it answers a write, as a function of the bytes it has received
    and the bytes it is offered: the number of bytes it takes and its
    error.  [WriteString] of a string writer answers as [Write] does.  The
    two laws are the contract of [io.Writer]: [0 <= n <= len(p)], and a
    non-nil error whenever [n < len(p)].  [Output] is any writer but a
    [*bufio.Writer] with a buffer of [defaultBufSize] bytes or more, which
    [bufio.NewWriter] would hand back instead of wrapping it. *)
Class Sink := {
  Output_StringWriter : bool;
  Output_Write : string -> string -> nat * option error;
  Output_Write_n : forall o p, fst (Output_Write o p) <= String.length p;
  Output_Write_short : forall o p,
    fst (Output_Write o p) < String.length p -> snd (Output_Write o p) <> None
}.

(** [io.ErrShortWrite] *)
Definition ErrShortWrite : error := "short write".

Definition defaultBufSize : nat := 4096.

Definition bufio_Available (w : Writer) : nat := defaultBufSize - String.length (bw w).

Section Bufio.

Context {sink : Sink}.

(** [b.wr.Write(p)] and [sw.WriteString(p)]: [Output] takes the first [n]
    bytes of [p]. *)
Definition Output_put (p : string) (w : Writer) : nat * option error * Writer :=
  let '(n, err) := Output_Write (Output w) p in
  (n, err, set_Output (Output w +:+ string_take n p) w).

(** [Flush]: nothing is tried once an error is kept; what [Output] did
    not take stays in the buffer, and the error is kept. *)
Definition flush (w : Writer) : option error * Writer :=
  match bw_err w with
  | Some e => (Some e, w)
  | None =>
    if String.length (bw w) =? 0 then (None, w)
    else
      let '(n, err, w1) := Output_put (bw w) w in
      let err := match err with
                 | None => if n <? String.length (bw w) then Some ErrShortWrite else None
                 | Some e => Some e
                 end in
      match err with
      | Some e => (Some e, set_bw_err (Some e) (set_bw (string_drop n (bw w)) w1))
      | None => (None, set_bw EmptyString w1)
      end
  end.

Definition bufio_Flush : M (option error) :=
  fun w => let '(e, w') := flush w in (Ok e, w').

(** [WriteByte] and [WriteString] return an error too, which the
    generator drops at every call. *)
Definition bufio_WriteByte (c : ascii) : M unit :=
  fun w =>
    match bw_err w with
    | Some _ => (Ok tt, w)
    | None =>
      if bufio_Available w <=? 0 then
        match flush w with
        | (Some _, w1) => (Ok tt, w1)
        | (None, w1) => (Ok tt, set_bw (bw w1 +:+ String c EmptyString) w1)
        end
      else (Ok tt, set_bw (bw w +:+ String c EmptyString) w)
    end.

(** The loop of [WriteString]: while the string does not fit and no error
    is kept, an empty buffer over a string writer hands the whole string
    to [Output]; otherwise the buffer is filled and flushed. *)
Fixpoint bufio_WriteString_loop (fuel : nat) (s : string) : M unit :=
  fun w =>
    if (bufio_Available w <? String.length s)
       && match bw_err w with None => true | Some _ => false end
    then
      match fuel with
      | O => (Spin, w)
      | S fuel' =>
        if (String.length (bw w) =? 0) && Output_StringWriter then
          let '(n, err, w1) := Output_put s w in
          bufio_WriteString_loop fuel' (string_drop n s) (set_bw_err err w1)
        else
          let n := bufio_Available w in
          let w1 := snd (flush (set_bw (bw w +:+ string_take n s) w)) in
          bufio_WriteString_loop fuel' (string_drop n s) w1
      end
    else
      match bw_err w with
      | Some _ => (Ok tt, w)
      | None => (Ok tt, set_bw (bw w +:+ s) w)
      end.

Definition bufio_WriteString (s : string) : M unit :=
  bufio_WriteString_loop (S (String.length s)) s.

End Bufio.

(** An [Output] that is no string writer and takes every write. *)
Definition plain_sink : Sink := {|
  Output_StringWriter := false;
  Output_Write := fun _ p => (String.length p, None);
  Output_Write_n := fun _ p => le_n (String.length p);
  Output_Write_short := fun _ p H => False_ind _ (Nat.lt_irrefl _ H)
|}.

(** ** Paths *)

(** [strings.Split(s, sep)] for a one-byte separator: never empty. *)
Fixpoint strings_Split (s : string) (sep : ascii) : list string :=
  match s with
  | EmptyString => [EmptyString]
  | String a r =>
    if Ascii.eqb a sep then EmptyString :: strings_Split r sep
    else match strings_Split r sep with
         | x :: xs => String a x :: xs
         | [] => [String a EmptyString]
         end
  end.

(** [filepath.Base] with separator [/]: the last element of the path after
    trailing separators are dropped; ["."] for the empty path and ["/"]
    for a path of separators only. *)
Definition filepath_Base (path : string) : string :=
  if String.eqb path EmptyString then "."
  else
    match filter (fun x => negb (String.eqb x EmptyString)) (strings_Split path "/"%char) with
    | [] => "/"
    | x :: xs => List.last xs x
    end.

Section Generator.

Context {host : Host} {sink : Sink}.

(** ** Names *)

Definition exported (s : string) : res string :=
  let '(r, size) := utf8_DecodeRuneInString s in
  if N.eqb r RuneError then Panic InvalidString
  else Ok (string_of_rune (unicode_ToUpper r) +:+ string_drop size s).

Definition unexported (s : string) : res string :=
  let '(r, size) := utf8_DecodeRuneInString s in
  if N.eqb r RuneError then Panic InvalidString
  else Ok (string_of_rune (unicode_ToLower r) +:+ string_drop size s).

Definition firstChar (s : string) : res string :=
  let '(r, _) := utf8_DecodeRuneInString s in
  if N.eqb r RuneError then Panic InvalidString
  else Ok (string_of_rune r).

(** [token.IsIdentifier] *)
Definition token_IsIdentifier (name : string) : bool :=
  negb (String.eqb name EmptyString) && negb (token_IsKeyword name) &&
  forallb (fun '(i, c) =>
             unicode_IsLetter c || N.eqb c 95 || (negb (Nat.eqb i 0) && unicode_IsDigit c))
          (combine (seq 0 (length (runes name))) (runes name)).

(** The first loop of [ident]: drop the leading numbers. *)
Fixpoint ident_strip (fuel : nat) (s : string) : res string :=
  match fuel with
  | O => Ok s
  | S fuel' =>
    match s with
    | EmptyString => Ok s
    | _ =>
      let '(r, size) := utf8_DecodeRuneInString s in
      if N.eqb r RuneError then Panic InvalidString
      else if negb (unicode_IsNumber r) then Ok s
      else ident_strip fuel' (string_drop size s)
    end
  end.

(** [strings.Map] with a mapping that keeps or drops each rune. *)
Definition strings_Map_keep (keep : rune -> bool) (s : string) : string :=
  fold_right (fun r acc => if keep r then string_of_rune r +:+ acc else acc)
             EmptyString (runes s).

Definition ident (s : string) : res string :=
  match ident_strip (String.length s) s with
  | Ok s1 =>
    let s2 := strings_Map_keep
                (fun r => N.eqb r 95 || unicode_IsLetter r || unicode_IsNumber r) s1 in
    Ok (if token_IsIdentifier s2 then s2 else "_" +:+ s2)
  | Panic p => Panic p
  | Spin => Spin
  end.

Fixpoint tempName_from (i : nat) (names : list string) : res string :=
  match names with
  | [] => Ok EmptyString
  | name :: rest =>
    match (if Nat.eqb i 0 then unexported name else exported name) with
    | Ok n =>
      match tempName_from (S i) rest with
      | Ok s => Ok (n +:+ s)
      | r => r
      end
    | r => r
    end
  end.

Definition tempName (names : list string) : res string := tempName_from 0 names.

(** ** The emitter *)

Definition code (args : list string) : M unit :=
  w <- get ;;
  (if atEOL w
   then forM_ (fun _ => bufio_WriteByte "009"%char) (seq 0 (depth w)) ;;
        modify (set_atEOL false)
   else ret tt) ;;
  forM_ bufio_WriteString args.

Definition line (args : list string) : M unit :=
  code args ;;
  bufio_WriteByte "010"%char ;;
  modify (set_atEOL true).

(** ** The scope allocator *)

(** [runtime.Caller(2)] seen from [scope.set]: the line, in the generator's
    source, of the call to [declare], [mustDeclare] or [capture]. *)
Definition site := nat.

Definition callsite (l : site) : string := caller_file +:+ ":" +:+ pretty l.

Definition scope_set (v : string) (l : site) (s : scope) : bool * scope :=
  match vars s !! v with
  | Some _ => (false, s)
  | None => (true, {| vars := <[v := {| where_ := callsite l |}]> (vars s) |})
  end.

Definition scope_where (v : string) (s : scope) : string :=
  match vars s !! v with
  | Some d => where_ d
  | None => EmptyString
  end.

(** The scope at the back of [w.scope]. *)
Definition Back : M scope :=
  w <- get ;;
  match scopes w with
  | s :: _ => ret s
  | [] => panic (RuntimeError "nil pointer dereference")
  end.

(** [s.set(v)] on the scope at the back of the list, which [s] points to. *)
Definition set (v : string) (l : site) : M bool :=
  fun w =>
    match scopes w with
    | s :: rest =>
      let '(ok, s') := scope_set v l s in
      (Ok ok, set_scopes (s' :: rest) w)
    | [] => (Panic (RuntimeError "nil pointer dereference"), w)
    end.

Definition mustDeclare (name : string) (l : site) : M unit :=
  Back ;;
  ok <- set name l ;;
  if negb ok then
    s <- Back ;;
    panic (CantDeclare name (scope_where name s))
  else ret tt.

Definition isGlobalScope : M bool :=
  w <- get ;;
  match scopes w with
  | [] => panic (RuntimeError "nil pointer dereference")
  | [_] => ret true
  | _ => ret false
  end.

(** [w.pkg.Scope().Lookup(v) != nil] *)
Definition pkg_Lookup (p : types_Package) (v : string) : bool :=
  bool_decide (v ∈ ScopeNames p).

(** The search loop of [declare], from counter [i], for at most [fuel]
    rounds. *)
Fixpoint declare_loop (fuel : nat) (i : nat) (name : string) (l : site) : M string :=
  match fuel with
  | O => lift Spin
  | S fuel' =>
    let v := if 0 <? i then name +:+ strconv_Itoa i else name in
    if token_IsKeyword v then declare_loop fuel' (S i) name l
    else
      g <- isGlobalScope ;;
      w <- get ;;
      if g && pkg_Lookup (pkg w) v then declare_loop fuel' (S i) name l
      else
        ok <- set v l ;;
        if ok then ret v else declare_loop fuel' (S i) name l
  end.

(** Rounds after which the search has met a free candidate: one more than
    the names that can block one. *)
Definition declare_rounds (w : Writer) : nat :=
  S (length keywords + length (ScopeNames (pkg w))
     + match scopes w with s :: _ => size (vars s) | [] => 0 end).

Definition declare (name : string) (l : site) : M string :=
  name <- (if isPredeclared name then lift (firstChar name) else ret name) ;;
  Back ;;
  w <- get ;;
  declare_loop (declare_rounds w) 0 name l.

Definition capture (vs : list string) (l : site) : M unit :=
  Back ;;
  forM_ (fun v =>
    ok <- set v l ;;
    if negb ok then panic (CantCapture v) else ret tt) vs.

Definition newScope (fn : M unit) : M unit :=
  modify (fun w => set_scopes ({| vars := ∅ |} :: scopes w) w) ;;
  fn ;;
  modify (fun w => set_scopes (tl (scopes w)) w).

Definition block (fn : M unit) : M unit :=
  modify (fun w => set_depth (S (depth w)) w) ;;
  newScope fn ;;
  modify (fun w => set_depth (pred (depth w)) w).

(** ** The import resolver *)

Definition ensureStdLibMapping : M unit :=
  w <- get ;;
  match std w with
  | Some _ => ret tt
  | None =>
    modify (set_std (Some ∅)) ;;
    match ReadDir_src (GOROOT (Context w)) with
    | None => panic CantListGOROOT
    | Some files =>
      forM_ (fun '(fname, isDir) =>
        if negb isDir then ret tt
        else
          let name := filepath_Base fname in
          if String.eqb name "cmd" || String.eqb name "internal" then ret tt
          else modify (fun w => set_std (Some (<[name := true]> (default ∅ (std w)))) w))
        files
    end
  end.

Definition isStdLib (pkg : string) : M bool :=
  ensureStdLibMapping ;;
  w <- get ;;
  let s := hd EmptyString (strings_Split pkg "/"%char) in
  ret (default false (default ∅ (std w) !! s)).

Record dep := { pkgPath : string; pkgName : string; typName : string }.

(** The methods below only read [w.pkg]; they take it as [wpkg]. *)
Fixpoint typeImports (wpkg : types_Package) (dst : list dep) (t : types_Type) : list dep :=
  match t with
  | Pointer elem => typeImports wpkg dst elem
  | Named (Some p) name _ =>
    if negb (String.eqb (Path p) (Path wpkg))
    then dst ++ [{| pkgPath := Path p; pkgName := PkgName p; typName := name |}]
    else dst
  | _ => dst
  end.

(** [Exported] of a struct field: its name starts with an upper-case letter. *)
Definition Exported (name : string) : bool :=
  unicode_IsUpper (fst (utf8_DecodeRuneInString name)).

(** The named type when [t] is one, and its struct when it has one. *)
Definition unwrapStruct (t : types_Type)
  : option types_Type * option (list (string * types_Type)) :=
  match t with
  | Named _ _ u => (Some t, match u with Struct fs => Some fs | _ => None end)
  | _ => (None, None)
  end.

Fixpoint funcImports (wpkg : types_Package) (dst : list dep) (fn : Func) : list dep :=
  match fn with
  | mkFunc params results =>
    let dst :=
      fold_left (fun dst p =>
        let dst := typeImports wpkg dst (Type_ p) in
        match snd (unwrapStruct (Type_ p)) with
        | Some fs =>
          fold_left (fun dst '(fname, ftype) =>
            if Exported fname then typeImports wpkg dst ftype else dst) fs dst
        | None => dst
        end) params dst in
    (fix results_loop (rs : list FuncResult) (dst : list dep) : list dep :=
       match rs with
       | [] => dst
       | ResFunc f :: rs' => results_loop rs' (funcImports wpkg dst f)
       | ResTrace _ :: rs' => results_loop rs' dst
       end) results dst
  end.

Definition traceImports (wpkg : types_Package) (dst : list dep) (t : Trace) : list dep :=
  fold_left (fun dst h => funcImports wpkg dst (HFunc h)) (Hooks t) dst.

(** The first loop of [importDeps]: a dependency whose path was seen is
    overwritten by the last one and the slice shortened by one. *)
Fixpoint dedup_loop (fuel : nat) (seen : gmap string bool) (i : nat) (deps : list dep)
  : list dep :=
  match fuel with
  | O => deps
  | S fuel' =>
    match deps !! i with
    | None => deps
    | Some d =>
      if default false (seen !! pkgPath d) then
        let n := length deps in
        match deps !! (n - 1) with
        | Some dl => dedup_loop fuel' seen i (take (n - 1) (<[i := dl]> deps))
        | None => deps
        end
      else dedup_loop fuel' (<[pkgPath d := true]> seen) (S i) deps
    end
  end.

(** [sort.Slice] by insertion: [less] is the closure passed to it, and is
    called only when there are two elements to compare. *)
Section Sort.

Context {A : Type} (less : A -> A -> M bool).

Fixpoint sort_insert (x : A) (l : list A) : M (list A) :=
  match l with
  | [] => ret [x]
  | y :: l' =>
    b <- less y x ;;
    if b then (r <- sort_insert x l' ;; ret (y :: r))
    else ret (x :: y :: l')
  end.

Fixpoint sort_Slice (l : list A) : M (list A) :=
  match l with
  | [] => ret []
  | x :: l' => r <- sort_Slice l' ;; sort_insert x r
  end.

End Sort.

(** One byte of text: the double quote. *)
Definition dquote : string := String (ascii_of_nat 34) EmptyString.
Definition tab : string := String (ascii_of_nat 9) EmptyString.

Definition importDeps_less (d0 d1 : dep) : M bool :=
  std0 <- isStdLib (pkgPath d0) ;;
  std1 <- isStdLib (pkgPath d1) ;;
  if negb (Bool.eqb std0 std1) then ret std0
  else ret (String.ltb (pkgPath d0) (pkgPath d1)).

(** The last loop of [importDeps], with the loop variable [lastStd]. *)
Fixpoint importDeps_lines (lastStd : bool) (deps : list dep) : M unit :=
  match deps with
  | [] => ret tt
  | d :: deps' =>
    isStd <- isStdLib (pkgPath d) ;;
    lastStd' <- (if isStd then ret true
                 else if lastStd then (line [] ;; ret false)
                 else ret lastStd) ;;
    line [tab; dquote; pkgPath d; dquote] ;;
    importDeps_lines lastStd' deps'
  end.

Definition importDeps (deps : list dep) : M unit :=
  let deps := dedup_loop (length deps) ∅ 0 deps in
  if Nat.eqb (length deps) 0 then ret tt
  else
    deps <- sort_Slice importDeps_less deps ;;
    line ["import ("] ;;
    importDeps_lines false deps ;;
    line [")"] ;;
    line [].

(** ** The code synthesizer *)

(** [l[i]] *)
Definition index (l : list string) (i : nat) : M string :=
  match l !! i with
  | Some x => ret x
  | None => panic (RuntimeError "index out of range")
  end.

Definition typeString (t : types_Type) : M string :=
  w <- get ;;
  ret (types_TypeString
         (Some (fun p => if String.eqb (Path p) (Path (pkg w)) then EmptyString
                         else PkgName p)) t).

Definition call (args : list string) : M unit :=
  code ["("] ;;
  forMi_ (fun i name =>
    (if 0 <? i then code [", "] else ret tt) ;;
    code [name]) 0 args ;;
  line [")"].

Definition typeBasename (t : types_Type) : string :=
  let '(lo, name) := rsplit (types_TypeString None t) "."%char in
  if String.eqb name EmptyString then lo else name.

Definition nameParam (p : Param) : res string :=
  if String.eqb (Name p) EmptyString then
    match ident (typeBasename (Type_ p)) with
    | Ok s1 =>
      match firstChar s1 with
      | Ok s2 => unexported s2
      | r => r
      end
    | r => r
    end
  else unexported (Name p).

Definition funcParam (p : Param) : M string :=
  n <- lift (nameParam p) ;;
  name <- declare n 760 ;;
  code [name; " "] ;;
  ts <- typeString (Type_ p) ;;
  code [ts] ;;
  ret name.

Definition funcParams (params : list Param) : M (list string) :=
  code ["("] ;;
  vars <- mapMi (fun i p =>
    (if 0 <? i then code [", "] else ret tt) ;;
    funcParam p) 0 params ;;
  code [")"] ;;
  ret vars.

Definition funcParamSign (p : Param) : M unit :=
  name <- lift (nameParam p) ;;
  let name := if Nat.eqb (String.length name) 1 || isPredeclared name
              then "_" else name in
  code [name; " "] ;;
  ts <- typeString (Type_ p) ;;
  code [ts].

Definition flags := N.
Definition flags_has (f x : flags) : bool := negb (N.eqb (N.land f x) 0).
Definition zeroFlags : flags := 0%N.
Definition docs : flags := 1%N.

Fixpoint haveNames (params : list Param) : res bool :=
  match params with
  | [] => Ok false
  | p :: rest =>
    match nameParam p with
    | Ok name =>
      if (1 <? String.length name) && negb (isPredeclared name) then Ok true
      else haveNames rest
    | Panic e => Panic e
    | Spin => Spin
    end
  end.

Fixpoint funcSignatureFlags (fn : Func) (fl : flags) : M unit :=
  match fn with
  | mkFunc params results =>
    hn <- lift (haveNames params) ;;
    code ["func("] ;;
    forMi_ (fun i p =>
      (if 0 <? i then code [", "] else ret tt) ;;
      if flags_has fl docs && hn then funcParamSign p
      else (ts <- typeString (Type_ p) ;; code [ts])) 0 params ;;
    code [")"] ;;
    if HasResult fn then
      (if Func_isFuncResult then code [" "] else ret tt) ;;
      (fix results_loop (rs : list FuncResult) : M unit :=
         match rs with
         | [] => ret tt
         | ResFunc x :: rs' => funcSignatureFlags x fl ;; results_loop rs'
         | ResTrace x :: rs' => code [TName x; " "] ;; results_loop rs'
         end) results
    else ret tt
  end.

Definition funcResultsFlags (fn : Func) (fl : flags) : M unit :=
  forM_ (fun r =>
    match r with
    | ResFunc x => funcSignatureFlags x fl
    | ResTrace x => code [TName x; " "]
    end) (Result fn).

Definition funcResults (fn : Func) : M unit := funcResultsFlags fn 0%N.

Definition funcSignature (fn : Func) : M unit := funcSignatureFlags fn 0%N.

Fixpoint zeroReturn (fn : Func) : M unit :=
  match fn with
  | mkFunc _ results =>
    match results with
    | [] => line ["return"]
    | ResFunc x :: _ =>
      code ["return "] ;;
      funcSignature x ;;
      line [" {"] ;;
      block (zeroReturn x) ;;
      line ["}"]
    | ResTrace x :: _ =>
      code ["return "] ;;
      line [TName x; "{}"]
    end
  end.

Definition isZero (trace : Trace) : M unit :=
  newScope (
    t <- declare "t" 295 ;;
    line ["// isZero checks whether "; t; " is empty"] ;;
    line ["func ("; t; " "; TName trace; ") isZero() bool {"] ;;
    block (
      forM_ (fun hook =>
        line ["if "; t; "."; HName hook; " != nil {"] ;;
        block (line ["return false"]) ;;
        line ["}"]) (Hooks trace) ;;
      line ["return true"]) ;;
    line ["}"]).

Fixpoint composeHookCall (fn : Func) (h1 h2 : string) : M unit :=
  match fn with
  | mkFunc params results =>
    newScope (
      capture [h1; h2] 360 ;;
      block (
        capture [h1; h2] 362 ;;
        code ["func"] ;;
        args <- funcParams params ;;
        (if HasResult fn then code [" "] else ret tt) ;;
        funcResults fn ;;
        line [" {"] ;;
        line ["if options.panicCallback != nil {"] ;;
        block (
          line ["defer func() {"] ;;
          block (
            line ["if e := recover(); e != nil {"] ;;
            block (line ["options.panicCallback(e)"]) ;;
            line ["}"]) ;;
          line ["}()"]) ;;
        line ["}"] ;;
        rr <-
          (if HasResult fn then
             r1 <- declare "r" 389 ;;
             r2 <- declare "r" 390 ;;
             code ["var " +:+ r1 +:+ ", " +:+ r2 +:+ " "] ;;
             funcResults fn ;;
             bufio_WriteByte "010"%char ;;
             modify (set_atEOL true) ;;
             ret (r1, r2, [r1; r2])
           else ret (EmptyString, EmptyString, [])) ;;
        let '(r1, r2, rs) := rr in
        forMi_ (fun i h =>
          line ["if " +:+ h +:+ " != nil {"] ;;
          block (
            (if HasResult fn then (r <- index rs i ;; code [r; " = "]) else ret tt) ;;
            code [h] ;;
            call args) ;;
          line ["}"]) 0 [h1; h2] ;;
        match results with
        | [] => ret tt
        | ResFunc x :: _ => code ["return "] ;; composeHookCall x r1 r2
        | ResTrace _ :: _ => code ["return "] ;; line [r1; ".Compose("; r2; ")"]
        end) ;;
      line ["}"])
  end.

Definition composeHook (hook : Hook) (t1 t2 dst : string) : M unit :=
  line ["{"] ;;
  block (
    h1 <- declare "h1" 348 ;;
    h2 <- declare "h2" 349 ;;
    line [h1; " := "; t1; "."; HName hook] ;;
    line [h2; " := "; t2; "."; HName hook] ;;
    code [dst; " = "] ;;
    composeHookCall (HFunc hook) h1 h2) ;;
  line ["}"].

Definition compose (trace : Trace) : M unit :=
  newScope (
    t <- declare "t" 314 ;;
    x <- declare "x" 315 ;;
    r <- declare "ret" 316 ;;
    line ["// Compose returns a new "; TName trace;
          " which has functional fields composed both from "; t; " and "; x; "."] ;;
    code ["func ("; t; " *"; TName trace; ") Compose("; x; " *"; TName trace;
          ", opts ..." +:+ TName trace +:+ "ComposeOption) "] ;;
    line ["*"; TName trace; " {"] ;;
    block (
      line ["var "; r; " "; TName trace; EmptyString] ;;
      (if 0 <? length (Hooks trace) then
         u <- lift (unexported (TName trace)) ;;
         line ["options := "; u; "ComposeOptions{}"] ;;
         line ["for _, opt := range opts {"] ;;
         block (
           line ["if opt != nil {"] ;;
           block (line ["opt(&options)"]) ;;
           line ["}"]) ;;
         line ["}"]
       else ret tt) ;;
      forM_ (fun hook => composeHook hook t x (r +:+ "." +:+ HName hook)) (Hooks trace) ;;
      line ["return &"; r]) ;;
    line ["}"]).

Definition options (trace : Trace) : M unit :=
  newScope (
    u <- lift (unexported (TName trace)) ;;
    line ["// " +:+ u +:+ "ComposeOptions is a holder of options"] ;;
    u <- lift (unexported (TName trace)) ;;
    line ["type " +:+ u +:+ "ComposeOptions struct {"] ;;
    block (line ["panicCallback func(e interface{})"]) ;;
    line ["}"] ;;
    bufio_WriteByte "010"%char) ;;
  newScope (
    line ["// " +:+ TName trace +:+ "Option specified " +:+ TName trace +:+ " compose option"] ;;
    u <- lift (unexported (TName trace)) ;;
    line ["type " +:+ TName trace +:+ "ComposeOption func(o *" +:+ u +:+ "ComposeOptions)"] ;;
    bufio_WriteByte "010"%char) ;;
  newScope (
    line ["// With" +:+ TName trace +:+ "PanicCallback specified behavior on panic"] ;;
    line ["func With" +:+ TName trace +:+ "PanicCallback(cb func(e interface{})) "
          +:+ TName trace +:+ "ComposeOption {"] ;;
    block (
      u <- lift (unexported (TName trace)) ;;
      line ["return func(o *" +:+ u +:+ "ComposeOptions) {"] ;;
      block (line ["o.panicCallback = cb"]) ;;
      line ["}"]) ;;
    line ["}"] ;;
    bufio_WriteByte "010"%char).

Fixpoint hookFuncCall (fn : Func) (name : string) (args : list string) : M unit :=
  match fn with
  | mkFunc _ results =>
    res <- (if HasResult fn then
              res <- declare "res" 492 ;;
              code [res; " := "] ;;
              ret res
            else ret EmptyString) ;;
    code [name] ;;
    call args ;;
    match results with
    | [] => ret tt
    | ResFunc r :: _ =>
      line ["if "; res; " == nil {"] ;;
      block (zeroReturn fn) ;;
      line ["}"] ;;
      if HasResult r then
        newScope (
          code ["return func"] ;;
          args <- funcParams (Params r) ;;
          code [" "] ;;
          funcResults r ;;
          line [" {"] ;;
          block (hookFuncCall r res args) ;;
          line ["}"])
      else line ["return "; res]
    | ResTrace _ :: _ => line ["return "; res]
    end
  end.

Definition hook (trace : Trace) (hook : Hook) : M unit :=
  newScope (
    t <- declare "t" 456 ;;
    fn <- declare "fn" 457 ;;
    u <- lift (unexported (HName hook)) ;;
    code ["func ("; t; " *"; TName trace; ") "; u] ;;
    code ["("] ;;
    args <- mapMi (fun i p =>
      (if 0 <? i then code [", "] else ret tt) ;;
      funcParam p) 0 (Params (HFunc hook)) ;;
    code [")"] ;;
    (if HasResult (HFunc hook) then code [" "] else ret tt) ;;
    funcResultsFlags (HFunc hook) docs ;;
    line [" {"] ;;
    block (
      line [fn; " := "; t; "."; HName hook] ;;
      line ["if "; fn; " == nil {"] ;;
      block (zeroReturn (HFunc hook)) ;;
      line ["}"] ;;
      hookFuncCall (HFunc hook) fn args) ;;
    line ["}"]).

Definition declareParams (src : list Param) : M (list string) :=
  mapMi (fun _ p => n <- lift (nameParam p) ;; declare n 541) 0 src.

Definition flattenStruct (dst : list Param) (s : list (string * types_Type)) : list Param :=
  fold_left (fun dst '(fname, typ) =>
    if negb (Exported fname) then dst
    else
      let name := if String.eqb fname (typeBasename typ) then EmptyString else fname in
      dst ++ [{| Name := name; Type_ := typ |}]) s dst.

Definition flattenParams (params : list Param) : list Param :=
  fold_left (fun dst p =>
    match snd (unwrapStruct (Type_ p)) with
    | Some s => flattenStruct dst s
    | None => dst ++ [p]
    end) params [].

(** The field loop of [constructStruct]. *)
Fixpoint constructStruct_fields (p : string) (s : list (string * types_Type))
    (vars : list string) : M (list string) :=
  match s with
  | [] => ret vars
  | (fname, _) :: s' =>
    if negb (Exported fname) then constructStruct_fields p s' vars
    else
      match vars with
      | name :: vars' =>
        line [p; "."; fname; " = "; name] ;;
        constructStruct_fields p s' vars'
      | [] => panic (RuntimeError "index out of range")
      end
  end.

Definition constructStruct (n : types_Type) (s : list (string * types_Type))
    (vars : list string) : M (string * list string) :=
  p <- declare "p" 605 ;;
  ts <- typeString n ;;
  line ["var "; p; " "; ts] ;;
  vars <- constructStruct_fields p s vars ;;
  ret (p, vars).

Fixpoint constructParams (params : list Param) (names : list string) : M (list string) :=
  match params with
  | [] => ret []
  | p :: params' =>
    match unwrapStruct (Type_ p) with
    | (Some n, Some s) =>
      vn <- constructStruct n s names ;;
      res <- constructParams params' (snd vn) ;;
      ret (fst vn :: res)
    | _ =>
      match names with
      | name :: names' =>
        res <- constructParams params' names' ;;
        ret (name :: res)
      | [] => panic (RuntimeError "index out of range")
      end
    end
  end.

Fixpoint shortcutFuncSignFlags (fn : Func) (fl : flags) : M unit :=
  match fn with
  | mkFunc ps results =>
    let params := flattenParams ps in
    hn <- lift (haveNames params) ;;
    code ["func("] ;;
    forMi_ (fun i p =>
      (if 0 <? i then code [", "] else ret tt) ;;
      if flags_has fl docs && hn then funcParamSign p
      else (ts <- typeString (Type_ p) ;; code [ts])) 0 params ;;
    code [")"] ;;
    if HasResult fn then
      (if Func_isFuncResult then code [" "] else ret tt) ;;
      (fix results_loop (rs : list FuncResult) : M unit :=
         match rs with
         | [] => ret tt
         | ResFunc x :: rs' => shortcutFuncSignFlags x fl ;; results_loop rs'
         | ResTrace x :: rs' => code [TName x; " "] ;; results_loop rs'
         end) results
    else ret tt
  end.

Definition shortcutFuncResultsFlags (fn : Func) (fl : flags) : M unit :=
  forM_ (fun r =>
    match r with
    | ResFunc x => shortcutFuncSignFlags x fl
    | ResTrace x => code [TName x; " "]
    end) (Result fn).

Definition shortcutFuncResults (fn : Func) : M unit := shortcutFuncResultsFlags fn 0%N.

Fixpoint hookFuncShortcut (fn : Func) (name : string) : M unit :=
  match fn with
  | mkFunc ps results =>
    newScope (
      code ["func("] ;;
      let params := flattenParams ps in
      names <- declareParams params ;;
      forMi_ (fun i p =>
        (if 0 <? i then code [", "] else ret tt) ;;
        n <- index names i ;;
        ts <- typeString (Type_ p) ;;
        code [n; " "; ts]) 0 params ;;
      code [")"] ;;
      (if HasResult fn then code [" "] else ret tt) ;;
      shortcutFuncResults fn ;;
      line [" {"] ;;
      block (
        forM_ (fun name => capture [name] 699) names ;;
        params <- constructParams ps names ;;
        res <- (if HasResult fn then
                  res <- declare "res" 704 ;;
                  code [res; " := "] ;;
                  ret res
                else ret EmptyString) ;;
        code [name] ;;
        call params ;;
        match results with
        | [] => ret tt
        | ResFunc x :: _ => code ["return "] ;; hookFuncShortcut x res
        | ResTrace _ :: _ => code ["return "] ;; line [res]
        end) ;;
      line ["}"])
  end.

(** The closure [hookShortcut] passes to [newScope], with the names it
    captures: the trace, the hook and the declared function name. *)
Definition hookShortcut_func (trace : Trace) (hook : Hook) (name : string) : M unit :=
  t <- declare "t" 626 ;;
  code ["func "; name] ;;
  code ["("] ;;
  code [t; " *"; TName trace] ;;
  let params := flattenParams (Params (HFunc hook)) in
  names <- declareParams params ;;
  forMi_ (fun i p =>
    code [", "] ;;
    n <- index names i ;;
    ts <- typeString (Type_ p) ;;
    code [n; " "; ts]) 0 params ;;
  code [")"] ;;
  (if HasResult (HFunc hook) then code [" "] else ret tt) ;;
  shortcutFuncResultsFlags (HFunc hook) docs ;;
  line [" {"] ;;
  block (
    forM_ (fun name => capture [name] 648) names ;;
    vars <- constructParams (Params (HFunc hook)) names ;;
    res <- (if HasResult (HFunc hook) then
              res <- declare "res" 653 ;;
              code [res; " := "] ;;
              ret res
            else ret EmptyString) ;;
    u <- lift (unexported (HName hook)) ;;
    code [t; "."; u] ;;
    call vars ;;
    match Result (HFunc hook) with
    | [] => ret tt
    | ResFunc x :: _ => code ["return "] ;; hookFuncShortcut x res
    | ResTrace _ :: _ => code ["return "] ;; line [res]
    end) ;;
  line ["}"].

Definition hookShortcut (trace : Trace) (hook : Hook) : M unit :=
  tn <- lift (tempName [TName trace; HName hook]) ;;
  name <- lift (exported tn) ;;
  mustDeclare name 623 ;;
  newScope (hookShortcut_func trace hook name).

(** ** The entry point *)

(** [w.once.Do]: the buffered writer over [Output] and the empty scope
    list are made on the first call only. *)
Definition init : M unit :=
  w <- get ;;
  if once w then ret tt
  else modify (fun w =>
         set_once true (set_scopes [] (set_bw_err None (set_bw EmptyString w)))).

(** The closure [Write] passes to [newScope]. *)
Definition Write_func (p : Package) : M unit :=
  forM_ (fun trace =>
    options trace ;;
    compose trace ;;
    (if Nested trace then isZero trace else ret tt) ;;
    forM_ (fun h => hook trace h) (Hooks trace)) (Traces p) ;;
  forM_ (fun trace =>
    forM_ (fun h => hookShortcut trace h) (Hooks trace)) (Traces p).

(** [Write] returns what [Flush] returns: the error the buffered writer
    keeps, or nil. *)
Definition Write (p : Package) : M (option error) :=
  modify (set_pkg (Package_ p)) ;;
  init ;;
  line ["// Code generated by gtrace. DO NOT EDIT."] ;;
  forMi_ (fun i l =>
    (if Nat.eqb i 0 then line [] else ret tt) ;;
    line [l]) 0 (BuildConstraints p) ;;
  line [] ;;
  line ["package "; PkgName (Package_ p)] ;;
  line [] ;;
  w <- get ;;
  let deps := fold_left (traceImports (pkg w)) (Traces p) [] in
  importDeps deps ;;
  newScope (Write_func p) ;;
  bufio_Flush.

End Generator.

(** ** A concrete host for the examples

    ASCII letters and digits classified and cased as package [unicode]
    does, every other rune left alone; [rsplit] cuts at the last
    occurrence of the byte. *)
Definition ascii_upper (r : rune) : bool := between 65 90 r.
Definition ascii_lower (r : rune) : bool := between 97 122 r.
Definition ascii_digit (r : rune) : bool := between 48 57 r.

Fixpoint rsplit_last (s : string) (c : ascii) : option (string * string) :=
  match s with
  | EmptyString => None
  | String a r =>
    match rsplit_last r c with
    | Some (lo, hi) => Some (String a lo, hi)
    | None => if Ascii.eqb a c then Some (EmptyString, r) else None
    end
  end.

Definition example_goroot : list (string * bool) :=
  [ ("bufio", true); ("cmd", true); ("context", true); ("fmt", true);
    ("internal", true); ("net", true); ("stdA", true); ("Make.dist", false) ].

Definition ascii_host : Host := {|
  unicode_IsLetter := fun r => ascii_upper r || ascii_lower r;
  unicode_IsNumber := ascii_digit;
  unicode_IsDigit := ascii_digit;
  unicode_IsUpper := ascii_upper;
  unicode_ToUpper := fun r => if ascii_lower r then (r - 32)%N else r;
  unicode_ToLower := fun r => if ascii_upper r then (r + 32)%N else r;
  caller_file := "writer.go";
  rsplit := fun s c => match rsplit_last s c with Some p => p | None => (s, EmptyString) end;
  Func_isFuncResult := true;
  ReadDir_src := fun root => if String.eqb root "/go" then Some example_goroot else None
|}.

(** A writer as the caller makes it: only [Output] and [Context] set. *)
Definition NewWriter (out : string) (ctx : build_Context) : Writer := {|
  Output := out; Context := ctx; once := false; bw := EmptyString;
  bw_err := None; atEOL := false; depth := 0; scopes := [];
  pkg := {| Path := EmptyString; PkgName := EmptyString; ScopeNames := [] |};
  std := None
|}.

Definition example_pkg : types_Package :=
  {| Path := "example.com/mod/trace"; PkgName := "trace"; ScopeNames := ["Driver"; "t"] |}.

Definition ctx_pkg : types_Package :=
  {| Path := "context"; PkgName := "context"; ScopeNames := [] |}.

Definition info_type : types_Type :=
  Named (Some example_pkg) "StartInfo"
    (Struct [("X", Basic "int"); ("Y", Basic "string"); ("hidden", Basic "bool")]).

Definition example_package : Package := {|
  Package_ := example_pkg;
  BuildConstraints := ["//go:build linux"];
  Traces :=
    [ mkTrace "Driver" true
        [ mkHook "OnStart"
            (mkFunc [ {| Name := "ctx"; Type_ := Named (Some ctx_pkg) "Context" (Opaque "interface{...}") |};
                      {| Name := "info"; Type_ := info_type |} ]
                    [ResFunc (mkFunc [ {| Name := EmptyString; Type_ := Basic "error" |} ] [])]);
          mkHook "OnClose" (mkFunc [] []) ] ]
|}.

(** Two traces whose shortcut functions get the same name [ABC], after a
    third trace with enough text to fill the buffer. *)
Definition clash_package : Package := {|
  Package_ := example_pkg;
  BuildConstraints := [];
  Traces :=
    [ mkTrace "Driver" true
        [ mkHook "OnStart"
            (mkFunc [ {| Name := "ctx"; Type_ := Named (Some ctx_pkg) "Context" (Opaque "interface{...}") |};
                      {| Name := "info"; Type_ := info_type |} ]
                    [ResFunc (mkFunc [ {| Name := EmptyString; Type_ := Basic "error" |} ] [])]);
          mkHook "OnClose" (mkFunc [] []) ];
      mkTrace "A" false [ mkHook "BC" (mkFunc [] []) ];
      mkTrace "AB" false [ mkHook "C" (mkFunc [] []) ] ]
|}.

Definition run_example : res (option error) * Writer :=
  Write (host := ascii_host) (sink := plain_sink) example_package
    (NewWriter EmptyString {| GOROOT := "/go" |}).

(** ** Vocabulary of the statements

    Except where a sink is named, the vocabulary and the statements are
    about runs over [plain_sink]. *)

#[local] Existing Instance plain_sink.

Section Vocabulary.

Context {host : Host}.

(** The candidate the search loop of [declare] tries in round [i]. *)
Definition candidate (name : string) (i : nat) : string :=
  if 0 <? i then name +:+ strconv_Itoa i else name.

(** A candidate the loop skips: a reserved word, a name of the package
    scope while the writer is at its outermost scope, or a name taken in
    the scope at the back. *)
Definition blocked (w : Writer) (v : string) : bool :=
  token_IsKeyword v
  || (match scopes w with [_] => true | _ => false end && pkg_Lookup (pkg w) v)
  || match scopes w with
     | s :: _ => bool_decide (is_Some (vars s !! v))
     | [] => false
     end.

(** The scope [s] after [v] was declared at line [l]. *)
Definition declared (v : string) (l : site) (s : scope) : scope :=
  {| vars := <[v := {| where_ := callsite l |}]> (vars s) |}.

(** [newScope] around an action whose result is kept: what a closure
    passed to [newScope] does when it assigns to a captured variable. *)
Definition inNewScope {A} (m : M A) : M A :=
  (modify (fun w => set_scopes ({| vars := ∅ |} :: scopes w) w) ;;
   a <- m ;;
   modify (fun w => set_scopes (tl (scopes w)) w) ;;
   ret a)%gen.

(** The check behind [declare_predeclared_firstChar]: the first character
    of a predeclared name is its first byte and is not predeclared. *)
Definition firstChar_fresh (name : string) : bool :=
  match firstChar name with
  | Ok c => String.eqb c (string_take 1 name) && negb (isPredeclared c)
  | _ => false
  end.

(** The segment [isStdLib] looks up: the path up to its first [/]. *)
Definition first_segment (path : string) : string :=
  hd EmptyString (strings_Split path "/"%char).

(** [seg] names a directory listed in [files], other than [cmd] and
    [internal]. *)
Definition stdlib_dir (files : list (string * bool)) (seg : string) : bool :=
  existsb (fun '(n, isDir) => isDir && String.eqb n seg) files
  && negb (String.eqb seg "cmd") && negb (String.eqb seg "internal").

(** The table [ensureStdLibMapping] builds from a listing, starting from [m]. *)
Definition stdlib_table (files : list (string * bool)) (m : gmap string bool)
  : gmap string bool :=
  fold_left (fun m '(fname, isDir) =>
    if negb isDir then m
    else
      let name := filepath_Base fname in
      if String.eqb name "cmd" || String.eqb name "internal" then m
      else <[name := true]> m) files m.

(** Directory entries carry plain names: [filepath.Base] leaves them alone. *)
Definition plain_names (files : list (string * bool)) : Prop :=
  Forall (fun f => filepath_Base (fst f) = fst f) files.

(** *** The text channel

    A channel holds what [Output] has received, what the buffered writer
    holds back and the error it keeps; [chan_write] sends a text through
    it byte by byte, over [plain_sink]: a channel that keeps an error
    takes nothing. *)
Definition channel : Type := string * string * option error.

Definition chan (w : Writer) : channel := (Output w, bw w, bw_err w).

Definition chan_byte (c : ascii) (ch : channel) : channel :=
  let '(o, b, e) := ch in
  match e with
  | Some _ => ch
  | None =>
    if defaultBufSize - String.length b <=? 0
    then (o +:+ b, String c EmptyString, None)
    else (o, b +:+ String c EmptyString, None)
  end.

Fixpoint chan_write (t : string) (ch : channel) : channel :=
  match t with
  | EmptyString => ch
  | String c t' => chan_write t' (chan_byte c ch)
  end.

(** The writer with its channel replaced. *)
Definition with_chan (ch : channel) (w : Writer) : Writer :=
  set_bw_err (snd ch) (set_bw (snd (fst ch)) (set_Output (fst (fst ch)) w)).

(** A channel with nothing sent, and one with [out] delivered. *)
Definition new_chan : channel := (EmptyString, EmptyString, None).
Definition chan_at (out : string) : channel := (out, EmptyString, None).

(** The writer after a flush that [Output] took. *)
Definition flushed (w : Writer) : Writer :=
  set_bw EmptyString (set_Output (Output w +:+ bw w) w).

(** The writer after text [t] went through its channel. *)
Definition write_text (t : string) (w : Writer) : Writer :=
  with_chan (chan_write t (chan w)) w.

Definition concat_strings (l : list string) : string :=
  fold_right String.append EmptyString l.

Definition newline : string := String (ascii_of_nat 10) EmptyString.

Fixpoint indent (d : nat) : string :=
  match d with
  | O => EmptyString
  | S d' => tab +:+ indent d'
  end.

(** What [code] and [line] send, given [atEOL] and [depth]. *)
Definition code_text (eol : bool) (d : nat) (args : list string) : string :=
  (if eol then indent d else EmptyString) +:+ concat_strings args.

Definition line_text (eol : bool) (d : nat) (args : list string) : string :=
  code_text eol d args +:+ newline.

(** All the text sent so far, delivered or held back. *)
Definition emitted (ch : channel) : string := fst (fst ch) +:+ snd (fst ch).

(** The classification [isStdLib] reads off a built table. *)
Definition classify (tb : gmap string bool) (path : string) : bool :=
  default false (tb !! first_segment path).

(** The closure [importDeps] passes to [sort.Slice], over a built table. *)
Definition dep_less (tb : gmap string bool) (d0 d1 : dep) : bool :=
  let std0 := classify tb (pkgPath d0) in
  let std1 := classify tb (pkgPath d1) in
  if negb (Bool.eqb std0 std1) then std0
  else String.ltb (pkgPath d0) (pkgPath d1).

Fixpoint insert_sorted {A} (less : A -> A -> bool) (x : A) (l : list A) : list A :=
  match l with
  | [] => [x]
  | y :: l' => if less y x then y :: insert_sorted less x l' else x :: y :: l'
  end.

Fixpoint insertion_sort {A} (less : A -> A -> bool) (l : list A) : list A :=
  match l with
  | [] => []
  | x :: l' => insert_sorted less x (insertion_sort less l')
  end.

(** The lines of the import block for [deps] in the order given, with the
    blank line where an external path follows a standard one. *)
Fixpoint import_lines (tb : gmap string bool) (d : nat) (lastStd : bool)
    (deps : list dep) : string :=
  match deps with
  | [] => EmptyString
  | dp :: deps' =>
    let isStd := classify tb (pkgPath dp) in
    (if negb isStd && lastStd then line_text true d [] else EmptyString)
    +:+ line_text true d [tab; dquote; pkgPath dp; dquote]
    +:+ import_lines tb d isStd deps'
  end.

(** The whole block [importDeps] sends for the deduplicated [deps]. *)
Definition import_block (tb : gmap string bool) (eol : bool) (d : nat)
    (deps : list dep) : string :=
  line_text eol d ["import ("]
  +:+ import_lines tb d false (insertion_sort (dep_less tb) deps)
  +:+ line_text true d [")"]
  +:+ line_text true d [].

(** One import line per path. *)
Definition path_lines (d : nat) (paths : list string) : string :=
  concat_strings (map (fun p => line_text true d [tab; dquote; p; dquote]) paths).

(** Go's [<] on strings. *)
Definition str_lt (a b : string) : Prop := String.ltb a b = true.

(** The writer at the start of a line, with table [tb], after text [t]. *)
Definition out_state (tb : gmap string bool) (t : string) (w : Writer) : Writer :=
  set_std (Some tb) (set_atEOL true (write_text t w)).

(** The library root can be listed, and the table is absent or built
    from that listing. *)
Definition std_ok (files : list (string * bool)) (w : Writer) : Prop :=
  ReadDir_src (GOROOT (Context w)) = Some files
  /\ (std w = None \/ std w = Some (stdlib_table files ∅)).

(** *** What an emitter may depend on, and what it leaves alone

    [core] is what the emitters read of the writer besides its scopes;
    [fixed] is what they never change.  Two writers are alike for an
    action inside a scope ([alike_in]) when they agree on the core, on the
    scope at the back and on being at the outermost scope; they are alike
    for an action that opens its own scope ([alike_out]) when they agree
    on the core and on having a scope at all. *)
Definition core (w : Writer) : bool * nat * types_Package := (atEOL w, depth w, pkg w).

Definition fixed (w : Writer) : nat * types_Package * option (gmap string bool)
                               * build_Context * bool :=
  (depth w, pkg w, std w, Context w, once w).

Definition nil_scopes (w : Writer) : bool :=
  match scopes w with [] => true | _ => false end.

Definition alike_in (w1 w2 : Writer) : Prop :=
  core w1 = core w2
  /\ hd_error (scopes w1) = hd_error (scopes w2)
  /\ (length (scopes w1) =? 1) = (length (scopes w2) =? 1).

Definition alike_out (w1 w2 : Writer) : Prop :=
  core w1 = core w2 /\ nil_scopes w1 = nil_scopes w2.

(** Both runs sent the same text. *)
Definition same_text (w1 w1' w2 w2' : Writer) : Prop :=
  exists t, chan w1' = chan_write t (chan w1) /\ chan w2' = chan_write t (chan w2).

(** An action that works in the scope at the back: it may declare names
    there, and otherwise depends on and changes nothing but the text. *)
Definition InScope {A} (m : M A) : Prop :=
  (forall w a w', m w = (Ok a, w') ->
     fixed w' = fixed w /\ tl (scopes w') = tl (scopes w)
     /\ nil_scopes w' = nil_scopes w)
  /\ (forall w1 w2, alike_in w1 w2 ->
        fst (m w1) = fst (m w2)
        /\ same_text w1 (snd (m w1)) w2 (snd (m w2))
        /\ (forall a, fst (m w1) = Ok a -> alike_in (snd (m w1)) (snd (m w2)))).

(** An action that leaves the scopes as it found them. *)
Definition OwnScope {A} (m : M A) : Prop :=
  (forall w a w', m w = (Ok a, w') -> fixed w' = fixed w /\ scopes w' = scopes w)
  /\ (forall w1 w2, alike_out w1 w2 ->
        fst (m w1) = fst (m w2)
        /\ same_text w1 (snd (m w1)) w2 (snd (m w2))
        /\ (forall a, fst (m w1) = Ok a -> core (snd (m w1)) = core (snd (m w2)))).

(** An action that, when it returns, leaves the writer at the start of a
    line. *)
Definition Eol {A} (m : M A) : Prop :=
  forall w a w', m w = (Ok a, w') -> atEOL w' = true.

(** The text an action sends when it is run from writer [w]. *)
Definition text_of {A} (m : M A) (w : Writer) : string :=
  emitted (chan (snd (m (with_chan new_chan w)))).

(** The writer inside the package-level scope of [Write], at the start of
    a line, with nothing sent and nothing declared yet. *)
Definition scoped (p : types_Package) (ctx : build_Context) : Writer := {|
  Output := EmptyString; Context := ctx; once := true; bw := EmptyString;
  bw_err := None; atEOL := true; depth := 0; scopes := [{| vars := ∅ |}];
  pkg := p; std := None
|}.

(** The writer [Write] hands to [importDeps]. *)
Definition toplevel (p : types_Package) (ctx : build_Context) : Writer := {|
  Output := EmptyString; Context := ctx; once := true; bw := EmptyString;
  bw_err := None; atEOL := true; depth := 0; scopes := []; pkg := p; std := None
|}.

(** Where a top-level declaration of the output starts: alike to [S], at
    the start of a line, with the package-level scope alone at the back. *)
Definition at_top (S w : Writer) : Prop :=
  alike_out w S /\ atEOL w = true /\ exists g, scopes w = [g].

(** The writer at the start of a line after text [t]. *)
Definition lined (t : string) (w : Writer) : Writer :=
  set_atEOL true (write_text t w).

(** The dependencies [Write] collects. *)
Definition deps_of (p : Package) : list dep :=
  fold_left (traceImports (Package_ p)) (Traces p) [].

(** The head of the output: marker, build constraints, package clause. *)
Definition header_text (p : Package) : string :=
  "// Code generated by gtrace. DO NOT EDIT." +:+ newline
  +:+ match BuildConstraints p with
      | [] => EmptyString
      | cs => newline +:+ concat_strings (map (fun l => l +:+ newline) cs)
      end
  +:+ newline
  +:+ "package " +:+ PkgName (Package_ p) +:+ newline
  +:+ newline.

(** The declarations of one trace, each as it is emitted on its own from
    [S]: options, [Compose], [isZero] for a nested trace, the hooks. *)
Definition trace_text (S : Writer) (t : Trace) : string :=
  text_of (options t) S
  +:+ text_of (compose t) S
  +:+ (if Nested t then text_of (isZero t) S else EmptyString)
  +:+ concat_strings (map (fun h => text_of (hook t h) S) (Hooks t)).

(** The shortcut functions of one trace. *)
Definition shortcuts_text (S : Writer) (t : Trace) : string :=
  concat_strings (map (fun h => text_of (hookShortcut t h) S) (Hooks t)).

(** The whole output for [p], in the order [Write] produces it. *)
Definition Write_text (p : Package) (ctx : build_Context) : string :=
  header_text p
  +:+ text_of (importDeps (deps_of p)) (toplevel (Package_ p) ctx)
  +:+ concat_strings (map (trace_text (scoped (Package_ p) ctx)) (Traces p))
  +:+ concat_strings (map (shortcuts_text (scoped (Package_ p) ctx)) (Traces p)).

(** The writer after [Write] has set the package and run [init]. *)
Definition prepared (P : types_Package) (w : Writer) : Writer :=
  if once w then set_pkg P w
  else set_once true (set_scopes [] (set_bw_err None (set_bw EmptyString (set_pkg P w)))).

(** The table is absent or built from the current listing. *)
Definition std_fits (w : Writer) : Prop :=
  match ReadDir_src (GOROOT (Context w)) with
  | Some files => std w = None \/ std w = Some (stdlib_table files ∅)
  | None => std w = None
  end.

(** A writer between two runs: not inside any block or scope, no write
    to [Output] failed, with the classification table absent or built
    from the current listing. *)
Definition idle (w : Writer) : Prop :=
  depth w = 0
  /\ (if once w then scopes w = [] else bw w = EmptyString)
  /\ bw_err w = None
  /\ std_fits w.

(** An action that sends nothing and leaves the line state alone. *)
Definition Quiet {A} (m : M A) : Prop :=
  forall u a u', m u = (Ok a, u') ->
    chan u' = chan u /\ atEOL u' = atEOL u /\ depth u' = depth u.

(** An action that, started at the start of a line at depth [d], sends
    exactly [T d] and ends at the start of a line at the same depth. *)
Definition Sends {A} (m : M A) (T : nat -> string) : Prop :=
  forall u a u', m u = (Ok a, u') -> atEOL u = true ->
    chan u' = chan_write (T (depth u)) (chan u)
    /\ atEOL u' = true /\ depth u' = depth u.

(** An action that sends some text and keeps the depth. *)
Definition SendsSome {A} (m : M A) : Prop :=
  forall u a u', m u = (Ok a, u') ->
    exists t, chan u' = chan_write t (chan u) /\ depth u' = depth u.

(** *** The statements [constructStruct] writes, and what they do

    [constructStruct] writes a declaration of a struct variable and one
    assignment per exported field.  A struct value is the map from the
    names of its assigned fields to their values; a field it lacks holds
    its zero value.  The arguments of the shortcut function are bound by
    name. *)
Definition exported_fields (s : list (string * types_Type)) : list (string * types_Type) :=
  List.filter (fun f => Exported (fst f)) s.

Inductive gostmt :=
| VarDecl (p typ : string)          (* var p typ *)
| FieldAssign (p f v : string).     (* p.f = v *)

Definition render_stmt (d : nat) (st : gostmt) : string :=
  match st with
  | VarDecl p typ => line_text true d ["var "; p; " "; typ]
  | FieldAssign p f v => line_text true d [p; "."; f; " = "; v]
  end.

Definition render_stmts (d : nat) (l : list gostmt) : string :=
  concat_strings (map (render_stmt d) l).

Definition field_assigns (p : string) (fields names : list string) : list gostmt :=
  map (fun fv => FieldAssign p (fst fv) (snd fv)) (combine fields names).

Definition construct_stmts (p typ : string) (fields names : list string) : list gostmt :=
  VarDecl p typ :: field_assigns p fields names.

(** A value of the generated code: a positional argument, or a struct
    with the given fields set. *)
Inductive goval (V : Type) :=
| Plain (x : V)
| StructVal (fields : gmap string V).
Arguments Plain {V} x.
Arguments StructVal {V} fields.

(** One namespace for the arguments and the declared variables, as in the
    body of the written function: a declaration shadows an argument of
    the same name. *)
Definition exec_stmt {V} (e : gmap string (goval V)) (s : gostmt)
    : gmap string (goval V) :=
  match s with
  | VarDecl p _ => <[p := StructVal ∅]> e
  | FieldAssign p f v =>
    match e !! p, e !! v with
    | Some (StructVal sv), Some (Plain x) => <[p := StructVal (<[f := x]> sv)]> e
    | _, _ => e
    end
  end.

Definition exec_stmts {V} (l : list gostmt) (e : gmap string (goval V))
    : gmap string (goval V) :=
  fold_left exec_stmt l e.

(** The positional arguments [vs] bound to the parameter names. *)
Definition bind_args {V} (names : list string) (vs : list V) : gmap string V :=
  list_to_map (combine names vs).

Definition entry_env {V} (names : list string) (vs : list V) : gmap string (goval V) :=
  Plain <$> bind_args names vs.

(** The variable a statement writes. *)
Definition target (s : gostmt) : string :=
  match s with
  | VarDecl p _ => p
  | FieldAssign p _ _ => p
  end.

(** The field assignments alone, on the struct value. *)
Definition assign_fields {V} (e : gmap string (goval V)) (fields names : list string)
    (sv : gmap string V) : gmap string V :=
  fold_left (fun sv fv =>
    match e !! snd fv with
    | Some (Plain x) => <[fst fv := x]> sv
    | _ => sv
    end) (combine fields names) sv.

(** One level of flattening: a struct parameter gives one parameter per
    exported field, of the field's own type; any other parameter stays. *)
Definition field_param (f : string * types_Type) : Param :=
  {| Name := if String.eqb (fst f) (typeBasename (snd f)) then EmptyString else fst f;
     Type_ := snd f |}.

Definition struct_of (p : Param) : option (list (string * types_Type)) :=
  snd (unwrapStruct (Type_ p)).

Definition flat1 (p : Param) : list Param :=
  match struct_of p with
  | Some s => map field_param (exported_fields s)
  | None => [p]
  end.

(** The field names of a struct type are distinct. *)
Definition fields_distinct (params : list Param) : Prop :=
  Forall (fun p =>
    match struct_of p with
    | Some s => List.NoDup (map fst (exported_fields s))
    | None => True
    end) params.

(** The values of the original parameters that the flattened arguments
    [vs] stand for. *)
Fixpoint expected {V} (params : list Param) (vs : list V) : list (goval V) :=
  match params with
  | [] => []
  | p :: params' =>
    match struct_of p with
    | Some s =>
      let fs := map fst (exported_fields s) in
      StructVal (list_to_map (combine fs (take (length fs) vs)))
      :: expected params' (drop (length fs) vs)
    | None =>
      match vs with
      | x :: vs' => Plain x :: expected params' vs'
      | [] => []
      end
    end
  end.

(** An action that, started with [atEOL = e] at depth [d], sends exactly
    [T d] and ends with [atEOL = e'] at the same depth. *)
Definition Flows {A} (e e' : bool) (m : M A) (T : nat -> string) : Prop :=
  forall u a u', m u = (Ok a, u') -> atEOL u = e ->
    chan u' = chan_write (T (depth u)) (chan u)
    /\ atEOL u' = e' /\ depth u' = depth u.

(** Between two writers: text [t] was sent, the depth is the same and
    [atEOL] is now [e']. *)
Definition Went (u u' : Writer) (t : string) (e' : bool) : Prop :=
  chan u' = chan_write t (chan u) /\ atEOL u' = e' /\ depth u' = depth u.

(** *** The function a merged hook is, and how a call of it runs

    The statements [composeHookCall] writes into the body of the function
    it composes, with the parameter list and the result types kept as the
    text they are. *)
#[warnings="-register-all"]
Inductive gstmt :=
| DeferRecover (cb : string)
    (* defer func() { if e := recover(); e != nil { cb(e) } }() *)
| IfSet (x : string) (body : list gstmt)
    (* if x != nil { body } *)
| VarLine (text : string)
    (* a line declaring variables *)
| CallHook (dst : option string) (h : string) (args : list string)
    (* h(args), or dst = h(args) *)
| ReturnExpr (e : string).
    (* return e *)

(** The arguments of a call as [call] writes them, counting from [i]. *)
Fixpoint arg_list (i : nat) (args : list string) : string :=
  match args with
  | [] => EmptyString
  | a :: rest => (if 0 <? i then ", " else EmptyString) +:+ a +:+ arg_list (S i) rest
  end.

Fixpoint print_stmt (d : nat) (s : gstmt) : string :=
  match s with
  | DeferRecover cb =>
    line_text true d ["defer func() {"]
    +:+ line_text true (S d) ["if e := recover(); e != nil {"]
    +:+ line_text true (S (S d)) [cb +:+ "(e)"]
    +:+ line_text true (S d) ["}"]
    +:+ line_text true d ["}()"]
  | IfSet x body =>
    line_text true d ["if " +:+ x +:+ " != nil {"]
    +:+ (fix print_body (l : list gstmt) : string :=
           match l with
           | [] => EmptyString
           | s' :: l' => print_stmt (S d) s' +:+ print_body l'
           end) body
    +:+ line_text true d ["}"]
  | VarLine text => text
  | CallHook dst h args =>
    indent d
    +:+ match dst with Some r => r +:+ " = " | None => EmptyString end
    +:+ h +:+ "(" +:+ arg_list 0 args +:+ ")" +:+ newline
  | ReturnExpr e => indent d +:+ "return " +:+ e
  end.

Definition print_stmts (d : nat) (l : list gstmt) : string :=
  concat_strings (map (print_stmt d) l).

(** A function literal: its signature up to the opening brace as text,
    its body, and the closing brace at the depth it is written at. *)
Definition print_func (d : nat) (sig : string) (body : list gstmt) : string :=
  sig +:+ print_stmts (S d) body +:+ line_text true d ["}"].

(** One call of a function with such a body.  [world] says which of the
    function values the body names are nil and what a call of each does:
    return, or panic with a value. *)
Inductive event :=
| Called (h : string)
| Notified (e : string).

Inductive status :=
| Running
| Returned
| Panicking (e : string).

Record world := {
  is_nil : string -> bool;
  outcome : string -> option string
}.

Record frame := {
  events : list event;
  deferred : list string;
  state : status
}.

(** A statement runs only while the function is running: a panic or a
    return leaves the rest of the body out.  [defer] belongs to the
    function, not to the block it stands in. *)
Fixpoint exec_gstmt (b : world) (s : gstmt) (f : frame) : frame :=
  match state f with
  | Running =>
    match s with
    | DeferRecover cb =>
      {| events := events f; deferred := cb :: deferred f; state := Running |}
    | IfSet x body =>
      if is_nil b x then f
      else (fix exec_body (l : list gstmt) (f : frame) : frame :=
              match l with
              | [] => f
              | s' :: l' => exec_body l' (exec_gstmt b s' f)
              end) body f
    | VarLine _ => f
    | CallHook _ h _ =>
      if is_nil b h
      then {| events := events f; deferred := deferred f;
              state := Panicking "nil pointer dereference" |}
      else {| events := events f ++ [Called h]; deferred := deferred f;
              state := match outcome b h with
                       | Some e => Panicking e
                       | None => Running
                       end |}
    | ReturnExpr _ =>
      {| events := events f; deferred := deferred f; state := Returned |}
    end
  | _ => f
  end.

(** A deferred [func() { if e := recover(); e != nil { cb(e) } }]: during a
    panic it stops the panic and hands its value to [cb]. *)
Definition run_deferred (f : frame) (cb : string) : frame :=
  match state f with
  | Panicking e =>
    {| events := events f ++ [Notified e]; deferred := deferred f; state := Returned |}
  | _ => f
  end.

(** The events of one call and how it ends: the body runs, then the
    deferred functions, last registered first. *)
Definition call_func (b : world) (body : list gstmt) : list event * status :=
  let f := fold_left (fun f s => exec_gstmt b s f) body
             {| events := []; deferred := []; state := Running |} in
  let f' := fold_left run_deferred (deferred f) f in
  (events f', match state f' with Running => Returned | st => st end).

Definition panicCallback : string := "options.panicCallback".

(** The body of a merged hook: the guard, the declaration of the results
    when the hook has one, the two calls, and the return. *)
Definition merged_body (h1 h2 : string) (args : list string)
    (rs : option (string * string)) (decl : string) (ret : option string)
    : list gstmt :=
  [IfSet panicCallback [DeferRecover panicCallback]]
  ++ match rs with Some _ => [VarLine decl] | None => [] end
  ++ [IfSet h1 [CallHook (option_map fst rs) h1 args];
      IfSet h2 [CallHook (option_map snd rs) h2 args]]
  ++ match ret with Some e => [ReturnExpr e] | None => [] end.

(** An action that only sends text, whatever else it does. *)
Definition Emits {A} (m : M A) : Prop :=
  forall w, exists t, chan (snd (m w)) = chan_write t (chan w).

(** The dependencies [dst'] are [dst] followed by dependencies on
    packages other than [wpkg]. *)
Definition grows_by (wpkg : types_Package) (dst dst' : list dep) : Prop :=
  exists added, dst' = dst ++ added
                /\ Forall (fun d => pkgPath d <> Path wpkg) added.
(** The type under the pointers of [t]. *)
Fixpoint elem_type (t : types_Type) : types_Type :=
  match t with
  | Pointer elem => elem_type elem
  | _ => t
  end.

(** The types [funcImports] inspects for a parameter: its own, and those
    of the exported fields when it is a named struct. *)
Definition param_types (p : Param) : list types_Type :=
  Type_ p :: match struct_of p with
             | Some s => map snd (exported_fields s)
             | None => []
             end.

(** The types in the signature of [fn] and of the functions it returns. *)
Inductive signature_type : Func -> types_Type -> Prop :=
| sig_param fn p ty :
    List.In p (Params fn) -> List.In ty (param_types p) -> signature_type fn ty
| sig_result fn x ty :
    List.In (ResFunc x) (Result fn) -> signature_type x ty -> signature_type fn ty.

(** The name of the shortcut function of hook [h] of trace [t]. *)
Definition shortcut_name (t : Trace) (h : Hook) : res string :=
  match tempName [TName t; HName h] with
  | Ok tn => exported tn
  | r => r
  end.

(** The first three bytes of [s] are the encoding of U+FFFD. *)
Definition replacement_char : string :=
  String (bytechr 239) (String (bytechr 191) (String (bytechr 189) EmptyString)).
(** The order of the import block on paths alone. *)
Definition path_less (tb : gmap string bool) (p q : string) : bool :=
  dep_less tb {| pkgPath := p; pkgName := EmptyString; typName := EmptyString |}
              {| pkgPath := q; pkgName := EmptyString; typName := EmptyString |}.

(** A parameter that [flattenParams] takes apart. *)
Definition named_struct (p : Param) : bool :=
  match struct_of p with Some _ => true | None => false end.

(** An action that returns from every writer. *)
Definition Returns {A} (m : M A) : Prop :=
  forall u, exists a u', m u = (Ok a, u').

(** The expression the first [return] reached in a body hands back. *)
Fixpoint returned_stmt (b : world) (s : gstmt) : option string :=
  match s with
  | ReturnExpr e => Some e
  | IfSet x body =>
    if is_nil b x then None
    else (fix first_return (l : list gstmt) : option string :=
            match l with
            | [] => None
            | s' :: l' =>
              match returned_stmt b s' with
              | Some e => Some e
              | None => first_return l'
              end
            end) body
  | _ => None
  end.

Fixpoint returned (b : world) (l : list gstmt) : option string :=
  match l with
  | [] => None
  | s :: l' =>
    match returned_stmt b s with
    | Some e => Some e
    | None => returned b l'
    end
  end.

(** The body of the [isZero] method of a trace with receiver [t]. *)
Definition isZero_body (t : string) (hooks : list Hook) : list gstmt :=
  map (fun h => IfSet (t +:+ "." +:+ HName h) [ReturnExpr ("false" +:+ newline)]) hooks
  ++ [ReturnExpr ("true" +:+ newline)].

(** *** Runs over any sink

    A sink that takes every write. *)
Definition accepts (S : Sink) : Prop :=
  forall o p, @Output_Write S o p = (String.length p, None).

(** What a run reads of the writer besides the channel. *)
Definition ctl (w : Writer) :=
  (Context w, once w, atEOL w, depth w, scopes w, pkg w, std w).

(** The writer [u] of a run over sink [S], which began with [out] in
    [Output], against all the text [T] sent so far, [out] included: what
    [Output] and the buffer hold is the beginning of [T], and all of it
    while no write has failed; [Output] only grows; the buffer keeps to
    its size; a sink that takes every write never fails. *)
Definition Held (S : Sink) (out : string) (u : Writer) (T : string) : Prop :=
  (exists rest, T = Output u +:+ bw u +:+ rest
                /\ (bw_err u = None -> rest = EmptyString))
  /\ (exists x, Output u = out +:+ x)
  /\ String.length (bw u) <= defaultBufSize
  /\ (accepts S -> bw_err u = None).

(** Nothing has been tried on [Output] unless more text was sent than the
    buffer holds. *)
Definition Untried (out : string) (u : Writer) (T : string) : Prop :=
  (Output u = out /\ bw_err u = None)
  \/ defaultBufSize + String.length out < String.length T.

(** A run over [S] and the same run over [plain_sink], side by side. *)
Definition Rel (S : Sink) (out : string) (u v : Writer) : Prop :=
  ctl u = ctl v
  /\ bw_err v = None
  /\ Held S out u (emitted (chan v))
  /\ Untried out u (emitted (chan v)).

(** [mS] over [S] and [mP] over [plain_sink] end alike and stay side by
    side. *)
Definition Sim (S : Sink) {A} (mS mP : M A) : Prop :=
  forall out u v, Rel S out u v ->
    fst (mS u) = fst (mP v) /\ Rel S out (snd (mS u)) (snd (mP v)).

(** [Write] after [init] and before [Flush], over sink [S]. *)
Definition Write_tail (S : Sink) (p : Package) : M unit :=
  line (sink := S) ["// Code generated by gtrace. DO NOT EDIT."] ;;
  forMi_ (fun i l =>
    (if Nat.eqb i 0 then line (sink := S) [] else ret tt) ;;
    line (sink := S) [l]) 0 (BuildConstraints p) ;;
  line (sink := S) [] ;;
  line (sink := S) ["package "; PkgName (Package_ p)] ;;
  line (sink := S) [] ;;
  w <- get ;;
  let deps := fold_left (traceImports (pkg w)) (Traces p) [] in
  importDeps (sink := S) deps ;;
  newScope (Write_func (sink := S) p).

End Vocabulary.

Arguments Plain {V} x.
Arguments StructVal {V} fields.

(** ** Concrete inputs of the examples *)

Definition go_ctx : build_Context := {| GOROOT := "/go" |}.

(** A package that declares nothing at package level. *)
Definition quiet_pkg : types_Package :=
  {| Path := "example.com/mod/trace"; PkgName := "trace"; ScopeNames := [] |}.

Definition empty_scope : scope := {| vars := ∅ |}.

(** The writer inside the package-level scope, and the same in the middle
    of a line. *)
Definition in_package : Writer := scoped quiet_pkg go_ctx.
Definition mid_line : Writer := set_atEOL false in_package.

(** The hook function of [OnStart] in [example_package]. *)
Definition info_param : Param := {| Name := "info"; Type_ := info_type |}.

Definition start_func : Func :=
  mkFunc [ {| Name := "ctx";
              Type_ := Named (Some ctx_pkg) "Context" (Opaque "interface{...}") |};
           info_param ]
         [ResFunc (mkFunc [ {| Name := EmptyString; Type_ := Basic "error" |} ] [])].

(** Both hooks and the callback set; a call of [h1] panics. *)
Definition first_faults : world :=
  {| is_nil := fun _ => false;
     outcome := fun h => if String.eqb h "h1" then Some "boom" else None |}.

(** Four references to three packages. *)
Definition three_deps : list dep :=
  [ {| pkgPath := "pkgB"; pkgName := "pkgB"; typName := "T" |};
    {| pkgPath := "stdA"; pkgName := "stdA"; typName := "T" |};
    {| pkgPath := "pkgA"; pkgName := "pkgA"; typName := "T" |};
    {| pkgPath := "pkgB"; pkgName := "other"; typName := "U" |} ].

(** The body scope of a shortcut function that captured [x] and [y]. *)
Definition captured_xy : Writer :=
  set_scopes
    [declared (host := ascii_host) "y" 699
       (declared (host := ascii_host) "x" 699 empty_scope);
     empty_scope] in_package.

(** A build context whose library root cannot be listed. *)
Definition lost_ctx : build_Context := {| GOROOT := "/nowhere" |}.

(** The trace of [example_package] and its first hook. *)
Definition on_start : Hook := mkHook "OnStart" start_func.

Definition driver_trace : Trace :=
  mkTrace "Driver" true [on_start; mkHook "OnClose" (mkFunc [] [])].

(** A package without traces. *)
Definition bare_package : Package :=
  {| Package_ := quiet_pkg; BuildConstraints := []; Traces := [] |}.

(** The three packages of [three_deps], once each and in another order. *)
Definition same_paths : list dep :=
  [ {| pkgPath := "pkgA"; pkgName := "a"; typName := "V" |};
    {| pkgPath := "pkgB"; pkgName := "b"; typName := "V" |};
    {| pkgPath := "stdA"; pkgName := "c"; typName := "V" |} ].

(** A pointer to the struct of [info_param]. *)
Definition info_pointer : Param := {| Name := "info"; Type_ := Pointer info_type |}.

(** The package-level scope after the shortcut [ABC] has been declared. *)
Definition abc_declared : Writer :=
  set_scopes [declared (host := ascii_host) "ABC" 623 empty_scope] in_package.

(** The first hook unset, the second and the callback set, no panic. *)
Definition only_second : world :=
  {| is_nil := fun h => String.eqb h "h1"; outcome := fun _ => None |}.

(** Both hooks set and no callback; a call of [h1] panics. *)
Definition unguarded : world :=
  {| is_nil := fun h => String.eqb h panicCallback;
     outcome := fun h => if String.eqb h "h1" then Some "boom" else None |}.

(** A string writer that takes every write, as a [bytes.Buffer] does. *)
Definition buffer_sink : Sink := {|
  Output_StringWriter := true;
  Output_Write := fun _ p => (String.length p, None);
  Output_Write_n := fun _ p => le_n (String.length p);
  Output_Write_short := fun _ p H => False_ind _ (Nat.lt_irrefl _ H)
|}.

(** A writer that takes nothing. *)
Definition closed_sink : Sink := {|
  Output_StringWriter := false;
  Output_Write := fun _ _ => (0, Some "closed");
  Output_Write_n := fun _ p => Nat.le_0_l (String.length p);
  Output_Write_short := fun _ _ _ => ltac:(discriminate)
|}.

(** A package with one build constraint of 8200 bytes and a trace
    without a name. *)
Definition long_package : Package := {|
  Package_ := quiet_pkg;
  BuildConstraints := [string_of_list_ascii (repeat "x"%char 8200)];
  Traces := [mkTrace EmptyString false []]
|}.

(** The runs of the examples over these sinks. *)
Definition run_buffer : res (option error) * Writer :=
  Write (host := ascii_host) (sink := buffer_sink) example_package
    (NewWriter EmptyString go_ctx).

Definition run_closed : res (option error) * Writer :=
  Write (host := ascii_host) (sink := closed_sink) example_package
    (NewWriter EmptyString go_ctx).

Definition run_long : res (option error) * Writer :=
  Write (host := ascii_host) (sink := buffer_sink) long_package
    (NewWriter EmptyString go_ctx).

(** * Properties *)

Section Properties.

Context {host : Host}.

Local Open Scope gen_scope.

(** ** The monad *)

Lemma bind_Ok {A B} (m : M A) (k : A -> M B) w a w' :
  m w = (Ok a, w') -> bind m k w = k a w'.
Proof. unfold bind. intros ->. reflexivity. Qed.

Lemma bind_Panic {A B} (m : M A) (k : A -> M B) w p w' :
  m w = (Panic p, w') -> bind m k w = (Panic p, w').
Proof. unfold bind. intros ->. reflexivity. Qed.

(** ** Scopes *)

Lemma set_free v l w s rest :
  scopes w = s :: rest -> vars s !! v = None ->
  set v l w = (Ok true, set_scopes (declared v l s :: rest) w).
Proof. intros Hs Hv. unfold set, scope_set. rewrite Hs, Hv. reflexivity. Qed.

Lemma set_taken v l w s rest d :
  scopes w = s :: rest -> vars s !! v = Some d ->
  set v l w = (Ok false, w).
Proof.
  intros Hs Hv. unfold set, scope_set. rewrite Hs, Hv.
  f_equal. destruct w; simpl in *; subst; reflexivity.
Qed.

Lemma Back_some w s rest : scopes w = s :: rest -> Back w = (Ok s, w).
Proof. intros Hs. unfold Back, bind, get. rewrite Hs. reflexivity. Qed.

Lemma mustDeclare_free name l w s rest :
  scopes w = s :: rest -> vars s !! name = None ->
  mustDeclare name l w = (Ok tt, set_scopes (declared name l s :: rest) w).
Proof.
  intros Hs Hv. unfold mustDeclare.
  rewrite (bind_Ok _ _ _ _ _ (Back_some _ _ _ Hs)).
  rewrite (bind_Ok _ _ _ _ _ (set_free _ l _ _ _ Hs Hv)). reflexivity.
Qed.

Lemma mustDeclare_taken name l w s rest d :
  scopes w = s :: rest -> vars s !! name = Some d ->
  mustDeclare name l w = (Panic (CantDeclare name (where_ d)), w).
Proof.
  intros Hs Hv. unfold mustDeclare.
  rewrite (bind_Ok _ _ _ _ _ (Back_some _ _ _ Hs)).
  rewrite (bind_Ok _ _ _ _ _ (set_taken _ l _ _ _ _ Hs Hv)). simpl.
  rewrite (bind_Ok _ _ _ _ _ (Back_some _ _ _ Hs)).
  unfold panic, scope_where. rewrite Hv. reflexivity.
Qed.

Lemma capture_taken name l w s rest d :
  scopes w = s :: rest -> vars s !! name = Some d ->
  capture [name] l w = (Panic (CantCapture name), w).
Proof.
  intros Hs Hv. unfold capture.
  rewrite (bind_Ok _ _ _ _ _ (Back_some _ _ _ Hs)). simpl.
  unfold bind at 1.
  rewrite (bind_Ok _ _ _ _ _ (set_taken _ l _ _ _ _ Hs Hv)). reflexivity.
Qed.

(** C8: [mustDeclare] registers a name that is free in the scope at the
    back, at the line of the call; on a name already there it panics with
    the name and the line of the earlier declaration, so a second
    [mustDeclare] of the same name reports the first call site; [capture]
    of a taken name panics as well. *)
Theorem mustDeclare_HardCollision (name : string) (l1 l2 : site) (w : Writer)
    (s : scope) (rest : list scope) :
  scopes w = s :: rest ->
  (vars s !! name = None ->
     mustDeclare name l1 w = (Ok tt, set_scopes (declared name l1 s :: rest) w)
     /\ (mustDeclare name l1 ;; mustDeclare name l2) w
        = (Panic (CantDeclare name (callsite l1)),
           set_scopes (declared name l1 s :: rest) w)
     /\ (mustDeclare name l1 ;; capture [name] l2) w
        = (Panic (CantCapture name), set_scopes (declared name l1 s :: rest) w))
  /\ (forall d, vars s !! name = Some d ->
        mustDeclare name l2 w = (Panic (CantDeclare name (where_ d)), w)
        /\ capture [name] l2 w = (Panic (CantCapture name), w)).
Proof.
  intros Hs. split.
  - intros Hv.
    pose proof (mustDeclare_free name l1 w s rest Hs Hv) as H1.
    assert (Hs' : scopes (set_scopes (declared name l1 s :: rest) w)
                  = declared name l1 s :: rest) by reflexivity.
    assert (Hv' : vars (declared name l1 s) !! name = Some {| where_ := callsite l1 |}).
    { unfold declared; simpl. apply lookup_insert_eq. }
    split; [exact H1|]. split.
    + rewrite (bind_Ok _ _ _ _ _ H1).
      rewrite (mustDeclare_taken _ _ _ _ _ _ Hs' Hv'). reflexivity.
    + rewrite (bind_Ok _ _ _ _ _ H1).
      rewrite (capture_taken _ _ _ _ _ _ Hs' Hv'). reflexivity.
  - intros d Hv. split.
    + eapply mustDeclare_taken; eauto.
    + eapply capture_taken; eauto.
Qed.

(** ** The search of [declare] *)

Lemma isGlobalScope_some w s rest :
  scopes w = s :: rest ->
  isGlobalScope w = (Ok (match rest with [] => true | _ => false end), w).
Proof.
  intros Hs. unfold isGlobalScope, bind, get. rewrite Hs.
  destruct rest; reflexivity.
Qed.

Lemma blocked_cases w s rest v :
  scopes w = s :: rest ->
  blocked w v =
    token_IsKeyword v
    || (match rest with [] => true | _ => false end && pkg_Lookup (pkg w) v)
    || bool_decide (is_Some (vars s !! v)).
Proof. intros Hs. unfold blocked. rewrite Hs. destruct rest; reflexivity. Qed.

Lemma declare_loop_blocked fuel i name l w s rest :
  scopes w = s :: rest ->
  blocked w (candidate name i) = true ->
  declare_loop (S fuel) i name l w = declare_loop fuel (S i) name l w.
Proof.
  intros Hs Hb. rewrite (blocked_cases _ _ _ _ Hs) in Hb.
  cbn [declare_loop]. fold (candidate name i).
  destruct (token_IsKeyword (candidate name i)) eqn:Hk; [reflexivity|].
  rewrite (bind_Ok _ _ _ _ _ (isGlobalScope_some _ _ _ Hs)).
  unfold bind at 1, get.
  simpl in Hb.
  destruct (match rest with [] => true | _ => false end
            && pkg_Lookup (pkg w) (candidate name i)) eqn:Hg; [reflexivity|].
  simpl in Hb. apply bool_decide_eq_true in Hb as [d Hd].
  rewrite (bind_Ok _ _ _ _ _ (set_taken _ l _ _ _ _ Hs Hd)). reflexivity.
Qed.

Lemma declare_loop_free fuel i name l w s rest :
  scopes w = s :: rest ->
  blocked w (candidate name i) = false ->
  declare_loop (S fuel) i name l w
  = (Ok (candidate name i),
     set_scopes (declared (candidate name i) l s :: rest) w).
Proof.
  intros Hs Hb. rewrite (blocked_cases _ _ _ _ Hs) in Hb.
  apply orb_false_iff in Hb as [Hb Hv]. apply orb_false_iff in Hb as [Hk Hg].
  cbn [declare_loop]. fold (candidate name i). rewrite Hk.
  rewrite (bind_Ok _ _ _ _ _ (isGlobalScope_some _ _ _ Hs)).
  unfold bind at 1, get. rewrite Hg.
  apply bool_decide_eq_false in Hv.
  assert (Hn : vars s !! candidate name i = None).
  { destruct (vars s !! candidate name i) eqn:E; [|reflexivity].
    exfalso. apply Hv. eauto. }
  rewrite (bind_Ok _ _ _ _ _ (set_free _ l _ _ _ Hs Hn)). reflexivity.
Qed.

(** The loop stops at the first candidate that is not blocked, provided
    one lies within the rounds granted. *)
Lemma declare_loop_finds name l w s rest :
  scopes w = s :: rest ->
  forall fuel i j,
    i <= j < i + fuel ->
    blocked w (candidate name j) = false ->
    exists j', i <= j' <= j
      /\ (forall k, i <= k < j' -> blocked w (candidate name k) = true)
      /\ blocked w (candidate name j') = false
      /\ declare_loop fuel i name l w
         = (Ok (candidate name j'),
            set_scopes (declared (candidate name j') l s :: rest) w).
Proof.
  intros Hs fuel. induction fuel as [|fuel IH]; intros i j Hj Hfree; [lia|].
  destruct (blocked w (candidate name i)) eqn:Hb.
  - assert (i <> j) by (intros ->; congruence).
    destruct (IH (S i) j ltac:(lia) Hfree) as (j' & Hj' & Hall & Hf & Hrun).
    exists j'. split; [lia|]. split; [|split; [exact Hf|]].
    + intros k Hk. destruct (Nat.eq_dec k i) as [->|Hne]; [exact Hb|].
      apply Hall. lia.
    + rewrite (declare_loop_blocked _ _ _ _ _ _ _ Hs Hb). exact Hrun.
  - exists i. split; [lia|]. split; [intros k Hk; lia|]. split; [exact Hb|].
    apply (declare_loop_free _ _ _ _ _ _ _ Hs Hb).
Qed.

Lemma pretty_N_go_nonempty x s : s <> EmptyString -> pretty_N_go x s <> EmptyString.
Proof.
  revert s. induction (N.lt_wf_0 x) as [x _ IH]; intros s Hs.
  assert (x = 0 \/ 0 < x)%N as [->|Hx] by lia.
  - rewrite pretty_N_go_0. exact Hs.
  - rewrite pretty_N_go_step by exact Hx. apply IH.
    + apply N.div_lt; lia.
    + discriminate.
Qed.

Lemma Itoa_nonempty i : 0 < i -> strconv_Itoa i <> EmptyString.
Proof.
  intros Hi. unfold strconv_Itoa, pretty, pretty_nat, pretty, pretty_N.
  destruct (decide (N.of_nat i = 0%N)) as [E|E]; [lia|].
  rewrite pretty_N_go_step by lia. apply pretty_N_go_nonempty. discriminate.
Qed.

Lemma string_app_empty_r (s : string) : s +:+ EmptyString = s.
Proof.
  induction s as [|a s IH]; [reflexivity|].
  change (String a (s +:+ EmptyString) = String a s). rewrite IH. reflexivity.
Qed.

Lemma candidate_inj name i j : candidate name i = candidate name j -> i = j.
Proof.
  unfold candidate. intros H.
  destruct i as [|i], j as [|j]; simpl in H; [reflexivity| | |].
  - exfalso. rewrite <- (string_app_empty_r name) in H at 1.
    apply (inj (String.app name)) in H. symmetry in H.
    revert H. apply Itoa_nonempty. lia.
  - exfalso. rewrite <- (string_app_empty_r name) in H at 2.
    apply (inj (String.app name)) in H.
    revert H. apply Itoa_nonempty. lia.
  - apply (inj (String.app name)) in H.
    apply (inj (pretty (A := nat))) in H. exact H.
Qed.

(** Every blocked name is a reserved word, a package-scope name or a name
    of the scope at the back: finitely many. *)
Lemma blocked_in w s rest v :
  scopes w = s :: rest ->
  blocked w v = true ->
  In v (keywords ++ ScopeNames (pkg w) ++ map fst (map_to_list (vars s))).
Proof.
  intros Hs Hb. rewrite (blocked_cases _ _ _ _ Hs) in Hb.
  rewrite !in_app_iff.
  apply orb_true_iff in Hb as [Hb|Hb]; [apply orb_true_iff in Hb as [Hb|Hb]|].
  - left. unfold token_IsKeyword in Hb. apply bool_decide_eq_true in Hb.
    apply list_elem_of_In. exact Hb.
  - right; left. apply andb_true_iff in Hb as [_ Hb].
    unfold pkg_Lookup in Hb. apply bool_decide_eq_true in Hb.
    apply list_elem_of_In. exact Hb.
  - right; right. apply bool_decide_eq_true in Hb as [d Hd].
    apply in_map_iff. exists (v, d). split; [reflexivity|].
    apply list_elem_of_In. apply elem_of_map_to_list. exact Hd.
Qed.

(** Within [declare_rounds] rounds the search meets a free candidate. *)
Lemma declare_rounds_enough name w s rest :
  scopes w = s :: rest ->
  exists j, j < declare_rounds w /\ blocked w (candidate name j) = false.
Proof.
  intros Hs.
  set (n := declare_rounds w).
  destruct (existsb (fun j => negb (blocked w (candidate name j))) (seq 0 n)) eqn:E.
  - apply existsb_exists in E as (j & Hj & Hb).
    apply in_seq in Hj. exists j. split; [lia|].
    destruct (blocked w (candidate name j)); [discriminate|reflexivity].
  - exfalso.
    assert (Hall : forall j, j < n -> blocked w (candidate name j) = true).
    { intros j Hj.
      destruct (blocked w (candidate name j)) eqn:Hb; [reflexivity|].
      assert (existsb (fun j => negb (blocked w (candidate name j))) (seq 0 n) = true).
      { apply existsb_exists. exists j. split; [apply in_seq; lia|].
        rewrite Hb. reflexivity. }
      congruence. }
    set (B := keywords ++ ScopeNames (pkg w) ++ map fst (map_to_list (vars s))).
    assert (Hincl : incl (map (candidate name) (seq 0 n)) B).
    { intros v Hv. apply in_map_iff in Hv as (j & <- & Hj).
      apply in_seq in Hj. eapply blocked_in; [exact Hs|]. apply Hall. lia. }
    assert (Hnd : List.NoDup (map (candidate name) (seq 0 n))).
    { apply Finite.Injective_map_NoDup.
      - intros a b. apply candidate_inj.
      - apply seq_NoDup. }
    pose proof (NoDup_incl_length Hnd Hincl) as Hlen.
    rewrite length_map, length_seq in Hlen.
    unfold B in Hlen. rewrite !length_app, length_map in Hlen.
    rewrite length_map_to_list in Hlen.
    unfold n, declare_rounds in Hlen. rewrite Hs in Hlen. lia.
Qed.

Lemma declare_not_predeclared name l w s rest :
  scopes w = s :: rest ->
  isPredeclared name = false ->
  exists j,
    (forall k, k < j -> blocked w (candidate name k) = true)
    /\ blocked w (candidate name j) = false
    /\ declare name l w
       = (Ok (candidate name j),
          set_scopes (declared (candidate name j) l s :: rest) w).
Proof.
  intros Hs Hp.
  destruct (declare_rounds_enough name w s rest Hs) as (j & Hj & Hfree).
  destruct (declare_loop_finds name l w s rest Hs (declare_rounds w) 0 j
              ltac:(lia) Hfree) as (j' & Hj' & Hall & Hf & Hrun).
  exists j'. split; [intros k Hk; apply Hall; lia|]. split; [exact Hf|].
  unfold declare. rewrite Hp.
  unfold bind at 1, ret.
  rewrite (bind_Ok _ _ _ _ _ (Back_some _ _ _ Hs)).
  unfold bind, get. exact Hrun.
Qed.

Lemma Universe_firstChar_fresh : forallb firstChar_fresh Universe = true.
Proof. vm_compute. reflexivity. Qed.

Lemma predeclared_firstChar name :
  isPredeclared name = true ->
  firstChar name = Ok (string_take 1 name)
  /\ isPredeclared (string_take 1 name) = false.
Proof.
  intros Hp. unfold isPredeclared in Hp. apply bool_decide_eq_true in Hp.
  apply list_elem_of_In in Hp.
  pose proof (proj1 (forallb_forall _ _) Universe_firstChar_fresh name Hp) as H.
  unfold firstChar_fresh in H.
  destruct (firstChar name) as [c| |]; try discriminate.
  apply andb_true_iff in H as [Hc Hn].
  apply String.eqb_eq in Hc. subst c. split; [reflexivity|].
  destruct (isPredeclared (string_take 1 name)); [discriminate|reflexivity].
Qed.

(** C9: on a predeclared identifier [declare] searches from the first
    character of the name instead of the name: the result is that
    character, or that character with a numeric suffix, never the
    predeclared word with a suffix. *)
Theorem declare_predeclared_firstChar (name : string) (l : site) (w : Writer)
    (s : scope) (rest : list scope) :
  isPredeclared name = true ->
  scopes w = s :: rest ->
  exists c j,
    firstChar name = Ok c
    /\ c = string_take 1 name
    /\ (forall k, k < j -> blocked w (candidate c k) = true)
    /\ blocked w (candidate c j) = false
    /\ declare name l w
       = (Ok (candidate c j), set_scopes (declared (candidate c j) l s :: rest) w).
Proof.
  intros Hp Hs.
  destruct (predeclared_firstChar name Hp) as [Hc Hn].
  destruct (declare_not_predeclared (string_take 1 name) l w s rest Hs Hn)
    as (j & Hall & Hf & Hrun).
  exists (string_take 1 name), j.
  split; [exact Hc|]. split; [reflexivity|]. split; [exact Hall|].
  split; [exact Hf|].
  rewrite <- Hrun. unfold declare. rewrite Hp, Hn, Hc. reflexivity.
Qed.

Lemma set_scopes_same w : set_scopes (scopes w) w = w.
Proof. destruct w; reflexivity. Qed.

Lemma blocked_declared_other w s rest v v' l :
  scopes w = s :: rest -> v <> v' ->
  blocked (set_scopes (declared v l s :: rest) w) v' = blocked w v'.
Proof.
  intros Hs Hne.
  rewrite (blocked_cases (set_scopes (declared v l s :: rest) w)
             (declared v l s) rest v' eq_refl), (blocked_cases _ _ _ _ Hs).
  simpl. f_equal. unfold declared; simpl.
  rewrite lookup_insert_ne by exact Hne. reflexivity.
Qed.

Lemma blocked_declared_same w s rest v l :
  blocked (set_scopes (declared v l s :: rest) w) v = true.
Proof.
  rewrite (blocked_cases (set_scopes (declared v l s :: rest) w)
             (declared v l s) rest v eq_refl). simpl.
  unfold declared; simpl. rewrite lookup_insert_eq.
  rewrite bool_decide_eq_true_2 by eauto. apply orb_true_r.
Qed.

Lemma declare_fresh_scope name l w :
  isPredeclared name = false -> token_IsKeyword name = false ->
  scopes w <> [] ->
  inNewScope (declare name l) w = (Ok name, w).
Proof.
  intros Hp Hk Hne.
  destruct (scopes w) as [|s0 rest0] eqn:Hw; [congruence|].
  set (w1 := set_scopes ({| vars := ∅ |} :: scopes w) w).
  assert (Hs1 : scopes w1 = {| vars := ∅ |} :: s0 :: rest0).
  { unfold w1. simpl. rewrite Hw. reflexivity. }
  assert (Hfree : blocked w1 (candidate name 0) = false).
  { rewrite (blocked_cases _ _ _ _ Hs1). simpl. unfold candidate. simpl.
    rewrite Hk. simpl. rewrite lookup_empty.
    apply bool_decide_eq_false. intros [? ?]; discriminate. }
  destruct (declare_not_predeclared name l w1 _ _ Hs1 Hp) as (j & Hall & _ & Hrun).
  assert (j = 0) as ->.
  { destruct j; [reflexivity|]. specialize (Hall 0 ltac:(lia)). congruence. }
  unfold inNewScope. unfold bind at 1, modify. fold w1.
  rewrite (bind_Ok _ _ _ _ _ Hrun).
  unfold bind, modify, ret. simpl. f_equal.
  unfold w1. clear -Hw. destruct w; simpl in *; subst; reflexivity.
Qed.

(** C2, as the code has it: for a base name that is not predeclared,
    [declare] returns the first free candidate among the name, the name
    followed by 1, by 2, and so on, and registers it; the name itself when
    it is free; a second [declare] of it in the same scope returns the name
    followed by 1 (when that is free); the same name declared in two
    sibling scopes is returned unchanged in both. *)
Theorem declare_numeric_suffix (name : string) (l l' : site) (w : Writer)
    (s : scope) (rest : list scope) :
  scopes w = s :: rest ->
  isPredeclared name = false ->
  (exists j,
     (forall k, k < j -> blocked w (candidate name k) = true)
     /\ blocked w (candidate name j) = false
     /\ declare name l w
        = (Ok (candidate name j),
           set_scopes (declared (candidate name j) l s :: rest) w))
  /\ (blocked w name = false ->
        declare name l w = (Ok name, set_scopes (declared name l s :: rest) w))
  /\ (blocked w name = false -> blocked w (name +:+ "1") = false ->
        fst ((a <- declare name l ;; b <- declare name l' ;; ret (a, b)) w)
        = Ok (name, name +:+ "1"))
  /\ (token_IsKeyword name = false ->
        (a <- inNewScope (declare name l) ;;
         b <- inNewScope (declare name l') ;; ret (a, b)) w
        = (Ok (name, name), w)).
Proof.
  intros Hs Hp.
  assert (Hfirst : blocked w name = false ->
            declare name l w = (Ok name, set_scopes (declared name l s :: rest) w)).
  { intros Hf.
    destruct (declare_not_predeclared name l w s rest Hs Hp) as (j & Hall & _ & Hrun).
    assert (j = 0) as ->.
    { destruct j; [reflexivity|]. specialize (Hall 0 ltac:(lia)).
      unfold candidate in Hall; simpl in Hall. congruence. }
    exact Hrun. }
  split; [apply declare_not_predeclared; assumption|].
  split; [exact Hfirst|]. split.
  - intros Hf H1.
    rewrite (bind_Ok _ _ _ _ _ (Hfirst Hf)).
    set (w1 := set_scopes (declared name l s :: rest) w).
    assert (Hs1 : scopes w1 = declared name l s :: rest) by reflexivity.
    destruct (declare_not_predeclared name l' w1 _ _ Hs1 Hp) as (j & Hall & Hfj & Hrun).
    assert (Hne : name <> name +:+ "1").
    { intros E. pose proof (candidate_inj name 0 1) as Hinj.
      unfold candidate in Hinj; simpl in Hinj. specialize (Hinj E). lia. }
    assert (j = 1) as ->.
    { destruct j as [|[|j]]; [|reflexivity|].
      - unfold candidate in Hfj; simpl in Hfj. unfold w1 in Hfj.
        rewrite blocked_declared_same in Hfj. discriminate.
      - specialize (Hall 1 ltac:(lia)). unfold candidate in Hall; simpl in Hall.
        unfold w1 in Hall.
        rewrite (blocked_declared_other _ _ _ _ _ _ Hs Hne) in Hall.
        change (strconv_Itoa 1) with "1" in Hall. congruence. }
    rewrite (bind_Ok _ _ _ _ _ Hrun). reflexivity.
  - intros Hk.
    assert (Hne : scopes w <> []) by (rewrite Hs; discriminate).
    rewrite (bind_Ok _ _ _ _ _ (declare_fresh_scope name l w Hp Hk Hne)).
    rewrite (bind_Ok _ _ _ _ _ (declare_fresh_scope name l' w Hp Hk Hne)).
    reflexivity.
Qed.

(** ** Standard-library classification *)

Lemma set_std_set_std x y w : set_std x (set_std y w) = set_std x w.
Proof. destruct w; reflexivity. Qed.

Lemma set_std_same w tb : std w = Some tb -> set_std (Some tb) w = w.
Proof. destruct w; simpl; intros ->; reflexivity. Qed.

Lemma ensure_loop files : forall w tb,
  std w = Some tb ->
  forM_ (fun '(fname, isDir) =>
      if negb isDir then ret tt
      else
        let name := filepath_Base fname in
        if String.eqb name "cmd" || String.eqb name "internal" then ret tt
        else modify (fun w => set_std (Some (<[name := true]> (default ∅ (std w)))) w))
    files w
  = (Ok tt, set_std (Some (stdlib_table files tb)) w).
Proof.
  induction files as [|[fname isDir] files IH]; intros w tb Hstd.
  - simpl. unfold ret. rewrite set_std_same by exact Hstd. reflexivity.
  - cbn [forM_ stdlib_table fold_left].
    destruct isDir; cbn [negb].
    + cbv zeta.
      destruct (String.eqb (filepath_Base fname) "cmd"
                || String.eqb (filepath_Base fname) "internal") eqn:E.
      * unfold bind at 1, ret. apply IH. exact Hstd.
      * unfold bind at 1, modify.
        rewrite (IH _ (<[filepath_Base fname := true]> tb)).
        -- rewrite set_std_set_std. reflexivity.
        -- simpl. rewrite Hstd. reflexivity.
    + unfold bind at 1, ret. apply IH. exact Hstd.
Qed.

Lemma ensureStdLibMapping_first w files :
  std w = None ->
  ReadDir_src (GOROOT (Context w)) = Some files ->
  ensureStdLibMapping w = (Ok tt, set_std (Some (stdlib_table files ∅)) w).
Proof.
  intros Hstd Hdir. unfold ensureStdLibMapping.
  unfold bind at 1, get. rewrite Hstd.
  unfold bind at 1, modify. rewrite Hdir.
  rewrite (ensure_loop files _ ∅) by reflexivity.
  rewrite set_std_set_std. reflexivity.
Qed.

Lemma ensureStdLibMapping_unreadable w :
  std w = None ->
  ReadDir_src (GOROOT (Context w)) = None ->
  ensureStdLibMapping w = (Panic CantListGOROOT, set_std (Some ∅) w).
Proof.
  intros Hstd Hdir. unfold ensureStdLibMapping.
  unfold bind at 1, get. rewrite Hstd.
  unfold bind at 1, modify. rewrite Hdir. reflexivity.
Qed.

Lemma ensureStdLibMapping_built w tb :
  std w = Some tb -> ensureStdLibMapping w = (Ok tt, w).
Proof.
  intros Hstd. unfold ensureStdLibMapping, bind, get. rewrite Hstd. reflexivity.
Qed.

Lemma isStdLib_built path w tb :
  std w = Some tb ->
  isStdLib path w = (Ok (default false (tb !! first_segment path)), w).
Proof.
  intros Hstd. unfold isStdLib.
  rewrite (bind_Ok _ _ _ _ _ (ensureStdLibMapping_built _ _ Hstd)).
  unfold bind, get, ret. rewrite Hstd. reflexivity.
Qed.

Lemma stdlib_table_lookup files : forall m seg,
  plain_names files ->
  default false (stdlib_table files m !! seg)
  = default false (m !! seg) || stdlib_dir files seg.
Proof.
  unfold stdlib_dir.
  induction files as [|[fname isDir] files IH]; intros m seg Hplain.
  - simpl. rewrite orb_false_r. reflexivity.
  - apply Forall_cons in Hplain as [Hf Hplain]. simpl in Hf.
    cbn [stdlib_table fold_left existsb].
    fold (stdlib_table files).
    destruct isDir; cbn [negb andb orb].
    + cbv zeta. rewrite Hf.
      destruct (String.eqb fname "cmd" || String.eqb fname "internal") eqn:E.
      * rewrite (IH _ _ Hplain).
        destruct (String.eqb_spec fname seg) as [->|Hne]; [|reflexivity].
        cbn [orb].
        apply orb_true_iff in E.
        destruct (String.eqb seg "cmd"), (String.eqb seg "internal");
          cbn [negb andb]; try rewrite !andb_false_r; try reflexivity.
        destruct E; discriminate.
      * rewrite (IH _ _ Hplain).
        apply orb_false_iff in E as [E1 E2].
        destruct (String.eqb_spec fname seg) as [->|Hne].
        -- rewrite lookup_insert_eq. rewrite E1, E2. cbn.
           rewrite orb_true_r. reflexivity.
        -- rewrite lookup_insert_ne by exact Hne. reflexivity.
    + rewrite (IH _ _ Hplain). reflexivity.
Qed.

(** ** Strings *)

Lemma defaultBufSize_pos : 0 < defaultBufSize.
Proof. unfold defaultBufSize. lia. Qed.

#[local] Opaque defaultBufSize.

Lemma str_app_assoc (a b c : string) : (a +:+ b) +:+ c = a +:+ (b +:+ c).
Proof.
  induction a as [|x a IH]; [reflexivity|].
  change (String x ((a +:+ b) +:+ c) = String x (a +:+ (b +:+ c))).
  rewrite IH. reflexivity.
Qed.

Lemma str_length_app (a b : string) :
  String.length (a +:+ b) = String.length a + String.length b.
Proof.
  induction a as [|x a IH]; [reflexivity|].
  change (S (String.length (a +:+ b)) = S (String.length a + String.length b)).
  rewrite IH. reflexivity.
Qed.

Lemma str_take_drop n (s : string) : string_take n s +:+ string_drop n s = s.
Proof.
  revert s. induction n as [|n IH]; intros [|x s]; try reflexivity.
  change (String x (string_take n s +:+ string_drop n s) = String x s).
  rewrite IH. reflexivity.
Qed.

Lemma str_length_take n (s : string) :
  n <= String.length s -> String.length (string_take n s) = n.
Proof.
  revert s. induction n as [|n IH]; intros [|x s] H; simpl in *; try lia.
  rewrite IH by lia. reflexivity.
Qed.

Lemma str_length_drop n (s : string) :
  String.length (string_drop n s) = String.length s - n.
Proof.
  revert s. induction n as [|n IH]; intros [|x s]; simpl; try lia. apply IH.
Qed.

Lemma str_cons_app x (s : string) : String x s = String x EmptyString +:+ s.
Proof. reflexivity. Qed.

(** ** The text channel *)

Lemma chan_write_app t1 t2 ch :
  chan_write (t1 +:+ t2) ch = chan_write t2 (chan_write t1 ch).
Proof.
  revert ch. induction t1 as [|c t1 IH]; intros ch; [reflexivity|].
  change (chan_write (t1 +:+ t2) (chan_byte c ch)
          = chan_write t2 (chan_write t1 (chan_byte c ch))).
  apply IH.
Qed.

(** A channel that keeps an error takes nothing; one that keeps none
    never comes to keep one. *)
Lemma chan_write_failed t o b e : chan_write t (o, b, Some e) = (o, b, Some e).
Proof. induction t as [|c t IH]; [reflexivity|exact IH]. Qed.

Lemma chan_byte_sound c ch : snd ch = None -> snd (chan_byte c ch) = None.
Proof.
  destruct ch as [[o b] e]. simpl. intros ->. unfold chan_byte.
  destruct (defaultBufSize - String.length b <=? 0); reflexivity.
Qed.

Lemma chan_write_sound t : forall ch, snd ch = None -> snd (chan_write t ch) = None.
Proof.
  induction t as [|c t IH]; intros ch H; [exact H|].
  apply IH, chan_byte_sound, H.
Qed.

Lemma chan_write_err t : forall ch, snd (chan_write t ch) = snd ch.
Proof.
  induction t as [|c t IH]; intros ch; [reflexivity|].
  cbn [chan_write]. rewrite IH. destruct ch as [[o b] [e|]]; [reflexivity|].
  unfold chan_byte. destruct (defaultBufSize - String.length b <=? 0); reflexivity.
Qed.

Lemma emitted_chan_byte c ch :
  snd ch = None -> emitted (chan_byte c ch) = emitted ch +:+ String c EmptyString.
Proof.
  destruct ch as [[o b] e]. simpl. intros ->. unfold chan_byte, emitted.
  destruct (defaultBufSize - String.length b <=? 0); simpl.
  - reflexivity.
  - rewrite str_app_assoc. reflexivity.
Qed.

Lemma emitted_chan_write t ch :
  snd ch = None -> emitted (chan_write t ch) = emitted ch +:+ t.
Proof.
  revert ch. induction t as [|c t IH]; intros ch H.
  - simpl. rewrite string_app_empty_r. reflexivity.
  - simpl. rewrite IH by (apply chan_byte_sound, H).
    rewrite emitted_chan_byte by exact H. rewrite str_app_assoc. reflexivity.
Qed.

(** A text that fits in the room left is only held back. *)
Lemma chan_write_fits t o b :
  String.length b + String.length t <= defaultBufSize ->
  chan_write t (o, b, None) = (o, b +:+ t, None).
Proof.
  revert b. induction t as [|c t IH]; intros b Hlen.
  - simpl. rewrite string_app_empty_r. reflexivity.
  - simpl in Hlen. cbn [chan_write chan_byte].
    destruct (defaultBufSize - String.length b <=? 0) eqn:E.
    + apply Nat.leb_le in E. lia.
    + rewrite IH.
      * rewrite str_app_assoc. reflexivity.
      * rewrite str_length_app. simpl. lia.
Qed.

(** What [Output] has received only grows, and the buffer never exceeds
    its size. *)
Lemma chan_write_grows t : forall o b e,
  exists x, fst (fst (chan_write t (o, b, e))) = o +:+ x.
Proof.
  intros o b [e|].
  { exists EmptyString. rewrite chan_write_failed, string_app_empty_r. reflexivity. }
  revert o b. induction t as [|c t IH]; intros o b.
  - exists EmptyString. simpl. rewrite string_app_empty_r. reflexivity.
  - cbn [chan_write chan_byte].
    destruct (defaultBufSize - String.length b <=? 0).
    + destruct (IH (o +:+ b) (String c EmptyString)) as [x Hx].
      exists (b +:+ x). rewrite Hx, str_app_assoc. reflexivity.
    + apply IH.
Qed.

Lemma chan_write_bounded t : forall o b e,
  String.length b <= defaultBufSize ->
  String.length (snd (fst (chan_write t (o, b, e)))) <= defaultBufSize.
Proof.
  intros o b [e|]; [rewrite chan_write_failed; auto|].
  revert o b. induction t as [|c t IH]; intros o b Hb; [exact Hb|].
  cbn [chan_write chan_byte].
  destruct (defaultBufSize - String.length b <=? 0) eqn:E.
  - apply IH. simpl. pose proof defaultBufSize_pos. lia.
  - apply IH. apply Nat.leb_gt in E. rewrite str_length_app. simpl. lia.
Qed.

Lemma chan_write_keeps u v t : chan v = chan_write t (chan u) -> bw_err v = bw_err u.
Proof.
  intros H. change (snd (chan v) = snd (chan u)). rewrite H. apply chan_write_err.
Qed.

Lemma with_chan_chan w : with_chan (chan w) w = w.
Proof. destruct w; reflexivity. Qed.

Lemma with_chan_with_chan c1 c2 w : with_chan c2 (with_chan c1 w) = with_chan c2 w.
Proof. destruct w; reflexivity. Qed.

Lemma chan_with_chan ch w : chan (with_chan ch w) = ch.
Proof. destruct w, ch as [[o b] e]; reflexivity. Qed.

(** ** The buffered writer over [plain_sink] *)

Lemma flush_plain w :
  bw_err w = None -> flush w = (None, flushed w).
Proof.
  intros He. unfold flush, flushed. rewrite He.
  destruct (String.length (bw w) =? 0) eqn:E.
  - apply Nat.eqb_eq in E. destruct (bw w) eqn:Hb; [|discriminate].
    rewrite string_app_empty_r. destruct w; simpl in *; subst; reflexivity.
  - unfold Output_put. cbn [Output_Write plain_sink].
    rewrite Nat.ltb_irrefl.
    assert (Ht : string_take (String.length (bw w)) (bw w) = bw w).
    { rewrite <- (string_app_empty_r (string_take _ _)).
      rewrite <- (str_take_drop (String.length (bw w)) (bw w)) at 3.
      f_equal. generalize (bw w). intros s. induction s; simpl; congruence. }
    rewrite Ht. destruct w; reflexivity.
Qed.

Lemma bufio_Flush_plain w :
  bufio_Flush w
  = match bw_err w with
    | Some e => (Ok (Some e), w)
    | None => (Ok None, flushed w)
    end.
Proof.
  unfold bufio_Flush. destruct (bw_err w) as [e|] eqn:He.
  - unfold flush. rewrite He. reflexivity.
  - rewrite (flush_plain w He). reflexivity.
Qed.

Lemma bufio_WriteByte_chan c w :
  bufio_WriteByte c w = (Ok tt, with_chan (chan_byte c (chan w)) w).
Proof.
  unfold bufio_WriteByte, chan, chan_byte.
  destruct (bw_err w) as [e|] eqn:He.
  { destruct w; simpl in *; subst; reflexivity. }
  unfold bufio_Available.
  destruct (defaultBufSize - String.length (bw w) <=? 0).
  - rewrite (flush_plain w He). unfold flushed. destruct w; simpl in *; subst; reflexivity.
  - destruct w; simpl in *; subst; reflexivity.
Qed.

Lemma bufio_WriteString_failed fuel s w e :
  bw_err w = Some e -> bufio_WriteString_loop fuel s w = (Ok tt, w).
Proof.
  intros He. destruct fuel; cbn [bufio_WriteString_loop]; rewrite He, andb_false_r;
    reflexivity.
Qed.

Lemma bufio_WriteString_loop_chan fuel : forall s w,
  String.length s < fuel \/ (String.length s <= fuel /\ 0 < bufio_Available w) ->
  bufio_WriteString_loop fuel s w = (Ok tt, with_chan (chan_write s (chan w)) w).
Proof.
  intros s w Hf.
  destruct (bw_err w) as [e|] eqn:He.
  { rewrite (bufio_WriteString_failed _ _ _ _ He). unfold chan.
    rewrite He, chan_write_failed. rewrite <- He. f_equal. symmetry. apply with_chan_chan. }
  revert s w Hf He.
  induction fuel as [|fuel IH]; intros s w Hf He.
  - destruct s; [|simpl in Hf; lia].
    cbn [bufio_WriteString_loop String.length chan_write].
    rewrite with_chan_chan, He.
    destruct (bufio_Available w <? 0) eqn:E; [apply Nat.ltb_lt in E; lia|].
    cbn [andb]. rewrite string_app_empty_r. destruct w; reflexivity.
  - cbn [bufio_WriteString_loop]. rewrite He, andb_true_r.
    destruct (bufio_Available w <? String.length s) eqn:E.
    + apply Nat.ltb_lt in E.
      cbn [Output_StringWriter plain_sink]. rewrite andb_false_r.
      set (n := bufio_Available w) in *.
      set (b2 := bw w +:+ string_take n s).
      rewrite (flush_plain (set_bw b2 w)) by (destruct w; exact He).
      cbn [snd].
      rewrite IH.
      2:{ right. split.
          - rewrite str_length_drop. lia.
          - unfold bufio_Available, flushed. simpl. pose proof defaultBufSize_pos. lia. }
      2:{ unfold flushed. destruct w; exact He. }
      assert (Hfull : (defaultBufSize - String.length b2 <=? 0) = true).
      { apply Nat.leb_le. unfold b2. rewrite str_length_app.
        rewrite str_length_take by lia. unfold n, bufio_Available. lia. }
      assert (H1 : chan_write (string_take n s) (chan w) = (Output w, b2, None)).
      { unfold chan, b2. rewrite He.
        destruct (Nat.le_gt_cases (String.length (bw w)) defaultBufSize) as [Hle|Hgt].
        - apply chan_write_fits. rewrite str_length_take by lia.
          unfold n, bufio_Available. lia.
        - assert (n = 0) as -> by (unfold n, bufio_Available; lia).
          simpl. rewrite string_app_empty_r. reflexivity. }
      rewrite <- (str_take_drop n s) at 2.
      rewrite chan_write_app, H1.
      destruct (string_drop n s) as [|c r] eqn:Hd.
      { pose proof (str_length_drop n s) as Hl. rewrite Hd in Hl. simpl in Hl. lia. }
      cbn [chan_write chan_byte]. rewrite Hfull.
      assert (Hc : chan_byte c (chan (flushed (set_bw b2 w)))
                   = (Output w +:+ b2, String c EmptyString, None)).
      { unfold chan_byte, chan, flushed. cbn. rewrite He.
        destruct (defaultBufSize - 0 <=? 0) eqn:E0; [|reflexivity].
        apply Nat.leb_le in E0. pose proof defaultBufSize_pos. lia. }
      rewrite Hc. destruct w; reflexivity.
    + apply Nat.ltb_ge in E. cbn [andb]. f_equal.
      destruct s as [|c r].
      * cbn [chan_write]. rewrite with_chan_chan, string_app_empty_r.
        destruct w; reflexivity.
      * unfold chan. rewrite He, chan_write_fits.
        -- destruct w; simpl in *; subst; reflexivity.
        -- unfold bufio_Available in E. simpl in *. lia.
Qed.

Lemma bufio_WriteString_chan s w :
  bufio_WriteString s w = (Ok tt, with_chan (chan_write s (chan w)) w).
Proof. apply bufio_WriteString_loop_chan. left. lia. Qed.

(** ** Actions that depend on little and change little *)

Lemma same_text_refl w1 w2 : same_text w1 w1 w2 w2.
Proof. exists EmptyString. split; reflexivity. Qed.

Lemma same_text_trans w1 w1' w1'' w2 w2' w2'' :
  same_text w1 w1' w2 w2' -> same_text w1' w1'' w2' w2'' ->
  same_text w1 w1'' w2 w2''.
Proof.
  intros (t & H1 & H2) (t' & H1' & H2'). exists (t +:+ t').
  rewrite !chan_write_app, <- H1, <- H2. split; assumption.
Qed.

Lemma alike_in_refl w : alike_in w w.
Proof. repeat split. Qed.

Lemma alike_in_out w1 w2 : alike_in w1 w2 -> alike_out w1 w2.
Proof.
  intros (Hc & Hh & _). split; [exact Hc|]. unfold nil_scopes.
  destruct (scopes w1), (scopes w2); simpl in Hh; congruence.
Qed.

Lemma OwnScope_InScope {A} (m : M A) : OwnScope m -> InScope m.
Proof.
  intros [Hu Hr]. split.
  - intros w a w' E. destruct (Hu w a w' E) as [Hf Hs].
    unfold nil_scopes. rewrite Hs. auto.
  - intros w1 w2 Hal.
    destruct (Hr w1 w2 (alike_in_out _ _ Hal)) as (Hres & Ht & Hc).
    split; [exact Hres|]. split; [exact Ht|].
    intros a Ha.
    destruct (m w1) as [r1 w1'] eqn:E1, (m w2) as [r2 w2'] eqn:E2.
    simpl in Hres, Ha, Hc |- *.
    assert (r2 = Ok a) by congruence. subst r1 r2.
    destruct (Hu _ _ _ E1) as [_ Hs1], (Hu _ _ _ E2) as [_ Hs2].
    destruct Hal as (_ & Hh & Hg).
    split; [apply (Hc a eq_refl)|]. rewrite Hs1, Hs2. auto.
Qed.

Lemma InScope_Emits {A} (m : M A) : InScope m -> Emits m.
Proof.
  intros [_ Hr] w. destruct (Hr w w (alike_in_refl w)) as (_ & (t & Ht & _) & _).
  exists t. exact Ht.
Qed.

Lemma Emits_bind {A B} (m : M A) (k : A -> M B) :
  Emits m -> (forall a, Emits (k a)) -> Emits (bind m k).
Proof.
  intros Hm Hk w. unfold bind.
  destruct (Hm w) as [t Ht].
  destruct (m w) as [[a| |] w'] eqn:E; simpl in *.
  - destruct (Hk a w') as [t' Ht']. exists (t +:+ t').
    rewrite chan_write_app, <- Ht. exact Ht'.
  - exists t. exact Ht.
  - exists t. exact Ht.
Qed.

Lemma InScope_bind {A B} (m : M A) (k : A -> M B) :
  InScope m -> (forall a, InScope (k a)) -> InScope (bind m k).
Proof.
  intros [Hmu Hmr] Hk. split.
  - intros w b w'' E. unfold bind in E.
    destruct (m w) as [[a| |] w'] eqn:Em; try discriminate.
    destruct (Hmu _ _ _ Em) as (F1 & T1 & N1).
    destruct (proj1 (Hk a) _ _ _ E) as (F2 & T2 & N2).
    repeat split; congruence.
  - intros w1 w2 Hal. unfold bind.
    destruct (Hmr w1 w2 Hal) as (Hres & Ht & Hpost).
    destruct (m w1) as [r1 w1'] eqn:E1, (m w2) as [r2 w2'] eqn:E2.
    simpl in *. subst r2.
    destruct r1 as [a| |].
    + specialize (Hpost a eq_refl).
      destruct (proj2 (Hk a) _ _ Hpost) as (Hres' & Ht' & Hpost').
      split; [exact Hres'|]. split; [|exact Hpost'].
      eapply same_text_trans; eassumption.
    + simpl. split; [reflexivity|]. split; [exact Ht|]. intros; discriminate.
    + simpl. split; [reflexivity|]. split; [exact Ht|]. intros; discriminate.
Qed.

Lemma OwnScope_bind {A B} (m : M A) (k : A -> M B) :
  OwnScope m -> (forall a, OwnScope (k a)) -> OwnScope (bind m k).
Proof.
  intros [Hmu Hmr] Hk. split.
  - intros w b w'' E. unfold bind in E.
    destruct (m w) as [[a| |] w'] eqn:Em; try discriminate.
    destruct (Hmu _ _ _ Em) as (F1 & S1).
    destruct (proj1 (Hk a) _ _ _ E) as (F2 & S2).
    split; congruence.
  - intros w1 w2 Hal. unfold bind.
    destruct (Hmr w1 w2 Hal) as (Hres & Ht & Hpost).
    destruct (m w1) as [r1 w1'] eqn:E1, (m w2) as [r2 w2'] eqn:E2.
    simpl in *. subst r2.
    destruct r1 as [a| |].
    + specialize (Hpost a eq_refl).
      assert (Hal' : alike_out w1' w2').
      { split; [exact Hpost|]. unfold nil_scopes.
        rewrite (proj2 (Hmu _ _ _ E1)), (proj2 (Hmu _ _ _ E2)). apply Hal. }
      destruct (proj2 (Hk a) _ _ Hal') as (Hres' & Ht' & Hpost').
      split; [exact Hres'|]. split; [|exact Hpost'].
      eapply same_text_trans; eassumption.
    + simpl. split; [reflexivity|]. split; [exact Ht|]. intros; discriminate.
    + simpl. split; [reflexivity|]. split; [exact Ht|]. intros; discriminate.
Qed.

Lemma OwnScope_ret {A} (a : A) : OwnScope (ret a).
Proof.
  split.
  - intros w b w' E. inversion E; subst. auto.
  - intros w1 w2 [Hc Hn]. simpl. split; [reflexivity|].
    split; [apply same_text_refl|]. intros; exact Hc.
Qed.

Lemma OwnScope_lift {A} (r : res A) : OwnScope (lift r).
Proof.
  split.
  - intros w b w' E. inversion E; subst. auto.
  - intros w1 w2 [Hc Hn]. simpl. split; [reflexivity|].
    split; [apply same_text_refl|]. intros; exact Hc.
Qed.

Lemma OwnScope_panic {A} (p : panic_value) : OwnScope (panic (A := A) p).
Proof.
  split.
  - intros w b w' E. inversion E.
  - intros w1 w2 [Hc Hn]. simpl. split; [reflexivity|].
    split; [apply same_text_refl|]. intros; discriminate.
Qed.

(** Reading the writer is harmless when the continuation is the same
    action for writers that are alike. *)
Lemma InScope_get {B} (k : Writer -> M B) :
  (forall w, InScope (k w)) ->
  (forall w1 w2, alike_in w1 w2 -> k w1 = k w2) ->
  InScope (bind get k).
Proof.
  intros Hk Hsame. split.
  - intros w b w' E. unfold bind, get in E. apply (proj1 (Hk w) _ _ _ E).
  - intros w1 w2 Hal. unfold bind, get.
    rewrite (Hsame w1 w2 Hal). apply (proj2 (Hk w2) _ _ Hal).
Qed.

Lemma OwnScope_get {B} (k : Writer -> M B) :
  (forall w, OwnScope (k w)) ->
  (forall w1 w2, alike_out w1 w2 -> k w1 = k w2) ->
  OwnScope (bind get k).
Proof.
  intros Hk Hsame. split.
  - intros w b w' E. unfold bind, get in E. apply (proj1 (Hk w) _ _ _ E).
  - intros w1 w2 Hal. unfold bind, get.
    rewrite (Hsame w1 w2 Hal). apply (proj2 (Hk w2) _ _ Hal).
Qed.

Lemma OwnScope_WriteByte c : OwnScope (bufio_WriteByte c).
Proof.
  split.
  - intros w a w' E. rewrite bufio_WriteByte_chan in E. inversion E; subst.
    destruct w; auto.
  - intros w1 w2 [Hc Hn]. rewrite !bufio_WriteByte_chan. simpl.
    split; [reflexivity|]. split.
    + exists (String c EmptyString). rewrite !chan_with_chan. split; reflexivity.
    + intros _ _. destruct w1, w2; exact Hc.
Qed.

Lemma OwnScope_WriteString s : OwnScope (bufio_WriteString s).
Proof.
  split.
  - intros w a w' E. rewrite bufio_WriteString_chan in E. inversion E; subst.
    destruct w; auto.
  - intros w1 w2 [Hc Hn]. rewrite !bufio_WriteString_chan. simpl.
    split; [reflexivity|]. split.
    + exists s. rewrite !chan_with_chan. split; reflexivity.
    + intros _ _. destruct w1, w2; exact Hc.
Qed.

Lemma OwnScope_set_atEOL b : OwnScope (modify (set_atEOL b)).
Proof.
  split.
  - intros w a w' E. inversion E; subst. destruct w; auto.
  - intros w1 w2 [Hc Hn]. simpl. split; [reflexivity|]. split.
    + exists EmptyString. destruct w1, w2; split; reflexivity.
    + intros _ _. unfold core in *. destruct w1, w2; simpl in *. congruence.
Qed.

Lemma OwnScope_forM_ {A} (f : A -> M unit) l :
  (forall x, OwnScope (f x)) -> OwnScope (forM_ f l).
Proof.
  intros Hf. induction l as [|x l IH]; simpl.
  - apply OwnScope_ret.
  - apply OwnScope_bind; [apply Hf|intros _; exact IH].
Qed.

Lemma InScope_forM_ {A} (f : A -> M unit) l :
  (forall x, InScope (f x)) -> InScope (forM_ f l).
Proof.
  intros Hf. induction l as [|x l IH]; simpl.
  - apply OwnScope_InScope, OwnScope_ret.
  - apply InScope_bind; [apply Hf|intros _; exact IH].
Qed.

Lemma InScope_forMi_ {A} (f : nat -> A -> M unit) l :
  (forall i x, InScope (f i x)) -> forall i, InScope (forMi_ f i l).
Proof.
  intros Hf. induction l as [|x l IH]; intros i; simpl.
  - apply OwnScope_InScope, OwnScope_ret.
  - apply InScope_bind; [apply Hf|intros _; apply IH].
Qed.

Lemma OwnScope_forMi_ {A} (f : nat -> A -> M unit) l :
  (forall i x, OwnScope (f i x)) -> forall i, OwnScope (forMi_ f i l).
Proof.
  intros Hf. induction l as [|x l IH]; intros i; simpl.
  - apply OwnScope_ret.
  - apply OwnScope_bind; [apply Hf|intros _; apply IH].
Qed.

Lemma InScope_mapMi {A B} (f : nat -> A -> M B) l :
  (forall i x, InScope (f i x)) -> forall i, InScope (mapMi f i l).
Proof.
  intros Hf. induction l as [|x l IH]; intros i; simpl.
  - apply OwnScope_InScope, OwnScope_ret.
  - apply InScope_bind; [apply Hf|intros y].
    apply InScope_bind; [apply IH|intros ys]. apply OwnScope_InScope, OwnScope_ret.
Qed.

Lemma alike_out_atEOL w1 w2 : alike_out w1 w2 -> atEOL w1 = atEOL w2.
Proof. intros [Hc _]. unfold core in Hc. congruence. Qed.

Lemma alike_out_depth w1 w2 : alike_out w1 w2 -> depth w1 = depth w2.
Proof. intros [Hc _]. unfold core in Hc. congruence. Qed.

Lemma alike_out_pkg w1 w2 : alike_out w1 w2 -> pkg w1 = pkg w2.
Proof. intros [Hc _]. unfold core in Hc. congruence. Qed.

Ltac alike_rewrite :=
  let w1 := fresh "w1" in
  let w2 := fresh "w2" in
  let Hal := fresh "Hal" in
  intros w1 w2 Hal;
  try (apply alike_in_out in Hal);
  rewrite ?(alike_out_atEOL _ _ Hal), ?(alike_out_depth _ _ Hal),
          ?(alike_out_pkg _ _ Hal);
  reflexivity.

Lemma OwnScope_code args : OwnScope (code args).
Proof.
  unfold code. apply OwnScope_get; [intros w|alike_rewrite].
  apply OwnScope_bind.
  - destruct (atEOL w); [|apply OwnScope_ret].
    apply OwnScope_bind; [|intros _; apply OwnScope_set_atEOL].
    apply OwnScope_forM_. intros _. apply OwnScope_WriteByte.
  - intros _. apply OwnScope_forM_. intros x. apply OwnScope_WriteString.
Qed.

Lemma OwnScope_line args : OwnScope (line args).
Proof.
  unfold line. apply OwnScope_bind; [apply OwnScope_code|intros _].
  apply OwnScope_bind; [apply OwnScope_WriteByte|intros _].
  apply OwnScope_set_atEOL.
Qed.

Lemma OwnScope_typeString t : OwnScope (typeString t).
Proof.
  unfold typeString. apply OwnScope_get; [intros w; apply OwnScope_ret|alike_rewrite].
Qed.

Lemma OwnScope_index l i : OwnScope (index l i).
Proof. unfold index. destruct (l !! i); [apply OwnScope_ret|apply OwnScope_panic]. Qed.

Lemma InScope_Back : InScope Back.
Proof.
  unfold Back. apply InScope_get.
  - intros w. destruct (scopes w); apply OwnScope_InScope;
      [apply OwnScope_panic|apply OwnScope_ret].
  - intros w1 w2 (_ & Hh & _).
    destruct (scopes w1), (scopes w2); simpl in Hh; congruence.
Qed.

Lemma InScope_isGlobalScope : InScope isGlobalScope.
Proof.
  unfold isGlobalScope. apply InScope_get.
  - intros w. destruct (scopes w) as [|? [|]]; apply OwnScope_InScope;
      first [apply OwnScope_panic|apply OwnScope_ret].
  - intros w1 w2 (_ & Hh & Hg).
    destruct (scopes w1) as [|? [|]], (scopes w2) as [|? [|]];
      simpl in Hh, Hg; congruence.
Qed.

Lemma InScope_set v l : InScope (set v l).
Proof.
  split.
  - intros w a w' E. unfold set in E.
    destruct (scopes w) as [|s rest] eqn:Hs; [discriminate|].
    destruct (scope_set v l s) as [ok s']. inversion E; subst.
    unfold nil_scopes. rewrite Hs. destruct w; simpl. auto.
  - intros w1 w2 (Hc & Hh & Hg). unfold set.
    destruct (scopes w1) as [|s1 rest1] eqn:Hs1,
             (scopes w2) as [|s2 rest2] eqn:Hs2; simpl in Hh; try discriminate.
    + simpl. split; [reflexivity|]. split; [apply same_text_refl|].
      intros; discriminate.
    + assert (s1 = s2) by congruence. subst s2.
      destruct (scope_set v l s1) as [ok s']. simpl.
      split; [reflexivity|]. split.
      * exists EmptyString. destruct w1, w2; split; reflexivity.
      * intros _ _. split; [|split].
        -- unfold core in *. destruct w1, w2; simpl in *. exact Hc.
        -- reflexivity.
        -- simpl. simpl in Hg. exact Hg.
Qed.

Lemma InScope_declare_loop name l fuel : forall i, InScope (declare_loop fuel i name l).
Proof.
  induction fuel as [|fuel IH]; intros i.
  - apply OwnScope_InScope, OwnScope_lift.
  - cbn [declare_loop].
    destruct (token_IsKeyword _); [apply IH|].
    apply InScope_bind; [apply InScope_isGlobalScope|intros g].
    apply InScope_get; [intros w|alike_rewrite].
    destruct (g && pkg_Lookup (pkg w) _); [apply IH|].
    apply InScope_bind; [apply InScope_set|intros ok].
    destruct ok; [apply OwnScope_InScope, OwnScope_ret|apply IH].
Qed.

Lemma declare_rounds_alike w1 w2 : alike_in w1 w2 -> declare_rounds w1 = declare_rounds w2.
Proof.
  intros (Hc & Hh & _). unfold declare_rounds.
  assert (pkg w1 = pkg w2) as -> by (unfold core in Hc; congruence).
  destruct (scopes w1), (scopes w2); simpl in Hh; congruence.
Qed.

Lemma InScope_declare name l : InScope (declare name l).
Proof.
  unfold declare.
  apply InScope_bind.
  - destruct (isPredeclared name); apply OwnScope_InScope;
      [apply OwnScope_lift|apply OwnScope_ret].
  - intros name'. apply InScope_bind; [apply InScope_Back|intros _].
    apply InScope_get; [intros w; apply InScope_declare_loop|].
    intros w1 w2 Hal. rewrite (declare_rounds_alike _ _ Hal). reflexivity.
Qed.

Lemma InScope_capture vs l : InScope (capture vs l).
Proof.
  unfold capture. apply InScope_bind; [apply InScope_Back|intros _].
  apply InScope_forM_. intros v.
  apply InScope_bind; [apply InScope_set|intros ok].
  destruct ok; apply OwnScope_InScope; [apply OwnScope_ret|apply OwnScope_panic].
Qed.

Lemma InScope_mustDeclare name l : InScope (mustDeclare name l).
Proof.
  unfold mustDeclare. apply InScope_bind; [apply InScope_Back|intros _].
  apply InScope_bind; [apply InScope_set|intros ok].
  destruct ok; simpl; [apply OwnScope_InScope, OwnScope_ret|].
  apply InScope_bind; [apply InScope_Back|intros s].
  apply OwnScope_InScope, OwnScope_panic.
Qed.

Lemma OwnScope_newScope (fn : M unit) : InScope fn -> OwnScope (newScope fn).
Proof.
  intros [Hu Hr]. unfold newScope. split.
  - intros w a w' E. unfold bind, modify in E.
    destruct (fn _) as [[[]| |] w2] eqn:Ef; try discriminate.
    inversion E; subst. clear E.
    destruct (Hu _ _ _ Ef) as (Hf & Ht & Hn).
    simpl in Ht. split.
    + unfold fixed in *. destruct w, w2; simpl in *. exact Hf.
    + simpl. rewrite Ht. destruct w; reflexivity.
  - intros w1 w2 [Hc Hn]. unfold bind, modify.
    set (p1 := set_scopes ({| vars := ∅ |} :: scopes w1) w1).
    set (p2 := set_scopes ({| vars := ∅ |} :: scopes w2) w2).
    assert (Hal : alike_in p1 p2).
    { split; [|split].
      - unfold core in *. destruct w1, w2; simpl in *. exact Hc.
      - reflexivity.
      - unfold nil_scopes in Hn. unfold p1, p2. simpl.
        destruct (scopes w1), (scopes w2); simpl; congruence. }
    destruct (Hr p1 p2 Hal) as (Hres & Ht & Hpost).
    assert (Hcp1 : chan p1 = chan w1) by (destruct w1; reflexivity).
    assert (Hcp2 : chan p2 = chan w2) by (destruct w2; reflexivity).
    destruct (fn p1) as [r1 q1] eqn:E1, (fn p2) as [r2 q2] eqn:E2.
    simpl in Hres, Ht, Hpost. subst r2.
    destruct Ht as (t & Ht1 & Ht2). rewrite Hcp1 in Ht1. rewrite Hcp2 in Ht2.
    destruct r1 as [[]| |]; simpl.
    + split; [reflexivity|]. split.
      * exists t. split; [destruct q1|destruct q2]; assumption.
      * intros _ _. destruct (Hpost tt eq_refl) as (Hc' & _).
        unfold core in *. destruct q1, q2; simpl in *. exact Hc'.
    + split; [reflexivity|]. split; [exists t; auto|intros; discriminate].
    + split; [reflexivity|]. split; [exists t; auto|intros; discriminate].
Qed.

Lemma OwnScope_block (fn : M unit) : InScope fn -> OwnScope (block fn).
Proof.
  intros Hfn. pose proof (OwnScope_newScope fn Hfn) as [Hu Hr].
  unfold block. split.
  - intros w a w' E. unfold bind, modify in E.
    destruct (newScope fn _) as [[[]| |] w2] eqn:Ef; try discriminate.
    inversion E; subst. clear E.
    destruct (Hu _ _ _ Ef) as (Hf & Hs). simpl in Hs. split.
    + unfold fixed in *. destruct w, w2; simpl in *. inversion Hf; subst. reflexivity.
    + simpl. exact Hs.
  - intros w1 w2 [Hc Hn]. unfold bind, modify.
    set (p1 := set_depth (S (depth w1)) w1).
    set (p2 := set_depth (S (depth w2)) w2).
    assert (Hal : alike_out p1 p2).
    { split.
      - unfold core in *. destruct w1, w2; simpl in *. congruence.
      - unfold nil_scopes in *. destruct w1, w2; exact Hn. }
    destruct (Hr p1 p2 Hal) as (Hres & Ht & Hpost).
    assert (Hcp1 : chan p1 = chan w1) by (destruct w1; reflexivity).
    assert (Hcp2 : chan p2 = chan w2) by (destruct w2; reflexivity).
    destruct (newScope fn p1) as [r1 q1] eqn:E1, (newScope fn p2) as [r2 q2] eqn:E2.
    simpl in Hres, Ht, Hpost. subst r2.
    destruct Ht as (t & Ht1 & Ht2). rewrite Hcp1 in Ht1. rewrite Hcp2 in Ht2.
    destruct r1 as [[]| |]; simpl.
    + split; [reflexivity|]. split.
      * exists t. split; [destruct q1|destruct q2]; assumption.
      * intros _ _. pose proof (Hpost tt eq_refl) as Hc'.
        unfold core in *. destruct q1, q2; simpl in *. congruence.
    + split; [reflexivity|]. split; [exists t; auto|intros; discriminate].
    + split; [reflexivity|]. split; [exists t; auto|intros; discriminate].
Qed.

(** Induction on a function through the functions among its results. *)
Lemma Func_induction (P : Func -> Prop) :
  (forall params results,
     (forall x, List.In (ResFunc x) results -> P x) -> P (mkFunc params results)) ->
  forall fn, P fn.
Proof.
  intros H. fix IH 1. intros [params results]. apply H.
  induction results as [|r rs IHrs]; intros x Hx.
  - destruct Hx.
  - destruct r as [y|t].
    + destruct Hx as [E|Hx]; [|apply IHrs; exact Hx].
      injection E as E'. rewrite <- E'. apply IH.
    + destruct Hx as [E|Hx]; [discriminate|apply IHrs; exact Hx].
Qed.

Create HintDb emit discriminated.

Ltac own_step :=
  lazymatch goal with
  | |- OwnScope (ret _) => apply OwnScope_ret
  | |- OwnScope (lift _) => apply OwnScope_lift
  | |- OwnScope (panic _) => apply OwnScope_panic
  | |- OwnScope (code _) => apply OwnScope_code
  | |- OwnScope (line _) => apply OwnScope_line
  | |- OwnScope (typeString _) => apply OwnScope_typeString
  | |- OwnScope (index _ _) => apply OwnScope_index
  | |- OwnScope (bufio_WriteByte _) => apply OwnScope_WriteByte
  | |- OwnScope (modify (set_atEOL _)) => apply OwnScope_set_atEOL
  | |- OwnScope (newScope _) => apply OwnScope_newScope
  | |- OwnScope (block _) => apply OwnScope_block
  | |- OwnScope (forM_ _ _) => apply OwnScope_forM_; intro
  | |- OwnScope (forMi_ _ _ _) => apply OwnScope_forMi_; intros
  | |- OwnScope (bind _ _) => apply OwnScope_bind; [|intro]
  | |- OwnScope (if ?b then _ else _) => destruct b
  | |- OwnScope (match ?x with _ => _ end) => destruct x
  | |- OwnScope _ => solve [auto with emit]
  end.

Ltac emit_step :=
  lazymatch goal with
  | |- OwnScope _ => own_step
  | |- InScope (declare _ _) => apply InScope_declare
  | |- InScope (capture _ _) => apply InScope_capture
  | |- InScope (mustDeclare _ _) => apply InScope_mustDeclare
  | |- InScope (forM_ _ _) => apply InScope_forM_; intro
  | |- InScope (forMi_ _ _ _) => apply InScope_forMi_; intros
  | |- InScope (mapMi _ _ _) => apply InScope_mapMi; intros
  | |- InScope (bind _ _) => apply InScope_bind; [|intro]
  | |- InScope (if ?b then _ else _) => destruct b
  | |- InScope (match ?x with _ => _ end) => destruct x
  | |- InScope _ => first [solve [auto with emit] | (apply OwnScope_InScope; own_step)]
  end.

Ltac emit := repeat emit_step.

Ltac emit_rec IH :=
  emit; first [apply IH | apply OwnScope_InScope; apply IH]; left; reflexivity.

Lemma results_loop_OwnScope (f : Func -> M unit) results :
  (forall x, List.In (ResFunc x) results -> OwnScope (f x)) ->
  OwnScope ((fix results_loop (rs : list FuncResult) : M unit :=
               match rs with
               | [] => ret tt
               | ResFunc x :: rs' => f x ;; results_loop rs'
               | ResTrace x :: rs' => code [TName x; " "] ;; results_loop rs'
               end) results).
Proof.
  induction results as [|[x|t] rs IHrs]; intros IH.
  - emit.
  - emit; [apply IH; left; reflexivity|].
    apply IHrs. intros y Hy. apply IH. right. exact Hy.
  - emit. apply IHrs. intros y Hy. apply IH. right. exact Hy.
Qed.

Lemma OwnScope_call args : OwnScope (call args).
Proof. unfold call. emit. Qed.
#[local] Hint Resolve OwnScope_call : emit.

Lemma InScope_funcParam p : InScope (funcParam p).
Proof. unfold funcParam. emit. Qed.
#[local] Hint Resolve InScope_funcParam : emit.

Lemma InScope_funcParams ps : InScope (funcParams ps).
Proof. unfold funcParams. emit. Qed.
#[local] Hint Resolve InScope_funcParams : emit.

Lemma OwnScope_funcParamSign p : OwnScope (funcParamSign p).
Proof. unfold funcParamSign. emit. Qed.
#[local] Hint Resolve OwnScope_funcParamSign : emit.

Lemma OwnScope_funcSignatureFlags fl : forall fn, OwnScope (funcSignatureFlags fn fl).
Proof.
  apply Func_induction. intros params results IH.
  cbn [funcSignatureFlags]. emit;
    apply (results_loop_OwnScope (fun x => funcSignatureFlags x fl)); exact IH.
Qed.
#[local] Hint Resolve OwnScope_funcSignatureFlags : emit.

Lemma OwnScope_funcResultsFlags fn fl : OwnScope (funcResultsFlags fn fl).
Proof. unfold funcResultsFlags. emit. Qed.
#[local] Hint Resolve OwnScope_funcResultsFlags : emit.

Lemma OwnScope_funcResults fn : OwnScope (funcResults fn).
Proof. unfold funcResults. emit. Qed.
#[local] Hint Resolve OwnScope_funcResults : emit.

Lemma OwnScope_funcSignature fn : OwnScope (funcSignature fn).
Proof. unfold funcSignature. emit. Qed.
#[local] Hint Resolve OwnScope_funcSignature : emit.

Lemma OwnScope_zeroReturn : forall fn, OwnScope (zeroReturn fn).
Proof.
  apply Func_induction. intros params results IH.
  cbn [zeroReturn]. destruct results as [|[x|t] rs]; emit_rec IH.
Qed.
#[local] Hint Resolve OwnScope_zeroReturn : emit.

Lemma OwnScope_isZero trace : OwnScope (isZero trace).
Proof. unfold isZero. emit. Qed.
#[local] Hint Resolve OwnScope_isZero : emit.

Lemma OwnScope_composeHookCall : forall fn h1 h2, OwnScope (composeHookCall fn h1 h2).
Proof.
  apply (Func_induction (fun fn => forall h1 h2, OwnScope (composeHookCall fn h1 h2))).
  intros params results IH h1 h2.
  cbn [composeHookCall]. emit_rec IH.
Qed.
#[local] Hint Resolve OwnScope_composeHookCall : emit.

Lemma OwnScope_composeHook h t1 t2 dst : OwnScope (composeHook h t1 t2 dst).
Proof. unfold composeHook. emit. Qed.
#[local] Hint Resolve OwnScope_composeHook : emit.

Lemma OwnScope_compose trace : OwnScope (compose trace).
Proof. unfold compose. emit. Qed.
#[local] Hint Resolve OwnScope_compose : emit.

Lemma OwnScope_options trace : OwnScope (options trace).
Proof. unfold options. emit. Qed.
#[local] Hint Resolve OwnScope_options : emit.

Lemma InScope_hookFuncCall : forall fn name args, InScope (hookFuncCall fn name args).
Proof.
  apply (Func_induction (fun fn => forall name args, InScope (hookFuncCall fn name args))).
  intros params results IH name args.
  cbn [hookFuncCall]. emit_rec IH.
Qed.
#[local] Hint Resolve InScope_hookFuncCall : emit.

Lemma OwnScope_hook trace h : OwnScope (hook trace h).
Proof. unfold hook. emit. Qed.
#[local] Hint Resolve OwnScope_hook : emit.

Lemma InScope_declareParams src : InScope (declareParams src).
Proof. unfold declareParams. emit. Qed.
#[local] Hint Resolve InScope_declareParams : emit.

Lemma OwnScope_constructStruct_fields p s : forall vars,
  OwnScope (constructStruct_fields p s vars).
Proof.
  induction s as [|[fname ftype] s IH]; intros vars; cbn [constructStruct_fields].
  - emit.
  - emit; apply IH.
Qed.
#[local] Hint Resolve OwnScope_constructStruct_fields : emit.

Lemma InScope_constructStruct n s vars : InScope (constructStruct n s vars).
Proof. unfold constructStruct. emit. Qed.
#[local] Hint Resolve InScope_constructStruct : emit.

Lemma InScope_constructParams params : forall names,
  InScope (constructParams params names).
Proof.
  induction params as [|p params IH]; intros names; cbn [constructParams].
  - emit.
  - emit; try apply IH.
Qed.
#[local] Hint Resolve InScope_constructParams : emit.

Lemma OwnScope_shortcutFuncSignFlags fl : forall fn, OwnScope (shortcutFuncSignFlags fn fl).
Proof.
  apply Func_induction. intros params results IH.
  cbn [shortcutFuncSignFlags]. emit;
    apply (results_loop_OwnScope (fun x => shortcutFuncSignFlags x fl)); exact IH.
Qed.
#[local] Hint Resolve OwnScope_shortcutFuncSignFlags : emit.

Lemma OwnScope_shortcutFuncResultsFlags fn fl : OwnScope (shortcutFuncResultsFlags fn fl).
Proof. unfold shortcutFuncResultsFlags. emit. Qed.
#[local] Hint Resolve OwnScope_shortcutFuncResultsFlags : emit.

Lemma OwnScope_shortcutFuncResults fn : OwnScope (shortcutFuncResults fn).
Proof. unfold shortcutFuncResults. emit. Qed.
#[local] Hint Resolve OwnScope_shortcutFuncResults : emit.

Lemma OwnScope_hookFuncShortcut : forall fn name, OwnScope (hookFuncShortcut fn name).
Proof.
  apply (Func_induction (fun fn => forall name, OwnScope (hookFuncShortcut fn name))).
  intros params results IH name.
  cbn [hookFuncShortcut]. emit_rec IH.
Qed.
#[local] Hint Resolve OwnScope_hookFuncShortcut : emit.

Lemma InScope_hookShortcut_func trace h name : InScope (hookShortcut_func trace h name).
Proof. unfold hookShortcut_func. emit. Qed.
#[local] Hint Resolve InScope_hookShortcut_func : emit.

Lemma InScope_hookShortcut trace h : InScope (hookShortcut trace h).
Proof. unfold hookShortcut. emit. Qed.
#[local] Hint Resolve InScope_hookShortcut : emit.

(** ** What [code] and [line] send *)

Lemma write_text_empty w : write_text EmptyString w = w.
Proof. unfold write_text. simpl. apply with_chan_chan. Qed.

Lemma write_text_app t1 t2 w :
  write_text t2 (write_text t1 w) = write_text (t1 +:+ t2) w.
Proof.
  unfold write_text. rewrite chan_with_chan, with_chan_with_chan, chan_write_app.
  reflexivity.
Qed.

Lemma bufio_WriteByte_text c w :
  bufio_WriteByte c w = (Ok tt, write_text (String c EmptyString) w).
Proof. rewrite bufio_WriteByte_chan. reflexivity. Qed.

Lemma bufio_WriteString_text s w :
  bufio_WriteString s w = (Ok tt, write_text s w).
Proof. apply bufio_WriteString_chan. Qed.

Lemma tabs_text l c : forall w,
  forM_ (fun _ : nat => bufio_WriteByte c) l w
  = (Ok tt, write_text (Nat.iter (length l) (String c) EmptyString) w).
Proof.
  induction l as [|x l IH]; intros w.
  - simpl. rewrite write_text_empty. reflexivity.
  - cbn [forM_]. unfold bind. rewrite bufio_WriteByte_text, IH.
    rewrite write_text_app. reflexivity.
Qed.

Lemma iter_tab_indent d : Nat.iter d (String (ascii_of_nat 9)) EmptyString = indent d.
Proof. induction d as [|d IH]; [reflexivity|]. simpl. rewrite IH. reflexivity. Qed.

Lemma strings_text args : forall w,
  forM_ bufio_WriteString args w = (Ok tt, write_text (concat_strings args) w).
Proof.
  induction args as [|a args IH]; intros w.
  - simpl. rewrite write_text_empty. reflexivity.
  - cbn [forM_]. unfold bind. rewrite bufio_WriteString_text, IH.
    rewrite write_text_app. reflexivity.
Qed.

Lemma code_eq args w :
  code args w
  = (Ok tt, set_atEOL false (write_text (code_text (atEOL w) (depth w) args) w)).
Proof.
  unfold code, code_text. unfold bind at 1, get.
  destruct (atEOL w) eqn:Heol.
  - unfold bind at 1. unfold bind at 1.
    rewrite tabs_text. unfold modify.
    rewrite strings_text. rewrite length_seq, iter_tab_indent.
    f_equal. rewrite <- write_text_app. destruct w; reflexivity.
  - unfold bind, ret. rewrite strings_text. f_equal.
    destruct w; simpl in *; subst; reflexivity.
Qed.

Lemma line_eq args w :
  line args w
  = (Ok tt, set_atEOL true (write_text (line_text (atEOL w) (depth w) args) w)).
Proof.
  unfold line, line_text. unfold bind. rewrite code_eq.
  rewrite bufio_WriteByte_text. unfold modify. f_equal.
  rewrite <- write_text_app. destruct w; reflexivity.
Qed.

(** ** The import block *)

Lemma isStdLib_ok path files w :
  std_ok files w ->
  isStdLib path w
  = (Ok (classify (stdlib_table files ∅) path),
     set_std (Some (stdlib_table files ∅)) w).
Proof.
  intros [Hdir [Hstd|Hstd]].
  - unfold isStdLib.
    rewrite (bind_Ok _ _ _ _ _ (ensureStdLibMapping_first _ _ Hstd Hdir)).
    reflexivity.
  - rewrite (isStdLib_built _ _ _ Hstd), (set_std_same _ _ Hstd). reflexivity.
Qed.

Lemma std_ok_built files w :
  std_ok files w -> std_ok files (set_std (Some (stdlib_table files ∅)) w).
Proof. intros [Hdir _]. split; [destruct w; exact Hdir|right; reflexivity]. Qed.

Lemma importDeps_less_ok files w d0 d1 :
  std_ok files w ->
  importDeps_less d0 d1 w
  = (Ok (dep_less (stdlib_table files ∅) d0 d1),
     set_std (Some (stdlib_table files ∅)) w).
Proof.
  intros Hok. unfold importDeps_less.
  rewrite (bind_Ok _ _ _ _ _ (isStdLib_ok _ _ _ Hok)).
  rewrite (bind_Ok _ _ _ _ _ (isStdLib_ok _ _ _ (std_ok_built _ _ Hok))).
  rewrite set_std_set_std. unfold dep_less.
  destruct (negb _); reflexivity.
Qed.

Lemma sort_insert_ok files x l : forall w,
  std_ok files w ->
  sort_insert importDeps_less x l w
  = (Ok (insert_sorted (dep_less (stdlib_table files ∅)) x l),
     match l with [] => w | _ => set_std (Some (stdlib_table files ∅)) w end).
Proof.
  induction l as [|y l IH]; intros w Hok; [reflexivity|].
  cbn [sort_insert insert_sorted].
  rewrite (bind_Ok _ _ _ _ _ (importDeps_less_ok _ _ y x Hok)).
  destruct (dep_less _ y x); [|reflexivity].
  rewrite (bind_Ok _ _ _ _ _ (IH _ (std_ok_built _ _ Hok))).
  unfold ret. f_equal. destruct l; [reflexivity|apply set_std_set_std].
Qed.

Lemma insert_sorted_length {A} (less : A -> A -> bool) x l :
  length (insert_sorted less x l) = S (length l).
Proof.
  induction l as [|y l IH]; [reflexivity|]. simpl.
  destruct (less y x); simpl; congruence.
Qed.

Lemma insertion_sort_length {A} (less : A -> A -> bool) l :
  length (insertion_sort less l) = length l.
Proof.
  induction l as [|x l IH]; [reflexivity|]. simpl.
  rewrite insert_sorted_length. congruence.
Qed.

Lemma sort_Slice_ok files l : forall w,
  std_ok files w ->
  sort_Slice importDeps_less l w
  = (Ok (insertion_sort (dep_less (stdlib_table files ∅)) l),
     if length l <? 2 then w else set_std (Some (stdlib_table files ∅)) w).
Proof.
  induction l as [|x l IH]; intros w Hok; [reflexivity|].
  cbn [sort_Slice insertion_sort].
  rewrite (bind_Ok _ _ _ _ _ (IH _ Hok)).
  destruct l as [|y l].
  - reflexivity.
  - assert (Hlen : (length (y :: l) <? 2) = false \/ length (y :: l) = 1).
    { destruct l; [right; reflexivity|left; reflexivity]. }
    set (sorted := insertion_sort _ (y :: l)).
    assert (Hs : length sorted = length (y :: l)) by apply insertion_sort_length.
    destruct sorted as [|z sorted'] eqn:E; [simpl in Hs; discriminate|].
    change (length (x :: y :: l) <? 2) with false.
    destruct (length (y :: l) <? 2).
    + rewrite (sort_insert_ok _ _ _ _ Hok). reflexivity.
    + rewrite (sort_insert_ok _ _ _ _ (std_ok_built _ _ Hok)).
      rewrite set_std_set_std. reflexivity.
Qed.

Lemma out_state_line tb t args w :
  line args (out_state tb t w)
  = (Ok tt, out_state tb (t +:+ line_text true (depth w) args) w).
Proof.
  rewrite line_eq. unfold out_state. f_equal.
  rewrite <- write_text_app. destruct w; reflexivity.
Qed.

Lemma out_state_isStdLib tb t path w :
  isStdLib path (out_state tb t w) = (Ok (classify tb path), out_state tb t w).
Proof. apply isStdLib_built. reflexivity. Qed.

Lemma out_state_empty tb w :
  atEOL w = true -> set_std (Some tb) w = out_state tb EmptyString w.
Proof.
  intros H. unfold out_state. rewrite write_text_empty.
  destruct w; simpl in *; subst; reflexivity.
Qed.

Lemma out_state_out_state tb t t' w :
  out_state tb t' (out_state tb t w) = out_state tb (t +:+ t') w.
Proof.
  unfold out_state. rewrite <- write_text_app. destruct w; reflexivity.
Qed.

Lemma importDeps_lines_out tb deps : forall lastStd t w,
  importDeps_lines lastStd deps (out_state tb t w)
  = (Ok tt, out_state tb (t +:+ import_lines tb (depth w) lastStd deps) w).
Proof.
  induction deps as [|d deps IH]; intros lastStd t w.
  - simpl. rewrite string_app_empty_r. reflexivity.
  - cbn [importDeps_lines import_lines].
    rewrite (bind_Ok _ _ _ _ _ (out_state_isStdLib _ _ _ _)).
    destruct (classify tb (pkgPath d)) eqn:Hc; cbn [negb andb].
    + unfold bind at 1, ret.
      rewrite (bind_Ok _ _ _ _ _ (out_state_line _ _ _ _)).
      rewrite IH. rewrite !str_app_assoc. reflexivity.
    + destruct lastStd.
      * unfold bind at 1. unfold bind at 1.
        rewrite out_state_line. unfold ret.
        rewrite (bind_Ok _ _ _ _ _ (out_state_line _ _ _ _)).
        rewrite IH. rewrite !str_app_assoc. reflexivity.
      * unfold bind at 1, ret.
        rewrite (bind_Ok _ _ _ _ _ (out_state_line _ _ _ _)).
        rewrite IH. rewrite !str_app_assoc. reflexivity.
Qed.

Lemma importDeps_lines_first files deps lastStd w :
  std_ok files w -> deps <> [] ->
  importDeps_lines lastStd deps w
  = importDeps_lines lastStd deps (set_std (Some (stdlib_table files ∅)) w).
Proof.
  intros Hok Hne. destruct deps as [|d deps]; [congruence|].
  cbn [importDeps_lines].
  rewrite (bind_Ok _ _ _ _ _ (isStdLib_ok _ _ _ Hok)).
  rewrite (bind_Ok _ _ _ _ _ (isStdLib_ok _ _ _ (std_ok_built _ _ Hok))).
  rewrite set_std_set_std. reflexivity.
Qed.

Lemma line_then_built tb args w :
  set_std (Some tb) (set_atEOL true (write_text (line_text (atEOL w) (depth w) args) w))
  = out_state tb (line_text (atEOL w) (depth w) args) w.
Proof. reflexivity. Qed.

(** What [importDeps] does when the library root can be listed: nothing
    for an empty list, and otherwise it sends the import block of the
    deduplicated, sorted list. *)
Lemma importDeps_ok files deps w :
  std_ok files w ->
  importDeps deps w
  = (Ok tt,
     let ds := dedup_loop (length deps) ∅ 0 deps in
     if Nat.eqb (length ds) 0 then w
     else out_state (stdlib_table files ∅)
            (import_block (stdlib_table files ∅) (atEOL w) (depth w) ds) w).
Proof.
  intros Hok. unfold importDeps. cbv zeta.
  set (ds := dedup_loop (length deps) ∅ 0 deps).
  set (tb := stdlib_table files ∅).
  destruct (Nat.eqb (length ds) 0) eqn:Hlen; [reflexivity|].
  apply Nat.eqb_neq in Hlen.
  rewrite (bind_Ok _ _ _ _ _ (sort_Slice_ok files ds w Hok)).
  fold tb. set (sorted := insertion_sort (dep_less tb) ds).
  assert (Hsorted : sorted <> []).
  { intros E. pose proof (insertion_sort_length (dep_less tb) ds) as Hl.
    fold sorted in Hl. rewrite E in Hl. simpl in Hl. lia. }
  assert (Hstep : forall w0, (w0 = w \/ w0 = set_std (Some tb) w) ->
     (line ["import ("] ;; importDeps_lines false sorted ;; line [")"] ;; line []) w0
     = (Ok tt, out_state tb (import_block tb (atEOL w) (depth w) ds) w)).
  { intros w0 Hw0.
    assert (Hok0 : std_ok files w0).
    { destruct Hw0 as [->| ->]; [exact Hok|apply std_ok_built; exact Hok]. }
    assert (Hw1 : set_std (Some tb)
                    (set_atEOL true
                       (write_text (line_text (atEOL w0) (depth w0) ["import ("]) w0))
                  = out_state tb (line_text (atEOL w) (depth w) ["import ("]) w).
    { destruct Hw0 as [->| ->]; [reflexivity|]. destruct w; reflexivity. }
    unfold bind at 1. rewrite line_eq.
    unfold bind at 1.
    rewrite (importDeps_lines_first files sorted false _); [|destruct Hok0 as [Hd Hs];
      split; [destruct w0; exact Hd|destruct w0; exact Hs]|exact Hsorted].
    fold tb. rewrite Hw1.
    rewrite importDeps_lines_out.
    unfold bind at 1. rewrite out_state_line.
    rewrite out_state_line.
    unfold import_block. fold sorted. rewrite !str_app_assoc. reflexivity. }
  destruct (length ds <? 2); apply Hstep; auto.
Qed.

(** *** The order on strings *)

Lemma ltb_leb a b : String.ltb a b = negb (String.leb b a).
Proof.
  unfold String.ltb, String.leb. rewrite (String.compare_antisym a b).
  destruct (String.compare b a); reflexivity.
Qed.

Lemma str_lt_irrefl a : ~ str_lt a a.
Proof.
  unfold str_lt. rewrite ltb_leb.
  destruct (String.leb_total a a) as [H|H]; rewrite H; discriminate.
Qed.

Lemma str_lt_trans a b c : str_lt a b -> str_lt b c -> str_lt a c.
Proof.
  unfold str_lt. rewrite !ltb_leb. intros Hab Hbc.
  apply negb_true_iff in Hab, Hbc. apply negb_true_iff.
  destruct (String.leb c a) eqn:Hca; [|reflexivity]. exfalso.
  destruct (String.leb_total a b) as [H|H]; [|congruence].
  assert (String.le c b) as Hcb.
  { transitivity a; unfold String.le; [rewrite Hca|rewrite H]; exact I. }
  unfold String.le in Hcb. rewrite Hbc in Hcb. exact Hcb.
Qed.

Lemma str_lt_total a b : a <> b -> str_lt a b \/ str_lt b a.
Proof.
  intros Hne. unfold str_lt. rewrite !ltb_leb.
  destruct (String.leb b a) eqn:Hba; [|left; reflexivity].
  destruct (String.leb a b) eqn:Hab; [|right; reflexivity].
  exfalso. apply Hne. apply String.leb_antisym; assumption.
Qed.

(** *** The order [sort.Slice] is given *)

Lemma dep_less_irrefl tb a : dep_less tb a a = false.
Proof.
  unfold dep_less. rewrite Bool.eqb_reflx. simpl.
  destruct (String.ltb (pkgPath a) (pkgPath a)) eqn:E; [|reflexivity].
  destruct (str_lt_irrefl _ E).
Qed.

Lemma dep_less_cases tb a b :
  dep_less tb a b = true <->
  (classify tb (pkgPath a) = true /\ classify tb (pkgPath b) = false)
  \/ (classify tb (pkgPath a) = classify tb (pkgPath b)
      /\ str_lt (pkgPath a) (pkgPath b)).
Proof.
  unfold dep_less, str_lt.
  destruct (classify tb (pkgPath a)), (classify tb (pkgPath b)); simpl;
    intuition congruence.
Qed.

Lemma dep_less_trans tb a b c :
  dep_less tb a b = true -> dep_less tb b c = true -> dep_less tb a c = true.
Proof.
  rewrite !dep_less_cases.
  intros [[Ha Hb]|[Hab Hlt]] [[Hb' Hc]|[Hbc Hlt']]; try congruence.
  - left. split; congruence.
  - left. split; congruence.
  - right. split; [congruence|]. eapply str_lt_trans; eassumption.
Qed.

Lemma dep_less_total tb a b :
  pkgPath a <> pkgPath b -> dep_less tb a b = false -> dep_less tb b a = true.
Proof.
  intros Hne Hnot. apply dep_less_cases.
  destruct (classify tb (pkgPath a)) eqn:Ca, (classify tb (pkgPath b)) eqn:Cb.
  - right. split; [reflexivity|].
    destruct (str_lt_total _ _ Hne) as [H|H]; [|exact H].
    exfalso. assert (dep_less tb a b = true); [|congruence].
    apply dep_less_cases. right. rewrite Ca, Cb. auto.
  - exfalso. assert (dep_less tb a b = true); [|congruence].
    apply dep_less_cases. left. auto.
  - left. auto.
  - right. split; [reflexivity|].
    destruct (str_lt_total _ _ Hne) as [H|H]; [|exact H].
    exfalso. assert (dep_less tb a b = true); [|congruence].
    apply dep_less_cases. right. rewrite Ca, Cb. auto.
Qed.

(** *** Insertion sort *)

Lemma insert_sorted_perm {A} (less : A -> A -> bool) x l :
  Permutation (x :: l) (insert_sorted less x l).
Proof.
  induction l as [|y l IH]; [reflexivity|]. simpl.
  destruct (less y x); [|reflexivity].
  rewrite perm_swap. constructor. exact IH.
Qed.

Lemma insertion_sort_perm {A} (less : A -> A -> bool) l :
  Permutation l (insertion_sort less l).
Proof.
  induction l as [|x l IH]; [reflexivity|]. simpl.
  rewrite <- insert_sorted_perm. constructor. exact IH.
Qed.

Lemma insert_sorted_sorted tb x l :
  StronglySorted (fun a b => dep_less tb a b = true) l ->
  Forall (fun y => pkgPath y <> pkgPath x) l ->
  StronglySorted (fun a b => dep_less tb a b = true) (insert_sorted (dep_less tb) x l).
Proof.
  induction l as [|y l IH]; intros Hs Hd.
  - simpl. constructor; constructor.
  - apply StronglySorted_inv in Hs as [Hs Hy].
    apply Forall_cons in Hd as [Hyx Hd]. simpl.
    destruct (dep_less tb y x) eqn:E.
    + constructor; [apply IH; assumption|].
      apply List.Forall_forall. intros z Hz.
      apply (Permutation_in _ (Permutation_sym (insert_sorted_perm _ x l))) in Hz.
      destruct Hz as [<-|Hz]; [exact E|].
      rewrite List.Forall_forall in Hy. apply Hy. exact Hz.
    + pose proof (dep_less_total tb y x Hyx E) as Hxy.
      constructor; [constructor; assumption|].
      constructor; [exact Hxy|].
      apply List.Forall_forall. intros z Hz.
      rewrite List.Forall_forall in Hy.
      eapply dep_less_trans; [exact Hxy|apply Hy; exact Hz].
Qed.

Lemma insertion_sort_sorted tb l :
  List.NoDup (map pkgPath l) ->
  StronglySorted (fun a b => dep_less tb a b = true) (insertion_sort (dep_less tb) l).
Proof.
  induction l as [|x l IH]; intros Hnd; [constructor|].
  simpl in Hnd. apply List.NoDup_cons_iff in Hnd as [Hx Hnd]. simpl.
  apply insert_sorted_sorted; [apply IH; exact Hnd|].
  apply List.Forall_forall. intros y Hy Heq.
  apply (Permutation_in _ (Permutation_sym (insertion_sort_perm _ l))) in Hy.
  apply Hx. rewrite <- Heq. apply in_map. exact Hy.
Qed.

(** *** Deduplication *)

(** One removal: the element at [i] is overwritten by the last one and
    the list loses its last position. *)
Lemma dedup_remove (deps : list dep) i d dl :
  deps !! i = Some d ->
  deps !! (length deps - 1) = Some dl ->
  let deps' := take (length deps - 1) (<[i := dl]> deps) in
  take i deps' = take i deps
  /\ length deps' = length deps - 1
  /\ (forall x, List.In x deps' -> List.In x deps)
  /\ (forall x, List.In x deps -> x = d \/ List.In x deps').
Proof.
  intros Hi Hl deps'.
  pose proof (lookup_lt_Some _ _ _ Hi) as Hlt.
  assert (Hlook : forall j, deps' !! j =
            if decide (j < length deps - 1)
            then (if decide (j = i) then Some dl else deps !! j) else None).
  { intros j. unfold deps'. destruct (decide (j < length deps - 1)) as [Hj|Hj].
    - rewrite lookup_take_lt by exact Hj.
      destruct (decide (j = i)) as [->|Hne].
      + apply list_lookup_insert_eq. exact Hlt.
      + apply list_lookup_insert_ne. congruence.
    - apply lookup_take_ge. lia. }
  split; [|split; [|split]].
  - unfold deps'. rewrite take_take, Nat.min_l by lia.
    apply take_insert_ge. lia.
  - unfold deps'. rewrite length_take, length_insert. lia.
  - intros x Hx. apply list_elem_of_In in Hx. apply list_elem_of_lookup in Hx as [j Hj].
    rewrite Hlook in Hj. apply list_elem_of_In.
    destruct (decide (j < length deps - 1)); [|discriminate].
    destruct (decide (j = i)).
    + inversion Hj; subst. eapply list_elem_of_lookup_2. exact Hl.
    + eapply list_elem_of_lookup_2. exact Hj.
  - intros x Hx. apply list_elem_of_In in Hx. apply list_elem_of_lookup in Hx as [j Hj].
    destruct (decide (j = i)) as [->|Hne]; [left; congruence|right].
    apply list_elem_of_In.
    pose proof (lookup_lt_Some _ _ _ Hj) as Hjlt.
    destruct (decide (j < length deps - 1)) as [Hj1|Hj1].
    + apply (list_elem_of_lookup_2 _ j). rewrite Hlook.
      rewrite decide_True by exact Hj1. rewrite decide_False by exact Hne. exact Hj.
    + assert (j = length deps - 1) as -> by lia.
      assert (x = dl) as -> by congruence.
      apply (list_elem_of_lookup_2 _ i). rewrite Hlook.
      rewrite decide_True by lia. rewrite decide_True by reflexivity. reflexivity.
Qed.

Lemma dedup_loop_spec fuel : forall seen i (deps : list dep),
  i <= length deps ->
  length deps - i <= fuel ->
  (forall p, default false (seen !! p) = true <-> List.In p (map pkgPath (take i deps))) ->
  List.NoDup (map pkgPath (take i deps)) ->
  List.NoDup (map pkgPath (dedup_loop fuel seen i deps))
  /\ (forall p, List.In p (map pkgPath (dedup_loop fuel seen i deps))
                <-> List.In p (map pkgPath deps)).
Proof.
  induction fuel as [|fuel IH]; intros seen i deps Hi Hfuel Hseen Hnd.
  - simpl. rewrite take_ge in Hnd by lia. split; [exact Hnd|reflexivity].
  - cbn [dedup_loop]. destruct (deps !! i) as [d|] eqn:Hd.
    2:{ apply lookup_ge_None_1 in Hd. rewrite take_ge in Hnd by lia.
        split; [exact Hnd|reflexivity]. }
    pose proof (lookup_lt_Some _ _ _ Hd) as Hlt.
    destruct (default false (seen !! pkgPath d)) eqn:Hs.
    + destruct (lookup_lt_is_Some_2 deps (length deps - 1) ltac:(lia)) as [dl Hl].
      rewrite Hl.
      destruct (dedup_remove deps i d dl Hd Hl) as (Htake & Hlen & Hsub & Hsup).
      set (deps' := take (length deps - 1) (<[i := dl]> deps)) in *.
      destruct (IH seen i deps') as [Hnd' Hin'].
      * lia.
      * lia.
      * rewrite Htake. exact Hseen.
      * rewrite Htake. exact Hnd.
      * split; [exact Hnd'|]. intros p. rewrite Hin'.
        rewrite !in_map_iff. split.
        -- intros (x & <- & Hx). exists x. auto.
        -- intros (x & <- & Hx). destruct (Hsup x Hx) as [->|Hx'].
           ++ apply Hseen in Hs. rewrite <- Htake in Hs.
              apply in_map_iff in Hs as (y & Hy & Hyin).
              exists y. split; [exact Hy|].
              apply list_elem_of_In. apply list_elem_of_In in Hyin.
              revert Hyin. apply subseteq_take.
           ++ exists x. auto.
    + assert (Hpre : take (S i) deps = take i deps ++ [d]) by (apply take_S_r; exact Hd).
      apply IH.
      * lia.
      * lia.
      * intros p. rewrite Hpre, map_app, in_app_iff. simpl.
        destruct (decide (pkgPath d = p)) as [->|Hne].
        -- rewrite lookup_insert_eq. simpl. tauto.
        -- rewrite lookup_insert_ne by exact Hne. rewrite Hseen. tauto.
      * rewrite Hpre, map_app. simpl.
        apply NoDup_ListNoDup. apply NoDup_app. split; [|split].
        -- apply NoDup_ListNoDup. exact Hnd.
        -- intros p Hp Hp'. apply list_elem_of_In in Hp.
           apply list_elem_of_singleton in Hp'. subst p.
           apply Hseen in Hp. congruence.
        -- apply NoDup_singleton.
Qed.

Lemma dedup_spec (deps : list dep) :
  List.NoDup (map pkgPath (dedup_loop (length deps) ∅ 0 deps))
  /\ (forall p, List.In p (map pkgPath (dedup_loop (length deps) ∅ 0 deps))
                <-> List.In p (map pkgPath deps)).
Proof.
  apply dedup_loop_spec.
  - lia.
  - lia.
  - intros p. simpl. rewrite lookup_empty. simpl. split; [discriminate|tauto].
  - simpl. constructor.
Qed.

(** *** The sorted list is the standard group followed by the external one *)

Lemma sorted_group_paths tb b l :
  StronglySorted (fun x y => dep_less tb x y = true) l ->
  Forall (fun d => classify tb (pkgPath d) = b) l ->
  StronglySorted str_lt (map pkgPath l).
Proof.
  induction l as [|a l IH]; intros Hs Hb; [constructor|].
  apply StronglySorted_inv in Hs as [Hs Ha].
  apply Forall_cons in Hb as [Hab Hb]. simpl.
  constructor; [apply IH; assumption|].
  apply List.Forall_forall. intros p Hp.
  apply in_map_iff in Hp as (d & <- & Hd).
  rewrite List.Forall_forall in Ha. specialize (Ha d Hd).
  rewrite Forall_forall in Hb. apply list_elem_of_In in Hd. specialize (Hb d Hd).
  apply dep_less_cases in Ha as [[H1 H2]|[_ H]]; [congruence|exact H].
Qed.

Lemma sorted_split tb l :
  StronglySorted (fun x y => dep_less tb x y = true) l ->
  exists ls le,
    l = ls ++ le
    /\ Forall (fun d => classify tb (pkgPath d) = true) ls
    /\ Forall (fun d => classify tb (pkgPath d) = false) le.
Proof.
  induction l as [|a l IH]; intros Hs.
  - exists [], []. repeat split; constructor.
  - apply StronglySorted_inv in Hs as [Hs Ha].
    destruct (IH Hs) as (ls & le & -> & Hls & Hle).
    destruct (classify tb (pkgPath a)) eqn:Ca.
    + exists (a :: ls), le. repeat split; [constructor; assumption|assumption].
    + exists [], (a :: ls ++ le). repeat split; [constructor|].
      constructor; [exact Ca|].
      apply Forall_forall. intros d Hd. apply list_elem_of_In in Hd.
      rewrite List.Forall_forall in Ha. specialize (Ha d Hd).
      apply dep_less_cases in Ha as [[H _]|[H _]]; congruence.
Qed.

Lemma StronglySorted_app_l {A} (R : A -> A -> Prop) l1 l2 :
  StronglySorted R (l1 ++ l2) -> StronglySorted R l1.
Proof.
  induction l1 as [|a l1 IH]; intros H; [constructor|].
  simpl in H. apply StronglySorted_inv in H as [H Ha].
  constructor; [apply IH; exact H|].
  apply List.Forall_app in Ha. apply Ha.
Qed.

Lemma StronglySorted_app_r {A} (R : A -> A -> Prop) l1 l2 :
  StronglySorted R (l1 ++ l2) -> StronglySorted R l2.
Proof.
  induction l1 as [|a l1 IH]; intros H; [exact H|].
  simpl in H. apply StronglySorted_inv in H as [H _]. apply IH. exact H.
Qed.

Lemma concat_strings_app l1 l2 :
  concat_strings (l1 ++ l2) = concat_strings l1 +:+ concat_strings l2.
Proof.
  induction l1 as [|a l1 IH]; [reflexivity|].
  simpl. rewrite IH, str_app_assoc. reflexivity.
Qed.

Lemma import_lines_ext tb d le : forall lastStd,
  Forall (fun dp => classify tb (pkgPath dp) = false) le ->
  import_lines tb d lastStd le
  = (match le with
     | _ :: _ => if lastStd then line_text true d [] else EmptyString
     | [] => EmptyString
     end) +:+ path_lines d (map pkgPath le).
Proof.
  induction le as [|a le IH]; intros lastStd Hle; [reflexivity|].
  apply Forall_cons in Hle as [Ha Hle].
  cbn [import_lines]. rewrite Ha. cbn [negb andb].
  rewrite (IH false Hle).
  unfold path_lines. cbn [map concat_strings fold_right].
  destruct le; reflexivity.
Qed.

Lemma import_lines_std tb d ls le : forall lastStd,
  Forall (fun dp => classify tb (pkgPath dp) = true) ls ->
  Forall (fun dp => classify tb (pkgPath dp) = false) le ->
  import_lines tb d lastStd (ls ++ le)
  = path_lines d (map pkgPath ls)
    +:+ (match le with
         | _ :: _ =>
           if lastStd || match ls with [] => false | _ => true end
           then line_text true d [] else EmptyString
         | [] => EmptyString
         end)
    +:+ path_lines d (map pkgPath le).
Proof.
  induction ls as [|a ls IH]; intros lastStd Hls Hle.
  - simpl. rewrite orb_false_r. apply import_lines_ext. exact Hle.
  - apply Forall_cons in Hls as [Ha Hls].
    cbn [app import_lines]. rewrite Ha. cbn [negb andb].
    rewrite (IH true Hls Hle). cbn [orb].
    unfold path_lines. cbn [map concat_strings fold_right].
    rewrite orb_true_r, !str_app_assoc. reflexivity.
Qed.

(** C4: when the library root can be listed, [importDeps] sends nothing
    for an empty list and otherwise one import block: the paths of the
    standard library in increasing order, then the external paths in
    increasing order, with one blank line between the two groups when
    both are present; each path of [deps] is there exactly once, however
    often it is referenced. *)
Theorem importDeps_sorted_block (files : list (string * bool)) (deps : list dep)
    (w : Writer) :
  std_ok files w ->
  exists stds exts : list string,
    StronglySorted str_lt stds
    /\ StronglySorted str_lt exts
    /\ List.NoDup (stds ++ exts)
    /\ (forall p, List.In p stds <->
           List.In p (map pkgPath deps) /\ classify (stdlib_table files ∅) p = true)
    /\ (forall p, List.In p exts <->
           List.In p (map pkgPath deps) /\ classify (stdlib_table files ∅) p = false)
    /\ importDeps deps w
       = (Ok tt,
          match deps with
          | [] => w
          | _ =>
            out_state (stdlib_table files ∅)
              (line_text (atEOL w) (depth w) ["import ("]
               +:+ path_lines (depth w) stds
               +:+ (match stds, exts with
                    | _ :: _, _ :: _ => line_text true (depth w) []
                    | _, _ => EmptyString
                    end)
               +:+ path_lines (depth w) exts
               +:+ line_text true (depth w) [")"]
               +:+ line_text true (depth w) []) w
          end).
Proof.
  intros Hok. set (tb := stdlib_table files ∅).
  set (ds := dedup_loop (length deps) ∅ 0 deps).
  destruct (dedup_spec deps) as [Hnd Hin]. fold ds in Hnd, Hin.
  set (sorted := insertion_sort (dep_less tb) ds).
  pose proof (insertion_sort_sorted tb ds Hnd) as Hss. fold sorted in Hss.
  pose proof (insertion_sort_perm (dep_less tb) ds) as Hperm. fold sorted in Hperm.
  destruct (sorted_split tb sorted Hss) as (ls & le & Hsplit & Hls & Hle).
  exists (map pkgPath ls), (map pkgPath le).
  assert (Hmem : forall p, List.In p (map pkgPath sorted) <-> List.In p (map pkgPath deps)).
  { intros p. rewrite <- Hin. split; apply Permutation_in; apply Permutation_map;
      [symmetry|]; exact Hperm. }
  split; [|split; [|split; [|split; [|split]]]].
  - apply (sorted_group_paths tb true); [|exact Hls].
    rewrite Hsplit in Hss. eapply StronglySorted_app_l. exact Hss.
  - apply (sorted_group_paths tb false); [|exact Hle].
    rewrite Hsplit in Hss. eapply StronglySorted_app_r. exact Hss.
  - rewrite <- map_app, <- Hsplit.
    eapply Permutation_NoDup; [apply Permutation_map; exact Hperm|exact Hnd].
  - intros p. rewrite <- Hmem, Hsplit, map_app, in_app_iff. split.
    + intros Hp. split; [left; exact Hp|].
      apply in_map_iff in Hp as (d & <- & Hd). rewrite Forall_forall in Hls.
      apply Hls. apply list_elem_of_In. exact Hd.
    + intros [[Hp|Hp] Hc]; [exact Hp|].
      apply in_map_iff in Hp as (d & <- & Hd). rewrite Forall_forall in Hle.
      apply list_elem_of_In in Hd. specialize (Hle d Hd). fold tb in Hc. congruence.
  - intros p. rewrite <- Hmem, Hsplit, map_app, in_app_iff. split.
    + intros Hp. split; [right; exact Hp|].
      apply in_map_iff in Hp as (d & <- & Hd). rewrite Forall_forall in Hle.
      apply Hle. apply list_elem_of_In. exact Hd.
    + intros [[Hp|Hp] Hc]; [|exact Hp].
      apply in_map_iff in Hp as (d & <- & Hd). rewrite Forall_forall in Hls.
      apply list_elem_of_In in Hd. specialize (Hls d Hd). fold tb in Hc. congruence.
  - rewrite (importDeps_ok files deps w Hok). cbv zeta. fold ds tb.
    f_equal.
    destruct deps as [|d0 deps0] eqn:Hdeps.
    + reflexivity.
    + assert (Hne : length ds <> 0).
      { intros Hz. destruct ds as [|x ds'] eqn:E; [|simpl in Hz; lia].
        assert (Hd0 : List.In (pkgPath d0) (map pkgPath (d0 :: deps0))) by (left; reflexivity).
        apply Hin in Hd0. destruct Hd0. }
      apply Nat.eqb_neq in Hne. rewrite Hne.
      f_equal. unfold import_block. fold sorted. rewrite Hsplit.
      rewrite (import_lines_std tb (depth w) ls le false Hls Hle).
      rewrite !str_app_assoc. do 2 f_equal.
      destruct ls, le; reflexivity.
Qed.

(** ** Actions that end at the start of a line *)

Lemma Eol_line args : Eol (line args).
Proof. intros w a w' E. rewrite line_eq in E. inversion E; subst. reflexivity. Qed.

Lemma Eol_bind {A B} (m : M A) (k : A -> M B) :
  (forall a, Eol (k a)) -> Eol (bind m k).
Proof.
  intros Hk w b w' E. unfold bind in E.
  destruct (m w) as [[a| |] w1]; try discriminate. eapply Hk. exact E.
Qed.

Lemma Eol_line_WriteByte args c : Eol (line args ;; bufio_WriteByte c).
Proof.
  intros w a w' E. unfold bind in E. rewrite line_eq in E.
  rewrite bufio_WriteByte_text in E. inversion E; subst. reflexivity.
Qed.

Lemma Eol_newScope (fn : M unit) : Eol fn -> Eol (newScope fn).
Proof.
  intros Hfn w a w' E. unfold newScope, bind, modify in E.
  destruct (fn _) as [[[]| |] w1] eqn:Ef; try discriminate.
  inversion E; subst. simpl. eapply Hfn. exact Ef.
Qed.

Ltac eol :=
  repeat first [ apply Eol_newScope | apply Eol_line_WriteByte | apply Eol_line
               | (apply Eol_bind; intro) ].

Lemma Eol_options trace : Eol (options trace).
Proof. unfold options. eol. Qed.

Lemma Eol_compose trace : Eol (compose trace).
Proof. unfold compose. eol. Qed.

Lemma Eol_isZero trace : Eol (isZero trace).
Proof. unfold isZero. eol. Qed.

Lemma Eol_hook trace h : Eol (hook trace h).
Proof. unfold hook. eol. Qed.

Lemma Eol_hookShortcut trace h : Eol (hookShortcut trace h).
Proof. unfold hookShortcut, hookShortcut_func. eol. Qed.

(** ** The text of a top-level declaration does not depend on where it
    is emitted *)

Lemma emitted_from_empty t :
  emitted (chan_write t new_chan) = t.
Proof. rewrite emitted_chan_write by reflexivity. reflexivity. Qed.

Lemma alike_out_clear w S :
  alike_out w S -> alike_out w (with_chan new_chan S).
Proof. intros [Hc Hn]. split; [rewrite Hc|rewrite Hn]; destruct S; reflexivity. Qed.

Lemma piece_text {A} (m : M A) S w a w' :
  OwnScope m -> Eol m ->
  at_top S w ->
  m w = (Ok a, w') ->
  chan w' = chan_write (text_of m S) (chan w) /\ at_top S w'.
Proof.
  intros [Hu Hr] Heol (Hal & Hw & g & Hg) E.
  destruct (Hr _ _ (alike_out_clear _ _ Hal)) as (Hres & (t & Ht1 & Ht2) & Hpost).
  rewrite E in Hres, Ht1, Hpost. simpl in Hres, Ht1, Hpost.
  unfold text_of. rewrite Ht2, chan_with_chan, emitted_from_empty.
  split; [exact Ht1|].
  destruct (Hu _ _ _ E) as [Hf Hs].
  pose proof (Heol _ _ _ E) as Hw'.
  split; [|split; [exact Hw'|exists g; congruence]].
  destruct Hal as [Hc Hn]. split.
  - rewrite <- Hc. unfold core, fixed in *. rewrite Hw, Hw'. congruence.
  - rewrite <- Hn. unfold nil_scopes. rewrite Hs. reflexivity.
Qed.

Lemma mustDeclare_Ok name l w g w' :
  scopes w = [g] ->
  mustDeclare name l w = (Ok tt, w') ->
  w' = set_scopes [declared name l g] w.
Proof.
  intros Hs E. destruct (vars g !! name) as [d|] eqn:Hv.
  - rewrite (mustDeclare_taken _ _ _ _ _ _ Hs Hv) in E. discriminate.
  - rewrite (mustDeclare_free _ _ _ _ _ Hs Hv) in E. congruence.
Qed.

(** A shortcut function: its name is declared at package level, where a
    collision panics; its text is that of the run from [S], where nothing
    is declared. *)
Lemma shortcut_text trace h S w w' :
  scopes S = [{| vars := ∅ |}] ->
  at_top S w ->
  hookShortcut trace h w = (Ok tt, w') ->
  chan w' = chan_write (text_of (hookShortcut trace h) S) (chan w) /\ at_top S w'.
Proof.
  intros HS (Hal & Hw & g & Hg) E.
  pose proof (Eol_hookShortcut trace h _ _ _ E) as Hw'.
  unfold text_of. unfold hookShortcut in E |- *.
  unfold bind at 1, lift in E. unfold bind at 1, lift.
  destruct (tempName [TName trace; HName h]) as [tn| |]; try discriminate.
  unfold bind at 1, lift in E. unfold bind at 1, lift.
  destruct (exported tn) as [name| |]; try discriminate.
  unfold bind at 1 in E. unfold bind at 1.
  destruct (mustDeclare name 623 w) as [[[]| |] w1] eqn:E1; try discriminate.
  pose proof (mustDeclare_Ok _ _ _ _ _ Hg E1) as Hw1.
  set (S0 := with_chan new_chan S).
  assert (HS0 : scopes S0 = [{| vars := ∅ |}]) by (destruct S; exact HS).
  rewrite (mustDeclare_free name 623 S0 _ _ HS0 (lookup_empty _)).
  set (S1 := set_scopes [declared name 623 {| vars := ∅ |}] S0).
  pose proof (OwnScope_newScope _ (InScope_hookShortcut_func trace h name)) as [Hu Hr].
  assert (Hal1 : alike_out w1 S1).
  { destruct Hal as [Hc Hn]. subst w1. split.
    - unfold core in *. destruct w, S; simpl in *. exact Hc.
    - reflexivity. }
  destruct (Hr _ _ Hal1) as (Hres & (t & Ht1 & Ht2) & Hpost).
  rewrite E in Hres, Ht1, Hpost. simpl in Hres, Ht1, Hpost.
  rewrite Ht2. unfold S1, S0. 
  assert (Hch : chan (set_scopes [declared name 623 {| vars := ∅ |}]
                        (with_chan new_chan S))
                = new_chan) by (destruct S; reflexivity).
  rewrite Hch, emitted_from_empty.
  assert (Hcw : chan w1 = chan w) by (subst w1; destruct w; reflexivity).
  rewrite Hcw in Ht1. split; [exact Ht1|].
  destruct (Hu _ _ _ E) as [Hf Hs].
  split; [|split; [exact Hw'|]].
  - destruct Hal as [Hc Hn]. split.
    + rewrite <- Hc. unfold core, fixed in *. rewrite Hw, Hw'.
      subst w1. destruct w; simpl in *. congruence.
    + rewrite <- Hn. unfold nil_scopes. rewrite Hs, Hg. subst w1. reflexivity.
  - exists (declared name 623 g). rewrite Hs. subst w1. reflexivity.
Qed.

(** A loop over declarations sends their texts one after the other. *)
Lemma forM_text {A} (I : Writer -> Prop) (f : A -> M unit) (txt : A -> string) l :
  (forall x w w', I w -> f x w = (Ok tt, w') ->
     chan w' = chan_write (txt x) (chan w) /\ I w') ->
  forall w w', I w -> forM_ f l w = (Ok tt, w') ->
    chan w' = chan_write (concat_strings (map txt l)) (chan w) /\ I w'.
Proof.
  intros Hf. induction l as [|x l IH]; intros w w' Hw E.
  - simpl in E. inversion E; subst. split; [reflexivity|exact Hw].
  - cbn [forM_] in E. unfold bind in E.
    destruct (f x w) as [[[]| |] w1] eqn:E1; try discriminate.
    destruct (Hf _ _ _ Hw E1) as [Hc1 Hw1].
    destruct (IH _ _ Hw1 E) as [Hc' Hw'].
    split; [|exact Hw'].
    cbn [map concat_strings fold_right]. rewrite chan_write_app, <- Hc1. exact Hc'.
Qed.

(** ** The run of [Write] *)

Lemma str_app_empty_l (s : string) : EmptyString +:+ s = s.
Proof. reflexivity. Qed.

Lemma concat_strings_cons x l : concat_strings (x :: l) = x +:+ concat_strings l.
Proof. reflexivity. Qed.

Lemma concat_strings_nil : concat_strings [] = EmptyString.
Proof. reflexivity. Qed.

Ltac str_norm :=
  repeat first [ rewrite str_app_assoc | rewrite string_app_empty_r
               | rewrite str_app_empty_l | rewrite concat_strings_cons
               | rewrite concat_strings_nil ].

Lemma lined_line t args w :
  line args (lined t w) = (Ok tt, lined (t +:+ line_text true (depth w) args) w).
Proof.
  rewrite line_eq. unfold lined. f_equal.
  rewrite <- write_text_app. destruct w; reflexivity.
Qed.

Lemma line_lined args w :
  depth w = 0 ->
  line args w = (Ok tt, lined (concat_strings args +:+ newline) w).
Proof.
  intros Hd. rewrite line_eq, Hd. unfold lined, line_text, code_text.
  destruct (atEOL w); reflexivity.
Qed.

Lemma constraints_lines cs : forall i t w,
  depth w = 0 ->
  forMi_ (fun i l => (if Nat.eqb i 0 then line [] else ret tt) ;; line [l]) (S i) cs
    (lined t w)
  = (Ok tt, lined (t +:+ concat_strings (map (fun l => l +:+ newline) cs)) w).
Proof.
  induction cs as [|c cs IH]; intros i t w Hd.
  - simpl. rewrite string_app_empty_r. reflexivity.
  - cbn [forMi_]. cbn [Nat.eqb]. unfold bind at 1. unfold bind at 1, ret.
    rewrite lined_line, IH by exact Hd. rewrite Hd.
    unfold line_text, code_text. cbn [indent map]. str_norm. reflexivity.
Qed.

Lemma header_lines {B} (p : Package) (K : M B) w :
  depth w = 0 ->
  (line ["// Code generated by gtrace. DO NOT EDIT."] ;;
   forMi_ (fun i l => (if Nat.eqb i 0 then line [] else ret tt) ;; line [l]) 0
     (BuildConstraints p) ;;
   line [] ;;
   line ["package "; PkgName (Package_ p)] ;;
   line [] ;;
   K) w
  = K (lined (header_text p) w).
Proof.
  intros Hd. unfold bind at 1. rewrite (line_lined _ _ Hd).
  unfold bind at 1.
  assert (Hcs : forall t,
    forMi_ (fun i l => (if Nat.eqb i 0 then line [] else ret tt) ;; line [l]) 0
      (BuildConstraints p) (lined t w)
    = (Ok tt, lined (t +:+ match BuildConstraints p with
                           | [] => EmptyString
                           | cs => newline +:+ concat_strings (map (fun l => l +:+ newline) cs)
                           end) w)).
  { intros t. destruct (BuildConstraints p) as [|c cs].
    - simpl. rewrite string_app_empty_r. reflexivity.
    - cbn [forMi_ Nat.eqb]. unfold bind at 1. unfold bind at 1.
      rewrite lined_line. unfold bind at 1. rewrite lined_line.
      rewrite constraints_lines by exact Hd. rewrite Hd.
      unfold line_text, code_text. cbn [indent map]. str_norm. reflexivity. }
  rewrite Hcs. unfold bind at 1. rewrite lined_line.
  unfold bind at 1. rewrite lined_line.
  unfold bind at 1. rewrite lined_line.
  rewrite Hd. unfold header_text, line_text, code_text.
  cbn [indent]. str_norm. reflexivity.
Qed.

Lemma trace_section_text S trace w w' :
  at_top S w ->
  (options trace ;; compose trace ;;
   (if Nested trace then isZero trace else ret tt) ;;
   forM_ (fun h => hook trace h) (Hooks trace)) w = (Ok tt, w') ->
  chan w' = chan_write (trace_text S trace) (chan w) /\ at_top S w'.
Proof.
  intros Hw E. unfold bind in E.
  destruct (options trace w) as [[[]| |] w1] eqn:E1; try discriminate.
  destruct (piece_text _ S _ _ _ (OwnScope_options trace) (Eol_options trace) Hw E1)
    as [C1 Hw1].
  destruct (compose trace w1) as [[[]| |] w2] eqn:E2; try discriminate.
  destruct (piece_text _ S _ _ _ (OwnScope_compose trace) (Eol_compose trace) Hw1 E2)
    as [C2 Hw2].
  assert (H3 : exists w3,
    (if Nested trace then isZero trace else ret tt) w2 = (Ok tt, w3)
    /\ forM_ (fun h => hook trace h) (Hooks trace) w3 = (Ok tt, w')
    /\ chan w3 = chan_write (if Nested trace then text_of (isZero trace) S
                             else EmptyString) (chan w2)
    /\ at_top S w3).
  { destruct (Nested trace).
    - destruct (isZero trace w2) as [[[]| |] w3] eqn:E3; try discriminate.
      destruct (piece_text _ S _ _ _ (OwnScope_isZero trace) (Eol_isZero trace) Hw2 E3)
        as [C3 Hw3].
      exists w3. auto.
    - exists w2. simpl in E. auto. }
  destruct H3 as (w3 & _ & E4 & C3 & Hw3).
  destruct (forM_text (at_top S) (fun h => hook trace h)
              (fun h => text_of (hook trace h) S) (Hooks trace)
              (fun h v v' Hv Ev =>
                 piece_text _ S _ _ _ (OwnScope_hook trace h) (Eol_hook trace h) Hv Ev)
              _ _ Hw3 E4) as [C4 Hw4].
  split; [|exact Hw4].
  unfold trace_text. rewrite !chan_write_app, <- C1, <- C2, <- C3. exact C4.
Qed.

Lemma shortcuts_section_text S trace w w' :
  scopes S = [{| vars := ∅ |}] ->
  at_top S w ->
  forM_ (fun h => hookShortcut trace h) (Hooks trace) w = (Ok tt, w') ->
  chan w' = chan_write (shortcuts_text S trace) (chan w) /\ at_top S w'.
Proof.
  intros HS Hw E.
  apply (forM_text (at_top S) (fun h => hookShortcut trace h)
           (fun h => text_of (hookShortcut trace h) S) (Hooks trace)
           (fun h v v' Hv Ev => shortcut_text trace h S v v' HS Hv Ev) _ _ Hw E).
Qed.

Lemma body_text S (p : Package) w w' :
  scopes S = [{| vars := ∅ |}] ->
  at_top S w ->
  Write_func p w = (Ok tt, w') ->
  chan w' = chan_write (concat_strings (map (trace_text S) (Traces p))
                        +:+ concat_strings (map (shortcuts_text S) (Traces p)))
              (chan w)
  /\ at_top S w'.
Proof.
  intros HS Hw E. unfold Write_func, bind in E.
  destruct (forM_ _ (Traces p) w) as [[[]| |] w1] eqn:E1; try discriminate.
  destruct (forM_text (at_top S) _ (trace_text S) (Traces p)
              (fun t v v' Hv Ev => trace_section_text S t v v' Hv Ev) _ _ Hw E1)
    as [C1 Hw1].
  destruct (forM_text (at_top S) _ (shortcuts_text S) (Traces p)
              (fun t v v' Hv Ev => shortcuts_section_text S t v v' HS Hv Ev) _ _ Hw1 E)
    as [C2 Hw2].
  split; [|exact Hw2]. rewrite chan_write_app, <- C1. exact C2.
Qed.

(** *** When the library root cannot be listed *)

Lemma isStdLib_unreadable path w :
  std w = None -> ReadDir_src (GOROOT (Context w)) = None ->
  fst (isStdLib path w) = Panic CantListGOROOT.
Proof.
  intros Hs Hd. unfold isStdLib.
  rewrite (bind_Panic _ _ _ _ _ (ensureStdLibMapping_unreadable _ Hs Hd)). reflexivity.
Qed.

Lemma sort_insert_unreadable x l w :
  std w = None -> ReadDir_src (GOROOT (Context w)) = None -> l <> [] ->
  fst (sort_insert importDeps_less x l w) = Panic CantListGOROOT.
Proof.
  intros Hs Hd Hl. destruct l as [|y l]; [congruence|].
  cbn [sort_insert]. unfold bind at 1, importDeps_less. unfold bind at 1.
  pose proof (isStdLib_unreadable (pkgPath y) w Hs Hd) as H.
  destruct (isStdLib (pkgPath y) w) as [r w1]. simpl in H. subst r. reflexivity.
Qed.

Lemma sort_Slice_unreadable l : forall w,
  std w = None -> ReadDir_src (GOROOT (Context w)) = None ->
  (length l < 2 /\ sort_Slice importDeps_less l w = (Ok l, w))
  \/ (2 <= length l /\ fst (sort_Slice importDeps_less l w) = Panic CantListGOROOT).
Proof.
  induction l as [|x l IH]; intros w Hs Hd.
  - left. split; [simpl; lia|reflexivity].
  - cbn [sort_Slice]. destruct (IH w Hs Hd) as [[Hlen E]|[Hlen E]].
    + rewrite (bind_Ok _ _ _ _ _ E). destruct l as [|y l].
      * left. split; [simpl; lia|reflexivity].
      * right. split; [simpl; lia|].
        apply sort_insert_unreadable; [assumption|assumption|discriminate].
    + right. split; [simpl; lia|]. unfold bind.
      destruct (sort_Slice importDeps_less l w) as [r w1]. simpl in E. subst r.
      reflexivity.
Qed.

Lemma importDeps_unreadable deps w :
  std w = None -> ReadDir_src (GOROOT (Context w)) = None ->
  length (dedup_loop (length deps) ∅ 0 deps) <> 0 ->
  fst (importDeps deps w) = Panic CantListGOROOT.
Proof.
  intros Hs Hd Hlen. unfold importDeps. cbv zeta.
  set (ds := dedup_loop (length deps) ∅ 0 deps) in *.
  apply Nat.eqb_neq in Hlen. rewrite Hlen.
  destruct (sort_Slice_unreadable ds w Hs Hd) as [[Hl E]|[Hl E]].
  - rewrite (bind_Ok _ _ _ _ _ E).
    unfold bind at 1. rewrite line_eq. unfold bind at 1.
    destruct ds as [|d ds']; [discriminate|].
    cbn [importDeps_lines]. unfold bind at 1.
    set (w1 := set_atEOL true _).
    assert (Hs1 : std w1 = None) by (unfold w1; destruct w; exact Hs).
    assert (Hd1 : ReadDir_src (GOROOT (Context w1)) = None)
      by (unfold w1; destruct w; exact Hd).
    pose proof (isStdLib_unreadable (pkgPath d) w1 Hs1 Hd1) as H.
    destruct (isStdLib (pkgPath d) w1) as [r w2]. simpl in H. subst r. reflexivity.
  - unfold bind. destruct (sort_Slice importDeps_less ds w) as [r w1].
    simpl in E. subst r. reflexivity.
Qed.

Lemma importDeps_none deps w :
  length (dedup_loop (length deps) ∅ 0 deps) = 0 ->
  importDeps deps w = (Ok tt, w).
Proof. intros H. unfold importDeps. cbv zeta. rewrite H. reflexivity. Qed.

Lemma InScope_Write_func p : InScope (Write_func p).
Proof. unfold Write_func. emit. Qed.

Lemma Write_unfold (p : Package) w :
  idle w ->
  Write p w
  = (importDeps (deps_of p) ;; newScope (Write_func p) ;; bufio_Flush)
      (lined (header_text p) (prepared (Package_ p) w)).
Proof.
  intros (Hd & Ho & He & Hs). unfold Write.
  unfold bind at 1, modify. unfold bind at 1.
  assert (Hinit : init (set_pkg (Package_ p) w) = (Ok tt, prepared (Package_ p) w)).
  { unfold init, bind, get, prepared. simpl. destruct (once w); reflexivity. }
  rewrite Hinit.
  rewrite header_lines.
  2:{ unfold prepared. destruct (once w); destruct w; exact Hd. }
  unfold bind at 1, get.
  assert (Hp : pkg (lined (header_text p) (prepared (Package_ p) w)) = Package_ p).
  { unfold prepared. destruct (once w); destruct w; reflexivity. }
  rewrite Hp. reflexivity.
Qed.

Lemma prepared_facts P w :
  idle w ->
  let wp := prepared P w in
  depth wp = 0 /\ scopes wp = [] /\ pkg wp = P /\ chan wp = chan w
  /\ Context wp = Context w /\ std wp = std w /\ once wp = true.
Proof.
  intros (Hd & Ho & He & Hs). unfold prepared.
  destruct (once w) eqn:E; destruct w; simpl in *; subst; repeat split; reflexivity.
Qed.

Lemma lined_facts t w :
  let wl := lined t w in
  atEOL wl = true /\ depth wl = depth w /\ scopes wl = scopes w /\ pkg wl = pkg w
  /\ chan wl = chan_write t (chan w) /\ Context wl = Context w /\ std wl = std w
  /\ once wl = once w.
Proof.
  cbv zeta. unfold lined, write_text.
  repeat split; try (destruct w; reflexivity).
  transitivity (chan (with_chan (chan_write t (chan w)) w));
    [destruct w; reflexivity|apply chan_with_chan].
Qed.

Lemma chan_out_state tb t w : chan (out_state tb t w) = chan_write t (chan w).
Proof.
  transitivity (chan (with_chan (chan_write t (chan w)) w));
    [destruct w; reflexivity|apply chan_with_chan].
Qed.

Lemma chan_toplevel P ctx : chan (toplevel P ctx) = new_chan.
Proof. reflexivity. Qed.

Lemma toplevel_clear P ctx :
  with_chan new_chan (toplevel P ctx) = toplevel P ctx.
Proof. reflexivity. Qed.

(** The import block sent from any writer at the start of a line, outside
    every block, is the one sent from [toplevel]. *)
Lemma imports_step deps w w' :
  atEOL w = true -> depth w = 0 -> std_fits w ->
  importDeps deps w = (Ok tt, w') ->
  chan w' = chan_write (text_of (importDeps deps) (toplevel (pkg w) (Context w))) (chan w)
  /\ core w' = core w /\ scopes w' = scopes w /\ Context w' = Context w
  /\ once w' = once w /\ std_fits w'
  /\ (std w' = std w
      \/ exists files, ReadDir_src (GOROOT (Context w)) = Some files
                       /\ std w' = Some (stdlib_table files ∅)).
Proof.
  intros He Hd Hfit E. unfold text_of. rewrite toplevel_clear.
  set (ds := dedup_loop (length deps) ∅ 0 deps).
  destruct (Nat.eq_dec (length ds) 0) as [Hz|Hnz].
  - rewrite (importDeps_none deps _ Hz) in E. rewrite (importDeps_none deps _ Hz).
    inversion E; subst. simpl. auto 10.
  - unfold std_fits in Hfit.
    destruct (ReadDir_src (GOROOT (Context w))) as [files|] eqn:Hdir.
    + assert (Hok : std_ok files w) by (split; assumption).
      assert (Hok' : std_ok files (toplevel (pkg w) (Context w))).
      { split; [exact Hdir|left; reflexivity]. }
      rewrite (importDeps_ok files deps w Hok) in E.
      rewrite (importDeps_ok files deps _ Hok').
      cbv zeta in E |- *. fold ds in E |- *.
      apply Nat.eqb_neq in Hnz. rewrite Hnz in E |- *.
      inversion E; subst. clear E. rewrite He, Hd. simpl.
      unfold std_fits.
      assert (Hctx : Context (out_state (stdlib_table files ∅)
                        (import_block (stdlib_table files ∅) true 0 ds) w) = Context w)
        by (destruct w; reflexivity).
      rewrite Hctx, Hdir.
      split; [|split; [|split; [|split; [|split; [|split]]]]];
        try (destruct w; reflexivity).
      * rewrite !chan_out_state.
        rewrite chan_toplevel, emitted_from_empty. reflexivity.
      * unfold core. destruct w; simpl in *. subst. reflexivity.
      * right. reflexivity.
      * right. exists files. split; reflexivity.
    + pose proof (importDeps_unreadable deps w Hfit Hdir Hnz) as Hp.
      rewrite E in Hp. discriminate.
Qed.

(** What a successful run of [Write] leaves in [Output]: all that was
    there or held back before, followed by [Write_text]; and the writer is
    idle again. *)
Lemma Write_Ok (p : Package) w w' :
  idle w ->
  Write p w = (Ok None, w') ->
  Output w' = emitted (chan w) +:+ Write_text p (Context w)
  /\ bw w' = EmptyString /\ idle w' /\ Context w' = Context w
  /\ (std w' = std w
      \/ exists files, ReadDir_src (GOROOT (Context w)) = Some files
                       /\ std w' = Some (stdlib_table files ∅)).
Proof.
  intros Hidle E. rewrite (Write_unfold p w Hidle) in E.
  destruct (prepared_facts (Package_ p) w Hidle) as (Pd & Ps & Pp & Pc & Px & Pstd & Po).
  set (wp := prepared (Package_ p) w) in *.
  destruct (lined_facts (header_text p) wp) as (Le & Ld & Ls & Lp & Lc & Lx & Lstd & Lo).
  set (wh := lined (header_text p) wp) in *.
  unfold bind at 1 in E.
  destruct (importDeps (deps_of p) wh) as [[[]| |] w3] eqn:E3; try discriminate.
  assert (Hfit : std_fits wh).
  { unfold std_fits. rewrite Lx, Px, Lstd, Pstd. apply Hidle. }
  destruct (imports_step _ _ _ Le ltac:(congruence) Hfit E3)
    as (C3 & K3 & S3 & X3 & O3 & F3 & T3).
  unfold bind at 1 in E.
  destruct (newScope (Write_func p) w3) as [[[]| |] w6] eqn:E6; try discriminate.
  rewrite bufio_Flush_plain in E.
  destruct (bw_err w6) as [e6|] eqn:He6; [discriminate|].
  inversion E; subst w'. clear E.
  destruct (proj1 (OwnScope_newScope _ (InScope_Write_func p)) _ _ _ E6) as [Hfix Hsc].
  unfold newScope, bind, modify in E6.
  set (w4 := set_scopes ({| vars := ∅ |} :: scopes w3) w3) in *.
  destruct (Write_func p w4) as [[[]| |] w5] eqn:E5; try discriminate.
  inversion E6; subst w6. clear E6.
  set (S := scoped (Package_ p) (Context w)).
  assert (He3 : atEOL w3 = true) by (unfold core in K3; congruence).
  assert (Hd3 : depth w3 = 0) by (unfold core in K3; congruence).
  assert (Hp3 : pkg w3 = Package_ p) by (unfold core in K3; congruence).
  assert (Htop : at_top S w4).
  { split; [|split].
    - split.
      + transitivity (core w3); [unfold w4; destruct w3; reflexivity|].
        unfold core. rewrite He3, Hd3, Hp3. reflexivity.
      + unfold w4. destruct w3; reflexivity.
    - transitivity (atEOL w3); [unfold w4; destruct w3; reflexivity|exact He3].
    - exists {| vars := ∅ |}.
      transitivity ({| vars := ∅ |} :: scopes w3);
        [unfold w4; destruct w3; reflexivity|].
      rewrite S3, Ls, Ps. reflexivity. }
  destruct (body_text S p w4 w5 eq_refl Htop E5) as [C5 Htop5].
  assert (C4 : chan w4 = chan w3) by (unfold w4; destruct w3; reflexivity).
  assert (Hch : chan w5 = chan_write (Write_text p (Context w)) (chan w)).
  { rewrite C5, C4, C3, Lc, Pc. unfold Write_text.
    rewrite !chan_write_app. rewrite Lp, Pp, Lx, Px. reflexivity. }
  assert (Hout : Output w5 +:+ bw w5 = emitted (chan w5)) by reflexivity.
  assert (Hx5 : Context w5 = Context w3)
    by (unfold fixed in Hfix; simpl in Hfix; congruence).
  assert (Hs5 : std w5 = std w3)
    by (unfold fixed in Hfix; simpl in Hfix; congruence).
  split; [|split; [reflexivity|split; [|split]]].
  - simpl. rewrite Hout, Hch, emitted_chan_write by apply Hidle. reflexivity.
  - destruct Htop5 as ([Hc5 _] & _ & g & Hg).
    unfold fixed in Hfix. simpl in Hfix, Hsc.
    split; [|split; [|split]].
    + simpl. unfold core in Hc5. unfold S in Hc5. simpl in Hc5. congruence.
    + simpl. assert (Ho5 : once w5 = true) by congruence.
      rewrite Ho5. rewrite Hg. reflexivity.
    + exact He6.
    + unfold std_fits in *. simpl.
      rewrite Hx5, Hs5. exact F3.
  - simpl. congruence.
  - simpl. rewrite Hs5. rewrite Lx, Px in T3. rewrite Lstd, Pstd in T3. exact T3.
Qed.

Lemma idle_NewWriter out ctx : idle (NewWriter out ctx).
Proof.
  split; [reflexivity|]. split; [reflexivity|].
  unfold std_fits. simpl. destruct (ReadDir_src (GOROOT ctx)); auto.
Qed.

(** C6: the output of a successful run is, in this order: the marker
    line, the build constraints, the package clause, the import block,
    then for each trace in turn its options type with the setter, its
    [Compose], its [isZero] when the trace is nested and one forwarder per
    hook, and after all traces the shortcut functions, trace by trace and
    hook by hook.  Each declaration is the text it has when emitted on its
    own inside the package-level scope. *)
Theorem Write_layout (p : Package) (out : string) (ctx : build_Context) (w' : Writer) :
  Write p (NewWriter out ctx) = (Ok None, w') ->
  Output w'
  = out
    +:+ header_text p
    +:+ text_of (importDeps (deps_of p)) (toplevel (Package_ p) ctx)
    +:+ concat_strings
          (map (fun t =>
                  text_of (options t) (scoped (Package_ p) ctx)
                  +:+ text_of (compose t) (scoped (Package_ p) ctx)
                  +:+ (if Nested t then text_of (isZero t) (scoped (Package_ p) ctx)
                       else EmptyString)
                  +:+ concat_strings
                        (map (fun h => text_of (hook t h) (scoped (Package_ p) ctx))
                             (Hooks t)))
               (Traces p))
    +:+ concat_strings
          (map (fun t =>
                  concat_strings
                    (map (fun h => text_of (hookShortcut t h) (scoped (Package_ p) ctx))
                         (Hooks t)))
               (Traces p)).
Proof.
  intros E.
  destruct (Write_Ok p _ _ (idle_NewWriter out ctx) E) as (Hout & _).
  rewrite Hout. unfold emitted, chan, NewWriter. cbn [Output bw fst snd Context].
  rewrite string_app_empty_r. reflexivity.
Qed.

(** *** The result of a run does not depend on the writer it starts from *)

Lemma imports_fst deps w1 w2 :
  std_fits w1 -> std_fits w2 -> Context w1 = Context w2 ->
  fst (importDeps deps w1) = fst (importDeps deps w2).
Proof.
  intros F1 F2 Hx.
  set (ds := dedup_loop (length deps) ∅ 0 deps).
  destruct (Nat.eq_dec (length ds) 0) as [Hz|Hnz].
  - rewrite !(importDeps_none deps _ Hz). reflexivity.
  - unfold std_fits in F1, F2. rewrite <- Hx in F2.
    destruct (ReadDir_src (GOROOT (Context w1))) as [files|] eqn:Hdir.
    + rewrite (importDeps_ok files deps w1 (conj Hdir F1)).
      assert (Hdir2 : ReadDir_src (GOROOT (Context w2)) = Some files) by congruence.
      rewrite (importDeps_ok files deps w2 (conj Hdir2 F2)). reflexivity.
    + rewrite (importDeps_unreadable deps w1 F1 Hdir Hnz).
      assert (Hdir2 : ReadDir_src (GOROOT (Context w2)) = None) by congruence.
      rewrite (importDeps_unreadable deps w2 F2 Hdir2 Hnz). reflexivity.
Qed.

Lemma Write_fst (p : Package) w1 w2 :
  idle w1 -> idle w2 -> Context w1 = Context w2 ->
  fst (Write p w1) = fst (Write p w2).
Proof.
  intros I1 I2 Hx.
  rewrite (Write_unfold p w1 I1), (Write_unfold p w2 I2).
  destruct (prepared_facts (Package_ p) w1 I1) as (Pd1 & Ps1 & Pp1 & Pc1 & Px1 & Pstd1 & Po1).
  destruct (prepared_facts (Package_ p) w2 I2) as (Pd2 & Ps2 & Pp2 & Pc2 & Px2 & Pstd2 & Po2).
  set (wp1 := prepared (Package_ p) w1) in *.
  set (wp2 := prepared (Package_ p) w2) in *.
  destruct (lined_facts (header_text p) wp1) as (Le1 & Ld1 & Ls1 & Lp1 & Lc1 & Lx1 & Lstd1 & Lo1).
  destruct (lined_facts (header_text p) wp2) as (Le2 & Ld2 & Ls2 & Lp2 & Lc2 & Lx2 & Lstd2 & Lo2).
  set (wh1 := lined (header_text p) wp1) in *.
  set (wh2 := lined (header_text p) wp2) in *.
  assert (F1 : std_fits wh1).
  { unfold std_fits. rewrite Lx1, Px1, Lstd1, Pstd1. apply I1. }
  assert (F2 : std_fits wh2).
  { unfold std_fits. rewrite Lx2, Px2, Lstd2, Pstd2. apply I2. }
  assert (Hxh : Context wh1 = Context wh2) by congruence.
  pose proof (imports_fst (deps_of p) wh1 wh2 F1 F2 Hxh) as Hfst.
  unfold bind at 1. unfold bind at 2.
  destruct (importDeps (deps_of p) wh1) as [r1 v1] eqn:E1.
  destruct (importDeps (deps_of p) wh2) as [r2 v2] eqn:E2.
  simpl in Hfst. subst r2.
  destruct r1 as [[]| |]; [|reflexivity|reflexivity].
  destruct (imports_step _ _ _ Le1 ltac:(congruence) F1 E1) as (C1 & K1 & S1 & _).
  destruct (imports_step _ _ _ Le2 ltac:(congruence) F2 E2) as (C2 & K2 & S2 & _).
  assert (Hal : alike_out v1 v2).
  { split.
    - rewrite K1, K2. unfold core. congruence.
    - unfold nil_scopes. rewrite S1, S2, Ls1, Ls2, Ps1, Ps2. reflexivity. }
  destruct (proj2 (OwnScope_newScope _ (InScope_Write_func p)) _ _ Hal)
    as (Hres & (t & T1 & T2) & _).
  unfold bind.
  destruct (newScope (Write_func p) v1) as [q1 u1].
  destruct (newScope (Write_func p) v2) as [q2 u2].
  simpl in Hres, T1, T2. subst q2. destruct q1 as [[]| |]; try reflexivity.
  assert (He1 : bw_err u1 = None).
  { rewrite (chan_write_keeps _ _ _ T1), (chan_write_keeps _ _ _ C1),
      (chan_write_keeps _ _ _ Lc1).
    change (snd (chan wp1) = None). rewrite Pc1. exact (proj1 (proj2 (proj2 I1))). }
  assert (He2 : bw_err u2 = None).
  { rewrite (chan_write_keeps _ _ _ T2), (chan_write_keeps _ _ _ C2),
      (chan_write_keeps _ _ _ Lc2).
    change (snd (chan wp2) = None). rewrite Pc2. exact (proj1 (proj2 (proj2 I2))). }
  rewrite !bufio_Flush_plain, He1, He2. reflexivity.
Qed.

(** *** A sorted list is determined by its elements *)

Lemma sorted_perm_unique tb (l1 : list dep) : forall l2,
  StronglySorted (fun a b => dep_less tb a b = true) l1 ->
  StronglySorted (fun a b => dep_less tb a b = true) l2 ->
  Permutation l1 l2 -> l1 = l2.
Proof.
  induction l1 as [|a l1 IH]; intros l2 H1 H2 Hp.
  - apply Permutation_nil in Hp. congruence.
  - destruct l2 as [|b l2].
    { apply Permutation_sym, Permutation_nil in Hp. discriminate. }
    apply StronglySorted_inv in H1 as [H1 Ha].
    apply StronglySorted_inv in H2 as [H2 Hb].
    rewrite List.Forall_forall in Ha, Hb.
    assert (a = b) as ->.
    { assert (Hain : List.In a (b :: l2))
        by (eapply Permutation_in; [exact Hp|left; reflexivity]).
      assert (Hbin : List.In b (a :: l1))
        by (eapply Permutation_in; [symmetry; exact Hp|left; reflexivity]).
      destruct Hain as [->|Hain]; [reflexivity|].
      destruct Hbin as [->|Hbin]; [reflexivity|].
      pose proof (dep_less_trans tb _ _ _ (Ha _ Hbin) (Hb _ Hain)) as Hc.
      rewrite dep_less_irrefl in Hc. discriminate. }
    f_equal. apply IH; [assumption|assumption|].
    eapply Permutation_cons_inv. exact Hp.
Qed.

(** C7: the outcome of [Write], and on success the text it adds to
    [Output], depend on the package and the listing of the library root
    only, not on the writer the run starts from: a fresh one or one left by
    an earlier run, with or without a classification table, whatever
    [Output] already holds.  The text is [Write_text], in which the import
    order is the one order that sorts the deduplicated paths, whichever
    way [sort.Slice] reaches it. *)
Theorem Write_reproducible (p : Package) (w1 w2 : Writer) :
  idle w1 -> idle w2 -> Context w1 = Context w2 ->
  fst (Write p w1) = fst (Write p w2)
  /\ (forall w1' w2',
        Write p w1 = (Ok None, w1') -> Write p w2 = (Ok None, w2') ->
        Output w1' = emitted (chan w1) +:+ Write_text p (Context w1)
        /\ Output w2' = emitted (chan w2) +:+ Write_text p (Context w1)
        /\ idle w1' /\ idle w2')
  /\ (forall tb deps sorted,
        Permutation (dedup_loop (length deps) ∅ 0 deps) sorted ->
        StronglySorted (fun a b => dep_less tb a b = true) sorted ->
        sorted = insertion_sort (dep_less tb) (dedup_loop (length deps) ∅ 0 deps)).
Proof.
  intros I1 I2 Hx. split; [apply Write_fst; assumption|]. split.
  - intros w1' w2' E1 E2.
    destruct (Write_Ok p _ _ I1 E1) as (O1 & _ & J1 & _ & _).
    destruct (Write_Ok p _ _ I2 E2) as (O2 & _ & J2 & _ & _).
    rewrite Hx. rewrite Hx in O1. auto.
  - intros tb deps sorted Hp Hs.
    apply (sorted_perm_unique tb); [exact Hs| |].
    + apply insertion_sort_sorted. apply dedup_spec.
    + rewrite <- Hp. apply insertion_sort_perm.
Qed.

(** ** What reaches [Output] before the final flush *)

Lemma Emits_ret {A} (a : A) : Emits (ret a).
Proof. intros w. exists EmptyString. reflexivity. Qed.

Lemma Emits_panic {A} p : Emits (panic (A := A) p).
Proof. intros w. exists EmptyString. reflexivity. Qed.

Lemma Emits_get {B} (k : Writer -> M B) : (forall w, Emits (k w)) -> Emits (bind get k).
Proof. intros Hk w. unfold bind, get. apply Hk. Qed.

Lemma Emits_modify (f : Writer -> Writer) :
  (forall w, chan (f w) = chan w) -> Emits (modify f).
Proof. intros Hf w. exists EmptyString. simpl. apply Hf. Qed.

Lemma Emits_forM_ {A} (f : A -> M unit) l : (forall x, Emits (f x)) -> Emits (forM_ f l).
Proof.
  intros Hf. induction l as [|x l IH]; simpl.
  - apply Emits_ret.
  - apply Emits_bind; [apply Hf|intros _; exact IH].
Qed.

Lemma Emits_line args : Emits (line args).
Proof. apply InScope_Emits, OwnScope_InScope, OwnScope_line. Qed.

Lemma Emits_ensureStdLibMapping : Emits ensureStdLibMapping.
Proof.
  unfold ensureStdLibMapping. apply Emits_get. intros w.
  destruct (std w); [apply Emits_ret|].
  apply Emits_bind; [apply Emits_modify; intros v; destruct v; reflexivity|intros _].
  destruct (ReadDir_src _) as [files|]; [|apply Emits_panic].
  apply Emits_forM_. intros [fname isDir].
  destruct (negb isDir); [apply Emits_ret|]. cbv zeta.
  destruct (_ || _); [apply Emits_ret|].
  apply Emits_modify. intros v; destruct v; reflexivity.
Qed.

Lemma Emits_isStdLib path : Emits (isStdLib path).
Proof.
  unfold isStdLib. apply Emits_bind; [apply Emits_ensureStdLibMapping|intros _].
  apply Emits_get. intros w. apply Emits_ret.
Qed.

Lemma Emits_importDeps_less d0 d1 : Emits (importDeps_less d0 d1).
Proof.
  unfold importDeps_less.
  apply Emits_bind; [apply Emits_isStdLib|intros std0].
  apply Emits_bind; [apply Emits_isStdLib|intros std1].
  destruct (negb _); apply Emits_ret.
Qed.

Lemma Emits_sort_insert x l : Emits (sort_insert importDeps_less x l).
Proof.
  induction l as [|y l IH]; cbn [sort_insert]; [apply Emits_ret|].
  apply Emits_bind; [apply Emits_importDeps_less|intros b].
  destruct b; [|apply Emits_ret].
  apply Emits_bind; [exact IH|intros r; apply Emits_ret].
Qed.

Lemma Emits_sort_Slice l : Emits (sort_Slice importDeps_less l).
Proof.
  induction l as [|x l IH]; cbn [sort_Slice]; [apply Emits_ret|].
  apply Emits_bind; [exact IH|intros r; apply Emits_sort_insert].
Qed.

Lemma Emits_importDeps_lines deps : forall lastStd, Emits (importDeps_lines lastStd deps).
Proof.
  induction deps as [|d deps IH]; intros lastStd; cbn [importDeps_lines];
    [apply Emits_ret|].
  apply Emits_bind; [apply Emits_isStdLib|intros isStd].
  apply Emits_bind.
  - destruct isStd; [apply Emits_ret|].
    destruct lastStd; [|apply Emits_ret].
    apply Emits_bind; [apply Emits_line|intros _; apply Emits_ret].
  - intros lastStd'. apply Emits_bind; [apply Emits_line|intros _; apply IH].
Qed.

Lemma Emits_importDeps deps : Emits (importDeps deps).
Proof.
  unfold importDeps. cbv zeta. destruct (Nat.eqb _ 0); [apply Emits_ret|].
  apply Emits_bind; [apply Emits_sort_Slice|intros sorted].
  apply Emits_bind; [apply Emits_line|intros _].
  apply Emits_bind; [apply Emits_importDeps_lines|intros _].
  apply Emits_bind; apply Emits_line || (intros _; apply Emits_line).
Qed.

(** More text than the buffer holds has partly reached [Output]. *)
Lemma chan_write_overflows t : forall o b,
  String.length b <= defaultBufSize ->
  defaultBufSize < String.length b + String.length t ->
  String.length o < String.length (fst (fst (chan_write t (o, b, None)))).
Proof.
  induction t as [|c t IH]; intros o b Hb Hlen; [simpl in Hlen; lia|].
  cbn [chan_write chan_byte].
  destruct (defaultBufSize - String.length b <=? 0) eqn:E.
  - apply Nat.leb_le in E.
    destruct (chan_write_grows t (o +:+ b) (String c EmptyString) None) as [x Hx].
    rewrite Hx, !str_length_app. pose proof defaultBufSize_pos. lia.
  - apply Nat.leb_gt in E. apply IH.
    + rewrite str_length_app. simpl. lia.
    + rewrite str_length_app. simpl in *. lia.
Qed.

(** What a run over [plain_sink] has sent when it ends without
    returning. *)
Lemma Write_sent (p : Package) (out : string) (ctx : build_Context) r w' :
  Write p (NewWriter out ctx) = (r, w') -> (forall e, r <> Ok e) ->
  exists t, chan w' = chan_write t (chan_at out).
Proof.
  intros E Hr.
  pose proof (idle_NewWriter out ctx) as Hidle.
  rewrite (Write_unfold p _ Hidle) in E.
  destruct (prepared_facts (Package_ p) _ Hidle) as (_ & _ & _ & Pc & _).
  set (wp := prepared (Package_ p) (NewWriter out ctx)) in *.
  destruct (lined_facts (header_text p) wp) as (_ & _ & _ & _ & Lc & _).
  set (wh := lined (header_text p) wp) in *.
  assert (Hwh : chan wh = chan_write (header_text p) (chan_at out)).
  { rewrite Lc, Pc. reflexivity. }
  unfold bind at 1 in E.
  destruct (Emits_importDeps (deps_of p) wh) as [t1 Ht1].
  destruct (importDeps (deps_of p) wh) as [r1 v1]. simpl in Ht1.
  assert (Hv1 : chan v1 = chan_write (header_text p +:+ t1) (chan_at out)).
  { rewrite chan_write_app, <- Hwh. exact Ht1. }
  destruct r1 as [[]| |];
    [|inversion E; subst; eexists; exact Hv1
     |inversion E; subst; eexists; exact Hv1].
  unfold bind at 1 in E.
  destruct (InScope_Emits _ (OwnScope_InScope _
              (OwnScope_newScope _ (InScope_Write_func p))) v1) as [t2 Ht2].
  destruct (newScope (Write_func p) v1) as [r2 v2]. simpl in Ht2.
  assert (Hv2 : chan v2 = chan_write ((header_text p +:+ t1) +:+ t2) (chan_at out)).
  { rewrite chan_write_app, <- Hv1. exact Ht2. }
  destruct r2 as [[]| |];
    [|inversion E; subst; eexists; exact Hv2
     |inversion E; subst; eexists; exact Hv2].
  rewrite bufio_Flush_plain in E.
  destruct (bw_err v2); inversion E; subst; exfalso; eapply Hr; reflexivity.
Qed.

(** C10: [isStdLib] looks at the first segment of the path only.  On
    first use, with the library root listed as [files], it builds the
    table and answers whether that segment names a directory of the
    listing other than [cmd] and [internal]; once the table is built,
    [isStdLib] and [ensureStdLibMapping] leave the writer as it is, and a
    whole run of [Write] returns with the same table. *)
Theorem isStdLib_first_segment (path : string) (w : Writer) :
  (forall path', first_segment path' = first_segment path ->
     isStdLib path' w = isStdLib path w)
  /\ (forall files,
        std w = None ->
        ReadDir_src (GOROOT (Context w)) = Some files ->
        plain_names files ->
        isStdLib path w
        = (Ok (stdlib_dir files (first_segment path)),
           set_std (Some (stdlib_table files ∅)) w))
  /\ (forall tb,
        std w = Some tb ->
        isStdLib path w = (Ok (default false (tb !! first_segment path)), w)
        /\ ensureStdLibMapping w = (Ok tt, w)
        /\ (forall p w', idle w -> Write p w = (Ok None, w') -> std w' = Some tb)).
Proof.
  split; [|split].
  - intros path' Hseg. unfold isStdLib. fold (first_segment path').
    fold (first_segment path). rewrite Hseg. reflexivity.
  - intros files Hstd Hdir Hplain.
    rewrite (isStdLib_ok path files w (conj Hdir (or_introl Hstd))).
    unfold classify. rewrite (stdlib_table_lookup files ∅ _ Hplain).
    rewrite lookup_empty. reflexivity.
  - intros tb Hstd. split; [apply isStdLib_built; exact Hstd|].
    split; [eapply ensureStdLibMapping_built; exact Hstd|].
    intros p w' Hidle E.
    destruct (Write_Ok p w w' Hidle E) as (_ & _ & _ & _ & [Hs|(files & Hdir & Hs)]).
    + congruence.
    + destruct Hidle as (_ & _ & _ & Hfit). unfold std_fits in Hfit.
      rewrite Hdir in Hfit. destruct Hfit as [Hn|Hb]; congruence.
Qed.

(** ** Exact texts *)

Lemma Quiet_ret {A} (a : A) : Quiet (ret a).
Proof. intros u b u' E. inversion E; subst. auto. Qed.

Lemma Quiet_lift {A} (r : res A) : Quiet (lift r).
Proof. intros u b u' E. inversion E; subst. auto. Qed.

Lemma Quiet_panic {A} p : Quiet (panic (A := A) p).
Proof. intros u b u' E. inversion E. Qed.

Lemma Quiet_bind {A B} (m : M A) (k : A -> M B) :
  Quiet m -> (forall a, Quiet (k a)) -> Quiet (bind m k).
Proof.
  intros Hm Hk u b u'' E. unfold bind in E.
  destruct (m u) as [[a| |] u'] eqn:Em; try discriminate.
  destruct (Hm _ _ _ Em) as (C1 & E1 & D1).
  destruct (Hk a _ _ _ E) as (C2 & E2 & D2).
  repeat split; congruence.
Qed.

Lemma Quiet_get {B} (k : Writer -> M B) : (forall w, Quiet (k w)) -> Quiet (bind get k).
Proof. intros Hk u b u' E. unfold bind, get in E. eapply Hk. exact E. Qed.

Lemma Quiet_forM_ {A} (f : A -> M unit) l : (forall x, Quiet (f x)) -> Quiet (forM_ f l).
Proof.
  intros Hf. induction l as [|x l IH]; simpl; [apply Quiet_ret|].
  apply Quiet_bind; [apply Hf|intros _; exact IH].
Qed.

Lemma Quiet_mapMi {A B} (f : nat -> A -> M B) l :
  (forall i x, Quiet (f i x)) -> forall i, Quiet (mapMi f i l).
Proof.
  intros Hf. induction l as [|x l IH]; intros i; simpl; [apply Quiet_ret|].
  apply Quiet_bind; [apply Hf|intros y].
  apply Quiet_bind; [apply IH|intros ys; apply Quiet_ret].
Qed.

Lemma Quiet_set v l : Quiet (set v l).
Proof.
  intros u b u' E. unfold set in E.
  destruct (scopes u) as [|s rest]; [discriminate|].
  destruct (scope_set v l s). inversion E; subst. destruct u; auto.
Qed.

Lemma Quiet_Back : Quiet Back.
Proof.
  unfold Back. apply Quiet_get. intros w.
  destruct (scopes w); [apply Quiet_panic|apply Quiet_ret].
Qed.

Lemma Quiet_isGlobalScope : Quiet isGlobalScope.
Proof.
  unfold isGlobalScope. apply Quiet_get. intros w.
  destruct (scopes w) as [|? [|]]; first [apply Quiet_panic|apply Quiet_ret].
Qed.

Lemma Quiet_declare_loop name l fuel : forall i, Quiet (declare_loop fuel i name l).
Proof.
  induction fuel as [|fuel IH]; intros i; [apply Quiet_lift|].
  cbn [declare_loop]. destruct (token_IsKeyword _); [apply IH|].
  apply Quiet_bind; [apply Quiet_isGlobalScope|intros g].
  apply Quiet_get. intros w. destruct (g && _); [apply IH|].
  apply Quiet_bind; [apply Quiet_set|intros ok].
  destruct ok; [apply Quiet_ret|apply IH].
Qed.

Lemma Quiet_declare name l : Quiet (declare name l).
Proof.
  unfold declare. apply Quiet_bind.
  - destruct (isPredeclared name); [apply Quiet_lift|apply Quiet_ret].
  - intros n. apply Quiet_bind; [apply Quiet_Back|intros _].
    apply Quiet_get. intros w. apply Quiet_declare_loop.
Qed.

Lemma Quiet_capture vs l : Quiet (capture vs l).
Proof.
  unfold capture. apply Quiet_bind; [apply Quiet_Back|intros _].
  apply Quiet_forM_. intros v. apply Quiet_bind; [apply Quiet_set|intros ok].
  destruct ok; [apply Quiet_ret|apply Quiet_panic].
Qed.

Lemma Quiet_index l i : Quiet (index l i).
Proof. unfold index. destruct (l !! i); [apply Quiet_ret|apply Quiet_panic]. Qed.

Lemma Quiet_typeString t : Quiet (typeString t).
Proof. unfold typeString. apply Quiet_get. intros w. apply Quiet_ret. Qed.

Lemma Quiet_declareParams src : Quiet (declareParams src).
Proof.
  unfold declareParams. apply Quiet_mapMi. intros i x.
  apply Quiet_bind; [apply Quiet_lift|intros n; apply Quiet_declare].
Qed.

Lemma InScope_SendsSome {A} (m : M A) : InScope m -> SendsSome m.
Proof.
  intros Hin u a u' E.
  destruct (InScope_Emits m Hin u) as [t Ht]. rewrite E in Ht.
  exists t. split; [exact Ht|].
  destruct (proj1 Hin _ _ _ E) as (Hf & _). unfold fixed in Hf. congruence.
Qed.

Lemma Sends_line args : Sends (line args) (fun d => line_text true d args).
Proof.
  intros u a u' E He. rewrite line_eq in E. inversion E; subst. clear E.
  rewrite He. split; [|split]; [|reflexivity|destruct u; reflexivity].
  transitivity (chan (with_chan (chan_write (line_text true (depth u) args) (chan u)) u));
    [destruct u; reflexivity|apply chan_with_chan].
Qed.

Lemma Sends_ret {A} (a : A) : Sends (ret a) (fun _ => EmptyString).
Proof. intros u b u' E He. inversion E; subst. auto. Qed.

Lemma Sends_bind {A B} (m : M A) (k : A -> M B) T1 T2 :
  Sends m T1 -> (forall a, Sends (k a) T2) ->
  Sends (bind m k) (fun d => T1 d +:+ T2 d).
Proof.
  intros Hm Hk u b u'' E He. unfold bind in E.
  destruct (m u) as [[a| |] u'] eqn:Em; try discriminate.
  destruct (Hm _ _ _ Em He) as (C1 & E1 & D1).
  destruct (Hk a _ _ _ E E1) as (C2 & E2 & D2).
  split; [|split; [exact E2|congruence]].
  rewrite chan_write_app, <- C1, <- D1. exact C2.
Qed.

Lemma Sends_Quiet_bind {A B} (m : M A) (k : A -> M B) T :
  Quiet m -> (forall a, Sends (k a) T) -> Sends (bind m k) T.
Proof.
  intros Hm Hk u b u'' E He. unfold bind in E.
  destruct (m u) as [[a| |] u'] eqn:Em; try discriminate.
  destruct (Hm _ _ _ Em) as (C1 & E1 & D1).
  destruct (Hk a _ _ _ E ltac:(congruence)) as (C2 & E2 & D2).
  rewrite <- C1, <- D1. repeat split; congruence.
Qed.

Lemma Sends_ext {A} (m : M A) T T' :
  (forall d, T d = T' d) -> Sends m T -> Sends m T'.
Proof. intros HT Hm u a u' E He. rewrite <- HT. eapply Hm; eassumption. Qed.

Lemma Sends_newScope (fn : M unit) T : Sends fn T -> Sends (newScope fn) T.
Proof.
  intros Hfn u a u' E He. unfold newScope, bind, modify in E.
  destruct (fn _) as [[[]| |] u1] eqn:Ef; try discriminate.
  inversion E; subst. clear E.
  destruct (Hfn _ _ _ Ef) as (C & E1 & D); [destruct u; exact He|].
  split; [|split].
  - transitivity (chan u1); [destruct u1; reflexivity|].
    rewrite C. destruct u; reflexivity.
  - transitivity (atEOL u1); [destruct u1; reflexivity|exact E1].
  - transitivity (depth u1); [destruct u1; reflexivity|].
    rewrite D. destruct u; reflexivity.
Qed.

Lemma Sends_block (fn : M unit) T : Sends fn T -> Sends (block fn) (fun d => T (S d)).
Proof.
  intros Hfn u a u' E He. unfold block, bind, modify in E.
  destruct (newScope fn _) as [[[]| |] u1] eqn:Ef; try discriminate.
  inversion E; subst. clear E.
  destruct (Sends_newScope fn T Hfn _ _ _ Ef) as (C & E1 & D);
    [destruct u; exact He|].
  split; [|split].
  - transitivity (chan u1); [destruct u1; reflexivity|].
    rewrite C. destruct u; reflexivity.
  - transitivity (atEOL u1); [destruct u1; reflexivity|exact E1].
  - transitivity (pred (depth u1)); [destruct u1; reflexivity|].
    rewrite D. destruct u; reflexivity.
Qed.

(** ** Flattening a struct parameter and building it again *)

Lemma flattenStruct_eq s : forall dst,
  flattenStruct dst s = dst ++ map field_param (exported_fields s).
Proof.
  unfold flattenStruct, exported_fields, field_param.
  induction s as [|[fname typ] s IH]; intros dst.
  - simpl. rewrite app_nil_r. reflexivity.
  - cbn [fold_left List.filter fst snd]. destruct (Exported fname); cbn [negb].
    + rewrite IH, <- app_assoc. reflexivity.
    + apply IH.
Qed.

Lemma flattenParams_acc params : forall dst,
  fold_left (fun dst p =>
    match snd (unwrapStruct (Type_ p)) with
    | Some s => flattenStruct dst s
    | None => dst ++ [p]
    end) params dst
  = dst ++ concat (map flat1 params).
Proof.
  induction params as [|p params IH]; intros dst.
  - simpl. rewrite app_nil_r. reflexivity.
  - cbn [fold_left map concat]. rewrite IH. unfold flat1 at 2, struct_of.
    destruct (snd (unwrapStruct (Type_ p))) as [s|].
    + rewrite flattenStruct_eq, <- app_assoc. reflexivity.
    + rewrite <- app_assoc. reflexivity.
Qed.

Lemma flattenParams_eq params : flattenParams params = concat (map flat1 params).
Proof. unfold flattenParams. apply (flattenParams_acc params []). Qed.

Lemma unwrapStruct_struct t x s : unwrapStruct t = (x, Some s) -> x = Some t.
Proof.
  destruct t as [| |? ? u| |]; try discriminate.
  destruct u; simpl; congruence.
Qed.

Lemma constructStruct_fields_spec p s : forall vars u,
  length (exported_fields s) <= length vars ->
  atEOL u = true ->
  exists u',
    constructStruct_fields p s vars u
    = (Ok (drop (length (exported_fields s)) vars), u')
    /\ chan u' = chan_write
                   (render_stmts (depth u)
                      (field_assigns p (map fst (exported_fields s)) vars))
                   (chan u)
    /\ atEOL u' = true /\ depth u' = depth u /\ scopes u' = scopes u.
Proof.
  unfold exported_fields, render_stmts, field_assigns.
  induction s as [|[fname typ] s IH]; intros vars u Hlen He.
  - exists u. simpl. auto 10.
  - cbn [constructStruct_fields List.filter fst]. cbn [List.filter fst] in Hlen.
    destruct (Exported fname); cbn [negb].
    + destruct vars as [|name vars]; [simpl in Hlen; lia|].
      unfold bind. rewrite line_eq, He.
      set (u1 := set_atEOL true _).
      destruct (IH vars u1) as (u' & E & C & E' & D & Sc).
      * simpl in Hlen. lia.
      * reflexivity.
      * exists u'. split; [exact E|].
        assert (C1 : chan u1 = chan_write (line_text true (depth u)
                                    [p; "."; fname; " = "; name]) (chan u)).
        { unfold u1.
          transitivity (chan (with_chan (chan_write (line_text true (depth u)
                                  [p; "."; fname; " = "; name]) (chan u)) u));
            [destruct u; reflexivity|apply chan_with_chan]. }
        assert (D1 : depth u1 = depth u) by (unfold u1; destruct u; reflexivity).
        assert (S1 : scopes u1 = scopes u) by (unfold u1; destruct u; reflexivity).
        split; [|repeat split; congruence].
        rewrite C, C1, D1. cbn [map combine fst snd render_stmt].
        rewrite concat_strings_cons, chan_write_app. reflexivity.
    + apply IH; assumption.
Qed.

Lemma constructStruct_spec n s names u sc rest :
  scopes u = sc :: rest ->
  atEOL u = true ->
  length (exported_fields s) <= length names ->
  exists p u' typ,
    constructStruct n s names u
    = (Ok (p, drop (length (exported_fields s)) names), u')
    /\ vars sc !! p = None
    /\ chan u' = chan_write
                   (render_stmts (depth u)
                      (construct_stmts p typ (map fst (exported_fields s)) names))
                   (chan u)
    /\ atEOL u' = true /\ depth u' = depth u
    /\ scopes u' = declared p 605 sc :: rest.
Proof.
  intros Hs He Hlen.
  destruct (declare_not_predeclared "p" 605 u sc rest Hs eq_refl)
    as (j & _ & Hfree & Ed).
  set (p := candidate "p" j) in *.
  set (u1 := set_scopes (declared p 605 sc :: rest) u) in *.
  assert (Hp : vars sc !! p = None).
  { rewrite (blocked_cases _ _ _ _ Hs) in Hfree.
    apply orb_false_iff in Hfree as [_ Hv]. apply bool_decide_eq_false in Hv.
    apply eq_None_not_Some. exact Hv. }
  unfold constructStruct. rewrite (bind_Ok _ _ _ _ _ Ed).
  unfold bind at 1, typeString. unfold bind at 1, get, ret.
  unfold bind at 1. rewrite line_eq.
  assert (He1 : atEOL u1 = true) by (unfold u1; destruct u; exact He).
  rewrite He1.
  set (T := types_TypeString _ n).
  set (u2 := set_atEOL true _).
  destruct (constructStruct_fields_spec p s names u2) as (u' & E & C & E' & D & Sc).
  { exact Hlen. }
  { reflexivity. }
  unfold bind. rewrite E. unfold ret.
  exists p, u', T. split; [reflexivity|]. split; [exact Hp|].
  assert (C2 : chan u2 = chan_write (line_text true (depth u) ["var "; p; " "; T]) (chan u)).
  { unfold u2.
    transitivity (chan (with_chan (chan_write (line_text true (depth u1)
                            ["var "; p; " "; T]) (chan u1)) u1));
      [destruct u1; reflexivity|].
    rewrite chan_with_chan. unfold u1. destruct u; reflexivity. }
  assert (D2 : depth u2 = depth u) by (unfold u2, u1; destruct u; reflexivity).
  assert (S2 : scopes u2 = declared p 605 sc :: rest)
    by (unfold u2, u1; destruct u; reflexivity).
  split; [|repeat split; congruence].
  rewrite C, C2, D2. unfold construct_stmts, render_stmts.
  cbn [map render_stmt]. rewrite concat_strings_cons, chan_write_app. reflexivity.
Qed.

(** *** What the written statements do *)

Lemma bind_args_lookup {V} (names : list string) : forall (vs : list V) i nm v,
  List.NoDup names ->
  names !! i = Some nm -> vs !! i = Some v ->
  bind_args names vs !! nm = Some v.
Proof.
  unfold bind_args.
  induction names as [|a names IH]; intros vs i nm v Hnd Hn Hv; [discriminate|].
  destruct vs as [|b vs]; [discriminate|].
  apply List.NoDup_cons_iff in Hnd as [Ha Hnd].
  cbn [combine]. rewrite list_to_map_cons. destruct i as [|i]; simpl in Hn, Hv.
  - inversion Hn; inversion Hv; subst. apply lookup_insert_eq.
  - rewrite lookup_insert_ne.
    + eapply IH; eassumption.
    + intros ->. apply Ha. apply list_elem_of_In.
      eapply list_elem_of_lookup_2. exact Hn.
Qed.

Lemma bind_args_other {V} (names : list string) : forall (vs : list V) nm,
  ~ List.In nm names -> bind_args names vs !! nm = None.
Proof.
  unfold bind_args.
  induction names as [|a names IH]; intros vs nm Hn; [apply lookup_empty|].
  destruct vs as [|b vs]; [apply lookup_empty|].
  cbn [combine]. rewrite list_to_map_cons, lookup_insert_ne.
  - apply IH. intros H. apply Hn. right. exact H.
  - intros ->. apply Hn. left. reflexivity.
Qed.

Lemma exec_assigns {V} (e : gmap string (goval V)) p fields : forall names st sv,
  ~ List.In p names ->
  st !! p = Some (StructVal sv) ->
  (forall nm, nm <> p -> st !! nm = e !! nm) ->
  exec_stmts (field_assigns p fields names) st !! p
  = Some (StructVal (assign_fields e fields names sv)).
Proof.
  unfold exec_stmts, field_assigns, assign_fields.
  induction fields as [|f0 fields IH]; intros names st sv Hnp Hp Hst; [exact Hp|].
  destruct names as [|n0 names]; [exact Hp|].
  assert (Hn0 : n0 <> p) by (intros ->; apply Hnp; left; reflexivity).
  assert (Hnp' : ~ List.In p names) by (intros H; apply Hnp; right; exact H).
  cbn [combine map fold_left exec_stmt fst snd]. rewrite Hp, (Hst n0 Hn0).
  destruct (e !! n0) as [[x|?]|].
  - apply IH; [exact Hnp'|apply lookup_insert_eq|].
    intros nm Hnm. rewrite lookup_insert_ne by congruence. apply Hst. exact Hnm.
  - apply IH; assumption.
  - apply IH; assumption.
Qed.

Lemma assign_fields_other {V} (e : gmap string (goval V)) fields : forall names sv f,
  ~ List.In f fields -> assign_fields e fields names sv !! f = sv !! f.
Proof.
  unfold assign_fields.
  induction fields as [|f0 fields IH]; intros names sv f Hf; [reflexivity|].
  destruct names as [|n0 names]; [reflexivity|].
  cbn [combine fold_left fst snd].
  rewrite IH by (intros H; apply Hf; right; exact H).
  destruct (e !! n0) as [[x|?]|]; try reflexivity.
  apply lookup_insert_ne. intros ->. apply Hf. left. reflexivity.
Qed.

Lemma assign_fields_field {V} (e : gmap string (goval V)) fields :
  forall names sv i f nm v,
    List.NoDup fields ->
    fields !! i = Some f -> names !! i = Some nm -> e !! nm = Some (Plain v) ->
    assign_fields e fields names sv !! f = Some v.
Proof.
  induction fields as [|f0 fields IH]; intros names sv i f nm v Hnd Hf Hn Ha;
    [discriminate|].
  destruct names as [|n0 names]; [discriminate|].
  apply List.NoDup_cons_iff in Hnd as [Hf0 Hnd].
  destruct i as [|i]; simpl in Hf, Hn.
  - inversion Hf; inversion Hn; subst.
    change (assign_fields e fields names
              (match e !! nm with Some (Plain x) => <[f := x]> sv | _ => sv end) !! f
            = Some v).
    rewrite Ha, assign_fields_other by exact Hf0. apply lookup_insert_eq.
  - change (assign_fields e fields names
              (match e !! n0 with Some (Plain x) => <[f0 := x]> sv | _ => sv end) !! f
            = Some v).
    eapply IH; eassumption.
Qed.

(** The struct built from the first arguments has exactly the exported
    fields, each holding the argument at its position. *)
Lemma assign_fields_eq {V} (e : gmap string (goval V)) fs names (vs : list V) :
  List.NoDup fs ->
  length fs <= length names -> length vs = length names ->
  (forall i nm x, names !! i = Some nm -> vs !! i = Some x -> e !! nm = Some (Plain x)) ->
  assign_fields e fs names ∅ = list_to_map (combine fs (take (length fs) vs)).
Proof.
  intros Hnd Hlen Hvs Hargs. apply map_eq. intros f.
  destruct (decide (f ∈ fs)) as [Hin|Hout].
  - apply list_elem_of_lookup_1 in Hin as [i Hi].
    assert (Hlt : i < length fs) by (apply lookup_lt_is_Some; eauto).
    destruct (lookup_lt_is_Some_2 names i ltac:(lia)) as [nm Hnm].
    destruct (lookup_lt_is_Some_2 vs i ltac:(lia)) as [x Hx].
    rewrite (assign_fields_field e fs names ∅ i f nm x Hnd Hi Hnm
               (Hargs i nm x Hnm Hx)).
    symmetry. apply (bind_args_lookup fs (take (length fs) vs) i f x Hnd Hi).
    rewrite lookup_take_lt by exact Hlt. exact Hx.
  - rewrite assign_fields_other by (rewrite <- list_elem_of_In; exact Hout).
    rewrite lookup_empty. symmetry.
    apply (bind_args_other fs). rewrite <- list_elem_of_In. exact Hout.
Qed.

Lemma exec_stmts_app {V} l1 l2 (e : gmap string (goval V)) :
  exec_stmts (l1 ++ l2) e = exec_stmts l2 (exec_stmts l1 e).
Proof. unfold exec_stmts. apply fold_left_app. Qed.

Lemma exec_stmts_other {V} l : forall (e : gmap string (goval V)) x,
  ~ List.In x (map target l) -> exec_stmts l e !! x = e !! x.
Proof.
  unfold exec_stmts.
  induction l as [|s l IH]; intros e x Hx; [reflexivity|].
  cbn [fold_left]. rewrite IH by (intros H; apply Hx; right; exact H).
  assert (Hne : target s <> x) by (intros H; apply Hx; left; exact H).
  destruct s as [p typ|p f v]; simpl in Hne |- *.
  - apply lookup_insert_ne. exact Hne.
  - destruct (e !! p) as [[?|sv]|]; try reflexivity.
    destruct (e !! v) as [[y|?]|]; try reflexivity.
    apply lookup_insert_ne. exact Hne.
Qed.

Lemma construct_stmts_targets p typ fs names x :
  List.In x (map target (construct_stmts p typ fs names)) -> x = p.
Proof.
  unfold construct_stmts, field_assigns. cbn [map target].
  intros [H|H]; [congruence|].
  rewrite map_map in H. apply in_map_iff in H as (fv & <- & _). reflexivity.
Qed.

Lemma exec_construct {V} (e : gmap string (goval V)) p typ fs names (vs : list V) :
  List.NoDup fs ->
  length fs <= length names -> length vs = length names ->
  ~ List.In p names ->
  (forall i nm x, names !! i = Some nm -> vs !! i = Some x -> e !! nm = Some (Plain x)) ->
  exec_stmts (construct_stmts p typ fs names) e !! p
  = Some (StructVal (list_to_map (combine fs (take (length fs) vs)))).
Proof.
  intros Hnd Hlen Hvs Hp Hargs. unfold construct_stmts.
  change (exec_stmts (field_assigns p fs names) (<[p := StructVal ∅]> e) !! p
          = Some (StructVal (list_to_map (combine fs (take (length fs) vs))))).
  rewrite (exec_assigns e p fs names _ ∅ Hp (lookup_insert_eq _ _ _)).
  - do 2 f_equal. apply assign_fields_eq; assumption.
  - intros nm Hnm. apply lookup_insert_ne. congruence.
Qed.

Lemma entry_env_lookup {V} names (vs : list V) i nm x :
  List.NoDup names ->
  names !! i = Some nm -> vs !! i = Some x ->
  entry_env names vs !! nm = Some (Plain x).
Proof.
  intros Hnd Hn Hv. unfold entry_env.
  rewrite lookup_fmap, (bind_args_lookup names vs i nm x Hnd Hn Hv). reflexivity.
Qed.

Lemma constructParams_plain p params name names :
  snd (unwrapStruct (Type_ p)) = None ->
  constructParams (p :: params) (name :: names)
  = (res <- constructParams params names ;; ret (name :: res))%gen.
Proof.
  intros H. cbn [constructParams].
  destruct (unwrapStruct (Type_ p)) as [[n|] [s|]]; try discriminate; reflexivity.
Qed.

Lemma constructParams_spec {V} : forall params names (vs : list V) u sc rest,
  scopes u = sc :: rest -> atEOL u = true ->
  length names = length (flattenParams params) ->
  length vs = length names ->
  (forall x, List.In x names -> is_Some (vars sc !! x)) ->
  fields_distinct params ->
  exists res u' stmts sc',
    constructParams params names u = (Ok res, u')
    /\ chan u' = chan_write (render_stmts (depth u) stmts) (chan u)
    /\ atEOL u' = true /\ depth u' = depth u /\ scopes u' = sc' :: rest
    /\ (forall x, List.In x (map target stmts) -> vars sc !! x = None)
    /\ forall e,
         (forall i nm x, names !! i = Some nm -> vs !! i = Some x ->
                         e !! nm = Some (Plain x)) ->
         map (fun v => exec_stmts stmts e !! v) res = map Some (expected params vs).
Proof.
  induction params as [|p params IH]; intros names vs u sc rest Hs He Hlen Hvs Hsc Hfd.
  - exists [], u, [], sc. simpl. repeat split; auto. intros x [].
  - rewrite flattenParams_eq in Hlen. cbn [map concat] in Hlen.
    rewrite <- flattenParams_eq, length_app in Hlen.
    apply Forall_cons in Hfd as [Hp Hfd].
    cbn [expected]. unfold flat1 in Hlen. unfold struct_of in *.
    destruct (unwrapStruct (Type_ p)) as [n [s|]] eqn:Eu; cbn [snd] in *.
    + cbn [constructParams]. rewrite Eu, (unwrapStruct_struct _ _ _ Eu).
      rewrite length_map in Hlen.
      set (k := length (exported_fields s)) in *.
      destruct (constructStruct_spec (Type_ p) s names u sc rest Hs He ltac:(lia))
        as (v & u1 & typ & E1 & Hv & C1 & He1 & D1 & S1).
      fold k in E1.
      assert (Hvn : ~ List.In v names).
      { intros Hin. apply Hsc in Hin as [d Hd]. congruence. }
      destruct (IH (drop k names) (drop k vs) u1 (declared v 605 sc) rest S1 He1)
        as (res & u' & stmts & sc' & E & C & He' & D & S' & Ht & Hex).
      { rewrite length_drop. lia. }
      { rewrite !length_drop. lia. }
      { intros x Hx. unfold declared; simpl.
        destruct (decide (v = x)) as [->|Hne].
        - rewrite lookup_insert_eq. eauto.
        - rewrite lookup_insert_ne by exact Hne. apply Hsc.
          apply list_elem_of_In. apply list_elem_of_In in Hx.
          eapply subseteq_drop. exact Hx. }
      { exact Hfd. }
      exists (v :: res), u', (construct_stmts v typ (map fst (exported_fields s)) names ++ stmts), sc'.
      split.
      { rewrite (bind_Ok _ _ _ _ _ E1). cbn [fst snd].
        rewrite (bind_Ok _ _ _ _ _ E). reflexivity. }
      split.
      { rewrite C, C1, D1. unfold render_stmts.
        rewrite map_app, concat_strings_app, chan_write_app. reflexivity. }
      split; [exact He'|]. split; [congruence|]. split; [exact S'|].
      assert (Ht' : forall x, List.In x (map target stmts) -> x <> v).
      { intros x Hx ->. apply Ht in Hx. unfold declared in Hx; simpl in Hx.
        rewrite lookup_insert_eq in Hx. discriminate. }
      split.
      { intros x Hx. rewrite map_app, in_app_iff in Hx. destruct Hx as [Hx|Hx].
        - apply construct_stmts_targets in Hx. subst x. exact Hv.
        - pose proof (Ht' x Hx) as Hne. apply Ht in Hx.
          unfold declared in Hx; simpl in Hx.
          rewrite lookup_insert_ne in Hx by congruence. exact Hx. }
      intros e He0. rewrite exec_stmts_app. cbn [map]. f_equal.
      * rewrite exec_stmts_other by (intros Hx; exact (Ht' v Hx eq_refl)).
        rewrite length_map. fold k.
        rewrite (exec_construct e v typ (map fst (exported_fields s)) names vs);
          [rewrite length_map; reflexivity|exact Hp|rewrite length_map; fold k; lia
          |exact Hvs|exact Hvn|exact He0].
      * rewrite length_map. fold k. apply Hex.
        intros i nm x Hn Hx. rewrite lookup_drop in Hn. rewrite lookup_drop in Hx.
        rewrite exec_stmts_other.
        -- eapply He0; eassumption.
        -- intros Hin. apply construct_stmts_targets in Hin. subst nm.
           apply Hvn. apply list_elem_of_In. eapply list_elem_of_lookup_2. exact Hn.
    + simpl in Hlen.
      destruct names as [|name names]; [simpl in Hlen; lia|].
      destruct vs as [|x vs]; [simpl in Hvs; lia|].
      rewrite constructParams_plain by (rewrite Eu; reflexivity).
      destruct (IH names vs u sc rest Hs He)
        as (res & u' & stmts & sc' & E & C & He' & D & S' & Ht & Hex).
      { simpl in Hlen. lia. }
      { simpl in Hvs. lia. }
      { intros y Hy. apply Hsc. right. exact Hy. }
      { exact Hfd. }
      exists (name :: res), u', stmts, sc'.
      split.
      { rewrite (bind_Ok _ _ _ _ _ E). reflexivity. }
      split; [exact C|]. split; [exact He'|]. split; [exact D|]. split; [exact S'|].
      split; [exact Ht|].
      intros e He0. cbn [map]. f_equal.
      * rewrite exec_stmts_other.
        -- apply (He0 0 name x); reflexivity.
        -- intros Hin. apply Ht in Hin.
           destruct (Hsc name ltac:(left; reflexivity)) as [d Hd]. congruence.
      * apply Hex. intros i nm y Hn Hy. apply (He0 (S i) nm y); assumption.
Qed.


(** ** The body of a composed hook *)

Lemma bind_inv {A B} (m : M A) (k : A -> M B) u b u'' :
  bind m k u = (Ok b, u'') ->
  exists a u', m u = (Ok a, u') /\ k a u' = (Ok b, u'').
Proof.
  unfold bind. destruct (m u) as [[a| |] u'] eqn:Em; try discriminate.
  intros E. exists a, u'. auto.
Qed.

Lemma Went_refl u : Went u u EmptyString (atEOL u).
Proof. repeat split. Qed.

Lemma Went_trans u u1 u2 t1 t2 e1 e2 :
  Went u u1 t1 e1 -> Went u1 u2 t2 e2 -> Went u u2 (t1 +:+ t2) e2.
Proof.
  intros (C1 & E1 & D1) (C2 & E2 & D2). repeat split; [|exact E2|congruence].
  rewrite chan_write_app, <- C1. exact C2.
Qed.

Lemma Went_text u u' t t' e : t = t' -> Went u u' t e -> Went u u' t' e.
Proof. intros ->. auto. Qed.

Lemma Flows_Went {A} e e' (m : M A) T u a u' :
  Flows e e' m T -> m u = (Ok a, u') -> atEOL u = e -> Went u u' (T (depth u)) e'.
Proof. intros Hm E He. exact (Hm u a u' E He). Qed.

Lemma Quiet_Went {A} (m : M A) u a u' :
  Quiet m -> m u = (Ok a, u') -> Went u u' EmptyString (atEOL u).
Proof. intros Hm E. destruct (Hm u a u' E) as (C & E' & D). repeat split; assumption. Qed.

Lemma SendsSome_Went {A} (m : M A) u a u' :
  SendsSome m -> m u = (Ok a, u') -> exists t, Went u u' t (atEOL u').
Proof.
  intros Hm E. destruct (Hm u a u' E) as (t & C & D). exists t. repeat split; assumption.
Qed.

Lemma Flows_code e args : Flows e false (code args) (fun d => code_text e d args).
Proof.
  intros u a u' E He. rewrite code_eq in E. inversion E; subst. clear E.
  split; [|split]; [|reflexivity|destruct u; reflexivity].
  transitivity (chan (with_chan (chan_write (code_text (atEOL u) (depth u) args) (chan u)) u));
    [destruct u; reflexivity|apply chan_with_chan].
Qed.

Lemma Flows_line e args : Flows e true (line args) (fun d => line_text e d args).
Proof.
  intros u a u' E He. rewrite line_eq in E. inversion E; subst. clear E.
  split; [|split]; [|reflexivity|destruct u; reflexivity].
  transitivity (chan (with_chan (chan_write (line_text (atEOL u) (depth u) args) (chan u)) u));
    [destruct u; reflexivity|apply chan_with_chan].
Qed.

Lemma Flows_ret {A} e (a : A) : Flows e e (ret a) (fun _ => EmptyString).
Proof. intros u b u' E He. inversion E; subst. auto. Qed.

Lemma Flows_bind {A B} e e1 e' (m : M A) (k : A -> M B) T1 T2 :
  Flows e e1 m T1 -> (forall a, Flows e1 e' (k a) T2) ->
  Flows e e' (bind m k) (fun d => T1 d +:+ T2 d).
Proof.
  intros Hm Hk u b u'' E He. apply bind_inv in E as (a & u' & Em & Ek).
  destruct (Hm _ _ _ Em He) as (C1 & E1 & D1).
  destruct (Hk a _ _ _ Ek E1) as (C2 & E2 & D2).
  split; [|split; [exact E2|congruence]].
  rewrite chan_write_app, <- C1, <- D1. exact C2.
Qed.

Lemma Flows_Quiet_bind {A B} e e' (m : M A) (k : A -> M B) T :
  Quiet m -> (forall a, Flows e e' (k a) T) -> Flows e e' (bind m k) T.
Proof.
  intros Hm Hk u b u'' E He. apply bind_inv in E as (a & u' & Em & Ek).
  destruct (Hm _ _ _ Em) as (C1 & E1 & D1).
  destruct (Hk a _ _ _ Ek ltac:(congruence)) as (C2 & E2 & D2).
  rewrite <- C1, <- D1. repeat split; congruence.
Qed.

Lemma Flows_ext {A} e e' (m : M A) T T' :
  (forall d, T d = T' d) -> Flows e e' m T -> Flows e e' m T'.
Proof. intros HT Hm u a u' E He. rewrite <- HT. eapply Hm; eassumption. Qed.

Lemma Flows_newScope e e' (fn : M unit) T : Flows e e' fn T -> Flows e e' (newScope fn) T.
Proof.
  intros Hfn u a u' E He. unfold newScope, bind, modify in E.
  destruct (fn _) as [[[]| |] u1] eqn:Ef; try discriminate.
  inversion E; subst. clear E.
  destruct (Hfn _ _ _ Ef) as (C & E1 & D); [destruct u; reflexivity|].
  split; [|split].
  - transitivity (chan u1); [destruct u1; reflexivity|].
    rewrite C. destruct u; reflexivity.
  - transitivity (atEOL u1); [destruct u1; reflexivity|exact E1].
  - transitivity (depth u1); [destruct u1; reflexivity|].
    rewrite D. destruct u; reflexivity.
Qed.

Lemma Flows_block e e' (fn : M unit) T :
  Flows e e' fn T -> Flows e e' (block fn) (fun d => T (S d)).
Proof.
  intros Hfn u a u' E He. unfold block, bind, modify in E.
  destruct (newScope fn _) as [[[]| |] u1] eqn:Ef; try discriminate.
  inversion E; subst. clear E.
  destruct (Flows_newScope _ _ fn T Hfn _ _ _ Ef) as (C & E1 & D);
    [destruct u; reflexivity|].
  split; [|split].
  - transitivity (chan u1); [destruct u1; reflexivity|].
    rewrite C. destruct u; reflexivity.
  - transitivity (atEOL u1); [destruct u1; reflexivity|exact E1].
  - transitivity (pred (depth u1)); [destruct u1; reflexivity|].
    rewrite D. destruct u; reflexivity.
Qed.

(** What [newScope] and [block] do around an action that returns. *)
Lemma newScope_Went (fn : M unit) u a u' :
  newScope fn u = (Ok a, u') ->
  exists v v', fn v = (Ok tt, v')
    /\ chan v = chan u /\ atEOL v = atEOL u /\ depth v = depth u
    /\ chan u' = chan v' /\ atEOL u' = atEOL v' /\ depth u' = depth v'.
Proof.
  intros E. unfold newScope, bind, modify in E.
  destruct (fn _) as [[[]| |] u1] eqn:Ef; try discriminate.
  inversion E; subst. clear E.
  eexists _, u1. split; [exact Ef|].
  repeat split; first [destruct u; reflexivity|destruct u1; reflexivity].
Qed.

Lemma block_Went (fn : M unit) u a u' :
  block fn u = (Ok a, u') ->
  exists v v', fn v = (Ok tt, v')
    /\ chan v = chan u /\ atEOL v = atEOL u /\ depth v = S (depth u)
    /\ chan u' = chan v' /\ atEOL u' = atEOL v' /\ depth u' = pred (depth v').
Proof.
  intros E. unfold block, bind, modify in E.
  destruct (newScope fn _) as [[[]| |] u1] eqn:Ef; try discriminate.
  inversion E; subst. clear E.
  apply newScope_Went in Ef as (v & v' & Ef & C & E1 & D & C' & E' & D').
  exists v, v'. split; [exact Ef|].
  repeat split.
  - rewrite C. destruct u; reflexivity.
  - rewrite E1. destruct u; reflexivity.
  - rewrite D. destruct u; reflexivity.
  - rewrite <- C'. destruct u1; reflexivity.
  - rewrite <- E'. destruct u1; reflexivity.
  - rewrite <- D'. destruct u1; reflexivity.
Qed.

Lemma Flows_sep i :
  Flows false false (if 0 <? i then code [", "] else ret tt)
        (fun _ => if 0 <? i then ", " else EmptyString).
Proof.
  destruct (0 <? i).
  - eapply Flows_ext; [|apply Flows_code]. intros d. reflexivity.
  - apply Flows_ret.
Qed.

Lemma Flows_args args : forall i,
  Flows false false
    (forMi_ (fun i name => (if 0 <? i then code [", "] else ret tt) ;; code [name]) i args)
    (fun _ => arg_list i args).
Proof.
  induction args as [|a args IH]; intros i; cbn [forMi_ arg_list].
  - apply Flows_ret.
  - eapply Flows_ext;
      [|eapply Flows_bind;
         [eapply Flows_bind; [apply Flows_sep|intros _; apply Flows_code]
         |intros _; apply IH]].
    intros d. cbv beta. unfold code_text. str_norm. reflexivity.
Qed.

Lemma Flows_call args :
  Flows false true (call args) (fun _ => "(" +:+ arg_list 0 args +:+ ")" +:+ newline).
Proof.
  unfold call.
  eapply Flows_ext;
    [|eapply Flows_bind;
       [apply Flows_code
       |intros _; eapply Flows_bind; [apply Flows_args|intros _; apply Flows_line]]].
  intros d. cbv beta. unfold line_text, code_text. str_norm. reflexivity.
Qed.

Lemma bind_ret_l {A B} (a : A) (k : A -> M B) : bind (ret a) k = k a.
Proof. reflexivity. Qed.

Lemma Flows_hook_call (hasres : bool) rs i r h args :
  (hasres = true -> rs !! i = Some r) ->
  Flows true true
    ((if hasres then (r <- index rs i ;; code [r; " = "]) else ret tt) ;;
     code [h] ;;
     call args)
    (fun d => print_stmt d (CallHook (if hasres then Some r else None) h args)).
Proof.
  intros Hr. destruct hasres.
  - unfold index. rewrite (Hr eq_refl), bind_ret_l.
    eapply Flows_ext;
      [|eapply Flows_bind;
         [apply Flows_code
         |intros _; eapply Flows_bind; [apply Flows_code|intros _; apply Flows_call]]].
    intros d. cbv beta. unfold code_text. cbn [print_stmt]. str_norm. reflexivity.
  - rewrite bind_ret_l.
    eapply Flows_ext;
      [|eapply Flows_bind; [apply Flows_code|intros _; apply Flows_call]].
    intros d. cbv beta. unfold code_text. cbn [print_stmt]. str_norm. reflexivity.
Qed.

Lemma Flows_hook (hasres : bool) rs i r h args :
  (hasres = true -> rs !! i = Some r) ->
  Flows true true
    (line ["if " +:+ h +:+ " != nil {"] ;;
     block (
       (if hasres then (r <- index rs i ;; code [r; " = "]) else ret tt) ;;
       code [h] ;;
       call args) ;;
     line ["}"])
    (fun d => print_stmt d (IfSet h [CallHook (if hasres then Some r else None) h args])).
Proof.
  intros Hr.
  eapply Flows_ext;
    [|eapply Flows_bind;
       [apply Flows_line
       |intros _; eapply Flows_bind;
          [apply Flows_block, (Flows_hook_call hasres rs i r h args Hr)
          |intros _; apply Flows_line]]].
  intros d. cbv beta. cbn [print_stmt]. str_norm. reflexivity.
Qed.

Lemma Flows_guard_inner :
  Flows true true
    (line ["defer func() {"] ;;
     block (
       line ["if e := recover(); e != nil {"] ;;
       block (line ["options.panicCallback(e)"]) ;;
       line ["}"]) ;;
     line ["}()"])
    (fun d => print_stmt d (DeferRecover panicCallback)).
Proof.
  eapply Flows_ext;
    [|eapply Flows_bind;
       [apply Flows_line
       |intros _; eapply Flows_bind;
          [eapply Flows_block, Flows_bind;
             [apply Flows_line
             |intros _; eapply Flows_bind;
                [apply Flows_block, Flows_line|intros _; apply Flows_line]]
          |intros _; apply Flows_line]]].
  intros d. cbv beta. cbn [print_stmt]. str_norm. reflexivity.
Qed.

Ltac run_step E a u' E1 := apply bind_inv in E as (a & u' & E1 & E).

(** Extends [W : Went w wk T e] by the run [E] of an action from [wk]. *)
Ltac flow W E F :=
  let H := fresh "H" in
  let W' := fresh "W" in
  pose proof (Flows_Went _ _ _ _ _ _ _ F E (proj1 (proj2 W))) as H;
  try rewrite (proj2 (proj2 W)) in H;
  pose proof (Went_trans _ _ _ _ _ _ _ W H) as W';
  clear H W; rename W' into W.

Ltac flow_some W E S t :=
  let H := fresh "H" in
  let W' := fresh "W" in
  destruct (SendsSome_Went _ _ _ _ S E) as [t H];
  pose proof (Went_trans _ _ _ _ _ _ _ W H) as W';
  clear H W; rename W' into W.

Ltac flow_quiet W E Q :=
  let H := fresh "H" in
  let W' := fresh "W" in
  pose proof (Quiet_Went _ _ _ _ Q E) as H;
  try rewrite (proj1 (proj2 W)) in H;
  pose proof (Went_trans _ _ _ _ _ _ _ W H) as W';
  clear H W; rename W' into W.

Lemma Flows_guard :
  Flows true true
    (line ["if options.panicCallback != nil {"] ;;
     block (
       line ["defer func() {"] ;;
       block (
         line ["if e := recover(); e != nil {"] ;;
         block (line ["options.panicCallback(e)"]) ;;
         line ["}"]) ;;
       line ["}()"]) ;;
     line ["}"])
    (fun d => print_stmt d (IfSet panicCallback [DeferRecover panicCallback])).
Proof.
  eapply Flows_ext;
    [|eapply Flows_bind;
       [apply Flows_line
       |intros _; eapply Flows_bind;
          [apply Flows_block, Flows_guard_inner|intros _; apply Flows_line]]].
  intros d. cbv beta.
  change (print_stmt d (IfSet panicCallback [DeferRecover panicCallback]))
    with (line_text true d ["if options.panicCallback != nil {"]
          +:+ (print_stmt (S d) (DeferRecover panicCallback) +:+ EmptyString)
          +:+ line_text true d ["}"]).
  str_norm. reflexivity.
Qed.

Lemma Flows_set_atEOL e b : Flows e b (modify (set_atEOL b)) (fun _ => EmptyString).
Proof.
  intros u a u' E He. inversion E; subst. destruct u; repeat split.
Qed.

Lemma Eol_composeHookCall fn h1 h2 : Eol (composeHookCall fn h1 h2).
Proof.
  destruct fn as [params results]. cbn [composeHookCall].
  apply Eol_newScope. apply Eol_bind. intros _. apply Eol_bind. intros _.
  apply Eol_line.
Qed.

Lemma SendsSome_space (b : bool) : SendsSome (if b then code [" "] else ret tt).
Proof. apply InScope_SendsSome. destruct b; emit. Qed.

Lemma composeHookCall_body fn h1 h2 u u' :
  composeHookCall fn h1 h2 u = (Ok tt, u') ->
  exists sig args rs decl ret,
    Went u u' (print_func (depth u) sig (merged_body h1 h2 args rs decl ret)) true.
Proof.
  destruct fn as [params results]. cbn [composeHookCall]. intros E.
  set (fn := mkFunc params results) in *.
  apply newScope_Went in E as (v & v' & E & Cv & Ev & Dv & Cu' & Eu' & Du').
  run_step E x0 v1 Ecap.
  apply (Quiet_Went _ _ _ _ (Quiet_capture _ _)) in Ecap as W0.
  run_step E x1 v2 Eblk.
  apply block_Went in Eblk as (w & w' & Eb & Cw & Ew & Dw & Cv2 & Ev2 & Dv2).
  pose proof (Went_refl w) as W.
  run_step Eb x2 w1 Ecap2. flow_quiet W Ecap2 (Quiet_capture [h1; h2] 362).
  run_step Eb x3 w2 Efunc. flow W Efunc (Flows_code (atEOL w) ["func"]).
  run_step Eb args w3 Eparams.
  flow_some W Eparams (InScope_SendsSome _ (InScope_funcParams params)) tparams.
  run_step Eb x4 w4 Esp. flow_some W Esp (SendsSome_space (HasResult fn)) tsp.
  run_step Eb x5 w5 Eres.
  flow_some W Eres (InScope_SendsSome _ (OwnScope_InScope _ (OwnScope_funcResults fn))) tres.
  run_step Eb x6 w6 Eopen. flow W Eopen (Flows_line (atEOL w5) [" {"]).
  run_step Eb x7 w7 Eg1. run_step Eb x8 w8 Eg2. run_step Eb x9 w9 Eg3.
  assert (Eg : (line ["if options.panicCallback != nil {"] ;;
                block (
                  line ["defer func() {"] ;;
                  block (
                    line ["if e := recover(); e != nil {"] ;;
                    block (line ["options.panicCallback(e)"]) ;;
                    line ["}"]) ;;
                  line ["}()"]) ;;
                line ["}"]) w6 = (Ok x9, w9)).
  { rewrite (bind_Ok _ _ _ _ _ Eg1), (bind_Ok _ _ _ _ _ Eg2). exact Eg3. }
  clear Eg1 Eg2 Eg3. flow W Eg Flows_guard.
  run_step Eb rr w10 Err.
  assert (Hwrap : forall T, Went w w' T true ->
            Went u u' (T +:+ line_text true (depth u) ["}"]) true).
  { intros T (C & E' & D).
    pose proof (Flows_Went _ _ _ _ _ _ _ (Flows_line true ["}"]) E
                  ltac:(congruence)) as (C2 & E2 & D2).
    destruct W0 as (C0 & _ & D0).
    assert (Dd : depth v2 = depth u) by (rewrite Dv2, D, Dw, D0, Dv; reflexivity).
    split; [|split; congruence].
    rewrite Cu', C2, Dd, Cv2, C, Cw, C0, Cv, chan_write_app. reflexivity. }
  assert (Dd : depth w = S (depth u)).
  { destruct W0 as (_ & _ & D0). rewrite Dw, D0, Dv. reflexivity. }
  rewrite Dd in W.
  destruct results as [|r0 rs0].
  - change (HasResult fn) with false in Err, Eb. cbv iota in Err, Eb.
    inversion Err; subst rr w10. clear Err. cbv iota beta in Eb.
    run_step Eb x10 w11 Eloop. cbn [forMi_] in Eloop.
    run_step Eloop x11 w12 Eh1.
    flow W Eh1 (Flows_hook false [] 0 EmptyString h1 args ltac:(discriminate)).
    run_step Eloop x12 w13 Eh2.
    flow W Eh2 (Flows_hook false [] 1 EmptyString h2 args ltac:(discriminate)).
    inversion Eloop; subst. inversion Eb; subst.
    exists (code_text (atEOL w) (S (depth u)) ["func"] +:+ tparams +:+ tsp +:+ tres
            +:+ line_text (atEOL w5) (S (depth u)) [" {"]),
           args, None, EmptyString, None.
    rewrite !Dd in W. apply Hwrap in W. eapply Went_text; [|exact W].
    unfold print_func, merged_body, print_stmts.
    cbn [app map option_map]. str_norm. reflexivity.
  - change (HasResult fn) with true in Err, Eb. cbv iota in Err, Eb.
    run_step Err r1 w11 Er1. flow_quiet W Er1 (Quiet_declare "r" 389).
    run_step Err r2 w12 Er2. flow_quiet W Er2 (Quiet_declare "r" 390).
    run_step Err x10 w13 Evar.
    flow W Evar (Flows_code true ["var " +:+ r1 +:+ ", " +:+ r2 +:+ " "]).
    run_step Err x11 w14 Eres2.
    flow_some W Eres2
      (InScope_SendsSome _ (OwnScope_InScope _ (OwnScope_funcResults fn))) tres2.
    run_step Err x12 w15 Enl.
    flow_some W Enl
      (InScope_SendsSome _ (OwnScope_InScope _ (OwnScope_WriteByte "010"%char))) tnl.
    run_step Err x13 w16 Eeol. flow W Eeol (Flows_set_atEOL (atEOL w15) true).
    inversion Err; subst rr w10. clear Err. cbv iota beta in Eb.
    run_step Eb x14 w17 Eloop. cbn [forMi_] in Eloop.
    run_step Eloop x15 w18 Eh1.
    flow W Eh1 (Flows_hook true [r1; r2] 0 r1 h1 args (fun _ => eq_refl)).
    run_step Eloop x16 w19 Eh2.
    flow W Eh2 (Flows_hook true [r1; r2] 1 r2 h2 args (fun _ => eq_refl)).
    inversion Eloop; subst w17. clear Eloop.
    destruct r0 as [x|tr].
    + run_step Eb x17 w20 Eret. flow W Eret (Flows_code true ["return "]).
      flow_some W Eb
        (InScope_SendsSome _ (OwnScope_InScope _ (OwnScope_composeHookCall x r1 r2)))
        tnested.
      rewrite (Eol_composeHookCall x r1 r2 _ _ _ Eb) in W.
      exists (code_text (atEOL w) (S (depth u)) ["func"] +:+ tparams +:+ tsp +:+ tres
              +:+ line_text (atEOL w5) (S (depth u)) [" {"]),
             args, (Some (r1, r2)),
             (code_text true (S (depth u)) ["var " +:+ r1 +:+ ", " +:+ r2 +:+ " "]
              +:+ tres2 +:+ tnl),
             (Some tnested).
      rewrite !Dd in W. apply Hwrap in W. eapply Went_text; [|exact W].
      unfold print_func, merged_body, print_stmts.
      cbn [app map option_map fst snd].
      change (print_stmt (S (depth u)) (ReturnExpr tnested))
        with (indent (S (depth u)) +:+ "return " +:+ tnested).
      change (print_stmt (S (depth u)) (VarLine ?txt)) with txt.
      unfold code_text. str_norm. reflexivity.
    + run_step Eb x17 w20 Eret. flow W Eret (Flows_code true ["return "]).
      flow W Eb (Flows_line false [r1; ".Compose("; r2; ")"]).
      exists (code_text (atEOL w) (S (depth u)) ["func"] +:+ tparams +:+ tsp +:+ tres
              +:+ line_text (atEOL w5) (S (depth u)) [" {"]),
             args, (Some (r1, r2)),
             (code_text true (S (depth u)) ["var " +:+ r1 +:+ ", " +:+ r2 +:+ " "]
              +:+ tres2 +:+ tnl),
             (Some (line_text false (S (depth u)) [r1; ".Compose("; r2; ")"])).
      rewrite !Dd in W. apply Hwrap in W. eapply Went_text; [|exact W].
      unfold print_func, merged_body, print_stmts.
      cbn [app map option_map fst snd].
      change (print_stmt (S (depth u))
                (ReturnExpr (line_text false (S (depth u)) [r1; ".Compose("; r2; ")"])))
        with (indent (S (depth u)) +:+ "return "
              +:+ line_text false (S (depth u)) [r1; ".Compose("; r2; ")"]).
      change (print_stmt (S (depth u)) (VarLine ?txt)) with txt.
      unfold code_text. str_norm. reflexivity.
Qed.

Ltac run_body :=
  cbn [fold_left exec_gstmt app state events deferred run_deferred option_map fst snd].

(** One call of the composed function, with both hooks set and the
    callback supplied. *)
Lemma merged_body_runs b h1 h2 args rs decl ret :
  is_nil b panicCallback = false ->
  is_nil b h1 = false -> is_nil b h2 = false ->
  let body := merged_body h1 h2 args rs decl ret in
  (forall e, outcome b h1 = Some e ->
     call_func b body = ([Called h1; Notified e], Returned))
  /\ (forall e, outcome b h1 = None -> outcome b h2 = Some e ->
        call_func b body = ([Called h1; Called h2; Notified e], Returned))
  /\ (outcome b h1 = None -> outcome b h2 = None ->
        call_func b body = ([Called h1; Called h2], Returned)).
Proof.
  intros Hcb Hn1 Hn2.
  repeat split.
  - intros e Ho1. unfold call_func, merged_body.
    destruct rs, ret; run_body; rewrite Hcb; run_body; rewrite Hn1; run_body;
      rewrite Ho1; run_body; reflexivity.
  - intros e Ho1 Ho2. unfold call_func, merged_body.
    destruct rs, ret; run_body; rewrite Hcb; run_body; rewrite Hn1; run_body;
      rewrite Ho1; run_body; rewrite Hn2; run_body; rewrite Ho2; reflexivity.
  - intros Ho1 Ho2. unfold call_func, merged_body.
    destruct rs, ret; run_body; rewrite Hcb; run_body; rewrite Hn1; run_body;
      rewrite Ho1; run_body; rewrite Hn2; run_body; rewrite Ho2; reflexivity.
Qed.

(** C1, as the generator has it: the function [composeHookCall] writes
    has ONE guard, deferred at the top of its body, around both calls.
    With the callback supplied and both hooks set, a fault in either call
    is handed to the callback exactly once and the composed function
    returns; a fault in the first hook's call leaves the second hook
    uncalled, a fault in the second comes after the first has run. *)
Theorem composeHookCall_single_guard (fn : Func) (h1 h2 : string) (u u' : Writer) :
  composeHookCall fn h1 h2 u = (Ok tt, u') ->
  exists sig args rs decl ret,
    let body := merged_body h1 h2 args rs decl ret in
    chan u' = chan_write (print_func (depth u) sig body) (chan u)
    /\ forall b,
         is_nil b panicCallback = false ->
         is_nil b h1 = false -> is_nil b h2 = false ->
         (forall e, outcome b h1 = Some e ->
            call_func b body = ([Called h1; Notified e], Returned))
         /\ (forall e, outcome b h1 = None -> outcome b h2 = Some e ->
               call_func b body = ([Called h1; Called h2; Notified e], Returned))
         /\ (outcome b h1 = None -> outcome b h2 = None ->
               call_func b body = ([Called h1; Called h2], Returned)).
Proof.
  intros E.
  destruct (composeHookCall_body fn h1 h2 u u' E)
    as (sig & args & rs & decl & ret & C & _).
  exists sig, args, rs, decl, ret. split; [exact C|].
  intros b Hcb Hn1 Hn2. apply merged_body_runs; assumption.
Qed.

(** ** More of the import resolver *)

(** X1: when the library root cannot be listed, [isStdLib] panics and
    leaves behind the empty table it had just made: every later call on
    that writer answers "not standard" without listing again. *)
Theorem isStdLib_failed_listing (path : string) (w : Writer) :
  std w = None ->
  ReadDir_src (GOROOT (Context w)) = None ->
  isStdLib path w = (Panic CantListGOROOT, set_std (Some ∅) w)
  /\ forall path',
       isStdLib path' (set_std (Some ∅) w) = (Ok false, set_std (Some ∅) w).
Proof.
  intros Hs Hd. split.
  - unfold isStdLib.
    rewrite (bind_Panic _ _ _ _ _ (ensureStdLibMapping_unreadable _ Hs Hd)).
    reflexivity.
  - intros path'.
    rewrite (isStdLib_built path' (set_std (Some ∅) w) ∅)
      by (destruct w; reflexivity).
    rewrite lookup_empty. reflexivity.
Qed.

Lemma dedup_nonempty deps :
  deps <> [] -> length (dedup_loop (length deps) ∅ 0 deps) <> 0.
Proof.
  intros Hne Hlen. destruct deps as [|d deps]; [congruence|].
  destruct (dedup_spec (d :: deps)) as [_ Hin].
  apply length_zero_iff_nil in Hlen. rewrite Hlen in Hin.
  apply (proj2 (Hin (pkgPath d))). left. reflexivity.
Qed.

(** X2: with a library root that cannot be listed, [importDeps] panics as
    soon as there is one dependency to classify; without dependencies it
    returns at once, writes nothing and never looks for the root. *)
Theorem importDeps_unreadable_root (deps : list dep) (w : Writer) :
  std w = None ->
  ReadDir_src (GOROOT (Context w)) = None ->
  (deps <> [] -> fst (importDeps deps w) = Panic CantListGOROOT)
  /\ importDeps [] w = (Ok tt, w).
Proof.
  intros Hs Hd. split.
  - intros Hne. apply importDeps_unreadable; [exact Hs|exact Hd|].
    apply dedup_nonempty. exact Hne.
  - apply importDeps_none. reflexivity.
Qed.

Lemma grows_by_refl wpkg dst : grows_by wpkg dst dst.
Proof. exists []. rewrite app_nil_r. split; [reflexivity|constructor]. Qed.

Lemma grows_by_trans wpkg d1 d2 d3 :
  grows_by wpkg d1 d2 -> grows_by wpkg d2 d3 -> grows_by wpkg d1 d3.
Proof.
  intros (a1 & -> & F1) (a2 & -> & F2). exists (a1 ++ a2).
  rewrite app_assoc. split; [reflexivity|]. apply Forall_app. split; assumption.
Qed.

Lemma fold_left_grows_by {A} wpkg (f : list dep -> A -> list dep) (l : list A) :
  (forall dst x, List.In x l -> grows_by wpkg dst (f dst x)) ->
  forall dst, grows_by wpkg dst (fold_left f l dst).
Proof.
  induction l as [|x l IH]; intros Hf dst; [apply grows_by_refl|].
  cbn [fold_left]. eapply grows_by_trans.
  - apply Hf. left. reflexivity.
  - apply IH. intros d y Hy. apply Hf. right. exact Hy.
Qed.

Lemma typeImports_grows wpkg t : forall dst, grows_by wpkg dst (typeImports wpkg dst t).
Proof.
  induction t as [name|elem IH|[p|] name u _|fields|str]; intros dst;
    cbn [typeImports]; try apply grows_by_refl.
  - apply IH.
  - destruct (String.eqb (Path p) (Path wpkg)) eqn:E; cbn [negb];
      [apply grows_by_refl|].
    eexists. split; [reflexivity|]. constructor; [|constructor].
    simpl. apply String.eqb_neq. exact E.
Qed.

Lemma funcImports_grows wpkg : forall fn dst, grows_by wpkg dst (funcImports wpkg dst fn).
Proof.
  apply (Func_induction (fun fn => forall dst, grows_by wpkg dst (funcImports wpkg dst fn))).
  intros params results IH dst. cbn [funcImports].
  match goal with
  | |- grows_by _ _ (?loop results ?d) =>
    assert (Hloop : forall rs d0,
              (forall x, List.In (ResFunc x) rs -> List.In (ResFunc x) results) ->
              grows_by wpkg d0 (loop rs d0));
      [|eapply grows_by_trans; [|apply Hloop; auto]]
  end.
  - induction rs as [|[x|t] rs IHrs]; intros d0 Hsub.
    + apply grows_by_refl.
    + eapply grows_by_trans.
      * apply IH. apply Hsub. left. reflexivity.
      * apply IHrs. intros y Hy. apply Hsub. right. exact Hy.
    + apply IHrs. intros y Hy. apply Hsub. right. exact Hy.
  - apply fold_left_grows_by. intros d p _.
    eapply grows_by_trans; [apply typeImports_grows|].
    destruct (snd (unwrapStruct (Type_ p))) as [fs|]; [|apply grows_by_refl].
    apply fold_left_grows_by. intros d' [fname ftype] _.
    destruct (Exported fname); [apply typeImports_grows|apply grows_by_refl].
Qed.

(** X3: collecting the dependencies of a trace only appends to what was
    collected before, and never a dependency on the package that is being
    generated. *)
Theorem traceImports_appends_foreign (wpkg : types_Package) (dst : list dep) (t : Trace) :
  exists added,
    traceImports wpkg dst t = dst ++ added
    /\ Forall (fun d => pkgPath d <> Path wpkg) added.
Proof.
  unfold traceImports.
  apply (fold_left_grows_by wpkg (fun dst h => funcImports wpkg dst (HFunc h))).
  intros d h _. apply funcImports_grows.
Qed.
Lemma grows_by_In wpkg dst dst' d :
  grows_by wpkg dst dst' -> List.In d dst -> List.In d dst'.
Proof. intros (a & -> & _) H. apply in_or_app. left. exact H. Qed.

Lemma fold_left_reaches {A} wpkg (f : list dep -> A -> list dep) (l : list A) x d :
  (forall dst y, grows_by wpkg dst (f dst y)) ->
  List.In x l -> (forall dst, List.In d (f dst x)) ->
  forall dst, List.In d (fold_left f l dst).
Proof.
  intros Hg Hx Hd. induction l as [|y l IH]; intros dst; [destruct Hx|].
  cbn [fold_left]. destruct Hx as [->|Hx].
  - eapply grows_by_In; [|apply Hd].
    apply fold_left_grows_by. intros d0 z _. apply Hg.
  - apply IH. exact Hx.
Qed.

Lemma typeImports_adds wpkg t pk name u : forall dst,
  elem_type t = Named (Some pk) name u ->
  Path pk <> Path wpkg ->
  List.In {| pkgPath := Path pk; pkgName := PkgName pk; typName := name |}
          (typeImports wpkg dst t).
Proof.
  induction t as [n|elem IH|p n u' _|fields|str]; intros dst E Hne;
    cbn [elem_type] in E; try discriminate.
  - cbn [typeImports]. apply IH; assumption.
  - inversion E; subst. cbn [typeImports].
    destruct (String.eqb (Path pk) (Path wpkg)) eqn:Eq.
    + apply String.eqb_eq in Eq. contradiction.
    + cbn [negb]. apply in_or_app. right. left. reflexivity.
Qed.

Lemma param_imports_grows wpkg p : forall dst,
  grows_by wpkg dst
    (match snd (unwrapStruct (Type_ p)) with
     | Some fs =>
       fold_left (fun dst '(fname, ftype) =>
         if Exported fname then typeImports wpkg dst ftype else dst) fs
         (typeImports wpkg dst (Type_ p))
     | None => typeImports wpkg dst (Type_ p)
     end).
Proof.
  intros dst. eapply grows_by_trans; [apply typeImports_grows|].
  destruct (snd (unwrapStruct (Type_ p))) as [fs|]; [|apply grows_by_refl].
  apply fold_left_grows_by. intros d' [fname ftype] _.
  destruct (Exported fname); [apply typeImports_grows|apply grows_by_refl].
Qed.

Lemma param_imports_adds wpkg p ty pk name u : forall dst,
  List.In ty (param_types p) ->
  elem_type ty = Named (Some pk) name u ->
  Path pk <> Path wpkg ->
  List.In {| pkgPath := Path pk; pkgName := PkgName pk; typName := name |}
    (match snd (unwrapStruct (Type_ p)) with
     | Some fs =>
       fold_left (fun dst '(fname, ftype) =>
         if Exported fname then typeImports wpkg dst ftype else dst) fs
         (typeImports wpkg dst (Type_ p))
     | None => typeImports wpkg dst (Type_ p)
     end).
Proof.
  intros dst Hty E Hne. unfold param_types, struct_of in Hty.
  destruct Hty as [<-|Hty].
  - eapply grows_by_In; [|apply (typeImports_adds wpkg (Type_ p) pk name u dst E Hne)].
    destruct (snd (unwrapStruct (Type_ p))) as [fs|]; [|apply grows_by_refl].
    apply fold_left_grows_by. intros d' [fname ftype] _.
    destruct (Exported fname); [apply typeImports_grows|apply grows_by_refl].
  - destruct (snd (unwrapStruct (Type_ p))) as [fs|]; [|destruct Hty].
    apply in_map_iff in Hty as ([fname ftype] & Hs & Hin). simpl in Hs. subst ftype.
    unfold exported_fields in Hin. apply filter_In in Hin as [Hin Hex].
    simpl in Hex.
    apply (fold_left_reaches wpkg _ fs (fname, ty)).
    + intros d0 [fn0 ft0]. destruct (Exported fn0);
        [apply typeImports_grows|apply grows_by_refl].
    + exact Hin.
    + intros d0. cbv beta iota. rewrite Hex.
      apply (typeImports_adds wpkg ty pk name u d0 E Hne).
Qed.

Lemma funcImports_unfold wpkg dst params results :
  funcImports wpkg dst (mkFunc params results)
  = fold_left (fun dst r =>
                 match r with
                 | ResFunc f => funcImports wpkg dst f
                 | ResTrace _ => dst
                 end) results
      (fold_left (fun dst p =>
         match snd (unwrapStruct (Type_ p)) with
         | Some fs =>
           fold_left (fun dst '(fname, ftype) =>
             if Exported fname then typeImports wpkg dst ftype else dst) fs
             (typeImports wpkg dst (Type_ p))
         | None => typeImports wpkg dst (Type_ p)
         end) params dst).
Proof.
  cbn [funcImports].
  match goal with |- ?loop results ?d = _ => generalize d end.
  induction results as [|[x|t] rs IH]; intros d; cbn [fold_left];
    [reflexivity|apply IH|apply IH].
Qed.

Lemma funcImports_reaches wpkg fn ty pk name u :
  signature_type fn ty ->
  elem_type ty = Named (Some pk) name u ->
  Path pk <> Path wpkg ->
  forall dst,
    List.In {| pkgPath := Path pk; pkgName := PkgName pk; typName := name |}
            (funcImports wpkg dst fn).
Proof.
  intros Hsig E Hne. induction Hsig as [fn p ty Hp Hty|fn x ty Hx Hsig IH]; intros dst.
  - destruct fn as [params results]. rewrite funcImports_unfold. cbn [Params] in Hp.
    eapply grows_by_In.
    + apply fold_left_grows_by. intros d0 [f|t] _;
        [apply funcImports_grows|apply grows_by_refl].
    + apply (fold_left_reaches wpkg _ params p).
      * intros d0 q. apply (param_imports_grows wpkg q d0).
      * exact Hp.
      * intros d0. apply (param_imports_adds wpkg p ty pk name u d0 Hty E Hne).
  - destruct fn as [params results]. rewrite funcImports_unfold. cbn [Result] in Hx.
    apply (fold_left_reaches wpkg _ results (ResFunc x)).
    + intros d0 [f|t]; [apply funcImports_grows|apply grows_by_refl].
    + exact Hx.
    + intros d0. apply IH. exact E.
Qed.

(** X4: every named type of another package that stands, under any
    number of pointers, in a hook's signature (as the type of a parameter
    or of an exported field of a named struct parameter, of the hook or of
    a function it returns) has its package among the collected
    dependencies. *)
Theorem traceImports_complete (wpkg : types_Package) (dst : list dep) (t : Trace)
    (h : Hook) (ty : types_Type) (pk : types_Package) (name : string)
    (u : types_Type) :
  List.In h (Hooks t) ->
  signature_type (HFunc h) ty ->
  elem_type ty = Named (Some pk) name u ->
  Path pk <> Path wpkg ->
  List.In (Path pk) (map pkgPath (traceImports wpkg dst t)).
Proof.
  intros Hh Hsig E Hne.
  apply (in_map pkgPath _ {| pkgPath := Path pk; pkgName := PkgName pk; typName := name |}).
  unfold traceImports.
  apply (fold_left_reaches wpkg (fun dst h => funcImports wpkg dst (HFunc h)) (Hooks t) h).
  - intros d0 h0. apply funcImports_grows.
  - exact Hh.
  - intros d0. apply (funcImports_reaches wpkg (HFunc h) ty pk name u Hsig E Hne).
Qed.
(** ** More of the scope allocator *)

Lemma declare_returns name l w s rest :
  scopes w = s :: rest ->
  exists v,
    declare name l w = (Ok v, set_scopes (declared v l s :: rest) w)
    /\ blocked w v = false.
Proof.
  intros Hs. destruct (isPredeclared name) eqn:Hp.
  - destruct (predeclared_firstChar name Hp) as [Hc Hn].
    destruct (declare_not_predeclared (string_take 1 name) l w s rest Hs Hn)
      as (j & _ & Hf & Hrun).
    exists (candidate (string_take 1 name) j). split; [|exact Hf].
    rewrite <- Hrun. unfold declare. rewrite Hp, Hn, Hc. reflexivity.
  - destruct (declare_not_predeclared name l w s rest Hs Hp) as (j & _ & Hf & E).
    eauto.
Qed.

Lemma blocked_false w s rest v :
  scopes w = s :: rest ->
  blocked w v = false ->
  token_IsKeyword v = false
  /\ vars s !! v = None
  /\ (rest = [] -> ~ List.In v (ScopeNames (pkg w))).
Proof.
  intros Hs Hb. rewrite (blocked_cases _ _ _ _ Hs) in Hb.
  apply orb_false_iff in Hb as [Hb Hv]. apply orb_false_iff in Hb as [Hk Hg].
  split; [exact Hk|]. split.
  - apply bool_decide_eq_false in Hv. apply eq_None_not_Some. exact Hv.
  - intros -> Hin. simpl in Hg. unfold pkg_Lookup in Hg.
    apply bool_decide_eq_false in Hg. apply Hg. apply list_elem_of_In. exact Hin.
Qed.

(** X5: inside a scope [declare] always returns, whatever the name: the
    search ends.  The identifier it returns is no keyword, was not yet
    declared in the scope at the back, is no package-level name when that
    scope is the outermost, and is declared there afterwards.  With no
    scope open it panics. *)
Theorem declare_always_fresh (name : string) (l : site) (w : Writer) :
  (scopes w = [] -> exists e, fst (declare name l w) = Panic e)
  /\ (forall s rest, scopes w = s :: rest ->
        exists v,
          declare name l w = (Ok v, set_scopes (declared v l s :: rest) w)
          /\ token_IsKeyword v = false
          /\ vars s !! v = None
          /\ (rest = [] -> ~ List.In v (ScopeNames (pkg w)))
          /\ vars (declared v l s) !! v = Some {| where_ := callsite l |}).
Proof.
  split.
  - intros Hs. unfold declare.
    destruct (isPredeclared name) eqn:Hp.
    + destruct (predeclared_firstChar name Hp) as [Hc _]. rewrite Hc.
      eexists. cbv [bind lift ret Back get]. rewrite Hs. reflexivity.
    + eexists. cbv [bind lift ret Back get]. rewrite Hs. reflexivity.
  - intros s rest Hs.
    destruct (declare_returns name l w s rest Hs) as (v & E & Hb).
    destruct (blocked_false w s rest v Hs Hb) as (Hk & Hv & Hg).
    exists v. repeat split; try assumption.
    unfold declared. simpl. apply lookup_insert_eq.
Qed.

(** X6: [mustDeclare] looks at the scope at the back only: a free name is
    declared as it is even when it is a keyword or, in the outermost scope,
    a name of the package, where [declare] would have moved on to a
    suffixed name. *)
Theorem mustDeclare_only_checks_scope (name : string) (l : site) (w : Writer)
    (s : scope) :
  scopes w = [s] ->
  vars s !! name = None ->
  (token_IsKeyword name = true \/ List.In name (ScopeNames (pkg w))) ->
  mustDeclare name l w = (Ok tt, set_scopes [declared name l s] w)
  /\ exists v, fst (declare name l w) = Ok v /\ v <> name.
Proof.
  intros Hs Hv Hk. split; [apply mustDeclare_free; assumption|].
  destruct (declare_returns name l w s [] Hs) as (v & E & Hb).
  exists v. rewrite E. split; [reflexivity|]. intros ->.
  destruct (blocked_false w s [] name Hs Hb) as (Hkw & _ & Hg).
  destruct Hk as [Hk|Hk]; [congruence|]. apply (Hg eq_refl). exact Hk.
Qed.

Lemma mapMi_declare_spec src : forall i w s rest names w',
  scopes w = s :: rest ->
  mapMi (fun _ p => n <- lift (nameParam p) ;; declare n 541) i src w = (Ok names, w') ->
  List.NoDup names
  /\ length names = length src
  /\ Forall (fun n => token_IsKeyword n = false /\ vars s !! n = None) names
  /\ exists s', scopes w' = s' :: rest
       /\ forall v, is_Some (vars s' !! v) <-> is_Some (vars s !! v) \/ List.In v names.
Proof.
  induction src as [|p src IH]; intros i w s rest names w' Hs E.
  - inversion E; subst. split; [constructor|]. split; [reflexivity|].
    split; [constructor|]. exists s. split; [exact Hs|]. intros v. simpl. tauto.
  - cbn [mapMi] in E.
    apply bind_inv in E as (v & w1 & E1 & E).
    apply bind_inv in E as (vs & w2 & E2 & E). inversion E; subst names w'. clear E.
    apply bind_inv in E1 as (n & w0 & En & E1).
    assert (w0 = w) by (unfold lift in En; congruence). subst w0.
    destruct (declare_returns n 541 w s rest Hs) as (v' & Ed & Hb).
    rewrite Ed in E1. inversion E1; subst v' w1. clear E1.
    destruct (blocked_false w s rest v Hs Hb) as (Hk & Hv & _).
    destruct (IH (S i) (set_scopes (declared v 541 s :: rest) w)
                (declared v 541 s) rest vs w2 ltac:(destruct w; reflexivity) E2)
      as (Hnd & Hlen & Hall & s' & Hs' & Hiff).
    rewrite Forall_forall in Hall.
    split.
    { constructor; [|exact Hnd]. intros Hin.
      destruct (Hall v (proj2 (list_elem_of_In _ _) Hin)) as [_ Hnone].
      unfold declared in Hnone. simpl in Hnone.
      rewrite lookup_insert_eq in Hnone. discriminate. }
    split; [simpl; congruence|]. split.
    { constructor; [split; assumption|]. rewrite Forall_forall. intros x Hx.
      destruct (Hall x Hx) as [Hkx Hnx]. split; [exact Hkx|].
      unfold declared in Hnx. simpl in Hnx.
      destruct (decide (v = x)) as [->|Hne].
      - rewrite lookup_insert_eq in Hnx. discriminate.
      - rewrite lookup_insert_ne in Hnx by exact Hne. exact Hnx. }
    exists s'. split; [exact Hs'|]. intros x. rewrite Hiff.
    unfold declared. simpl.
    destruct (decide (v = x)) as [->|Hne].
    + rewrite lookup_insert_eq. split; [intros _; right; left; reflexivity|].
      intros _. left. eauto.
    + rewrite lookup_insert_ne by exact Hne. split.
      * intros [H|H]; [left; exact H|right; right; exact H].
      * intros [H|[H|H]]; [left; exact H|congruence|right; exact H].
Qed.

Lemma mapMi_declare_total src : forall i w s rest,
  scopes w = s :: rest ->
  Forall (fun p => exists n, nameParam p = Ok n) src ->
  exists names w',
    mapMi (fun _ p => n <- lift (nameParam p) ;; declare n 541) i src w = (Ok names, w').
Proof.
  induction src as [|p src IH]; intros i w s rest Hs Hall.
  - exists [], w. reflexivity.
  - apply Forall_cons in Hall as [[n Hn] Hall]. cbn [mapMi].
    destruct (declare_returns n 541 w s rest Hs) as (v & Ed & _).
    destruct (IH (S i) (set_scopes (declared v 541 s :: rest) w)
                (declared v 541 s) rest ltac:(destruct w; reflexivity) Hall)
      as (vs & w2 & E2).
    exists (v :: vs), w2.
    assert (E1 : (n <- lift (nameParam p) ;; declare n 541) w
                 = (Ok v, set_scopes (declared v 541 s :: rest) w)).
    { unfold bind at 1, lift. rewrite Hn. exact Ed. }
    rewrite (bind_Ok _ _ _ _ _ E1), (bind_Ok _ _ _ _ _ E2). reflexivity.
Qed.

(** X7: the names [declareParams] gives to the parameters of one function
    are pairwise distinct, none is a keyword or was declared in the scope
    before, there is one per parameter, and afterwards the scope holds
    exactly what it held and these names.  It returns whenever every
    parameter can be named. *)
Theorem declareParams_distinct (src : list Param) (w : Writer) (s : scope)
    (rest : list scope) :
  scopes w = s :: rest ->
  (Forall (fun p => exists n, nameParam p = Ok n) src ->
     exists names w', declareParams src w = (Ok names, w'))
  /\ (forall names w', declareParams src w = (Ok names, w') ->
        List.NoDup names
        /\ length names = length src
        /\ Forall (fun n => token_IsKeyword n = false /\ vars s !! n = None) names
        /\ exists s', scopes w' = s' :: rest
             /\ forall v, is_Some (vars s' !! v)
                          <-> is_Some (vars s !! v) \/ List.In v names).
Proof.
  intros Hs. split.
  - intros Hall. apply (mapMi_declare_total src 0 w s rest Hs Hall).
  - intros names w' E. apply (mapMi_declare_spec src 0 w s rest names w' Hs E).
Qed.

Lemma capture_twice h l w s rest :
  scopes w = s :: rest -> vars s !! h = None ->
  capture [h; h] l w
  = (Panic (CantCapture h), set_scopes (declared h l s :: rest) w).
Proof.
  intros Hs Hv. unfold capture.
  rewrite (bind_Ok _ _ _ _ _ (Back_some _ _ _ Hs)). cbn [forM_].
  set (w1 := set_scopes (declared h l s :: rest) w).
  assert (Hs1 : scopes w1 = declared h l s :: rest) by (destruct w; reflexivity).
  assert (Hv1 : vars (declared h l s) !! h = Some {| where_ := callsite l |})
    by (unfold declared; simpl; apply lookup_insert_eq).
  assert (E1 : (ok <- set h l ;; if negb ok then panic (CantCapture h) else ret tt) w
               = (Ok tt, w1)).
  { rewrite (bind_Ok _ _ _ _ _ (set_free h l w s rest Hs Hv)). reflexivity. }
  assert (E2 : (ok <- set h l ;; if negb ok then panic (CantCapture h) else ret tt) w1
               = (Panic (CantCapture h), w1)).
  { rewrite (bind_Ok _ _ _ _ _ (set_taken h l w1 _ _ _ Hs1 Hv1)). reflexivity. }
  rewrite (bind_Ok _ _ _ _ _ E1), (bind_Panic _ _ _ _ _ E2). reflexivity.
Qed.

(** X8: [composeHookCall] captures both hook names in one fresh scope, so
    given the same name twice it panics on the second capture, before it
    writes anything. *)
Theorem composeHookCall_same_name (fn : Func) (h : string) (u : Writer) :
  exists u',
    composeHookCall fn h h u = (Panic (CantCapture h), u')
    /\ chan u' = chan u.
Proof.
  destruct fn as [params results]. cbn [composeHookCall].
  unfold newScope. unfold bind at 1, modify.
  set (u0 := set_scopes ({| vars := ∅ |} :: scopes u) u).
  assert (Hs0 : scopes u0 = {| vars := ∅ |} :: scopes u) by (destruct u; reflexivity).
  pose proof (capture_twice h 360 u0 _ _ Hs0 (lookup_empty h)) as Ecap.
  eexists. unfold bind at 1.
  rewrite (bind_Panic _ _ _ _ _ Ecap). split; [reflexivity|].
  unfold u0. destruct u; reflexivity.
Qed.

(** ** Names of the shortcut functions *)

Lemma hookShortcut_unfold t h w :
  hookShortcut t h w
  = match shortcut_name t h with
    | Ok name => (mustDeclare name 623 ;; newScope (hookShortcut_func t h name)) w
    | Panic e => (Panic e, w)
    | Spin => (Spin, w)
    end.
Proof.
  unfold hookShortcut, shortcut_name. unfold bind at 1, lift.
  destruct (tempName [TName t; HName h]) as [tn| |]; reflexivity.
Qed.

(** X9: a shortcut function whose name is already declared in the scope
    at the back is refused before any of its text is written: the panic
    names the identifier and the place of the earlier declaration, and the
    writer is as it was. *)
Theorem hookShortcut_collision (t : Trace) (h : Hook) (w : Writer) (s : scope)
    (rest : list scope) (name : string) (d : decl) :
  scopes w = s :: rest ->
  shortcut_name t h = Ok name ->
  vars s !! name = Some d ->
  hookShortcut t h w = (Panic (CantDeclare name (where_ d)), w).
Proof.
  intros Hs Hn Hv. rewrite hookShortcut_unfold, Hn.
  rewrite (bind_Panic _ _ _ _ _ (mustDeclare_taken name 623 w s rest d Hs Hv)).
  reflexivity.
Qed.

Lemma exported_empty : exported EmptyString = Panic InvalidString.
Proof. reflexivity. Qed.

Lemma unexported_empty : unexported EmptyString = Panic InvalidString.
Proof. reflexivity. Qed.

Lemma exported_no_spin s : exported s <> Spin.
Proof.
  unfold exported. destruct (utf8_DecodeRuneInString s) as [r size].
  destruct (N.eqb r RuneError); discriminate.
Qed.

Lemma unexported_cases s :
  unexported s = Panic InvalidString \/ exists x, unexported s = Ok x.
Proof.
  unfold unexported. destruct (utf8_DecodeRuneInString s) as [r size].
  destruct (N.eqb r RuneError); eauto.
Qed.

(** X10: a trace or a hook without a name has no shortcut function:
    [hookShortcut] panics with "invalid string" and leaves the writer as
    it was. *)
Theorem hookShortcut_empty_name (t : Trace) (h : Hook) (w : Writer) :
  TName t = EmptyString \/ HName h = EmptyString ->
  hookShortcut t h w = (Panic InvalidString, w).
Proof.
  intros Hempty. rewrite hookShortcut_unfold.
  assert (Hn : shortcut_name t h = Panic InvalidString).
  { unfold shortcut_name, tempName. cbn [tempName_from Nat.eqb].
    destruct Hempty as [-> | ->].
    - rewrite unexported_empty. reflexivity.
    - rewrite exported_empty.
      destruct (unexported_cases (TName t)) as [-> | [x ->]]; reflexivity. }
  rewrite Hn. reflexivity.
Qed.

(** The names a loop declares in the scope at the back. *)
Lemma forM_declares {A} (f : A -> M unit) (R : A -> list string -> Prop) (l : list A) :
  (forall x w g rest w', List.In x l ->
     scopes w = g :: rest -> f x w = (Ok tt, w') ->
     exists ns g',
       R x ns /\ List.NoDup ns /\ Forall (fun n => vars g !! n = None) ns
       /\ scopes w' = g' :: rest
       /\ forall v, is_Some (vars g' !! v) <-> is_Some (vars g !! v) \/ List.In v ns) ->
  forall w g rest w',
    scopes w = g :: rest -> forM_ f l w = (Ok tt, w') ->
    exists nss g',
      Forall2 R l nss /\ List.NoDup (concat nss)
      /\ Forall (fun n => vars g !! n = None) (concat nss)
      /\ scopes w' = g' :: rest
      /\ forall v, is_Some (vars g' !! v)
                   <-> is_Some (vars g !! v) \/ List.In v (concat nss).
Proof.
  induction l as [|x l IH]; intros Hf w g rest w' Hs E.
  - inversion E; subst. exists [], g. simpl.
    repeat split; try constructor; try assumption; tauto.
  - cbn [forM_] in E. run_step E u w1 E1. destruct u.
    destruct (Hf x w g rest w1 ltac:(left; reflexivity) Hs E1)
      as (ns & g1 & HR & Hnd & Hfree & Hs1 & Hiff1).
    destruct (IH (fun y w0 g0 rest0 w0' Hy => Hf y w0 g0 rest0 w0' (or_intror Hy))
                w1 g1 rest w' Hs1 E)
      as (nss & g' & HR' & Hnd' & Hfree' & Hs' & Hiff').
    exists (ns :: nss), g'. cbn [concat].
    rewrite Forall_forall in Hfree, Hfree'.
    split; [constructor; assumption|]. split.
    { apply NoDup_ListNoDup, NoDup_app. rewrite !NoDup_ListNoDup.
      split; [exact Hnd|]. split; [|exact Hnd'].
      intros v Hv Hv'. apply list_elem_of_In in Hv.
      specialize (Hfree' v Hv').
      assert (Hsome : is_Some (vars g1 !! v)) by (apply Hiff1; right; exact Hv).
      rewrite Hfree' in Hsome. destruct Hsome as [? ?]. discriminate. }
    split.
    { apply Forall_app. split; [rewrite Forall_forall; exact Hfree|].
      rewrite Forall_forall. intros v Hv. specialize (Hfree' v Hv).
      destruct (vars g !! v) eqn:Egv; [|reflexivity].
      assert (Hsome : is_Some (vars g1 !! v)) by (apply Hiff1; left; eauto).
      rewrite Hfree' in Hsome. destruct Hsome as [? ?]. discriminate. }
    split; [exact Hs'|].
    intros v. rewrite Hiff', Hiff1, in_app_iff. tauto.
Qed.

Lemma hookShortcut_declares t h w g rest w' :
  scopes w = g :: rest ->
  hookShortcut t h w = (Ok tt, w') ->
  exists name,
    shortcut_name t h = Ok name /\ vars g !! name = None
    /\ scopes w' = declared name 623 g :: rest.
Proof.
  intros Hs E. rewrite hookShortcut_unfold in E.
  destruct (shortcut_name t h) as [name| |]; try discriminate.
  exists name. split; [reflexivity|].
  destruct (vars g !! name) as [d|] eqn:Hv.
  - rewrite (bind_Panic _ _ _ _ _ (mustDeclare_taken name 623 w g rest d Hs Hv)) in E.
    discriminate.
  - split; [reflexivity|].
    rewrite (bind_Ok _ _ _ _ _ (mustDeclare_free name 623 w g rest Hs Hv)) in E.
    destruct (proj1 (OwnScope_newScope _ (InScope_hookShortcut_func t h name)) _ _ _ E)
      as [_ Hsc].
    rewrite Hsc. destruct w; reflexivity.
Qed.

Lemma shortcuts_declare (traces : list Trace) w g rest w' :
  scopes w = g :: rest ->
  forM_ (fun trace => forM_ (fun h => hookShortcut trace h) (Hooks trace)) traces w
  = (Ok tt, w') ->
  exists nss,
    Forall2 (fun t ns =>
               Forall2 (fun h n => shortcut_name t h = Ok n) (Hooks t) ns) traces nss
    /\ List.NoDup (concat nss)
    /\ Forall (fun n => vars g !! n = None) (concat nss).
Proof.
  intros Hs E.
  destruct (forM_declares
              (fun trace => forM_ (fun h => hookShortcut trace h) (Hooks trace))
              (fun t ns => Forall2 (fun h n => shortcut_name t h = Ok n) (Hooks t) ns)
              traces) with (w := w) (g := g) (rest := rest) (w' := w')
    as (nss & g' & HR & Hnd & Hfree & _); [|exact Hs|exact E|eauto].
  clear. intros t w g rest w' _ Hs E.
  destruct (forM_declares (fun h => hookShortcut t h)
              (fun h ns => exists n, ns = [n] /\ shortcut_name t h = Ok n)
              (Hooks t)) with (w := w) (g := g) (rest := rest) (w' := w')
    as (nss & g' & HR & Hnd & Hfree & Hs' & Hiff); [|exact Hs|exact E|].
  - clear. intros h w g rest w' _ Hs E.
    destruct (hookShortcut_declares t h w g rest w' Hs E) as (name & Hn & Hv & Hs').
    exists [name], (declared name 623 g).
    split; [eauto|]. split; [repeat constructor; simpl; tauto|].
    split; [repeat constructor; exact Hv|]. split; [exact Hs'|].
    intros v. unfold declared. simpl. destruct (decide (name = v)) as [->|Hne].
    + rewrite lookup_insert_eq. split; [intros _; right; left; reflexivity|eauto].
    + rewrite lookup_insert_ne by exact Hne. split; [tauto|].
      intros [H|[H|[]]]; [exact H|congruence].
  - exists (concat nss), g'. split; [|auto].
    clear - HR. induction HR as [|h ns hs nss (n & -> & Hn) _ IH]; [constructor|].
    cbn [concat app]. constructor; assumption.
Qed.

(** X11: a run of [Write] that returns has given every hook of every
    trace a shortcut function under a name of its own: the names
    [exported(tempName(trace, hook))] are pairwise distinct over the whole
    package.  Two hooks whose names run together to the same identifier
    make [Write] fail. *)
Theorem Write_distinct_shortcuts (p : Package) (w w' : Writer) :
  idle w ->
  Write p w = (Ok None, w') ->
  exists nss,
    Forall2 (fun t ns =>
               Forall2 (fun h n => shortcut_name t h = Ok n) (Hooks t) ns)
            (Traces p) nss
    /\ List.NoDup (concat nss).
Proof.
  intros Hidle E. rewrite (Write_unfold p w Hidle) in E.
  run_step E u1 w1 Edeps. run_step E u2 w2 Ebody. clear E.
  unfold newScope in Ebody. run_step Ebody u3 w3 Epush.
  run_step Ebody u4 w4 Efunc. clear Ebody.
  inversion Epush; subst w3. clear Epush.
  unfold Write_func in Efunc. run_step Efunc u5 w5 Esect.
  assert (Hs5 : scopes w5 = {| vars := ∅ |} :: scopes w1).
  { assert (Hown : OwnScope (forM_ (fun trace =>
                      options trace ;; compose trace ;;
                      (if Nested trace then isZero trace else ret tt) ;;
                      forM_ (fun h => hook trace h) (Hooks trace)) (Traces p))).
    { apply OwnScope_forM_. intros t.
      apply OwnScope_bind; [apply OwnScope_options|intros _].
      apply OwnScope_bind; [apply OwnScope_compose|intros _].
      apply OwnScope_bind;
        [destruct (Nested t); [apply OwnScope_isZero|apply OwnScope_ret]|intros _].
      apply OwnScope_forM_. intros h. apply OwnScope_hook. }
    destruct (proj1 Hown _ _ _ Esect) as [_ Hsc]. rewrite Hsc.
    destruct w1; reflexivity. }
  destruct u4.
  destruct (shortcuts_declare (Traces p) w5 _ _ w4 Hs5 Efunc) as (nss & HR & Hnd & _).
  exists nss. split; assumption.
Qed.
(** ** More of the entry point *)

Lemma text_of_importDeps_nil S : text_of (importDeps []) S = EmptyString.
Proof. reflexivity. Qed.

(** X12: a package without traces always generates: the output is the
    marker, the build constraints and the package clause, and nothing
    else, and the library root is never consulted. *)
Theorem Write_no_traces (p : Package) (w : Writer) :
  idle w ->
  Traces p = [] ->
  exists w',
    Write p w = (Ok None, w')
    /\ Output w' = emitted (chan w) +:+ header_text p
    /\ bw w' = EmptyString
    /\ std w' = std w.
Proof.
  intros Hidle Ht.
  destruct (prepared_facts (Package_ p) w Hidle) as (Pd & Ps & Pp & Pc & Px & Pstd & Po).
  destruct (lined_facts (header_text p) (prepared (Package_ p) w))
    as (Le & Ld & Ls & Lp & Lc & Lx & Lstd & Lo).
  set (wh := lined (header_text p) (prepared (Package_ p) w)) in *.
  assert (He : bw_err wh = None).
  { rewrite (chan_write_keeps _ _ _ Lc).
    change (snd (chan (prepared (Package_ p) w)) = None). rewrite Pc.
    exact (proj1 (proj2 (proj2 Hidle))). }
  set (wf := set_scopes (tl (scopes (set_scopes ({| vars := ∅ |} :: scopes wh) wh)))
               (set_scopes ({| vars := ∅ |} :: scopes wh) wh)).
  assert (E : Write p w = (Ok None, flushed wf)).
  { rewrite (Write_unfold p w Hidle). fold wh.
    unfold deps_of, Write_func. rewrite Ht.
    transitivity (bufio_Flush wf); [reflexivity|].
    rewrite bufio_Flush_plain.
    replace (bw_err wf) with (bw_err wh) by (destruct wh; reflexivity).
    rewrite He. reflexivity. }
  eexists. split; [exact E|].
  destruct (Write_Ok p w _ Hidle E) as (Ho & Hb & _).
  split; [|split; [exact Hb|]].
  - rewrite Ho. f_equal. unfold Write_text, deps_of. rewrite Ht. cbn [fold_left map].
    rewrite text_of_importDeps_nil. cbn [concat_strings fold_right].
    rewrite !string_app_empty_r. reflexivity.
  - transitivity (std wh); [|congruence].
    destruct wh; reflexivity.
Qed.

(** X13: a writer can be used again: after a run that returned, the same
    package generates again on it, and [Output] then holds the text of the
    first run followed by the same text once more. *)
Theorem Write_again (p : Package) (w w1 : Writer) :
  idle w ->
  Write p w = (Ok None, w1) ->
  exists w2,
    Write p w1 = (Ok None, w2)
    /\ Output w1 = emitted (chan w) +:+ Write_text p (Context w)
    /\ Output w2 = Output w1 +:+ Write_text p (Context w).
Proof.
  intros Hidle E.
  destruct (Write_Ok p w w1 Hidle E) as (Ho & Hb & Hidle1 & Hctx & _).
  pose proof (Write_fst p w w1 Hidle Hidle1 (eq_sym Hctx)) as Hfst.
  rewrite E in Hfst. simpl in Hfst.
  destruct (Write p w1) as [r w2] eqn:E2. simpl in Hfst. subst r.
  exists w2. split; [reflexivity|]. split; [exact Ho|].
  destruct (Write_Ok p w1 w2 Hidle1 E2) as (Ho2 & _).
  rewrite Ho2, Hctx. unfold emitted, chan. simpl. rewrite Hb.
  rewrite string_app_empty_r. reflexivity.
Qed.

(** ** The import block depends on the set of paths only *)

Lemma sorted_same_elements {A} (R : A -> A -> Prop) :
  (forall a, ~ R a a) -> (forall a b c, R a b -> R b c -> R a c) ->
  forall l1 l2,
    StronglySorted R l1 -> StronglySorted R l2 ->
    (forall x, List.In x l1 <-> List.In x l2) -> l1 = l2.
Proof.
  intros Hirr Htr. induction l1 as [|a l1 IH]; intros l2 S1 S2 Hin.
  - destruct l2 as [|b l2]; [reflexivity|].
    destruct (proj2 (Hin b) ltac:(left; reflexivity)).
  - destruct l2 as [|b l2].
    { destruct (proj1 (Hin a) ltac:(left; reflexivity)). }
    apply StronglySorted_inv in S1 as [S1 F1].
    apply StronglySorted_inv in S2 as [S2 F2].
    rewrite List.Forall_forall in F1, F2.
    assert (Hab : a = b).
    { destruct (proj1 (Hin a) ltac:(left; reflexivity)) as [E|Ha]; [congruence|].
      destruct (proj2 (Hin b) ltac:(left; reflexivity)) as [E|Hb]; [congruence|].
      exfalso. apply (Hirr a). eapply Htr; [apply F1; exact Hb|apply F2; exact Ha]. }
    subst b. f_equal. apply IH; [exact S1|exact S2|].
    intros x. split; intros Hx.
    + destruct (proj1 (Hin x) ltac:(right; exact Hx)) as [E|Hx']; [|exact Hx'].
      subst x. exfalso. apply (Hirr a). apply F1. exact Hx.
    + destruct (proj2 (Hin x) ltac:(right; exact Hx)) as [E|Hx']; [|exact Hx'].
      subst x. exfalso. apply (Hirr a). apply F2. exact Hx.
Qed.

Lemma sorted_paths tb l :
  StronglySorted (fun a b => dep_less tb a b = true) l ->
  StronglySorted (fun p q => path_less tb p q = true) (map pkgPath l).
Proof.
  induction 1 as [|a l S IH F]; [constructor|].
  cbn [map]. constructor; [exact IH|].
  rewrite List.Forall_forall in F |- *. intros q Hq.
  apply in_map_iff in Hq as (b & <- & Hb). exact (F b Hb).
Qed.

Lemma import_lines_paths tb d l1 : forall l2 lastStd,
  map pkgPath l1 = map pkgPath l2 ->
  import_lines tb d lastStd l1 = import_lines tb d lastStd l2.
Proof.
  induction l1 as [|a l1 IH]; intros [|b l2] lastStd E; try discriminate;
    [reflexivity|].
  cbn [map] in E. injection E as Eab E. cbn [import_lines]. cbv zeta.
  rewrite Eab, (IH l2 _ E). reflexivity.
Qed.

Lemma sorted_dedup_paths tb deps1 deps2 :
  (forall p, List.In p (map pkgPath deps1) <-> List.In p (map pkgPath deps2)) ->
  map pkgPath (insertion_sort (dep_less tb) (dedup_loop (length deps1) ∅ 0 deps1))
  = map pkgPath (insertion_sort (dep_less tb) (dedup_loop (length deps2) ∅ 0 deps2)).
Proof.
  intros Hsame.
  destruct (dedup_spec deps1) as [Hnd1 Hin1].
  destruct (dedup_spec deps2) as [Hnd2 Hin2].
  apply (sorted_same_elements (fun p q => path_less tb p q = true)).
  - intros a. unfold path_less. rewrite dep_less_irrefl. discriminate.
  - intros a b c. unfold path_less. apply dep_less_trans.
  - apply sorted_paths, insertion_sort_sorted. exact Hnd1.
  - apply sorted_paths, insertion_sort_sorted. exact Hnd2.
  - intros p.
    assert (Hp : forall ds, List.In p (map pkgPath (insertion_sort (dep_less tb) ds))
                            <-> List.In p (map pkgPath ds)).
    { intros ds. split; apply Permutation_in; apply Permutation_map;
        [symmetry|]; apply insertion_sort_perm. }
    rewrite !Hp, Hin1, Hin2. apply Hsame.
Qed.

(** X15: what [importDeps] writes depends on the set of package paths
    among the dependencies alone: their order, how often a path occurs and
    the names that come with it make no difference. *)
Theorem importDeps_by_paths (files : list (string * bool)) (deps1 deps2 : list dep)
    (w : Writer) :
  std_ok files w ->
  (forall p, List.In p (map pkgPath deps1) <-> List.In p (map pkgPath deps2)) ->
  importDeps deps1 w = importDeps deps2 w.
Proof.
  intros Hok Hsame.
  rewrite (importDeps_ok files deps1 w Hok), (importDeps_ok files deps2 w Hok).
  cbv zeta. set (tb := stdlib_table files ∅).
  pose proof (sorted_dedup_paths tb deps1 deps2 Hsame) as Hpaths.
  set (ds1 := dedup_loop (length deps1) ∅ 0 deps1) in *.
  set (ds2 := dedup_loop (length deps2) ∅ 0 deps2) in *.
  assert (Hlen : length ds1 = length ds2).
  { rewrite (Permutation_length (insertion_sort_perm (dep_less tb) ds1)),
            (Permutation_length (insertion_sort_perm (dep_less tb) ds2)).
    rewrite <- (length_map pkgPath (insertion_sort (dep_less tb) ds1)), Hpaths.
    apply length_map. }
  rewrite Hlen. destruct (Nat.eqb (length ds2) 0); [reflexivity|].
  unfold import_block.
  rewrite (import_lines_paths tb (depth w) _ _ false Hpaths). reflexivity.
Qed.

(** ** What [call] writes *)

Lemma arg_list_rest i args :
  arg_list (S i) args = concat_strings (map (fun a => ", " +:+ a) args).
Proof.
  revert i. induction args as [|a args IH]; intros i; [reflexivity|].
  cbn [arg_list map]. rewrite concat_strings_cons, IH.
  change (0 <? S i) with true. cbv iota. rewrite str_app_assoc. reflexivity.
Qed.

Lemma arg_list_concat args : arg_list 0 args = String.concat ", " args.
Proof.
  destruct args as [|a args]; [reflexivity|].
  cbn [arg_list]. change (0 <? 0) with false. cbv iota.
  rewrite arg_list_rest. rewrite str_app_empty_l.
  revert a. induction args as [|b args IH]; intros a.
  - cbn [map]. rewrite concat_strings_nil. apply string_app_empty_r.
  - cbn [map]. rewrite concat_strings_cons.
    change (String.concat ", " (a :: b :: args))
      with (a +:+ ", " +:+ String.concat ", " (b :: args)).
    rewrite <- IH, str_app_assoc. reflexivity.
Qed.

Lemma forMi_args_total args : forall i u,
  exists u',
    forMi_ (fun i name => (if 0 <? i then code [", "] else ret tt) ;; code [name])
           i args u = (Ok tt, u').
Proof.
  induction args as [|a args IH]; intros i u; [eexists; reflexivity|].
  cbn [forMi_].
  assert (E : exists u1, ((if 0 <? i then code [", "] else ret tt) ;; code [a]) u
                         = (Ok tt, u1)).
  { destruct (0 <? i).
    - unfold bind. rewrite code_eq, code_eq. eexists; reflexivity.
    - unfold bind, ret. rewrite code_eq. eexists; reflexivity. }
  destruct E as [u1 E]. destruct (IH (S i) u1) as [u' E'].
  exists u'. rewrite (bind_Ok _ _ _ _ _ E). exact E'.
Qed.

(** X16: [call] always returns; it writes the arguments in parentheses,
    separated by a comma and a space, and ends the line, after the
    indentation when it starts one. *)
Theorem call_text (args : list string) (u : Writer) :
  exists u',
    call args u = (Ok tt, u')
    /\ chan u' = chan_write
                   ((if atEOL u then indent (depth u) else EmptyString)
                    +:+ "(" +:+ String.concat ", " args +:+ ")" +:+ newline)
                   (chan u)
    /\ atEOL u' = true /\ depth u' = depth u /\ scopes u' = scopes u.
Proof.
  assert (Htot : exists u', call args u = (Ok tt, u')).
  { unfold call. unfold bind at 1. rewrite code_eq.
    destruct (forMi_args_total args 0
                (set_atEOL false (write_text (code_text (atEOL u) (depth u) ["("]) u)))
      as [u1 E1].
    rewrite (bind_Ok _ _ _ _ _ E1), line_eq. eexists; reflexivity. }
  destruct Htot as [u' E]. exists u'. split; [exact E|].
  assert (Hflow : Flows (atEOL u) true (call args)
                    (fun d => code_text (atEOL u) d ["("] +:+ arg_list 0 args
                              +:+ line_text false d [")"])).
  { unfold call.
    eapply Flows_bind; [apply Flows_code|intros _].
    eapply Flows_bind; [apply Flows_args|intros _; apply Flows_line]. }
  destruct (Hflow u tt u' E eq_refl) as (C & He & Hd).
  split; [|split; [exact He|split; [exact Hd|]]].
  - rewrite C. f_equal. unfold code_text, line_text, code_text.
    rewrite arg_list_concat. str_norm. reflexivity.
  - destruct (proj1 (OwnScope_call args) u tt u' E) as [_ Hs]. exact Hs.
Qed.
(** ** What [capture] accepts *)

Lemma capture_step_free v l w s rest :
  scopes w = s :: rest -> vars s !! v = None ->
  (ok <- set v l ;; if negb ok then panic (CantCapture v) else ret tt) w
  = (Ok tt, set_scopes (declared v l s :: rest) w).
Proof.
  intros Hs Hv. rewrite (bind_Ok _ _ _ _ _ (set_free v l w s rest Hs Hv)). reflexivity.
Qed.

Lemma capture_step_taken v l w s rest d :
  scopes w = s :: rest -> vars s !! v = Some d ->
  (ok <- set v l ;; if negb ok then panic (CantCapture v) else ret tt) w
  = (Panic (CantCapture v), w).
Proof.
  intros Hs Hv. rewrite (bind_Ok _ _ _ _ _ (set_taken v l w s rest d Hs Hv)). reflexivity.
Qed.

Lemma capture_loop_ok l vs : forall w s rest,
  scopes w = s :: rest ->
  List.NoDup vs -> Forall (fun v => vars s !! v = None) vs ->
  exists w' s',
    forM_ (fun v => ok <- set v l ;; if negb ok then panic (CantCapture v) else ret tt)
          vs w = (Ok tt, w')
    /\ scopes w' = s' :: rest
    /\ forall v, is_Some (vars s' !! v) <-> is_Some (vars s !! v) \/ List.In v vs.
Proof.
  induction vs as [|v vs IH]; intros w s rest Hs Hnd Hfree.
  - exists w, s. split; [reflexivity|]. split; [exact Hs|]. intros v. simpl. tauto.
  - apply List.NoDup_cons_iff in Hnd as [Hv Hnd].
    apply Forall_cons in Hfree as [Hfv Hfree]. cbn [forM_].
    rewrite (bind_Ok _ _ _ _ _ (capture_step_free v l w s rest Hs Hfv)).
    destruct (IH (set_scopes (declared v l s :: rest) w) (declared v l s) rest
                ltac:(destruct w; reflexivity) Hnd) as (w' & s' & E & Hs' & Hiff).
    { rewrite Forall_forall in Hfree |- *. intros x Hx.
      unfold declared; simpl. rewrite lookup_insert_ne; [apply Hfree; exact Hx|].
      intros ->. apply Hv. apply list_elem_of_In. exact Hx. }
    exists w', s'. split; [exact E|]. split; [exact Hs'|].
    intros x. rewrite Hiff. unfold declared; simpl.
    destruct (decide (v = x)) as [->|Hne].
    + rewrite lookup_insert_eq. split; [intros _; right; left; reflexivity|eauto].
    + rewrite lookup_insert_ne by exact Hne. split.
      * intros [H|H]; [left; exact H|right; right; exact H].
      * intros [H|[H|H]]; [left; exact H|congruence|right; exact H].
Qed.

Lemma capture_loop_inv l vs : forall w s rest w',
  scopes w = s :: rest ->
  forM_ (fun v => ok <- set v l ;; if negb ok then panic (CantCapture v) else ret tt)
        vs w = (Ok tt, w') ->
  List.NoDup vs /\ Forall (fun v => vars s !! v = None) vs.
Proof.
  induction vs as [|v vs IH]; intros w s rest w' Hs E.
  - split; constructor.
  - cbn [forM_] in E. destruct (vars s !! v) as [d|] eqn:Hv.
    + rewrite (bind_Panic _ _ _ _ _ (capture_step_taken v l w s rest d Hs Hv)) in E.
      discriminate.
    + rewrite (bind_Ok _ _ _ _ _ (capture_step_free v l w s rest Hs Hv)) in E.
      destruct (IH (set_scopes (declared v l s :: rest) w) (declared v l s) rest w'
                  ltac:(destruct w; reflexivity) E) as [Hnd Hfree].
      rewrite Forall_forall in Hfree.
      split.
      * constructor; [|exact Hnd]. intros Hin. apply list_elem_of_In in Hin.
        specialize (Hfree v Hin). unfold declared in Hfree; simpl in Hfree.
        rewrite lookup_insert_eq in Hfree. discriminate.
      * constructor; [exact Hv|]. rewrite Forall_forall. intros x Hx.
        specialize (Hfree x Hx). unfold declared in Hfree; simpl in Hfree.
        destruct (decide (v = x)) as [->|Hne].
        -- rewrite lookup_insert_eq in Hfree. discriminate.
        -- rewrite lookup_insert_ne in Hfree by exact Hne. exact Hfree.
Qed.

(** X17: [capture] returns exactly when the names are pairwise distinct
    and none of them is declared in the scope at the back; the scope then
    holds what it held and these names, unchanged. *)
Theorem capture_ok_iff (vs : list string) (l : site) (w : Writer) (s : scope)
    (rest : list scope) :
  scopes w = s :: rest ->
  (fst (capture vs l w) = Ok tt
   <-> List.NoDup vs /\ Forall (fun v => vars s !! v = None) vs)
  /\ (forall w', capture vs l w = (Ok tt, w') ->
        exists s', scopes w' = s' :: rest
          /\ forall v, is_Some (vars s' !! v)
                       <-> is_Some (vars s !! v) \/ List.In v vs).
Proof.
  intros Hs.
  assert (Hun : capture vs l w
                = forM_ (fun v => ok <- set v l ;;
                                  if negb ok then panic (CantCapture v) else ret tt)
                        vs w).
  { unfold capture. rewrite (bind_Ok _ _ _ _ _ (Back_some _ _ _ Hs)). reflexivity. }
  rewrite Hun. split; [split|].
  - intros E. destruct (forM_ _ vs w) as [r w'] eqn:E'. simpl in E. subst r.
    apply (capture_loop_inv l vs w s rest w' Hs E').
  - intros [Hnd Hfree].
    destruct (capture_loop_ok l vs w s rest Hs Hnd Hfree) as (w' & s' & E & _).
    rewrite E. reflexivity.
  - intros w' E.
    destruct (capture_loop_inv l vs w s rest w' Hs E) as [Hnd Hfree].
    destruct (capture_loop_ok l vs w s rest Hs Hnd Hfree) as (w2 & s' & E2 & Hs' & Hiff).
    rewrite E in E2. inversion E2; subst w2. eauto.
Qed.

(** ** What the emitters of a trace leave alone *)

(** X18: each declaration [Write] emits for a trace is balanced: when
    [options], [compose], [isZero] or [hook] returns, the scopes, the
    depth, the package, the build context and the classification table
    are as before, and the writer is at the start of a line. *)
Theorem emitters_balanced (t : Trace) (h : Hook) (w w' : Writer) :
  options t w = (Ok tt, w') \/ compose t w = (Ok tt, w')
  \/ isZero t w = (Ok tt, w') \/ hook t h w = (Ok tt, w') ->
  scopes w' = scopes w /\ depth w' = depth w /\ pkg w' = pkg w
  /\ std w' = std w /\ Context w' = Context w /\ atEOL w' = true.
Proof.
  assert (Hall : forall m : M unit, OwnScope m -> Eol m -> m w = (Ok tt, w') ->
            scopes w' = scopes w /\ depth w' = depth w /\ pkg w' = pkg w
            /\ std w' = std w /\ Context w' = Context w /\ atEOL w' = true).
  { intros m Hown Heol E. destruct (proj1 Hown _ _ _ E) as [Hf Hs].
    unfold fixed in Hf. injection Hf as Hd Hp Hst Hc _.
    pose proof (Heol _ _ _ E). auto 10. }
  intros [E|[E|[E|E]]].
  - exact (Hall _ (OwnScope_options t) (Eol_options t) E).
  - exact (Hall _ (OwnScope_compose t) (Eol_compose t) E).
  - exact (Hall _ (OwnScope_isZero t) (Eol_isZero t) E).
  - exact (Hall _ (OwnScope_hook t h) (Eol_hook t h) E).
Qed.

(** X19: when the library root cannot be listed and at least one
    dependency was collected, [Write] panics with the listing error. *)
Theorem Write_unreadable_root (p : Package) (w : Writer) :
  idle w ->
  std w = None ->
  ReadDir_src (GOROOT (Context w)) = None ->
  deps_of p <> [] ->
  fst (Write p w) = Panic CantListGOROOT.
Proof.
  intros Hidle Hs Hd Hne. rewrite (Write_unfold p w Hidle).
  destruct (prepared_facts (Package_ p) w Hidle) as (Pd & Ps & Pp & Pc & Px & Pstd & Po).
  destruct (lined_facts (header_text p) (prepared (Package_ p) w))
    as (Le & Ld & Ls & Lp & Lc & Lx & Lstd & Lo).
  set (wh := lined (header_text p) (prepared (Package_ p) w)) in *.
  assert (H : fst (importDeps (deps_of p) wh) = Panic CantListGOROOT).
  { apply importDeps_unreadable; [congruence|congruence|].
    apply dedup_nonempty. exact Hne. }
  unfold bind at 1. destruct (importDeps (deps_of p) wh) as [r w3].
  simpl in H. subst r. reflexivity.
Qed.

(** ** What is flattened *)

(** X20: [flattenParams] leaves a parameter list without named struct
    parameters as it is, a pointer to a struct being no named struct; and
    a named struct without exported fields leaves no parameter behind. *)
Theorem flattenParams_kept_and_dropped (params : list Param) :
  (Forall (fun p => named_struct p = false) params -> flattenParams params = params)
  /\ (forall p t, Type_ p = Pointer t -> named_struct p = false)
  /\ (forall pre p post s,
        struct_of p = Some s -> exported_fields s = [] ->
        flattenParams (pre ++ p :: post) = flattenParams (pre ++ post)).
Proof.
  split; [|split].
  - intros Hall. rewrite flattenParams_eq.
    induction Hall as [|p ps Hp _ IH]; [reflexivity|].
    cbn [map concat]. rewrite IH. unfold flat1. unfold named_struct in Hp.
    destruct (struct_of p); [discriminate|reflexivity].
  - intros p t E. unfold named_struct, struct_of. rewrite E. reflexivity.
  - intros pre p post s Hs He. rewrite !flattenParams_eq, !map_app, !concat_app.
    cbn [map concat]. unfold flat1 at 2. rewrite Hs, He. reflexivity.
Qed.

(** ** Strings without a first rune *)

(** X14: [exported], [unexported] and [firstChar] panic with "invalid
    string" on the empty string and on every string that starts with
    U+FFFD, also when that character is properly encoded: they cannot tell
    it from a decoding error.  On a string that starts with an ASCII byte
    they return, having touched that byte only. *)
Theorem first_rune_edges (rest : string) :
  exported EmptyString = Panic InvalidString
  /\ unexported EmptyString = Panic InvalidString
  /\ firstChar EmptyString = Panic InvalidString
  /\ exported (replacement_char +:+ rest) = Panic InvalidString
  /\ unexported (replacement_char +:+ rest) = Panic InvalidString
  /\ firstChar (replacement_char +:+ rest) = Panic InvalidString
  /\ (forall a, (byteval a < 128)%N ->
        exported (String a rest)
        = Ok (string_of_rune (unicode_ToUpper (byteval a)) +:+ rest)
        /\ unexported (String a rest)
           = Ok (string_of_rune (unicode_ToLower (byteval a)) +:+ rest)
        /\ firstChar (String a rest) = Ok (String a EmptyString)).
Proof.
  do 6 (split; [reflexivity|]).
  intros a Ha.
  assert (Hdec : utf8_DecodeRuneInString (String a rest) = (byteval a, 1)).
  { unfold utf8_DecodeRuneInString. cbv zeta.
    rewrite (proj2 (N.ltb_lt _ _) Ha). reflexivity. }
  assert (Hne : N.eqb (byteval a) RuneError = false).
  { apply N.eqb_neq. unfold RuneError. lia. }
  unfold exported, unexported, firstChar. rewrite Hdec, Hne.
  split; [reflexivity|]. split; [reflexivity|].
  unfold string_of_rune. rewrite (proj2 (N.ltb_lt _ _) Ha).
  unfold bytechr, byteval. rewrite ascii_N_embedding. reflexivity.
Qed.

(** ** The [isZero] method *)

Lemma Returns_ret {A} (a : A) : Returns (ret a).
Proof. intros u. eexists _, _. reflexivity. Qed.

Lemma Returns_bind {A B} (m : M A) (k : A -> M B) :
  Returns m -> (forall a, Returns (k a)) -> Returns (bind m k).
Proof.
  intros Hm Hk u. destruct (Hm u) as (a & u1 & E1). destruct (Hk a u1) as (b & u2 & E2).
  exists b, u2. rewrite (bind_Ok _ _ _ _ _ E1). exact E2.
Qed.

Lemma Returns_line args : Returns (line args).
Proof. intros u. rewrite line_eq. eexists _, _. reflexivity. Qed.

Lemma Returns_code args : Returns (code args).
Proof. intros u. rewrite code_eq. eexists _, _. reflexivity. Qed.

Lemma Returns_modify f : Returns (modify f).
Proof. intros u. eexists _, _. reflexivity. Qed.

Lemma Returns_newScope (fn : M unit) : Returns fn -> Returns (newScope fn).
Proof.
  intros Hfn. unfold newScope.
  apply Returns_bind; [apply Returns_modify|intros _].
  apply Returns_bind; [exact Hfn|intros _]. apply Returns_modify.
Qed.

Lemma Returns_block (fn : M unit) : Returns fn -> Returns (block fn).
Proof.
  intros Hfn. unfold block.
  apply Returns_bind; [apply Returns_modify|intros _].
  apply Returns_bind; [apply Returns_newScope; exact Hfn|intros _]. apply Returns_modify.
Qed.

Lemma Returns_forM_ {A} (f : A -> M unit) l : (forall x, Returns (f x)) -> Returns (forM_ f l).
Proof.
  intros Hf. induction l as [|x l IH]; cbn [forM_]; [apply Returns_ret|].
  apply Returns_bind; [apply Hf|intros _; exact IH].
Qed.

Lemma Flows_forM_ {A} (f : A -> M unit) (T : A -> nat -> string) l :
  (forall x, Flows true true (f x) (T x)) ->
  Flows true true (forM_ f l) (fun d => concat_strings (map (fun x => T x d) l)).
Proof.
  intros Hf. induction l as [|x l IH]; cbn [forM_ map].
  - apply Flows_ret.
  - eapply Flows_ext; [|eapply Flows_bind; [apply Hf|intros _; exact IH]].
    intros d. reflexivity.
Qed.

Lemma declare_in_fresh_scope name l w s0 rest0 :
  scopes w = {| vars := ∅ |} :: s0 :: rest0 ->
  isPredeclared name = false -> token_IsKeyword name = false ->
  declare name l w
  = (Ok name, set_scopes (declared name l {| vars := ∅ |} :: s0 :: rest0) w).
Proof.
  intros Hs Hp Hk.
  assert (Hfree : blocked w (candidate name 0) = false).
  { rewrite (blocked_cases _ _ _ _ Hs). simpl. unfold candidate. simpl.
    rewrite Hk. simpl. rewrite lookup_empty.
    apply bool_decide_eq_false. intros [? ?]; discriminate. }
  destruct (declare_not_predeclared name l w _ _ Hs Hp) as (j & Hall & _ & Hrun).
  assert (j = 0) as ->.
  { destruct j; [reflexivity|]. specialize (Hall 0 ltac:(lia)). congruence. }
  exact Hrun.
Qed.

Lemma isZero_body_returns b t hooks :
  returned b (isZero_body t hooks)
  = Some ((if forallb (fun h => is_nil b (t +:+ "." +:+ HName h)) hooks
           then "true" else "false") +:+ newline).
Proof.
  unfold isZero_body. induction hooks as [|h hooks IH]; [reflexivity|].
  cbn [map app returned returned_stmt forallb].
  destruct (is_nil b (t +:+ "." +:+ HName h)); cbn [andb]; [exact IH|reflexivity].
Qed.

Lemma isZero_check_flows t hook :
  Flows true true
    (line ["if "; t; "."; HName hook; " != nil {"] ;;
     block (line ["return false"]) ;;
     line ["}"])
    (fun d => print_stmt d (IfSet (t +:+ "." +:+ HName hook)
                              [ReturnExpr ("false" +:+ newline)])).
Proof.
  eapply Flows_ext;
    [|eapply Flows_bind; [apply Flows_line|intros _];
      eapply Flows_bind; [apply Flows_block, Flows_line|intros _; apply Flows_line]].
  intros d. cbv beta. cbn [print_stmt].
  unfold line_text, code_text. str_norm. reflexivity.
Qed.

Lemma isZero_inner_flows t trace :
  Flows true true
    (line ["// isZero checks whether "; t; " is empty"] ;;
     line ["func ("; t; " "; TName trace; ") isZero() bool {"] ;;
     block (
       forM_ (fun hook =>
         line ["if "; t; "."; HName hook; " != nil {"] ;;
         block (line ["return false"]) ;;
         line ["}"]) (Hooks trace) ;;
       line ["return true"]) ;;
     line ["}"])
    (fun d =>
       line_text true d ["// isZero checks whether "; t; " is empty"]
       +:+ print_func d
             (line_text true d ["func ("; t; " "; TName trace; ") isZero() bool {"])
             (isZero_body t (Hooks trace))).
Proof.
  eapply Flows_ext;
    [|eapply Flows_bind; [apply Flows_line|intros _];
      eapply Flows_bind; [apply Flows_line|intros _];
      eapply Flows_bind; [|intros _; apply Flows_line];
      apply Flows_block;
      eapply Flows_bind; [|intros _; apply Flows_line];
      apply (Flows_forM_ _ (fun hook d =>
               print_stmt d (IfSet (t +:+ "." +:+ HName hook)
                               [ReturnExpr ("false" +:+ newline)])));
      intros hook; apply isZero_check_flows].
  intros d. cbv beta. unfold print_func, print_stmts, isZero_body.
  rewrite map_app, concat_strings_app, map_map. cbn [map].
  change (print_stmt (S d) (ReturnExpr ("true" +:+ newline)))
    with (indent (S d) +:+ "return true" +:+ newline).
  unfold line_text at 3. unfold code_text. str_norm. reflexivity.
Qed.

(** X21: inside any scope [isZero] always returns; the method it writes
    has the receiver [t] and a body of one check per hook, in the order of
    the model, each returning [false] when its hook is set, and a final
    [return true]: it returns [true] exactly when every hook is unset. *)
Theorem isZero_method (trace : Trace) (w : Writer) :
  scopes w <> [] ->
  atEOL w = true ->
  exists w',
    isZero trace w = (Ok tt, w')
    /\ chan w'
       = chan_write
           (line_text true (depth w) ["// isZero checks whether "; "t"; " is empty"]
            +:+ print_func (depth w)
                  (line_text true (depth w)
                     ["func ("; "t"; " "; TName trace; ") isZero() bool {"])
                  (isZero_body "t" (Hooks trace)))
           (chan w)
    /\ forall b,
         returned b (isZero_body "t" (Hooks trace))
         = Some ((if forallb (fun h => is_nil b ("t" +:+ "." +:+ HName h)) (Hooks trace)
                  then "true" else "false") +:+ newline).
Proof.
  intros Hne He.
  destruct (scopes w) as [|s0 rest0] eqn:Hs; [congruence|]. clear Hne.
  set (w0 := set_scopes ({| vars := ∅ |} :: scopes w) w).
  assert (Hs0 : scopes w0 = {| vars := ∅ |} :: s0 :: rest0)
    by (unfold w0; destruct w; simpl in *; subst; reflexivity).
  pose proof (declare_in_fresh_scope "t" 295 w0 s0 rest0 Hs0 eq_refl eq_refl) as Ed.
  set (w1 := set_scopes (declared "t" 295 {| vars := ∅ |} :: s0 :: rest0) w0) in Ed.
  set (inner := (line ["// isZero checks whether "; "t"; " is empty"] ;;
                 line ["func ("; "t"; " "; TName trace; ") isZero() bool {"] ;;
                 block (
                   forM_ (fun hook =>
                     line ["if "; "t"; "."; HName hook; " != nil {"] ;;
                     block (line ["return false"]) ;;
                     line ["}"]) (Hooks trace) ;;
                   line ["return true"]) ;;
                 line ["}"])).
  assert (Hret : Returns inner).
  { unfold inner.
    apply Returns_bind; [apply Returns_line|intros _].
    apply Returns_bind; [apply Returns_line|intros _].
    apply Returns_bind; [|intros _; apply Returns_line].
    apply Returns_block.
    apply Returns_bind; [|intros _; apply Returns_line].
    apply Returns_forM_. intros hook.
    apply Returns_bind; [apply Returns_line|intros _].
    apply Returns_bind; [apply Returns_block, Returns_line|intros _; apply Returns_line]. }
  destruct (Hret w1) as ([] & w2 & E2).
  assert (He1 : atEOL w1 = true) by (unfold w1, w0; destruct w; exact He).
  destruct (isZero_inner_flows "t" trace w1 tt w2 E2 He1) as (C & _ & _).
  exists (set_scopes (tl (scopes w2)) w2).
  split; [|split].
  - unfold isZero, newScope. unfold bind at 1, modify. fold w0.
    unfold bind at 1. rewrite (bind_Ok _ _ _ _ _ Ed). fold inner. rewrite E2.
    reflexivity.
  - transitivity (chan w2); [destruct w2; reflexivity|]. rewrite C.
    assert (Hd : depth w1 = depth w) by (unfold w1, w0; destruct w; reflexivity).
    assert (Hc : chan w1 = chan w) by (unfold w1, w0; destruct w; reflexivity).
    rewrite Hd, Hc. reflexivity.
  - intros b. apply isZero_body_returns.
Qed.

(** ** More of the composed hook *)

Lemma merged_body_quiet b h1 h2 args rs decl ret :
  outcome b h1 = None -> outcome b h2 = None ->
  call_func b (merged_body h1 h2 args rs decl ret)
  = ((if is_nil b h1 then [] else [Called h1])
     ++ (if is_nil b h2 then [] else [Called h2]), Returned).
Proof.
  intros Ho1 Ho2. unfold call_func, merged_body.
  destruct rs, ret, (is_nil b panicCallback) eqn:Hcb,
    (is_nil b h1) eqn:Hn1, (is_nil b h2) eqn:Hn2;
    run_body; rewrite ?Hcb; run_body; rewrite ?Hn1; run_body; rewrite ?Ho1;
    run_body; rewrite ?Hn2; run_body; rewrite ?Ho2; reflexivity.
Qed.

Lemma merged_body_unguarded b h1 h2 args rs decl ret e :
  is_nil b panicCallback = true ->
  is_nil b h1 = false -> outcome b h1 = Some e ->
  call_func b (merged_body h1 h2 args rs decl ret) = ([Called h1], Panicking e).
Proof.
  intros Hcb Hn1 Ho1. unfold call_func, merged_body.
  destruct rs, ret; run_body; rewrite Hcb; run_body; rewrite Hn1; run_body;
    rewrite Ho1; reflexivity.
Qed.

(** X22: in the function [composeHookCall] writes, a hook that is unset
    is skipped and the other one still called, first the first then the
    second; with both unset the function calls nothing and returns.
    Without the callback there is no guard at all: a panic in a hook's
    call leaves the composed function as a panic. *)
Theorem composeHookCall_unset_and_unguarded (fn : Func) (h1 h2 : string)
    (u u' : Writer) :
  composeHookCall fn h1 h2 u = (Ok tt, u') ->
  exists sig args rs decl ret,
    let body := merged_body h1 h2 args rs decl ret in
    chan u' = chan_write (print_func (depth u) sig body) (chan u)
    /\ (forall b, outcome b h1 = None -> outcome b h2 = None ->
          call_func b body
          = ((if is_nil b h1 then [] else [Called h1])
             ++ (if is_nil b h2 then [] else [Called h2]), Returned))
    /\ (forall b e, is_nil b panicCallback = true ->
          is_nil b h1 = false -> outcome b h1 = Some e ->
          call_func b body = ([Called h1], Panicking e)).
Proof.
  intros E.
  destruct (composeHookCall_body fn h1 h2 u u' E)
    as (sig & args & rs & decl & ret & C & _).
  exists sig, args, rs, decl, ret. split; [exact C|]. split.
  - intros b. apply merged_body_quiet.
  - intros b e. apply merged_body_unguarded.
Qed.

(** X23: [composeHook] assigns the slot of the composed trace
    unconditionally: inside any scope it writes a block that copies the
    two hooks into [h1] and [h2] and then assigns the composed function to
    [dst], whether or not either hook is set. *)
Theorem composeHook_assigns_always (hook : Hook) (t1 t2 dst : string) (w w' : Writer) :
  scopes w <> [] ->
  atEOL w = true ->
  composeHook hook t1 t2 dst w = (Ok tt, w') ->
  exists sig args rs decl ret,
    chan w'
    = chan_write
        (line_text true (depth w) ["{"]
         +:+ line_text true (S (depth w)) ["h1"; " := "; t1; "."; HName hook]
         +:+ line_text true (S (depth w)) ["h2"; " := "; t2; "."; HName hook]
         +:+ indent (S (depth w)) +:+ dst +:+ " = "
         +:+ print_func (S (depth w)) sig (merged_body "h1" "h2" args rs decl ret)
         +:+ line_text true (depth w) ["}"])
        (chan w).
Proof.
  intros Hne He E.
  destruct (scopes w) as [|s0 rest0] eqn:Hs; [congruence|]. clear Hne.
  unfold composeHook in E.
  run_step E x0 w1 Eopen.
  pose proof (Flows_Went _ _ _ _ _ _ _ (Flows_line true ["{"]) Eopen He) as W0.
  assert (Hs1 : scopes w1 = s0 :: rest0).
  { destruct (proj1 (OwnScope_line ["{"]) _ _ _ Eopen) as [_ H]. congruence. }
  run_step E x1 w2 Eblk.
  pose proof (Flows_Went _ _ _ _ _ _ _ (Flows_line (atEOL w2) ["}"]) E eq_refl) as W2.
  unfold block in Eblk. run_step Eblk x2 v0 Einc. inversion Einc; subst v0. clear Einc.
  run_step Eblk x3 v3 Escope.
  inversion Eblk; subst w2. clear Eblk.
  unfold newScope in Escope. run_step Escope x4 v1 Epush.
  inversion Epush; subst v1. clear Epush.
  run_step Escope x5 v2 Einner. inversion Escope; subst v3. clear Escope.
  set (v := set_scopes ({| vars := ∅ |} :: scopes (set_depth (S (depth w1)) w1))
              (set_depth (S (depth w1)) w1)) in *.
  assert (Hsv : scopes v = {| vars := ∅ |} :: s0 :: rest0)
    by (unfold v; destruct w1; simpl in *; subst; reflexivity).
  assert (Hcv : chan v = chan w1) by (unfold v; destruct w1; reflexivity).
  assert (Hev : atEOL v = true)
    by (unfold v; transitivity (atEOL w1); [destruct w1; reflexivity|apply W0]).
  assert (Hdv : depth v = S (depth w))
    by (unfold v; transitivity (S (depth w1));
        [destruct w1; reflexivity|f_equal; apply W0]).
  rewrite (bind_Ok _ _ _ _ _ (declare_in_fresh_scope "h1" 348 v s0 rest0 Hsv
                                eq_refl eq_refl)) in Einner.
  set (va := set_scopes (declared "h1" 348 {| vars := ∅ |} :: s0 :: rest0) v) in *.
  run_step Einner h2 vb Eh2.
  assert (Hh2 : h2 = "h2").
  { destruct (declare_not_predeclared "h2" 349 va
                (declared "h1" 348 {| vars := ∅ |}) (s0 :: rest0)
                ltac:(unfold va; destruct v; reflexivity) eq_refl)
      as (j & Hall & _ & Hrun).
    assert (j = 0) as ->.
    { destruct j; [reflexivity|]. specialize (Hall 0 ltac:(lia)).
      rewrite (blocked_cases va (declared "h1" 348 {| vars := ∅ |}) (s0 :: rest0))
        in Hall by (unfold va; destruct v; reflexivity).
      vm_compute in Hall. discriminate. }
    rewrite Hrun in Eh2. inversion Eh2. reflexivity. }
  subst h2.
  assert (Wb : Went v vb EmptyString true).
  { pose proof (Quiet_Went _ _ _ _ (Quiet_declare "h2" 349) Eh2) as (C & Ee & D).
    repeat split.
    - rewrite C. unfold va. destruct v; reflexivity.
    - rewrite Ee. transitivity (atEOL v); [unfold va; destruct v; reflexivity|exact Hev].
    - rewrite D. unfold va. destruct v; reflexivity. }
  run_step Einner x6 vc El1. flow Wb El1 (Flows_line true ["h1"; " := "; t1; "."; HName hook]).
  run_step Einner x7 vd El2. flow Wb El2 (Flows_line true ["h2"; " := "; t2; "."; HName hook]).
  run_step Einner x8 ve Edst. flow Wb Edst (Flows_code true [dst; " = "]).
  destruct x5.
  destruct (composeHookCall_body (HFunc hook) "h1" "h2" ve v2 Einner)
    as (sig & args & rs & decl & ret & Wc).
  rewrite (proj2 (proj2 Wb)) in Wc.
  pose proof (Went_trans _ _ _ _ _ _ _ Wb Wc) as W. clear Wb Wc.
  rewrite Hdv in W.
  exists sig, args, rs, decl, ret.
  destruct W as (C & Ee & D). destruct W0 as (C0 & E0 & D0). destruct W2 as (C2 & _ & _).
  rewrite C2.
  assert (Hcw : chan (set_depth (Init.Nat.pred
                   (depth (set_scopes (tl (scopes v2)) v2)))
                   (set_scopes (tl (scopes v2)) v2)) = chan v2)
    by (destruct v2; reflexivity).
  assert (Hew : atEOL (set_depth (Init.Nat.pred
                   (depth (set_scopes (tl (scopes v2)) v2)))
                   (set_scopes (tl (scopes v2)) v2)) = true)
    by (transitivity (atEOL v2); [destruct v2; reflexivity|exact Ee]).
  assert (Hdw : depth (set_depth (Init.Nat.pred
                   (depth (set_scopes (tl (scopes v2)) v2)))
                   (set_scopes (tl (scopes v2)) v2)) = depth w).
  { transitivity (Init.Nat.pred (depth v2)); [destruct v2; reflexivity|].
    rewrite D, Hdv. reflexivity. }
  rewrite Hcw, Hew, Hdw, C, Hcv, C0, <- !chan_write_app. f_equal.
  unfold code_text. str_norm. reflexivity.
Qed.

(** ** Runs over any sink *)

Section Sinks.

Context (S : Sink).

Ltac fields :=
  cbn [Output bw bw_err atEOL depth scopes pkg std Context once
       set_Output set_bw set_bw_err set_atEOL set_depth set_scopes set_pkg set_std
       fst snd ctl].

Lemma str_take_all (s : string) : string_take (String.length s) s = s.
Proof. induction s as [|a s IH]; simpl; congruence. Qed.

Lemma str_take_ge n (s : string) : String.length s <= n -> string_take n s = s.
Proof.
  revert n. induction s as [|a s IH]; intros [|n] H; simpl in *; try reflexivity; try lia.
  rewrite IH by lia. reflexivity.
Qed.

Lemma str_drop_ge n (s : string) : String.length s <= n -> string_drop n s = EmptyString.
Proof.
  revert n. induction s as [|a s IH]; intros [|n] H; simpl in *; try reflexivity; try lia.
  apply IH. lia.
Qed.

Lemma str_length_take_le n (s : string) : String.length (string_take n s) <= n.
Proof.
  revert s. induction n as [|n IH]; intros [|a s]; simpl; try lia.
  specialize (IH s). lia.
Qed.

Lemma str_length_0 (s : string) : String.length s = 0 -> s = EmptyString.
Proof. destruct s; [reflexivity|discriminate]. Qed.

(** *** One flush *)

Lemma flush_spec u e' u' :
  flush (sink := S) u = (e', u') -> bw_err u = None ->
  ctl u' = ctl u /\ bw_err u' = e'
  /\ Output u' +:+ bw u' = Output u +:+ bw u
  /\ (exists x, Output u' = Output u +:+ x)
  /\ String.length (bw u') <= String.length (bw u)
  /\ (e' = None -> bw u' = EmptyString)
  /\ (accepts S -> e' = None).
Proof.
  intros E He. unfold flush in E. rewrite He in E.
  destruct (String.length (bw u) =? 0) eqn:E0.
  - inversion E; subst. apply Nat.eqb_eq in E0.
    repeat split; auto.
    + exists EmptyString. rewrite string_app_empty_r. reflexivity.
    + intros _. apply str_length_0, E0.
  - unfold Output_put in E.
    pose proof (@Output_Write_n S (Output u) (bw u)) as Hn.
    pose proof (@Output_Write_short S (Output u) (bw u)) as Hs.
    assert (Hacc : accepts S -> @Output_Write S (Output u) (bw u)
                               = (String.length (bw u), None)) by (intros H; apply H).
    destruct (@Output_Write S (Output u) (bw u)) as [n err]. simpl in Hn, Hs.
    assert (Hcat : (Output u +:+ string_take n (bw u)) +:+ string_drop n (bw u)
                   = Output u +:+ bw u).
    { rewrite str_app_assoc, str_take_drop. reflexivity. }
    destruct err as [e|].
    + inversion E; subst e' u'. clear E. cbn.
      repeat split.
      * exact Hcat.
      * eexists. reflexivity.
      * rewrite str_length_drop. lia.
      * discriminate.
      * intros H. specialize (Hacc H). discriminate.
    + destruct (n <? String.length (bw u)) eqn:El.
      * apply Nat.ltb_lt in El. exfalso. apply (Hs El). reflexivity.
      * apply Nat.ltb_ge in El. inversion E; subst e' u'. clear E.
        rewrite (str_take_ge n (bw u) El). cbn.
        repeat split.
        -- exact He.
        -- rewrite string_app_empty_r. reflexivity.
        -- eexists. reflexivity.
        -- lia.
Qed.

Lemma flush_failed u e : bw_err u = Some e -> flush (sink := S) u = (Some e, u).
Proof. intros He. unfold flush. rewrite He. reflexivity. Qed.

(** *** The writer under one write *)

Lemma Held_failed out u e T s :
  bw_err u = Some e -> Held S out u T -> Held S out u (T +:+ s).
Proof.
  intros He ((rest & HT & _) & Hx & Hb & Ha).
  split; [|split; [exact Hx|split; [exact Hb|exact Ha]]].
  exists (rest +:+ s). split; [|rewrite He; discriminate].
  rewrite HT, !str_app_assoc. reflexivity.
Qed.

(** [WriteByte] over [S]. *)
Lemma WriteByte_held out c u T :
  Held S out u T ->
  fst (bufio_WriteByte (sink := S) c u) = Ok tt
  /\ ctl (snd (bufio_WriteByte (sink := S) c u)) = ctl u
  /\ Held S out (snd (bufio_WriteByte (sink := S) c u)) (T +:+ String c EmptyString)
  /\ ((Output (snd (bufio_WriteByte (sink := S) c u)) = Output u
       /\ bw_err (snd (bufio_WriteByte (sink := S) c u)) = bw_err u)
      \/ defaultBufSize < String.length (bw u) + 1).
Proof.
  intros H. unfold bufio_WriteByte.
  destruct (bw_err u) as [e|] eqn:He.
  { fields. split; [reflexivity|]. split; [reflexivity|].
    split; [exact (Held_failed _ _ _ _ _ He H)|]. left. auto. }
  destruct H as ((rest & HT & Hr) & (x & Hx) & Hb & Ha).
  specialize (Hr He). subst rest. rewrite string_app_empty_r in HT.
  destruct (bufio_Available u <=? 0) eqn:Ea.
  - apply Nat.leb_le in Ea. unfold bufio_Available in Ea.
    destruct (flush (sink := S) u) as [e' u1] eqn:Ef.
    destruct (flush_spec _ _ _ Ef He) as (Hc & He1 & Hcat & (y & Hy) & Hl & Hn & Hacc).
    assert (Hov : defaultBufSize < String.length (bw u) + 1) by lia.
    destruct e' as [e|]; fields.
    + split; [reflexivity|]. split; [exact Hc|]. split; [|right; exact Hov].
      split; [|split; [|split]].
      * exists (String c EmptyString). split.
        -- rewrite HT, <- Hcat, !str_app_assoc. reflexivity.
        -- rewrite He1. discriminate.
      * exists (x +:+ y). rewrite Hy, Hx, str_app_assoc. reflexivity.
      * lia.
      * intros A. specialize (Hacc A). discriminate.
    + specialize (Hn eq_refl).
      split; [reflexivity|]. split; [exact Hc|].
      split; [|right; exact Hov].
      split; [|split; [|split]]; fields.
      * exists EmptyString. split; [|reflexivity].
        rewrite HT, <- Hcat, Hn, !string_app_empty_r. reflexivity.
      * exists (x +:+ y). rewrite Hy, Hx, str_app_assoc. reflexivity.
      * rewrite Hn. simpl. pose proof defaultBufSize_pos. lia.
      * intros _. exact He1.
  - apply Nat.leb_gt in Ea. unfold bufio_Available in Ea. fields.
    split; [reflexivity|]. split; [reflexivity|].
    split; [|left; auto].
    split; [|split; [|split]]; fields.
    + exists EmptyString. split; [|reflexivity].
      rewrite HT, !str_app_assoc, string_app_empty_r. reflexivity.
    + exists x. exact Hx.
    + rewrite str_length_app. simpl. lia.
    + intros _. exact He.
Qed.

(** [WriteString] over [S]: the string that fits, or the writer that
    keeps an error. *)
Lemma WriteString_done out fuel s u T :
  (bufio_Available u <? String.length s)
  && match bw_err u with None => true | Some _ => false end = false ->
  Held S out u T ->
  fst (bufio_WriteString_loop (sink := S) fuel s u) = Ok tt
  /\ ctl (snd (bufio_WriteString_loop (sink := S) fuel s u)) = ctl u
  /\ Held S out (snd (bufio_WriteString_loop (sink := S) fuel s u)) (T +:+ s)
  /\ Output (snd (bufio_WriteString_loop (sink := S) fuel s u)) = Output u
  /\ bw_err (snd (bufio_WriteString_loop (sink := S) fuel s u)) = bw_err u.
Proof.
  intros Hc H.
  assert (E : bufio_WriteString_loop (sink := S) fuel s u
              = match bw_err u with
                | Some _ => (Ok tt, u)
                | None => (Ok tt, set_bw (bw u +:+ s) u)
                end).
  { destruct fuel; cbn [bufio_WriteString_loop]; rewrite Hc; reflexivity. }
  rewrite E. clear E.
  destruct (bw_err u) as [e|] eqn:He; fields.
  { split; [reflexivity|]. split; [reflexivity|].
    split; [exact (Held_failed _ _ _ _ _ He H)|]. auto. }
  rewrite andb_true_r in Hc. apply Nat.ltb_ge in Hc. unfold bufio_Available in Hc.
  destruct H as ((rest & HT & Hr) & (x & Hx) & Hb & Ha).
  specialize (Hr He). subst rest. rewrite string_app_empty_r in HT.
  split; [reflexivity|]. split; [reflexivity|].
  split; [|auto].
  split; [|split; [|split]]; fields.
  - exists EmptyString. split; [|reflexivity].
    rewrite HT, !str_app_assoc, string_app_empty_r. reflexivity.
  - exists x. exact Hx.
  - rewrite str_length_app. lia.
  - intros _. exact He.
Qed.

Lemma WriteString_loop_held out fuel : forall s u T,
  String.length s < fuel
  \/ (String.length s <= fuel /\ 0 < bufio_Available u)
  \/ bw_err u <> None ->
  Held S out u T ->
  fst (bufio_WriteString_loop (sink := S) fuel s u) = Ok tt
  /\ ctl (snd (bufio_WriteString_loop (sink := S) fuel s u)) = ctl u
  /\ Held S out (snd (bufio_WriteString_loop (sink := S) fuel s u)) (T +:+ s)
  /\ ((Output (snd (bufio_WriteString_loop (sink := S) fuel s u)) = Output u
       /\ bw_err (snd (bufio_WriteString_loop (sink := S) fuel s u)) = bw_err u)
      \/ defaultBufSize < String.length (bw u) + String.length s).
Proof.
  induction fuel as [|fuel IH]; intros s u T Hf H.
  - assert (Hc : (bufio_Available u <? String.length s)
                 && match bw_err u with None => true | Some _ => false end = false).
    { destruct (bw_err u) eqn:He; [apply andb_false_r|].
      rewrite andb_true_r. apply Nat.ltb_ge.
      destruct Hf as [Hf|[[Hf _]|Hf]]; [lia|lia|congruence]. }
    destruct (WriteString_done out 0 s u T Hc H) as (R & C & Hh & O & E).
    auto 10.
  - destruct ((bufio_Available u <? String.length s)
              && match bw_err u with None => true | Some _ => false end) eqn:Hc.
    2:{ destruct (WriteString_done out (Datatypes.S fuel) s u T Hc H) as (R & C & Hh & O & E).
        auto 10. }
    apply andb_prop in Hc as [Hlt He].
    destruct (bw_err u) eqn:He'; [discriminate|]. clear He. rename He' into He.
    apply Nat.ltb_lt in Hlt.
    assert (Hov : defaultBufSize < String.length (bw u) + String.length s)
      by (unfold bufio_Available in Hlt; lia).
    destruct H as ((rest & HT & Hr) & (x & Hx) & Hb & Ha).
    specialize (Hr He). subst rest. rewrite string_app_empty_r in HT.
    cbn [bufio_WriteString_loop].
    assert (Hcond : (bufio_Available u <? String.length s)
                    && match bw_err u with None => true | Some _ => false end = true).
    { rewrite He, andb_true_r. apply Nat.ltb_lt. exact Hlt. }
    rewrite Hcond.
    destruct ((String.length (bw u) =? 0) && Output_StringWriter) eqn:Hdir.
    + (* the whole string goes to [Output] *)
      apply andb_prop in Hdir as [Hb0 _]. apply Nat.eqb_eq, str_length_0 in Hb0.
      unfold Output_put.
      pose proof (@Output_Write_short S (Output u) s) as Hs.
      assert (Hacc : accepts S -> @Output_Write S (Output u) s
                                 = (String.length s, None)) by (intros A; apply A).
      destruct (@Output_Write S (Output u) s) as [n err]. simpl in Hs.
      set (u1 := set_bw_err err (set_Output (Output u +:+ string_take n s) u)).
      assert (H1 : Held S out u1 (T +:+ string_take n s)).
      { split; [|split; [|split]]; unfold u1; fields.
        - exists EmptyString. split; [|reflexivity].
          rewrite HT, Hb0, !string_app_empty_r. reflexivity.
        - exists (x +:+ string_take n s). rewrite Hx, str_app_assoc. reflexivity.
        - rewrite Hb0. simpl. lia.
        - intros A. specialize (Hacc A). congruence. }
      assert (Hf1 : String.length (string_drop n s) < fuel
                    \/ (String.length (string_drop n s) <= fuel
                        /\ 0 < bufio_Available u1)
                    \/ bw_err u1 <> None).
      { destruct err as [e|]; [right; right; unfold u1; fields; discriminate|].
        right. left.
        assert (String.length s <= n).
        { destruct (Nat.le_gt_cases (String.length s) n) as [L|G]; [exact L|].
          exfalso. apply (Hs G). reflexivity. }
        rewrite str_length_drop. split; [lia|].
        unfold bufio_Available, u1. fields. rewrite Hb0. simpl.
        pose proof defaultBufSize_pos. lia. }
      destruct (IH (string_drop n s) u1 _ Hf1 H1) as (R & C & Hh & _).
      split; [exact R|]. split; [rewrite C; reflexivity|].
      split; [|right; exact Hov].
      rewrite str_app_assoc, str_take_drop in Hh. exact Hh.
    + (* the buffer is filled and flushed *)
      set (n := bufio_Available u).
      set (b2 := bw u +:+ string_take n s).
      destruct (flush (sink := S) (set_bw b2 u)) as [e' u1] eqn:Ef.
      destruct (flush_spec _ _ _ Ef He) as (Hc1 & He1 & Hcat & (y & Hy) & Hl & Hn & Hacc).
      cbn [snd]. revert Hcat Hy Hl. fields. intros Hcat Hy Hl.
      assert (Hb2 : String.length b2 <= defaultBufSize).
      { unfold b2. rewrite str_length_app.
        pose proof (str_length_take_le n s). unfold n, bufio_Available in *. lia. }
      assert (H1 : Held S out u1 (T +:+ string_take n s)).
      { split; [|split; [|split]].
        - exists EmptyString. split; [|reflexivity].
          rewrite HT, string_app_empty_r, Hcat. unfold b2.
          rewrite !str_app_assoc. reflexivity.
        - exists (x +:+ y). rewrite Hy, Hx, str_app_assoc. reflexivity.
        - lia.
        - intros A. rewrite He1. apply Hacc, A. }
      assert (Hf1 : String.length (string_drop n s) < fuel
                    \/ (String.length (string_drop n s) <= fuel
                        /\ 0 < bufio_Available u1)
                    \/ bw_err u1 <> None).
      { destruct e' as [e|]; [right; right; rewrite He1; discriminate|].
        right. left. rewrite (Hn eq_refl) in *.
        rewrite str_length_drop. unfold bufio_Available. rewrite (Hn eq_refl). simpl.
        pose proof defaultBufSize_pos.
        split; [|lia].
        destruct Hf as [Hf|[[Hf Hav]|Hf]]; [lia| |congruence].
        fold n in Hav. lia. }
      destruct (IH (string_drop n s) u1 _ Hf1 H1) as (R & C & Hh & _).
      split; [exact R|]. split; [rewrite C; exact Hc1|].
      split; [|right; exact Hov].
      rewrite str_app_assoc, str_take_drop in Hh. exact Hh.
Qed.

Lemma WriteString_held out s u T :
  Held S out u T ->
  fst (bufio_WriteString (sink := S) s u) = Ok tt
  /\ ctl (snd (bufio_WriteString (sink := S) s u)) = ctl u
  /\ Held S out (snd (bufio_WriteString (sink := S) s u)) (T +:+ s)
  /\ ((Output (snd (bufio_WriteString (sink := S) s u)) = Output u
       /\ bw_err (snd (bufio_WriteString (sink := S) s u)) = bw_err u)
      \/ defaultBufSize < String.length (bw u) + String.length s).
Proof. apply WriteString_loop_held. left. lia. Qed.

(** *** Side by side *)

Lemma ctl_fields u v :
  ctl u = ctl v ->
  Context u = Context v /\ once u = once v /\ atEOL u = atEOL v
  /\ depth u = depth v /\ scopes u = scopes v /\ pkg u = pkg v /\ std u = std v.
Proof. unfold ctl. intros H. injection H as -> -> -> -> -> -> ->. auto 10. Qed.

Ltac ctl_rewrite :=
  let u := fresh "u" in
  let v := fresh "v" in
  let Hc := fresh "Hc" in
  intros u v Hc;
  destruct (ctl_fields u v Hc) as (?H & ?H & ?H & ?H & ?H & ?H & ?H);
  repeat match goal with
         | H : ?f u = ?f v |- _ => rewrite ?H; clear H
         end;
  reflexivity.

Ltac ctl_modify :=
  let u := fresh "u" in
  let v := fresh "v" in
  let Hc := fresh "Hc" in
  intros u v Hc;
  destruct (ctl_fields u v Hc) as (?H & ?H & ?H & ?H & ?H & ?H & ?H);
  unfold ctl; fields; congruence.

Lemma Rel_ctl out u v : Rel S out u v -> ctl u = ctl v.
Proof. intros H. apply H. Qed.

Lemma Sim_ret {A} (a : A) : Sim S (ret a) (ret a).
Proof. intros out u v H. split; [reflexivity|exact H]. Qed.

Lemma Sim_lift {A} (r : res A) : Sim S (lift r) (lift r).
Proof. intros out u v H. split; [reflexivity|exact H]. Qed.

Lemma Sim_panic {A} (p : panic_value) : Sim S (panic (A := A) p) (panic p).
Proof. intros out u v H. split; [reflexivity|exact H]. Qed.

Lemma Sim_bind {A B} (mS mP : M A) (kS kP : A -> M B) :
  Sim S mS mP -> (forall a, Sim S (kS a) (kP a)) -> Sim S (bind mS kS) (bind mP kP).
Proof.
  intros Hm Hk out u v H. unfold bind.
  destruct (Hm out u v H) as [Hr Hrel].
  destruct (mS u) as [rS u'], (mP v) as [rP v']. simpl in Hr, Hrel. subst rP.
  destruct rS as [a| |]; [apply Hk; exact Hrel| |]; split; auto.
Qed.

Lemma Sim_get {B} (kS kP : Writer -> M B) :
  (forall w, Sim S (kS w) (kP w)) ->
  (forall u v, ctl u = ctl v -> kP u = kP v) ->
  Sim S (bind get kS) (bind get kP).
Proof.
  intros Hk Hsame out u v H. unfold bind, get.
  rewrite <- (Hsame u v (Rel_ctl _ _ _ H)). apply Hk, H.
Qed.

Lemma Sim_modify (f : Writer -> Writer) :
  (forall w, Output (f w) = Output w /\ bw (f w) = bw w /\ bw_err (f w) = bw_err w) ->
  (forall u v, ctl u = ctl v -> ctl (f u) = ctl (f v)) ->
  Sim S (modify f) (modify f).
Proof.
  intros Hch Hctl out u v (Hc & He & Hh & Hu). split; [reflexivity|].
  unfold modify. fields.
  destruct (Hch u) as (O1 & B1 & E1), (Hch v) as (O2 & B2 & E2).
  assert (Hem : emitted (chan (f v)) = emitted (chan v)).
  { unfold emitted, chan. fields. rewrite O2, B2. reflexivity. }
  split; [apply Hctl, Hc|]. split; [congruence|]. rewrite Hem.
  split.
  - unfold Held in *. rewrite O1, B1, E1. exact Hh.
  - unfold Untried in *. rewrite O1, E1. exact Hu.
Qed.

Lemma Sim_forM_ {A} (fS fP : A -> M unit) l :
  (forall x, Sim S (fS x) (fP x)) -> Sim S (forM_ fS l) (forM_ fP l).
Proof.
  intros Hf. induction l as [|x l IH]; cbn [forM_].
  - apply Sim_ret.
  - apply Sim_bind; [apply Hf|intros _; exact IH].
Qed.

Lemma Sim_forMi_ {A} (fS fP : nat -> A -> M unit) l :
  (forall i x, Sim S (fS i x) (fP i x)) -> forall i, Sim S (forMi_ fS i l) (forMi_ fP i l).
Proof.
  intros Hf. induction l as [|x l IH]; intros i; cbn [forMi_].
  - apply Sim_ret.
  - apply Sim_bind; [apply Hf|intros _; apply IH].
Qed.

Lemma Sim_mapMi {A B} (fS fP : nat -> A -> M B) l :
  (forall i x, Sim S (fS i x) (fP i x)) -> forall i, Sim S (mapMi fS i l) (mapMi fP i l).
Proof.
  intros Hf. induction l as [|x l IH]; intros i; cbn [mapMi].
  - apply Sim_ret.
  - apply Sim_bind; [apply Hf|intros y].
    apply Sim_bind; [apply IH|intros ys]. apply Sim_ret.
Qed.

(** *** The buffered writer, side by side *)

Lemma ctl_with_chan ch v : ctl (with_chan ch v) = ctl v.
Proof. reflexivity. Qed.

Lemma Untried_after out u u' T s :
  Held S out u T -> Untried out u T ->
  (Output u' = Output u /\ bw_err u' = bw_err u)
  \/ defaultBufSize < String.length (bw u) + String.length s ->
  Untried out u' (T +:+ s).
Proof.
  intros ((rest & HT & _) & (x & Hx) & _) Hu [[Ho He]|Hov].
  - destruct Hu as [[Hu1 Hu2]|Hu].
    + left. split; congruence.
    + right. rewrite str_length_app. lia.
  - right. rewrite HT, Hx, !str_length_app. lia.
Qed.

Lemma Sim_WriteByte c :
  Sim S (bufio_WriteByte (sink := S) c) (bufio_WriteByte (sink := plain_sink) c).
Proof.
  intros out u v (Hc & He & Hh & Hu).
  destruct (WriteByte_held out c u _ Hh) as (R & C & Hh' & Ht).
  rewrite bufio_WriteByte_chan. fields.
  split; [exact R|].
  assert (Hem : emitted (chan (with_chan (chan_byte c (chan v)) v))
                = emitted (chan v) +:+ String c EmptyString).
  { rewrite chan_with_chan. apply emitted_chan_byte. exact He. }
  split; [rewrite C; exact Hc|]. split.
  - change (snd (chan (with_chan (chan_byte c (chan v)) v)) = None).
    rewrite chan_with_chan. apply chan_byte_sound. exact He.
  - rewrite Hem. split; [exact Hh'|].
    apply (Untried_after out u _ _ (String c EmptyString) Hh Hu). exact Ht.
Qed.

Lemma Sim_WriteString s :
  Sim S (bufio_WriteString (sink := S) s) (bufio_WriteString (sink := plain_sink) s).
Proof.
  intros out u v (Hc & He & Hh & Hu).
  destruct (WriteString_held out s u _ Hh) as (R & C & Hh' & Ht).
  rewrite bufio_WriteString_chan. fields.
  split; [exact R|].
  assert (Hem : emitted (chan (with_chan (chan_write s (chan v)) v))
                = emitted (chan v) +:+ s).
  { rewrite chan_with_chan. apply emitted_chan_write. exact He. }
  split; [rewrite C; exact Hc|]. split.
  - change (snd (chan (with_chan (chan_write s (chan v)) v)) = None).
    rewrite chan_with_chan. apply chan_write_sound. exact He.
  - rewrite Hem. split; [exact Hh'|].
    apply (Untried_after out u _ _ s Hh Hu). exact Ht.
Qed.

(** *** The generator, side by side *)

Create HintDb sim discriminated.

Ltac sim_base :=
  cbv beta;
  lazymatch goal with
  | |- Sim _ (ret _) (ret _) => apply Sim_ret
  | |- Sim _ (lift _) (lift _) => apply Sim_lift
  | |- Sim _ (panic _) (panic _) => apply Sim_panic
  | |- Sim _ (bufio_WriteByte _) (bufio_WriteByte _) => apply Sim_WriteByte
  | |- Sim _ (bufio_WriteString _) (bufio_WriteString _) => apply Sim_WriteString
  | |- Sim _ (modify _) (modify _) =>
      apply Sim_modify; [intros ?; repeat split|ctl_modify]
  | |- Sim _ (bind get _) (bind get _) => apply Sim_get; [intro|ctl_rewrite]
  | |- Sim _ (bind _ _) (bind _ _) => apply Sim_bind; [|intro]
  | |- Sim _ (forM_ _ _) (forM_ _ _) => apply Sim_forM_; intro
  | |- Sim _ (forMi_ _ _ _) (forMi_ _ _ _) => apply Sim_forMi_; intros
  | |- Sim _ (mapMi _ _ _) (mapMi _ _ _) => apply Sim_mapMi; intros
  | |- Sim _ (if ?b then _ else _) _ => destruct b
  | |- Sim _ (match ?x with _ => _ end) _ => destruct x
  | |- Sim _ _ _ => solve [auto with sim]
  end.

Lemma Sim_newScope (fS fP : M unit) :
  Sim S fS fP -> Sim S (newScope fS) (newScope fP).
Proof. intros H. unfold newScope. repeat sim_base. Qed.

Lemma Sim_block (fS fP : M unit) :
  Sim S fS fP -> Sim S (block fS) (block fP).
Proof.
  intros H. unfold block.
  sim_base; [sim_base|]. sim_base; [apply Sim_newScope, H|]. sim_base.
Qed.

Ltac sim_step :=
  lazymatch goal with
  | |- Sim _ (newScope _) (newScope _) => apply Sim_newScope
  | |- Sim _ (block _) (block _) => apply Sim_block
  | |- _ => sim_base
  end.

Ltac sim := repeat sim_step.

Ltac sim_rec IH := sim; apply IH; left; reflexivity.

Lemma Sim_code args : Sim S (code (sink := S) args) (code (sink := plain_sink) args).
Proof. unfold code. sim. Qed.
#[local] Hint Resolve Sim_code : sim.

Lemma Sim_line args : Sim S (line (sink := S) args) (line (sink := plain_sink) args).
Proof. unfold line. sim. Qed.
#[local] Hint Resolve Sim_line : sim.

Lemma Sim_Back : Sim S Back Back.
Proof. unfold Back. sim. Qed.
#[local] Hint Resolve Sim_Back : sim.

Lemma Sim_set x l : Sim S (set x l) (set x l).
Proof.
  intros out u v (Hc & He & Hh & Hu).
  destruct (ctl_fields u v Hc) as (H1 & H2 & H3 & H4 & H5 & H6 & H7).
  unfold set. rewrite H5.
  destruct (scopes v) as [|s rest] eqn:Hs.
  - split; [reflexivity|]. exact (conj Hc (conj He (conj Hh Hu))).
  - destruct (scope_set x l s) as [ok s']. fields.
    split; [reflexivity|]. split; [|split; [exact He|split; [exact Hh|exact Hu]]].
    unfold ctl. fields. congruence.
Qed.
#[local] Hint Resolve Sim_set : sim.

Lemma Sim_isGlobalScope : Sim S isGlobalScope isGlobalScope.
Proof. unfold isGlobalScope. sim. Qed.
#[local] Hint Resolve Sim_isGlobalScope : sim.

Lemma Sim_mustDeclare name l : Sim S (mustDeclare name l) (mustDeclare name l).
Proof. unfold mustDeclare. sim. Qed.
#[local] Hint Resolve Sim_mustDeclare : sim.

Lemma Sim_declare_loop name l fuel : forall i,
  Sim S (declare_loop fuel i name l) (declare_loop fuel i name l).
Proof.
  induction fuel as [|fuel IH]; intros i; cbn [declare_loop]; [sim|].
  destruct (token_IsKeyword _); [apply IH|].
  sim; apply IH.
Qed.
#[local] Hint Resolve Sim_declare_loop : sim.

Lemma Sim_declare name l : Sim S (declare name l) (declare name l).
Proof.
  unfold declare. sim_step; [sim|]. sim_step; [sim|].
  apply Sim_get; [intros w; apply Sim_declare_loop|].
  unfold declare_rounds. ctl_rewrite.
Qed.
#[local] Hint Resolve Sim_declare : sim.

Lemma Sim_capture vs l : Sim S (capture vs l) (capture vs l).
Proof. unfold capture. sim. Qed.
#[local] Hint Resolve Sim_capture : sim.

Lemma Sim_ensureStdLibMapping : Sim S ensureStdLibMapping ensureStdLibMapping.
Proof. unfold ensureStdLibMapping. sim. Qed.
#[local] Hint Resolve Sim_ensureStdLibMapping : sim.

Lemma Sim_isStdLib path : Sim S (isStdLib path) (isStdLib path).
Proof. unfold isStdLib. sim. Qed.
#[local] Hint Resolve Sim_isStdLib : sim.

Lemma Sim_importDeps_less d0 d1 : Sim S (importDeps_less d0 d1) (importDeps_less d0 d1).
Proof. unfold importDeps_less. sim. Qed.
#[local] Hint Resolve Sim_importDeps_less : sim.

Lemma Sim_sort_insert x l :
  Sim S (sort_insert importDeps_less x l) (sort_insert importDeps_less x l).
Proof. induction l as [|y l IH]; cbn [sort_insert]; sim. Qed.
#[local] Hint Resolve Sim_sort_insert : sim.

Lemma Sim_sort_Slice l :
  Sim S (sort_Slice importDeps_less l) (sort_Slice importDeps_less l).
Proof. induction l as [|x l IH]; cbn [sort_Slice]; sim. Qed.
#[local] Hint Resolve Sim_sort_Slice : sim.

Lemma Sim_importDeps_lines deps : forall lastStd,
  Sim S (importDeps_lines (sink := S) lastStd deps)
        (importDeps_lines (sink := plain_sink) lastStd deps).
Proof.
  induction deps as [|d deps IH]; intros lastStd; cbn [importDeps_lines]; sim;
    try apply IH.
Qed.
#[local] Hint Resolve Sim_importDeps_lines : sim.

Lemma Sim_importDeps deps :
  Sim S (importDeps (sink := S) deps) (importDeps (sink := plain_sink) deps).
Proof. unfold importDeps. cbv zeta. sim. Qed.
#[local] Hint Resolve Sim_importDeps : sim.

Lemma Sim_index l i : Sim S (index l i) (index l i).
Proof. unfold index. sim. Qed.
#[local] Hint Resolve Sim_index : sim.

Lemma Sim_typeString t : Sim S (typeString t) (typeString t).
Proof. unfold typeString. sim. Qed.
#[local] Hint Resolve Sim_typeString : sim.

Lemma Sim_call args : Sim S (call (sink := S) args) (call (sink := plain_sink) args).
Proof. unfold call. sim. Qed.
#[local] Hint Resolve Sim_call : sim.

Lemma Sim_funcParam p :
  Sim S (funcParam (sink := S) p) (funcParam (sink := plain_sink) p).
Proof. unfold funcParam. sim. Qed.
#[local] Hint Resolve Sim_funcParam : sim.

Lemma Sim_funcParams ps :
  Sim S (funcParams (sink := S) ps) (funcParams (sink := plain_sink) ps).
Proof. unfold funcParams. sim. Qed.
#[local] Hint Resolve Sim_funcParams : sim.

Lemma Sim_funcParamSign p :
  Sim S (funcParamSign (sink := S) p) (funcParamSign (sink := plain_sink) p).
Proof. unfold funcParamSign. sim. Qed.
#[local] Hint Resolve Sim_funcParamSign : sim.

Lemma results_loop_Sim (fS fP : Func -> M unit) results :
  (forall x, List.In (ResFunc x) results -> Sim S (fS x) (fP x)) ->
  Sim S ((fix results_loop (rs : list FuncResult) : M unit :=
            match rs with
            | [] => ret tt
            | ResFunc x :: rs' => fS x ;; results_loop rs'
            | ResTrace x :: rs' => code (sink := S) [TName x; " "] ;; results_loop rs'
            end) results)
        ((fix results_loop (rs : list FuncResult) : M unit :=
            match rs with
            | [] => ret tt
            | ResFunc x :: rs' => fP x ;; results_loop rs'
            | ResTrace x :: rs' =>
              code (sink := plain_sink) [TName x; " "] ;; results_loop rs'
            end) results).
Proof.
  induction results as [|[x|t] rs IHrs]; intros IH.
  - apply Sim_ret.
  - apply Sim_bind; [apply IH; left; reflexivity|intros _].
    apply IHrs. intros y Hy. apply IH. right. exact Hy.
  - apply Sim_bind; [apply Sim_code|intros _].
    apply IHrs. intros y Hy. apply IH. right. exact Hy.
Qed.

Lemma Sim_funcSignatureFlags fl : forall fn,
  Sim S (funcSignatureFlags (sink := S) fn fl)
        (funcSignatureFlags (sink := plain_sink) fn fl).
Proof.
  apply Func_induction. intros params results IH.
  cbn [funcSignatureFlags]. sim;
    apply (results_loop_Sim (fun x => funcSignatureFlags (sink := S) x fl)
                            (fun x => funcSignatureFlags (sink := plain_sink) x fl));
    exact IH.
Qed.
#[local] Hint Resolve Sim_funcSignatureFlags : sim.

Lemma Sim_funcResultsFlags fn fl :
  Sim S (funcResultsFlags (sink := S) fn fl) (funcResultsFlags (sink := plain_sink) fn fl).
Proof. unfold funcResultsFlags. sim. Qed.
#[local] Hint Resolve Sim_funcResultsFlags : sim.

Lemma Sim_funcResults fn :
  Sim S (funcResults (sink := S) fn) (funcResults (sink := plain_sink) fn).
Proof. unfold funcResults. sim. Qed.
#[local] Hint Resolve Sim_funcResults : sim.

Lemma Sim_funcSignature fn :
  Sim S (funcSignature (sink := S) fn) (funcSignature (sink := plain_sink) fn).
Proof. unfold funcSignature. sim. Qed.
#[local] Hint Resolve Sim_funcSignature : sim.

Lemma Sim_zeroReturn : forall fn,
  Sim S (zeroReturn (sink := S) fn) (zeroReturn (sink := plain_sink) fn).
Proof.
  apply Func_induction. intros params results IH.
  cbn [zeroReturn]. destruct results as [|[x|t] rs]; sim_rec IH.
Qed.
#[local] Hint Resolve Sim_zeroReturn : sim.

Lemma Sim_isZero trace :
  Sim S (isZero (sink := S) trace) (isZero (sink := plain_sink) trace).
Proof. unfold isZero. sim. Qed.
#[local] Hint Resolve Sim_isZero : sim.

Lemma Sim_composeHookCall : forall fn h1 h2,
  Sim S (composeHookCall (sink := S) fn h1 h2)
        (composeHookCall (sink := plain_sink) fn h1 h2).
Proof.
  apply (Func_induction (fun fn => forall h1 h2,
           Sim S (composeHookCall (sink := S) fn h1 h2)
                 (composeHookCall (sink := plain_sink) fn h1 h2))).
  intros params results IH h1 h2.
  cbn [composeHookCall]. sim_rec IH.
Qed.
#[local] Hint Resolve Sim_composeHookCall : sim.

Lemma Sim_composeHook h t1 t2 dst :
  Sim S (composeHook (sink := S) h t1 t2 dst) (composeHook (sink := plain_sink) h t1 t2 dst).
Proof. unfold composeHook. sim. Qed.
#[local] Hint Resolve Sim_composeHook : sim.

Lemma Sim_compose trace :
  Sim S (compose (sink := S) trace) (compose (sink := plain_sink) trace).
Proof. unfold compose. sim. Qed.
#[local] Hint Resolve Sim_compose : sim.

Lemma Sim_options trace :
  Sim S (options (sink := S) trace) (options (sink := plain_sink) trace).
Proof. unfold options. sim. Qed.
#[local] Hint Resolve Sim_options : sim.

Lemma Sim_hookFuncCall : forall fn name args,
  Sim S (hookFuncCall (sink := S) fn name args)
        (hookFuncCall (sink := plain_sink) fn name args).
Proof.
  apply (Func_induction (fun fn => forall name args,
           Sim S (hookFuncCall (sink := S) fn name args)
                 (hookFuncCall (sink := plain_sink) fn name args))).
  intros params results IH name args.
  cbn [hookFuncCall]. sim_rec IH.
Qed.
#[local] Hint Resolve Sim_hookFuncCall : sim.

Lemma Sim_hook trace h :
  Sim S (hook (sink := S) trace h) (hook (sink := plain_sink) trace h).
Proof. unfold hook. sim. Qed.
#[local] Hint Resolve Sim_hook : sim.

Lemma Sim_declareParams src : Sim S (declareParams src) (declareParams src).
Proof. unfold declareParams. sim. Qed.
#[local] Hint Resolve Sim_declareParams : sim.

Lemma Sim_constructStruct_fields p s : forall vars,
  Sim S (constructStruct_fields (sink := S) p s vars)
        (constructStruct_fields (sink := plain_sink) p s vars).
Proof.
  induction s as [|[fname ftype] s IH]; intros vars; cbn [constructStruct_fields].
  - sim.
  - sim; apply IH.
Qed.
#[local] Hint Resolve Sim_constructStruct_fields : sim.

Lemma Sim_constructStruct n s vars :
  Sim S (constructStruct (sink := S) n s vars)
        (constructStruct (sink := plain_sink) n s vars).
Proof. unfold constructStruct. sim. Qed.
#[local] Hint Resolve Sim_constructStruct : sim.

Lemma Sim_constructParams params : forall names,
  Sim S (constructParams (sink := S) params names)
        (constructParams (sink := plain_sink) params names).
Proof.
  induction params as [|p params IH]; intros names; cbn [constructParams].
  - sim.
  - sim; try apply IH.
Qed.
#[local] Hint Resolve Sim_constructParams : sim.

Lemma Sim_shortcutFuncSignFlags fl : forall fn,
  Sim S (shortcutFuncSignFlags (sink := S) fn fl)
        (shortcutFuncSignFlags (sink := plain_sink) fn fl).
Proof.
  apply Func_induction. intros params results IH.
  cbn [shortcutFuncSignFlags]. sim;
    apply (results_loop_Sim (fun x => shortcutFuncSignFlags (sink := S) x fl)
                            (fun x => shortcutFuncSignFlags (sink := plain_sink) x fl));
    exact IH.
Qed.
#[local] Hint Resolve Sim_shortcutFuncSignFlags : sim.

Lemma Sim_shortcutFuncResultsFlags fn fl :
  Sim S (shortcutFuncResultsFlags (sink := S) fn fl)
        (shortcutFuncResultsFlags (sink := plain_sink) fn fl).
Proof. unfold shortcutFuncResultsFlags. sim. Qed.
#[local] Hint Resolve Sim_shortcutFuncResultsFlags : sim.

Lemma Sim_shortcutFuncResults fn :
  Sim S (shortcutFuncResults (sink := S) fn) (shortcutFuncResults (sink := plain_sink) fn).
Proof. unfold shortcutFuncResults. sim. Qed.
#[local] Hint Resolve Sim_shortcutFuncResults : sim.

Lemma Sim_hookFuncShortcut : forall fn name,
  Sim S (hookFuncShortcut (sink := S) fn name)
        (hookFuncShortcut (sink := plain_sink) fn name).
Proof.
  apply (Func_induction (fun fn => forall name,
           Sim S (hookFuncShortcut (sink := S) fn name)
                 (hookFuncShortcut (sink := plain_sink) fn name))).
  intros params results IH name.
  cbn [hookFuncShortcut]. sim_rec IH.
Qed.
#[local] Hint Resolve Sim_hookFuncShortcut : sim.

Lemma Sim_hookShortcut_func trace h name :
  Sim S (hookShortcut_func (sink := S) trace h name)
        (hookShortcut_func (sink := plain_sink) trace h name).
Proof. unfold hookShortcut_func. sim. Qed.
#[local] Hint Resolve Sim_hookShortcut_func : sim.

Lemma Sim_hookShortcut trace h :
  Sim S (hookShortcut (sink := S) trace h) (hookShortcut (sink := plain_sink) trace h).
Proof. unfold hookShortcut. sim. Qed.
#[local] Hint Resolve Sim_hookShortcut : sim.

Lemma Sim_Write_func p :
  Sim S (Write_func (sink := S) p) (Write_func (sink := plain_sink) p).
Proof. unfold Write_func. sim. Qed.
#[local] Hint Resolve Sim_Write_func : sim.

Lemma Sim_Write_tail p : Sim S (Write_tail S p) (Write_tail plain_sink p).
Proof. unfold Write_tail. sim. Qed.

(** *** A whole run over any sink *)

Lemma bind_assoc {A B C} (m : M A) (k : A -> M B) (h : B -> M C) w :
  bind (bind m k) h w = bind m (fun a => bind (k a) h) w.
Proof. unfold bind. destruct (m w) as [[a| |] w']; reflexivity. Qed.

Lemma bind_cong {A B} (m : M A) (k1 k2 : A -> M B) w :
  (forall a w', k1 a w' = k2 a w') -> bind m k1 w = bind m k2 w.
Proof. intros H. unfold bind. destruct (m w) as [[a| |] w']; auto. Qed.

Lemma Write_tail_eq (p : Package) w :
  Write (sink := S) p w
  = (Write_tail S p ;; bufio_Flush (sink := S)) (prepared (Package_ p) w).
Proof.
  unfold Write. unfold bind at 1, modify. unfold bind at 1.
  assert (Hinit : init (set_pkg (Package_ p) w) = (Ok tt, prepared (Package_ p) w)).
  { unfold init, bind, get, prepared. simpl. destruct (once w); reflexivity. }
  rewrite Hinit. unfold Write_tail.
  repeat (rewrite bind_assoc; apply bind_cong; intros ? ?).
  reflexivity.
Qed.

Lemma str_app_inv_head (a b c : string) : a +:+ b = a +:+ c -> b = c.
Proof.
  induction a as [|x a IH]; intros H; [exact H|].
  apply IH. injection H. auto.
Qed.

Lemma Rel_start out ctx P :
  Rel S out (prepared P (NewWriter out ctx)) (prepared P (NewWriter out ctx)).
Proof.
  split; [reflexivity|]. split; [reflexivity|]. split.
  - split; [|split; [|split]]; cbn.
    + exists EmptyString. split; reflexivity.
    + exists EmptyString. rewrite string_app_empty_r. reflexivity.
    + lia.
    + reflexivity.
  - left. split; reflexivity.
Qed.

(** The two runs up to the final flush. *)
Lemma Write_tail_sides (p : Package) (out : string) (ctx : build_Context) :
  let w0 := prepared (Package_ p) (NewWriter out ctx) in
  fst (Write_tail S p w0) = fst (Write_tail plain_sink p w0)
  /\ Rel S out (snd (Write_tail S p w0)) (snd (Write_tail plain_sink p w0)).
Proof. apply Sim_Write_tail, Rel_start. Qed.


(** X24: over a sink that takes every write, string writer or not, a run
    of [Write] ends as it does over [plain_sink], with the same text in
    [Output] and buffer taken together; and when it returns, with the same
    [Output] and an empty buffer. *)
Theorem Write_over_accepting_sink (p : Package) (out : string) (ctx : build_Context) :
  accepts S ->
  fst (Write (sink := S) p (NewWriter out ctx))
  = fst (Write (sink := plain_sink) p (NewWriter out ctx))
  /\ Output (snd (Write (sink := S) p (NewWriter out ctx)))
     +:+ bw (snd (Write (sink := S) p (NewWriter out ctx)))
     = emitted (chan (snd (Write (sink := plain_sink) p (NewWriter out ctx))))
  /\ (forall e, fst (Write (sink := S) p (NewWriter out ctx)) = Ok e ->
        e = None
        /\ Output (snd (Write (sink := S) p (NewWriter out ctx)))
           = Output (snd (Write (sink := plain_sink) p (NewWriter out ctx)))
        /\ bw (snd (Write (sink := S) p (NewWriter out ctx))) = EmptyString).
Proof.
  intros A.
  destruct (Write_tail_sides p out ctx) as [Hfst Hrel]. cbv zeta in Hfst, Hrel.
  set (w0 := prepared (Package_ p) (NewWriter out ctx)) in *.
  pose proof (Write_tail_eq p (NewWriter out ctx)) as ES. fold w0 in ES.
  assert (EP : Write (sink := plain_sink) p (NewWriter out ctx)
               = (Write_tail plain_sink p ;; bufio_Flush (sink := plain_sink)) w0).
  { clear. unfold Write. unfold bind at 1, modify. unfold bind at 1.
    assert (Hinit : init (set_pkg (Package_ p) (NewWriter out ctx))
                    = (Ok tt, prepared (Package_ p) (NewWriter out ctx))) by reflexivity.
    rewrite Hinit. unfold Write_tail.
    repeat (rewrite bind_assoc; apply bind_cong; intros ? ?).
    reflexivity. }
  unfold bind in ES, EP.
  destruct (Write_tail S p w0) as [rS uS].
  destruct (Write_tail plain_sink p w0) as [rP vP].
  simpl in Hfst, Hrel. subst rP.
  destruct Hrel as (Hc & HeP & ((rest & HT & Hr) & Hx & Hb & Ha) & Hu).
  specialize (Ha A). specialize (Hr Ha). subst rest.
  rewrite string_app_empty_r in HT.
  destruct rS as [[]| |].
  - rewrite bufio_Flush_plain, HeP in EP.
    unfold bufio_Flush in ES.
    destruct (flush (sink := S) uS) as [e' u'] eqn:Ef.
    destruct (flush_spec _ _ _ Ef Ha) as (_ & He1 & Hcat & _ & _ & Hn & Hacc).
    rewrite (Hacc A) in *. specialize (Hn eq_refl).
    rewrite ES, EP. cbn [fst snd].
    assert (Ho : Output u' = Output (flushed vP)).
    { rewrite Hn, string_app_empty_r in Hcat. rewrite Hcat, <- HT. reflexivity. }
    split; [reflexivity|]. split.
    + rewrite Hn, string_app_empty_r, Ho. unfold emitted, chan, flushed. cbn.
      rewrite string_app_empty_r. reflexivity.
    + intros e E. inversion E; subst. auto.
  - rewrite ES, EP. cbn [fst snd]. split; [reflexivity|]. split; [auto|].
    intros e E. discriminate.
  - rewrite ES, EP. cbn [fst snd]. split; [reflexivity|]. split; [auto|].
    intros e E. discriminate.
Qed.

End Sinks.

End Properties.

(** * The statements on concrete inputs *)

#[local] Existing Instance ascii_host.

(** C8 on ["x"] in an empty scope: the second [mustDeclare] reports the
    line of the first. *)
Lemma mustDeclare_HardCollision_witness :
  scopes in_package = [empty_scope]
  /\ (mustDeclare "x" 88 ;; mustDeclare "x" 90) in_package
     = (Panic (CantDeclare "x" (callsite 88)),
        set_scopes [declared "x" 88 empty_scope] in_package).
Proof.
  split; [reflexivity|].
  destruct (mustDeclare_HardCollision "x" 88 90 in_package empty_scope [] eq_refl)
    as [H _].
  destruct (H eq_refl) as (_ & H2 & _). exact H2.
Defined.

(** C9 on the predeclared ["error"]. *)
Lemma declare_predeclared_firstChar_witness :
  isPredeclared "error" = true
  /\ scopes in_package = [empty_scope]
  /\ exists c j,
       firstChar "error" = Ok c
       /\ c = string_take 1 "error"
       /\ (forall k, k < j -> blocked in_package (candidate c k) = true)
       /\ blocked in_package (candidate c j) = false
       /\ declare "error" 541 in_package
          = (Ok (candidate c j),
             set_scopes [declared (candidate c j) 541 empty_scope] in_package).
Proof.
  split; [reflexivity|]. split; [reflexivity|].
  apply (declare_predeclared_firstChar "error" 541 in_package empty_scope []);
    reflexivity.
Defined.

(** C2 on ["t"], declared twice in one scope. *)
Lemma declare_numeric_suffix_witness :
  scopes in_package = [empty_scope]
  /\ isPredeclared "t" = false
  /\ fst ((a <- declare "t" 314 ;; b <- declare "t" 315 ;; ret (a, b)) in_package)
     = Ok ("t", "t" +:+ "1").
Proof.
  split; [reflexivity|]. split; [reflexivity|].
  destruct (declare_numeric_suffix "t" 314 315 in_package empty_scope []
              eq_refl eq_refl) as (_ & _ & H & _).
  apply H; reflexivity.
Defined.

(** C2 as the specification words it fails: the second ["t"] of a scope is
    ["t1"], not ["t0"]. *)
Lemma declare_twice_suffix_one :
  fst ((a <- declare "t" 314 ;; b <- declare "t" 315 ;; ret (a, b)) in_package)
  = Ok ("t", "t1")
  /\ fst ((a <- declare "t" 314 ;; b <- declare "t" 315 ;; ret (a, b)) in_package)
     <> Ok ("t", "t0").
Proof. split; [vm_compute; reflexivity|vm_compute; discriminate]. Qed.

(** C4 on the three packages of the specification's example, one of them
    referenced twice. *)
Lemma importDeps_sorted_block_witness :
  std_ok example_goroot (toplevel quiet_pkg go_ctx)
  /\ emitted (chan (snd (importDeps three_deps (toplevel quiet_pkg go_ctx))))
     = line_text true 0 ["import ("]
       +:+ path_lines 0 ["stdA"]
       +:+ line_text true 0 []
       +:+ path_lines 0 ["pkgA"; "pkgB"]
       +:+ line_text true 0 [")"]
       +:+ line_text true 0 []
  /\ exists stds exts : list string,
       StronglySorted str_lt stds
       /\ StronglySorted str_lt exts
       /\ List.NoDup (stds ++ exts)
       /\ (forall p, List.In p stds <->
              List.In p (map pkgPath three_deps)
              /\ classify (stdlib_table example_goroot ∅) p = true)
       /\ (forall p, List.In p exts <->
              List.In p (map pkgPath three_deps)
              /\ classify (stdlib_table example_goroot ∅) p = false)
       /\ fst (importDeps three_deps (toplevel quiet_pkg go_ctx)) = Ok tt.
Proof.
  assert (Hok : std_ok example_goroot (toplevel quiet_pkg go_ctx))
    by (split; [reflexivity|left; reflexivity]).
  split; [exact Hok|]. split; [vm_compute; reflexivity|].
  destruct (importDeps_sorted_block example_goroot three_deps
              (toplevel quiet_pkg go_ctx) Hok)
    as (stds & exts & S1 & S2 & N & I1 & I2 & E).
  exists stds, exts. rewrite E. auto 10.
Defined.

(** C6 on [example_package]. *)
Lemma Write_layout_witness :
  Write example_package (NewWriter EmptyString go_ctx) = (Ok None, snd run_example)
  /\ exists imports body shortcuts,
       Output (snd run_example)
       = header_text example_package +:+ imports +:+ body +:+ shortcuts.
Proof.
  assert (H : Write example_package (NewWriter EmptyString go_ctx)
              = (Ok None, snd run_example)) by (vm_compute; reflexivity).
  split; [exact H|].
  do 3 eexists.
  exact (Write_layout example_package EmptyString go_ctx _ H).
Defined.

(** C7 on two writers that differ in what [Output] already holds. *)
Lemma Write_reproducible_witness :
  idle (NewWriter EmptyString go_ctx)
  /\ idle (NewWriter "// an earlier file" go_ctx)
  /\ fst (Write example_package (NewWriter EmptyString go_ctx))
     = fst (Write example_package (NewWriter "// an earlier file" go_ctx)).
Proof.
  assert (H1 : idle (NewWriter EmptyString go_ctx))
    by (split; [reflexivity|split; [reflexivity|split; [reflexivity|left; reflexivity]]]).
  assert (H2 : idle (NewWriter "// an earlier file" go_ctx))
    by (split; [reflexivity|split; [reflexivity|split; [reflexivity|left; reflexivity]]]).
  split; [exact H1|]. split; [exact H2|].
  exact (proj1 (Write_reproducible example_package _ _ H1 H2 eq_refl)).
Defined.

(** C10 on ["net/http"], first use. *)
Lemma isStdLib_first_segment_witness :
  std (toplevel quiet_pkg go_ctx) = None
  /\ ReadDir_src (GOROOT (Context (toplevel quiet_pkg go_ctx))) = Some example_goroot
  /\ plain_names example_goroot
  /\ isStdLib "net/http" (toplevel quiet_pkg go_ctx)
     = (Ok (stdlib_dir example_goroot (first_segment "net/http")),
        set_std (Some (stdlib_table example_goroot ∅)) (toplevel quiet_pkg go_ctx)).
Proof.
  assert (Hp : plain_names example_goroot) by (repeat constructor).
  split; [reflexivity|]. split; [reflexivity|]. split; [exact Hp|].
  exact (proj1 (proj2 (isStdLib_first_segment "net/http" (toplevel quiet_pkg go_ctx)))
           example_goroot eq_refl eq_refl Hp).
Defined.


(** C1 on the hook function of [OnStart], the first hook's call
    panicking. *)
Lemma composeHookCall_single_guard_witness :
  composeHookCall start_func "h1" "h2" mid_line
  = (Ok tt, snd (composeHookCall start_func "h1" "h2" mid_line))
  /\ exists sig args rs decl ret,
       chan (snd (composeHookCall start_func "h1" "h2" mid_line))
       = chan_write (print_func 0 sig (merged_body "h1" "h2" args rs decl ret))
           (chan mid_line)
       /\ call_func first_faults (merged_body "h1" "h2" args rs decl ret)
          = ([Called "h1"; Notified "boom"], Returned).
Proof.
  assert (H : composeHookCall start_func "h1" "h2" mid_line
              = (Ok tt, snd (composeHookCall start_func "h1" "h2" mid_line)))
    by (vm_compute; reflexivity).
  split; [exact H|].
  destruct (composeHookCall_single_guard start_func "h1" "h2" mid_line _ H)
    as (sig & args & rs & decl & ret & C & R).
  exists sig, args, rs, decl, ret. split; [exact C|].
  apply (R first_faults); reflexivity.
Defined.

(** C1 as the specification words it fails: in the function composed for
    a hook without parameters or result, with the callback supplied and
    both hooks set, a panic in the first hook's call is handed to the
    callback and the second hook is not called. *)
Lemma composeHookCall_first_fault_skips_second :
  fst (composeHookCall (mkFunc [] []) "h1" "h2" mid_line) = Ok tt
  /\ emitted (chan (snd (composeHookCall (mkFunc [] []) "h1" "h2" mid_line)))
     = print_func 0 ("func() {" +:+ newline)
         (merged_body "h1" "h2" [] None EmptyString None)
  /\ is_nil first_faults panicCallback = false
  /\ is_nil first_faults "h1" = false
  /\ is_nil first_faults "h2" = false
  /\ outcome first_faults "h1" = Some "boom"
  /\ call_func first_faults (merged_body "h1" "h2" [] None EmptyString None)
     = ([Called "h1"; Notified "boom"], Returned)
  /\ ~ List.In (Called "h2")
         (fst (call_func first_faults (merged_body "h1" "h2" [] None EmptyString None))).
Proof.
  repeat split; try (vm_compute; reflexivity).
  vm_compute. intros [H|[H|[]]]; discriminate H.
Qed.

(** X1 on a writer whose library root is missing. *)
Lemma isStdLib_failed_listing_witness :
  std (toplevel quiet_pkg lost_ctx) = None
  /\ ReadDir_src (GOROOT (Context (toplevel quiet_pkg lost_ctx))) = None
  /\ isStdLib "fmt" (toplevel quiet_pkg lost_ctx)
     = (Panic CantListGOROOT, set_std (Some ∅) (toplevel quiet_pkg lost_ctx))
  /\ isStdLib "fmt" (set_std (Some ∅) (toplevel quiet_pkg lost_ctx))
     = (Ok false, set_std (Some ∅) (toplevel quiet_pkg lost_ctx)).
Proof.
  assert (Hs : std (toplevel quiet_pkg lost_ctx) = None) by reflexivity.
  assert (Hr : ReadDir_src (GOROOT (Context (toplevel quiet_pkg lost_ctx))) = None)
    by reflexivity.
  split; [exact Hs|]. split; [exact Hr|].
  destruct (isStdLib_failed_listing "fmt" (toplevel quiet_pkg lost_ctx) Hs Hr)
    as [H1 H2].
  split; [exact H1|exact (H2 "fmt")].
Defined.

(** X2 on [three_deps] with the library root missing. *)
Lemma importDeps_unreadable_root_witness :
  three_deps <> []
  /\ fst (importDeps three_deps (toplevel quiet_pkg lost_ctx)) = Panic CantListGOROOT
  /\ importDeps [] (toplevel quiet_pkg lost_ctx) = (Ok tt, toplevel quiet_pkg lost_ctx).
Proof.
  assert (H : three_deps <> []) by discriminate.
  split; [exact H|].
  assert (Hr : ReadDir_src (GOROOT (Context (toplevel quiet_pkg lost_ctx))) = None)
    by reflexivity.
  destruct (importDeps_unreadable_root three_deps (toplevel quiet_pkg lost_ctx)
              eq_refl Hr) as [H1 H2].
  split; [exact (H1 H)|exact H2].
Defined.

(** X4 on the parameter [ctx] of [OnStart]: package [context] is among
    the dependencies of [driver_trace]. *)
Lemma traceImports_complete_witness :
  List.In on_start (Hooks driver_trace)
  /\ Path ctx_pkg <> Path example_pkg
  /\ List.In "context" (map pkgPath (traceImports example_pkg [] driver_trace)).
Proof.
  assert (H1 : List.In on_start (Hooks driver_trace)) by (left; reflexivity).
  assert (H2 : Path ctx_pkg <> Path example_pkg) by discriminate.
  split; [exact H1|]. split; [exact H2|].
  apply (traceImports_complete example_pkg [] driver_trace on_start
           (Named (Some ctx_pkg) "Context" (Opaque "interface{...}"))
           ctx_pkg "Context" (Opaque "interface{...}") H1).
  - apply (sig_param _ {| Name := "ctx";
                          Type_ := Named (Some ctx_pkg) "Context"
                                     (Opaque "interface{...}") |});
      left; reflexivity.
  - reflexivity.
  - exact H2.
Defined.

(** X5 on ["t"] in the package-level scope. *)
Lemma declare_always_fresh_witness :
  scopes in_package = [empty_scope]
  /\ exists v,
       declare "t" 314 in_package
       = (Ok v, set_scopes [declared v 314 empty_scope] in_package)
       /\ token_IsKeyword v = false
       /\ vars empty_scope !! v = None.
Proof.
  split; [reflexivity|].
  destruct (proj2 (declare_always_fresh "t" 314 in_package) empty_scope [] eq_refl)
    as (v & E & K & F & _).
  exists v. auto.
Defined.

(** X6 on the keyword ["func"]. *)
Lemma mustDeclare_only_checks_scope_witness :
  token_IsKeyword "func" = true
  /\ mustDeclare "func" 88 in_package
     = (Ok tt, set_scopes [declared "func" 88 empty_scope] in_package)
  /\ exists v, fst (declare "func" 88 in_package) = Ok v /\ v <> "func".
Proof.
  assert (H : token_IsKeyword "func" = true) by (vm_compute; reflexivity).
  split; [exact H|].
  exact (mustDeclare_only_checks_scope "func" 88 in_package empty_scope
           eq_refl eq_refl (or_introl H)).
Defined.

(** X7 on two parameters of the same name. *)
Lemma declareParams_distinct_witness :
  scopes in_package = [empty_scope]
  /\ exists names w',
       declareParams [info_param; info_param] in_package = (Ok names, w')
       /\ List.NoDup names
       /\ length names = 2.
Proof.
  split; [reflexivity|].
  destruct (declareParams_distinct [info_param; info_param] in_package
              empty_scope [] eq_refl) as [T P].
  destruct T as (names & w' & E).
  { repeat constructor; eexists; reflexivity. }
  exists names, w'. split; [exact E|].
  destruct (P names w' E) as (N & L & _). split; [exact N|exact L].
Defined.

(** X9 on the shortcut of hook [BC] of trace [A], with [ABC] declared. *)
Lemma hookShortcut_collision_witness :
  shortcut_name (mkTrace "A" false []) (mkHook "BC" (mkFunc [] [])) = Ok "ABC"
  /\ hookShortcut (mkTrace "A" false []) (mkHook "BC" (mkFunc [] [])) abc_declared
     = (Panic (CantDeclare "ABC" (callsite 623)), abc_declared).
Proof.
  assert (H : shortcut_name (mkTrace "A" false []) (mkHook "BC" (mkFunc [] []))
              = Ok "ABC") by (vm_compute; reflexivity).
  split; [exact H|].
  apply (hookShortcut_collision (mkTrace "A" false []) (mkHook "BC" (mkFunc [] []))
           abc_declared (declared "ABC" 623 empty_scope) [] "ABC"
           {| where_ := callsite 623 |} eq_refl H).
  vm_compute; reflexivity.
Defined.

(** X10 on a trace without a name. *)
Lemma hookShortcut_empty_name_witness :
  hookShortcut (mkTrace EmptyString false []) (mkHook "BC" (mkFunc [] [])) in_package
  = (Panic InvalidString, in_package).
Proof.
  apply (hookShortcut_empty_name (mkTrace EmptyString false [])
           (mkHook "BC" (mkFunc [] [])) in_package).
  left; reflexivity.
Defined.

(** X11 on the run of [example_package]. *)
Lemma Write_distinct_shortcuts_witness :
  idle (NewWriter EmptyString go_ctx)
  /\ Write example_package (NewWriter EmptyString go_ctx) = (Ok None, snd run_example)
  /\ exists nss,
       Forall2 (fun t ns =>
                  Forall2 (fun h n => shortcut_name t h = Ok n) (Hooks t) ns)
               (Traces example_package) nss
       /\ List.NoDup (concat nss).
Proof.
  assert (H1 : idle (NewWriter EmptyString go_ctx))
    by (split; [reflexivity|split; [reflexivity|split; [reflexivity|left; reflexivity]]]).
  assert (H2 : Write example_package (NewWriter EmptyString go_ctx)
               = (Ok None, snd run_example)) by (vm_compute; reflexivity).
  split; [exact H1|]. split; [exact H2|].
  exact (Write_distinct_shortcuts example_package _ _ H1 H2).
Defined.

(** X12 on [bare_package]. *)
Lemma Write_no_traces_witness :
  idle (NewWriter EmptyString go_ctx)
  /\ exists w',
       Write bare_package (NewWriter EmptyString go_ctx) = (Ok None, w')
       /\ Output w' = EmptyString +:+ header_text bare_package
       /\ bw w' = EmptyString
       /\ std w' = None.
Proof.
  assert (H1 : idle (NewWriter EmptyString go_ctx))
    by (split; [reflexivity|split; [reflexivity|split; [reflexivity|left; reflexivity]]]).
  split; [exact H1|].
  exact (Write_no_traces bare_package (NewWriter EmptyString go_ctx) H1 eq_refl).
Defined.

(** X13 on the run of [example_package], repeated. *)
Lemma Write_again_witness :
  idle (NewWriter EmptyString go_ctx)
  /\ Write example_package (NewWriter EmptyString go_ctx) = (Ok None, snd run_example)
  /\ exists w2,
       Write example_package (snd run_example) = (Ok None, w2)
       /\ Output w2
          = Output (snd run_example) +:+ Write_text example_package go_ctx.
Proof.
  assert (H1 : idle (NewWriter EmptyString go_ctx))
    by (split; [reflexivity|split; [reflexivity|split; [reflexivity|left; reflexivity]]]).
  assert (H2 : Write example_package (NewWriter EmptyString go_ctx)
               = (Ok None, snd run_example)) by (vm_compute; reflexivity).
  split; [exact H1|]. split; [exact H2|].
  destruct (Write_again example_package _ _ H1 H2) as (w2 & E & _ & O).
  exists w2. split; [exact E|exact O].
Defined.

(** X14 on the strings ["abc"] and U+FFFD followed by ["x"]. *)
Lemma first_rune_edges_witness :
  exported (replacement_char +:+ "x") = Panic InvalidString
  /\ exported "abc" = Ok "Abc"
  /\ firstChar "abc" = Ok "a".
Proof.
  destruct (first_rune_edges "x") as (_ & _ & _ & H & _).
  split; [exact H|].
  destruct (first_rune_edges "bc") as (_ & _ & _ & _ & _ & _ & A).
  destruct (A "a"%char ltac:(vm_compute; reflexivity)) as (E & _ & F).
  split; [exact E|exact F].
Defined.

(** X15 on [three_deps] and [same_paths]. *)
Lemma importDeps_by_paths_witness :
  std_ok example_goroot (toplevel quiet_pkg go_ctx)
  /\ importDeps three_deps (toplevel quiet_pkg go_ctx)
     = importDeps same_paths (toplevel quiet_pkg go_ctx).
Proof.
  assert (Hok : std_ok example_goroot (toplevel quiet_pkg go_ctx))
    by (split; [reflexivity|left; reflexivity]).
  split; [exact Hok|].
  apply (importDeps_by_paths example_goroot three_deps same_paths _ Hok).
  intros p. unfold three_deps, same_paths. simpl. tauto.
Defined.

(** X17 on the names [x] and [y] in the package-level scope. *)
Lemma capture_ok_iff_witness :
  scopes in_package = [empty_scope]
  /\ fst (capture ["x"; "y"] 699 in_package) = Ok tt
  /\ fst (capture ["x"; "x"] 699 in_package) <> Ok tt.
Proof.
  split; [reflexivity|]. split.
  - apply (proj1 (capture_ok_iff ["x"; "y"] 699 in_package empty_scope [] eq_refl)).
    split.
    + repeat constructor; simpl; intros H;
        [destruct H as [H|[]]; discriminate H|destruct H].
    + repeat constructor.
  - intros H.
    apply (proj1 (capture_ok_iff ["x"; "x"] 699 in_package empty_scope [] eq_refl))
      in H as [N _].
    inversion N as [|? ? X _]. apply X. left. reflexivity.
Defined.

(** X18 on the method [isZero] of [driver_trace]. *)
Lemma emitters_balanced_witness :
  isZero driver_trace in_package = (Ok tt, snd (isZero driver_trace in_package))
  /\ scopes (snd (isZero driver_trace in_package)) = scopes in_package
  /\ depth (snd (isZero driver_trace in_package)) = depth in_package
  /\ atEOL (snd (isZero driver_trace in_package)) = true.
Proof.
  assert (H : isZero driver_trace in_package
              = (Ok tt, snd (isZero driver_trace in_package)))
    by (vm_compute; reflexivity).
  split; [exact H|].
  destruct (emitters_balanced driver_trace on_start in_package _
              (or_intror (or_intror (or_introl H)))) as (S & D & _ & _ & _ & E).
  split; [exact S|]. split; [exact D|exact E].
Defined.

(** X19 on [example_package] with the library root missing. *)
Lemma Write_unreadable_root_witness :
  idle (NewWriter EmptyString lost_ctx)
  /\ deps_of example_package <> []
  /\ fst (Write example_package (NewWriter EmptyString lost_ctx))
     = Panic CantListGOROOT.
Proof.
  assert (H1 : idle (NewWriter EmptyString lost_ctx))
    by (split; [reflexivity|split; [reflexivity|split; reflexivity]]).
  assert (H2 : deps_of example_package <> []) by (vm_compute; discriminate).
  split; [exact H1|]. split; [exact H2|].
  assert (Hr : ReadDir_src (GOROOT (Context (NewWriter EmptyString lost_ctx))) = None)
    by reflexivity.
  exact (Write_unreadable_root example_package _ H1 eq_refl Hr H2).
Defined.

(** X20 on a pointer to a named struct. *)
Lemma flattenParams_kept_and_dropped_witness :
  named_struct info_pointer = false
  /\ flattenParams [info_pointer] = [info_pointer].
Proof.
  assert (H : named_struct info_pointer = false) by reflexivity.
  split; [exact H|].
  apply (proj1 (flattenParams_kept_and_dropped [info_pointer])).
  repeat constructor.
Defined.

(** X21 on [driver_trace] with only [OnClose] set. *)
Lemma isZero_method_witness :
  scopes in_package <> []
  /\ exists w',
       isZero driver_trace in_package = (Ok tt, w')
       /\ returned only_second (isZero_body "t" (Hooks driver_trace))
          = Some ("false" +:+ newline).
Proof.
  assert (H : scopes in_package <> []) by discriminate.
  split; [exact H|].
  destruct (isZero_method driver_trace in_package H eq_refl) as (w' & E & _ & R).
  exists w'. split; [exact E|exact (R only_second)].
Defined.

(** X22 on the hook function of [OnStart]: with the first hook unset the
    second is called; without the callback the panic of the first goes
    on. *)
Lemma composeHookCall_unset_and_unguarded_witness :
  composeHookCall start_func "h1" "h2" mid_line
  = (Ok tt, snd (composeHookCall start_func "h1" "h2" mid_line))
  /\ exists sig args rs decl ret,
       chan (snd (composeHookCall start_func "h1" "h2" mid_line))
       = chan_write (print_func 0 sig (merged_body "h1" "h2" args rs decl ret))
           (chan mid_line)
       /\ call_func only_second (merged_body "h1" "h2" args rs decl ret)
          = ([Called "h2"], Returned)
       /\ call_func unguarded (merged_body "h1" "h2" args rs decl ret)
          = ([Called "h1"], Panicking "boom").
Proof.
  assert (H : composeHookCall start_func "h1" "h2" mid_line
              = (Ok tt, snd (composeHookCall start_func "h1" "h2" mid_line)))
    by (vm_compute; reflexivity).
  split; [exact H|].
  destruct (composeHookCall_unset_and_unguarded start_func "h1" "h2" mid_line _ H)
    as (sig & args & rs & decl & ret & C & Q & U).
  exists sig, args, rs, decl, ret. split; [exact C|]. split.
  - exact (Q only_second eq_refl eq_refl).
  - exact (U unguarded "boom" eq_refl eq_refl eq_refl).
Defined.

(** X23 on the hook [OnStart], composed into the field of [ret]. *)
Lemma composeHook_assigns_always_witness :
  composeHook on_start "t" "x" "ret.OnStart" in_package
  = (Ok tt, snd (composeHook on_start "t" "x" "ret.OnStart" in_package))
  /\ exists sig args rs decl ret,
       chan (snd (composeHook on_start "t" "x" "ret.OnStart" in_package))
       = chan_write
           (line_text true 0 ["{"]
            +:+ line_text true 1 ["h1"; " := "; "t"; "."; "OnStart"]
            +:+ line_text true 1 ["h2"; " := "; "x"; "."; "OnStart"]
            +:+ indent 1 +:+ "ret.OnStart" +:+ " = "
            +:+ print_func 1 sig (merged_body "h1" "h2" args rs decl ret)
            +:+ line_text true 0 ["}"])
           (chan in_package).
Proof.
  assert (H : composeHook on_start "t" "x" "ret.OnStart" in_package
              = (Ok tt, snd (composeHook on_start "t" "x" "ret.OnStart" in_package)))
    by (vm_compute; reflexivity).
  split; [exact H|].
  exact (composeHook_assigns_always on_start "t" "x" "ret.OnStart" in_package _
           ltac:(discriminate) eq_refl H).
Defined.



(** X24 on the run of [example_package] over the string writer. *)
Lemma Write_over_accepting_sink_witness :
  accepts buffer_sink
  /\ fst (Write (sink := buffer_sink) example_package (NewWriter EmptyString go_ctx))
     = fst (Write (sink := plain_sink) example_package (NewWriter EmptyString go_ctx))
  /\ Output (snd (Write (sink := buffer_sink) example_package
                    (NewWriter EmptyString go_ctx)))
     = Output (snd (Write (sink := plain_sink) example_package
                      (NewWriter EmptyString go_ctx))).
Proof.
  assert (A : accepts buffer_sink) by (intros o p; reflexivity).
  split; [exact A|].
  split; [exact (proj1 (Write_over_accepting_sink buffer_sink example_package
                          EmptyString go_ctx A))|].
  assert (H : fst (Write (sink := buffer_sink) example_package
                     (NewWriter EmptyString go_ctx)) = Ok None)
    by (vm_compute; reflexivity).
  exact (proj1 (proj2 (proj2 (proj2 (Write_over_accepting_sink buffer_sink example_package
                                       EmptyString go_ctx A)) None H))).
Defined.
